(** * Faber microcompiler (nanus-py): a shallow embedding and its properties

    The development follows the pipeline of [src/fons/nanus-py]:
    [errors.py] and [nodes.py] (data), [lexer.py], [parser.py],
    [emitter_faber.py], [scope.py], [semantic.py] and [emitter_py.py].

    Conventions of the embedding.
    - A Python [str] is a [string]: the UTF-8 bytes of the text.  ASCII text is
      one byte per character; the section sign and other non-ASCII characters
      are their UTF-8 byte sequences, so [columna] and [index] of a [Locus]
      count bytes.
    - Python exceptions are results: [Raise_CompileError] for the positioned
      [CompileError] of [errors.py], [Raise_Host] for exceptions of the host
      language itself ([IndexError], [AttributeError], ...).
    - Loops and recursive descent run on fuel; [OutOfFuel] is a result of its
      own and never stands for an answer of the program.
    - The analyzer and the emitters recurse on the tree; the recursion limit
      and the memory of the host are not part of the model. *)

From Stdlib Require Import String Ascii List Bool Arith Lia.
#[global] Set Warnings "-register-all,-notation-for-abbreviation".
Import ListNotations.
Open Scope list_scope.
Open Scope string_scope.

(** ** Host strings *)

Module PyStr.

(** The characters that cannot be written inside a literal here. *)
Definition ch_nl : ascii := "010"%char.
Definition ch_tab : ascii := "009"%char.
Definition ch_cr : ascii := "013"%char.
Definition ch_dq : ascii := "034"%char.
Definition ch_sq : ascii := "039"%char.
Definition ch_bs : ascii := "092"%char.

Definition nl : string := String ch_nl "".
Definition tab : string := String ch_tab "".
Definition dq : string := String ch_dq "".
Definition bs : string := String ch_bs "".

(** [sep.join(xs)] *)
Fixpoint join (sep : string) (xs : list string) : string :=
  match xs with
  | [] => ""
  | [x] => x
  | x :: rest => x ++ sep ++ join sep rest
  end.

(** [x in xs] for a list, tuple or set of strings *)
Definition in_list (x : string) (xs : list string) : bool :=
  existsb (String.eqb x) xs.

(** [s.startswith(p)] *)
Fixpoint startswith (s p : string) : bool :=
  match p with
  | "" => true
  | String c p' =>
      match s with
      | "" => false
      | String d s' => Ascii.eqb c d && startswith s' p'
      end
  end.

(** [s[n:]] *)
Fixpoint drop (n : nat) (s : string) : string :=
  match n with
  | O => s
  | S n' => match s with "" => "" | String _ s' => drop n' s' end
  end.

(** [s.endswith(p)] *)
Definition endswith (s p : string) : bool :=
  Nat.leb (String.length p) (String.length s)
  && String.eqb (drop (String.length s - String.length p) s) p.

(** [s[:-1]] *)
Fixpoint drop_last (s : string) : string :=
  match s with
  | "" => ""
  | String _ "" => ""
  | String c s' => String c (drop_last s')
  end.

(** [c in s] for a one-character [c] *)
Fixpoint contains_char (c : ascii) (s : string) : bool :=
  match s with
  | "" => false
  | String d s' => Ascii.eqb c d || contains_char c s'
  end.

(** [s.replace(old, new)] for a non-empty [old]: leftmost, non-overlapping
    occurrences.  The recursion is on [s]; after a match the next
    [length old - 1] characters are skipped. *)
Fixpoint replace_from (skip : nat) (old new s : string) : string :=
  match s with
  | "" => ""
  | String c s' =>
      match skip with
      | S k => replace_from k old new s'
      | O =>
          if startswith s old
          then new ++ replace_from (String.length old - 1) old new s'
          else String c (replace_from 0 old new s')
      end
  end.

Definition replace (s old new : string) : string := replace_from 0 old new s.

(** [sub in s] for strings *)
Fixpoint contains (s sub : string) : bool :=
  startswith s sub ||
  match s with
  | "" => false
  | String _ s' => contains s' sub
  end.

Definition is_ascii_upper (c : ascii) : bool :=
  let n := nat_of_ascii c in Nat.leb 65 n && Nat.leb n 90.
Definition is_ascii_lower (c : ascii) : bool :=
  let n := nat_of_ascii c in Nat.leb 97 n && Nat.leb n 122.

(** Modelled from the spec: the host predicates [str.isdigit], [str.isalpha]
    and [str.isalnum], which belong to the host library and not to the
    repository.  The spec fixes identifiers to [[A-Za-z_][A-Za-z0-9_]*],
    numbers to runs of digits, and the section sign as the only non-ASCII
    token, so the predicates are the ASCII classes. *)
Definition isdigit (c : ascii) : bool :=
  let n := nat_of_ascii c in Nat.leb 48 n && Nat.leb n 57.
Definition isalpha (c : ascii) : bool := is_ascii_upper c || is_ascii_lower c.
Definition isalnum (c : ascii) : bool := isalpha c || isdigit c.

Definition hex_digit (n : nat) : ascii :=
  ascii_of_nat (if Nat.ltb n 10 then 48 + n else 87 + n).

(** One character of [repr(s)] with [q] the chosen quote. *)
Definition repr_char (q : ascii) (c : ascii) : string :=
  let n := nat_of_ascii c in
  if Ascii.eqb c ch_bs then bs ++ bs
  else if Ascii.eqb c q then bs ++ String q ""
  else if Ascii.eqb c ch_tab then bs ++ "t"
  else if Ascii.eqb c ch_nl then bs ++ "n"
  else if Ascii.eqb c ch_cr then bs ++ "r"
  else if Nat.ltb n 32 || Nat.eqb n 127
       then bs ++ "x" ++ String (hex_digit (n / 16)) (String (hex_digit (n mod 16)) "")
  else String c "".

Fixpoint repr_body (q : ascii) (s : string) : string :=
  match s with
  | "" => ""
  | String c s' => repr_char q c ++ repr_body q s'
  end.

(** Host [repr] of a [str]: single quotes, unless the text holds a single
    quote and no double quote; backslash, the quote and control characters
    escaped.  Bytes of non-ASCII characters are kept as they are (the host
    escapes those it does not class as printable; the model does not). *)
Definition repr (s : string) : string :=
  let q := if contains_char ch_sq s && negb (contains_char ch_dq s)
           then ch_dq else ch_sq in
  String q "" ++ repr_body q s ++ String q "".

End PyStr.
Import PyStr.

(** ** errors.py *)

Record Locus := mkLocus { linea : nat; columna : nat; index : nat }.

(** [Locus()] *)
Definition Locus_default : Locus := mkLocus 1 1 0.

(** Exceptions of the host language that the code can run into. *)
Inductive HostException :=
| IndexError
| KeyError
| AttributeError (class_name attribute : string).

Inductive Res (A : Type) : Type :=
| Ok (a : A)
| Raise_CompileError (message : string) (locus : Locus) (filename : string)
| Raise_Host (e : HostException)
| OutOfFuel.
Arguments Ok {A} a.
Arguments Raise_CompileError {A} message locus filename.
Arguments Raise_Host {A} e.
Arguments OutOfFuel {A}.

Definition bind_res {A B} (r : Res A) (k : A -> Res B) : Res B :=
  match r with
  | Ok a => k a
  | Raise_CompileError m l f => Raise_CompileError m l f
  | Raise_Host e => Raise_Host e
  | OutOfFuel => OutOfFuel
  end.

(** ** Host dictionaries

    A [dict] keeps its keys in insertion order; assigning to a key that is
    present replaces the value in place. *)

Module PyDict.
Section Dict.
Context {K V : Type} (eqb : K -> K -> bool).

(** [d.get(k)] *)
Fixpoint get (d : list (K * V)) (k : K) : option V :=
  match d with
  | [] => None
  | (k', v) :: d' => if eqb k k' then Some v else get d' k
  end.

(** [k in d] *)
Definition has (d : list (K * V)) (k : K) : bool :=
  match get d k with
  | Some _ => true
  | None => false
  end.

(** [d[k]]: raises [KeyError] for a key that is absent. *)
Definition index (d : list (K * V)) (k : K) : Res V :=
  match get d k with
  | Some v => Ok v
  | None => Raise_Host KeyError
  end.

(** [d[k] = v] *)
Fixpoint set (d : list (K * V)) (k : K) (v : V) : list (K * V) :=
  match d with
  | [] => [(k, v)]
  | (k', v') :: d' =>
      if eqb k k' then (k, v) :: d' else (k', v') :: set d' k v
  end.

(** [d.values()] *)
Definition values (d : list (K * V)) : list V := map snd d.

End Dict.
End PyDict.

(** Dictionaries with [str] keys. *)
Definition dict (V : Type) : Type := list (string * V).
Definition dict_get {V} (d : dict V) (k : string) : option V :=
  PyDict.get String.eqb d k.
Definition dict_has {V} (d : dict V) (k : string) : bool :=
  PyDict.has String.eqb d k.
Definition dict_index {V} (d : dict V) (k : string) : Res V :=
  PyDict.index String.eqb d k.
Definition dict_set {V} (d : dict V) (k : string) (v : V) : dict V :=
  PyDict.set String.eqb d k v.

(** ** nodes.py: tokens *)

Module TokenTag.

Inductive t :=
| EOF | NEWLINE | IDENTIFIER | NUMERUS | TEXTUS | OPERATOR | PUNCTUATOR
| KEYWORD | COMMENT.

Definition eqb (a b : t) : bool :=
  match a, b with
  | EOF, EOF | NEWLINE, NEWLINE | IDENTIFIER, IDENTIFIER | NUMERUS, NUMERUS
  | TEXTUS, TEXTUS | OPERATOR, OPERATOR | PUNCTUATOR, PUNCTUATOR
  | KEYWORD, KEYWORD | COMMENT, COMMENT => true
  | _, _ => false
  end.

(** [tag.value] *)
Definition value (x : t) : string :=
  match x with
  | EOF => "EOF" | NEWLINE => "Newline" | IDENTIFIER => "Identifier"
  | NUMERUS => "Numerus" | TEXTUS => "Textus" | OPERATOR => "Operator"
  | PUNCTUATOR => "Punctuator" | KEYWORD => "Keyword" | COMMENT => "Comment"
  end.

End TokenTag.

Record Token := mkToken { tag : TokenTag.t; valor : string; locus : Locus }.

(** The fields of a token, for use where [tag] or [valor] names a parameter. *)
Notation tok_tag := tag (only parsing).
Notation tok_valor := valor (only parsing).
Notation tok_locus := locus (only parsing).

(** ** State and exceptions

    The lexer's local variables, the parser's cursor and the semantic context
    are threaded through a state monad whose results are [Res]. *)

Definition M (S A : Type) : Type := S -> Res (A * S).

Definition ret {S A} (a : A) : M S A := fun s => Ok (a, s).

Definition bind {S A B} (m : M S A) (k : A -> M S B) : M S B :=
  fun s =>
    match m s with
    | Ok (a, s') => k a s'
    | Raise_CompileError msg l f => Raise_CompileError msg l f
    | Raise_Host e => Raise_Host e
    | OutOfFuel => OutOfFuel
    end.

Definition get {S} : M S S := fun s => Ok (s, s).
Definition put {S} (s : S) : M S unit := fun _ => Ok (tt, s).
Definition gets {S A} (f : S -> A) : M S A := fun s => Ok (f s, s).
Definition modify {S} (f : S -> S) : M S unit := fun s => Ok (tt, f s).
Definition lift_res {S A} (r : Res A) : M S A :=
  fun s => bind_res r (fun a => Ok (a, s)).
Definition raise_host {S A} (e : HostException) : M S A := fun _ => Raise_Host e.
Definition out_of_fuel {S A} : M S A := fun _ => OutOfFuel.

Declare Scope monad_scope.
Delimit Scope monad_scope with monad.
Notation "x <- c1 ;; c2" := (bind c1 (fun x => c2))
  (at level 61, c1 at next level, right associativity) : monad_scope.
Notation "' pat <- c1 ;; c2" := (bind c1 (fun x => match x with pat => c2 end))
  (at level 61, pat pattern, c1 at next level, right associativity) : monad_scope.
Notation "c1 ;; c2" := (bind c1 (fun _ => c2))
  (at level 61, right associativity) : monad_scope.
Open Scope monad_scope.

(** ** lexer.py *)

Module Lexer.

Definition KEYWORDS : list string := [
  (* Declarations *)
  "varia"; "fixum"; "figendum"; "variandum";
  "functio"; "genus"; "pactum"; "ordo"; "discretio"; "typus";
  "ex"; "importa"; "ut";
  (* Modifiers *)
  "publica"; "privata"; "protecta"; "generis"; "implet"; "sub"; "abstractus";
  (* Control flow *)
  "si"; "sin"; "secus"; "dum"; "fac"; "elige"; "casu"; "ceterum"; "discerne";
  "custodi"; "de"; "itera"; "in"; "pro"; "omnia";
  (* Actions *)
  "redde"; "reddit"; "rumpe"; "perge"; "iace"; "mori"; "tempta"; "cape";
  "demum"; "scribe"; "vide"; "mone"; "adfirma"; "tacet";
  (* Expressions *)
  "cede"; "novum"; "clausura"; "qua"; "innatum"; "finge";
  "sic"; "scriptum";
  (* Operators (word-form) *)
  "et"; "aut"; "vel"; "inter"; "intra";
  "non"; "nihil"; "nonnihil"; "positivum"; "negativum"; "nulla"; "nonnulla";
  (* Conversion operators *)
  "numeratum"; "fractatum"; "textatum"; "bivalentum";
  (* Literals *)
  "verum"; "falsum"; "ego";
  (* Entry *)
  "incipit"; "incipiet";
  (* Test *)
  "probandum"; "proba";
  (* Type *)
  "usque"; "ante";
  (* Annotations *)
  "publicum"; "externa"
].

Definition PUNCTUATORS : string := "(){}[],.;:@#?!".

Definition OPERATORS : list string := [
  (* Multi-char first (greedy match) *)
  "==="; "!=="; "=="; "!="; "<="; ">="; "&&"; "||"; "??";
  "+="; "-="; "*="; "/=";
  "->"; "..";
  (* Single-char *)
  "+"; "-"; "*"; "/"; "%";
  "<"; ">"; "=";
  "&"; "|"; "^"; "~"
].

(** The section sign, two bytes in UTF-8. *)
Definition SECTION_SIGN : string := "§".

Definition is_digit (ch : ascii) : bool := isdigit ch.
Definition is_alpha (ch : ascii) : bool := isalpha ch.
Definition is_ident_char (ch : ascii) : bool := isalnum ch || Ascii.eqb ch "_".
Definition is_number_char (ch : ascii) : bool :=
  isdigit ch || contains_char ch "._".

(** The local variables of [lex].  [rest] is [source[pos:]]; [source] and
    [length] are fixed, so [pos < length] is [rest <> ""]. *)
Record State := mkState {
  rest : string;
  pos : nat;
  cur_linea : nat;
  line_start : nat;
  tokens : list Token
}.

Definition L := M State.

Definition locus_of (st : State) : Locus :=
  mkLocus (cur_linea st) (pos st - line_start st + 1) (pos st).

(** [locus()] *)
Definition get_locus : L Locus := gets locus_of.

(** [peek(offset)]: [None] stands for the empty string returned past the end. *)
Definition peek (offset : nat) : L (option ascii) :=
  gets (fun st => String.get offset (rest st)).

(** [pos < length] *)
Definition in_range : L bool :=
  gets (fun st => match rest st with "" => false | _ => true end).

(** [advance()]: [source[pos]] raises [IndexError] at the end of input. *)
Definition advance : L ascii :=
  fun st =>
    match rest st with
    | "" => Raise_Host IndexError
    | String ch r =>
        let pos' := S (pos st) in
        if Ascii.eqb ch ch_nl
        then Ok (ch, mkState r pos' (S (cur_linea st)) pos' (tokens st))
        else Ok (ch, mkState r pos' (cur_linea st) (line_start st) (tokens st))
    end.

(** [for _ in s: advance()] *)
Fixpoint advance_each (s : string) : L unit :=
  match s with
  | "" => ret tt
  | String _ s' => _ <- advance ;; advance_each s'
  end.

(** [match(s)] *)
Definition match_ (s : string) : L bool :=
  st <- get ;;
  if startswith (rest st) s
  then advance_each s ;; ret true
  else ret false.

(** [tokens.append(tok)] *)
Definition append_token (t : Token) : L unit :=
  modify (fun st => mkState (rest st) (pos st) (cur_linea st) (line_start st)
                            (tokens st ++ [t])).

Definition is_some_char (o : option ascii) (c : ascii) : bool :=
  match o with Some d => Ascii.eqb d c | None => false end.

Fixpoint skip_whitespace (fuel : nat) : L unit :=
  match fuel with
  | O => out_of_fuel
  | S fuel' =>
      ch <- peek 0 ;;
      match ch with
      | None => ret tt
      | Some c =>
          if contains_char c (" " ++ tab ++ String ch_cr "")
          then _ <- advance ;; skip_whitespace fuel'
          else if Ascii.eqb c ch_nl
          then loc <- get_locus ;;
               _ <- advance ;;
               append_token (mkToken TokenTag.NEWLINE nl loc) ;;
               skip_whitespace fuel'
          else ret tt
      end
  end.

(** The escape table of [read_string]: every branch appends one character. *)
Definition unescape (esc : ascii) : ascii :=
  if Ascii.eqb esc "n" then ch_nl
  else if Ascii.eqb esc "t" then ch_tab
  else if Ascii.eqb esc "r" then ch_cr
  else if Ascii.eqb esc ch_bs then ch_bs
  else if Ascii.eqb esc ch_dq then ch_dq
  else if Ascii.eqb esc ch_sq then ch_sq
  else esc.

Fixpoint read_string_loop (fuel : nat) (quote : ascii) (result : string)
  : L string :=
  match fuel with
  | O => out_of_fuel
  | S fuel' =>
      ch <- peek 0 ;;
      match ch with
      | None => ret result
      | Some c =>
          if Ascii.eqb c quote then ret result
          else if Ascii.eqb c ch_bs
          then _ <- advance ;;
               esc <- advance ;;
               read_string_loop fuel' quote (result ++ String (unescape esc) "")
          else c' <- advance ;;
               read_string_loop fuel' quote (result ++ String c' "")
      end
  end.

Definition read_string (fuel : nat) (quote : ascii) : L string :=
  _ <- advance ;;                      (* skip opening quote *)
  result <- read_string_loop fuel quote "" ;;
  _ <- advance ;;                      (* skip closing quote *)
  ret result.

Fixpoint read_triple_string_loop (fuel : nat) (result : string) : L string :=
  match fuel with
  | O => out_of_fuel
  | S fuel' =>
      p0 <- peek 0 ;;
      match p0 with
      | None => ret result
      | Some _ =>
          p1 <- peek 1 ;;
          p2 <- peek 2 ;;
          if is_some_char p0 ch_dq && is_some_char p1 ch_dq
             && is_some_char p2 ch_dq
          then
            let value := if endswith result nl then drop_last result
                         else result in
            _ <- advance ;; _ <- advance ;; _ <- advance ;;
            ret value
          else c <- advance ;;
               read_triple_string_loop fuel' (result ++ String c "")
      end
  end.

Definition read_triple_string (fuel : nat) : L string :=
  _ <- advance ;; _ <- advance ;; _ <- advance ;;
  p <- peek 0 ;;
  (if is_some_char p ch_nl then _ <- advance ;; ret tt else ret tt) ;;
  read_triple_string_loop fuel "".

(** The common loop of [read_number], [read_identifier] and [read_comment]:
    [while pos < length and cont(peek()): result.append(advance())]. *)
Fixpoint read_while (fuel : nat) (cont : ascii -> bool) (result : string)
  : L string :=
  match fuel with
  | O => out_of_fuel
  | S fuel' =>
      ch <- peek 0 ;;
      match ch with
      | None => ret result
      | Some c =>
          if cont c
          then c' <- advance ;; read_while fuel' cont (result ++ String c' "")
          else ret result
      end
  end.

Definition read_number (fuel : nat) : L string :=
  read_while fuel is_number_char "".

Definition read_identifier (fuel : nat) : L string :=
  read_while fuel is_ident_char "".

Definition read_comment (fuel : nat) : L string :=
  _ <- advance ;;                      (* skip # *)
  read_while fuel (fun c => negb (Ascii.eqb c ch_nl)) "".

(** [for op in OPERATORS: if match(op): ...; break] *)
Fixpoint match_operator (ops : list string) : L (option string) :=
  match ops with
  | [] => ret None
  | op :: ops' =>
      b <- match_ op ;;
      if b then ret (Some op) else match_operator ops'
  end.

Fixpoint lex_loop (fuel fuel0 : nat) (filename : string) : L unit :=
  match fuel with
  | O => out_of_fuel
  | S fuel' =>
      more <- in_range ;;
      if negb more then ret tt else
      skip_whitespace fuel0 ;;
      more <- in_range ;;
      if negb more then ret tt else
      loc <- get_locus ;;
      p0 <- peek 0 ;;
      p1 <- peek 1 ;;
      p2 <- peek 2 ;;
      match p0 with
      | None => ret tt
      | Some ch =>
          (* Comment *)
          if Ascii.eqb ch "#" then
            value <- read_comment fuel0 ;;
            append_token (mkToken TokenTag.COMMENT value loc) ;;
            lex_loop fuel' fuel0 filename
          (* Triple-quoted string *)
          else if Ascii.eqb ch ch_dq && is_some_char p1 ch_dq
                  && is_some_char p2 ch_dq then
            value <- read_triple_string fuel0 ;;
            append_token (mkToken TokenTag.TEXTUS value loc) ;;
            lex_loop fuel' fuel0 filename
          (* String *)
          else if Ascii.eqb ch ch_dq || Ascii.eqb ch ch_sq then
            value <- read_string fuel0 ch ;;
            append_token (mkToken TokenTag.TEXTUS value loc) ;;
            lex_loop fuel' fuel0 filename
          (* Number *)
          else if is_digit ch then
            value <- read_number fuel0 ;;
            append_token (mkToken TokenTag.NUMERUS value loc) ;;
            lex_loop fuel' fuel0 filename
          (* Identifier or keyword *)
          else if is_alpha ch || Ascii.eqb ch "_" then
            value <- read_identifier fuel0 ;;
            append_token
              (mkToken (if in_list value KEYWORDS then TokenTag.KEYWORD
                        else TokenTag.IDENTIFIER)
                       value loc) ;;
            lex_loop fuel' fuel0 filename
          else
            (* Operators (multi-char first) *)
            matched <- match_operator OPERATORS ;;
            match matched with
            | Some op =>
                append_token (mkToken TokenTag.OPERATOR op loc) ;;
                lex_loop fuel' fuel0 filename
            | None =>
                (* Section sign *)
                sect <- match_ SECTION_SIGN ;;
                if sect then
                  append_token (mkToken TokenTag.PUNCTUATOR SECTION_SIGN loc) ;;
                  lex_loop fuel' fuel0 filename
                (* Punctuators *)
                else if contains_char ch PUNCTUATORS then
                  _ <- advance ;;
                  append_token (mkToken TokenTag.PUNCTUATOR (String ch "") loc) ;;
                  lex_loop fuel' fuel0 filename
                else
                  fun _ => Raise_CompileError
                             ("unexpected character '" ++ String ch "" ++ "'")
                             loc filename
            end
      end
  end.

Definition lex (source filename : string) : Res (list Token) :=
  let fuel0 := S (String.length source) in
  match (lex_loop fuel0 fuel0 filename ;;
         loc <- get_locus ;;
         append_token (mkToken TokenTag.EOF "" loc) ;;
         gets tokens) (mkState source 0 1 0 [])
  with
  | Ok (toks, _) => Ok toks
  | Raise_CompileError m l f => Raise_CompileError m l f
  | Raise_Host e => Raise_Host e
  | OutOfFuel => OutOfFuel
  end.

(** [prepare]: drop comments and newlines. *)
Definition prepare (tokens : list Token) : list Token :=
  filter (fun tok => negb (TokenTag.eqb (tag tok) TokenTag.COMMENT
                           || TokenTag.eqb (tag tok) TokenTag.NEWLINE)) tokens.

End Lexer.

Definition STDIN : string := "<stdin>".

(** ** nodes.py: the syntax tree

    A field that [nodes.py] declares with the default [None] is an [option];
    a field without a default holds a node. *)

Module LitteraSpecies.
Inductive t := NUMERUS | FRACTUS | TEXTUS | VERUM | FALSUM | NIHIL.
End LitteraSpecies.

Module VariaSpecies.
Inductive t := VARIA | FIXUM | FIGENDUM | VARIANDUM.
End VariaSpecies.

Scheme All for list.
Scheme All for option.

Inductive Typus :=
| TypusNomen (nomen : string)
| TypusNullabilis (inner : Typus)
| TypusGenericus (nomen : string) (args : list Typus)
| TypusFunctio (params : list Typus) (returns : option Typus)
| TypusUnio (members : list Typus)
| TypusLitteralis (valor : string).

(** Supporting nodes; [E] and [S] stand for expressions and statements. *)
Inductive ObiectumProp (E : Type) :=
| mkObiectumProp (key : E) (valor : option E) (shorthand computed : bool)
                 (locus : Locus).
Arguments mkObiectumProp {E}.
Scheme All for ObiectumProp.

Inductive Param (E : Type) :=
| mkParam (nomen : string) (typus : option Typus) (default : option E)
          (rest optional : bool) (ownership : string) (locus : Locus).
Arguments mkParam {E}.
Scheme All for Param.

Inductive CampusDecl (E : Type) :=
| mkCampusDecl (nomen : string) (typus : option Typus) (valor : option E)
               (visibilitas : string) (locus : Locus).
Arguments mkCampusDecl {E}.
Scheme All for CampusDecl.

Inductive PactumMethodus (E : Type) :=
| mkPactumMethodus (nomen : string) (params : list (Param E))
                   (typus_reditus : option Typus) (asynca : bool)
                   (locus : Locus).
Arguments mkPactumMethodus {E}.
Scheme All for PactumMethodus.

Inductive OrdoMembrum :=
| mkOrdoMembrum (nomen : string) (valor : option string) (locus : Locus).

Inductive VariansCampus :=
| mkVariansCampus (nomen : string) (typus : option Typus).

Inductive VariansDecl :=
| mkVariansDecl (nomen : string) (campi : list VariansCampus) (locus : Locus).

Inductive ImportSpec :=
| mkImportSpec (imported local : string) (locus : Locus).

Inductive EligeCasus (E S : Type) :=
| mkEligeCasus (cond : E) (corpus : S) (locus : Locus).
Arguments mkEligeCasus {E S}.
Scheme All for EligeCasus.

Inductive VariansPattern :=
| mkVariansPattern (variant : string) (bindings : list string)
                   (alias : option string) (wildcard : bool) (locus : Locus).

Inductive DiscerneCasus (S : Type) :=
| mkDiscerneCasus (patterns : list VariansPattern) (corpus : option S)
                  (locus : Locus).
Arguments mkDiscerneCasus {S}.
Scheme All for DiscerneCasus.

Inductive CustodiClausula (E S : Type) :=
| mkCustodiClausula (cond : E) (corpus : S) (locus : Locus).
Arguments mkCustodiClausula {E S}.
Scheme All for CustodiClausula.

Inductive CapeClausula (S : Type) :=
| mkCapeClausula (param : string) (corpus : S) (locus : Locus).
Arguments mkCapeClausula {S}.
Scheme All for CapeClausula.

(** The body of a closure: a statement, an expression, or [None]. *)
Inductive ClausuraCorpus (E S : Type) :=
| CorpusNone
| CorpusStmt (s : S)
| CorpusExpr (e : E).
Arguments CorpusNone {E S}.
Arguments CorpusStmt {E S}.
Arguments CorpusExpr {E S}.
Scheme All for ClausuraCorpus.

Inductive Expr :=
| ExprNomen (valor : string) (locus : Locus)
| ExprEgo (locus : Locus)
| ExprLittera (species : LitteraSpecies.t) (valor : string) (locus : Locus)
| ExprBinaria (signum : string) (sin dex : Expr) (locus : Locus)
| ExprUnaria (signum : string) (arg : Expr) (locus : Locus)
| ExprAssignatio (signum : string) (sin dex : Expr) (locus : Locus)
| ExprCondicio (cond cons alt : Expr) (locus : Locus)
| ExprVocatio (callee : Expr) (args : list Expr) (locus : Locus)
| ExprMembrum (obj prop : Expr) (computed non_null : bool) (locus : Locus)
| ExprSeries (elementa : list Expr) (locus : Locus)
| ExprObiectum (props : list (ObiectumProp Expr)) (locus : Locus)
| ExprClausura (params : list (Param Expr))
               (corpus : ClausuraCorpus Expr Stmt) (locus : Locus)
| ExprNovum (callee : Expr) (args : list Expr) (init : option Expr)
            (locus : Locus)
| ExprCede (arg : Expr) (locus : Locus)
| ExprQua (expr : Expr) (typus : option Typus) (locus : Locus)
| ExprInnatum (expr : Expr) (typus : option Typus) (locus : Locus)
| ExprPostfixNovum (expr : Expr) (typus : option Typus) (locus : Locus)
| ExprFinge (variant : string) (campi : list (ObiectumProp Expr))
            (typus : option Typus) (locus : Locus)
| ExprScriptum (template : string) (args : list Expr) (locus : Locus)
| ExprAmbitus (start finis : Expr) (inclusive : bool) (locus : Locus)
| ExprConversio (expr : Expr) (species : string) (fallback : option Expr)
                (locus : Locus)
with Stmt :=
| StmtMassa (corpus : list Stmt) (locus : Locus)
| StmtExpressia (expr : Expr) (locus : Locus)
| StmtVaria (nomen : string) (species : VariaSpecies.t) (typus : option Typus)
            (valor : option Expr) (publica externa : bool) (locus : Locus)
| StmtFunctio (nomen : string) (params : list (Param Expr))
              (typus_reditus : option Typus) (corpus : option Stmt)
              (asynca publica : bool) (generics : list string)
              (externa : bool) (locus : Locus)
| StmtGenus (nomen : string) (campi : list (CampusDecl Expr))
            (methodi : list Stmt) (implet generics : list string)
            (publica abstractus : bool) (locus : Locus)
| StmtPactum (nomen : string) (methodi : list (PactumMethodus Expr))
             (generics : list string) (publica : bool) (locus : Locus)
| StmtOrdo (nomen : string) (membra : list OrdoMembrum) (publica : bool)
           (locus : Locus)
| StmtDiscretio (nomen : string) (variantes : list VariansDecl)
                (generics : list string) (publica : bool) (locus : Locus)
| StmtImporta (fons : string) (specs : list ImportSpec) (totum : bool)
              (alias : option string) (locus : Locus)
| StmtTypusAlias (nomen : string) (typus : option Typus) (publica : bool)
                 (locus : Locus)
| StmtSi (cond : Expr) (cons : Stmt) (alt : option Stmt) (locus : Locus)
| StmtDum (cond : Expr) (corpus : Stmt) (locus : Locus)
| StmtFacDum (corpus : Stmt) (cond : Expr) (locus : Locus)
| StmtIteratio (binding : string) (iter : Expr) (corpus : Stmt)
               (species : string) (asynca : bool) (locus : Locus)
| StmtElige (discrim : Expr) (casus : list (EligeCasus Expr Stmt))
            (default : option Stmt) (locus : Locus)
| StmtDiscerne (discrim : list Expr) (casus : list (DiscerneCasus Stmt))
               (locus : Locus)
| StmtCustodi (clausulae : list (CustodiClausula Expr Stmt)) (locus : Locus)
| StmtTempta (corpus : Stmt) (cape : option (CapeClausula Stmt))
             (demum : option Stmt) (locus : Locus)
| StmtRedde (valor : option Expr) (locus : Locus)
| StmtIace (arg : option Expr) (fatale : bool) (locus : Locus)
| StmtScribe (args : list Expr) (gradus : string) (locus : Locus)
| StmtAdfirma (cond : Expr) (msg : option Expr) (locus : Locus)
| StmtRumpe (locus : Locus)
| StmtPerge (locus : Locus)
| StmtIncipit (corpus : Stmt) (asynca : bool) (locus : Locus)
| StmtProbandum (nomen : string) (corpus : list Stmt) (locus : Locus)
| StmtProba (nomen : string) (corpus : Stmt) (locus : Locus)
| StmtIn (expr : Expr) (corpus : Stmt) (locus : Locus).

Inductive Modulus :=
| mkModulus (corpus : list Stmt) (locus : Locus).

(** [_expr_locus] of [parser.py]: every expression node has a [locus]. *)
Definition expr_locus (e : Expr) : Locus :=
  match e with
  | ExprNomen _ l | ExprEgo l | ExprLittera _ _ l | ExprBinaria _ _ _ l
  | ExprUnaria _ _ l | ExprAssignatio _ _ _ l | ExprCondicio _ _ _ l
  | ExprVocatio _ _ l | ExprMembrum _ _ _ _ l | ExprSeries _ l
  | ExprObiectum _ l | ExprClausura _ _ l | ExprNovum _ _ _ l | ExprCede _ l
  | ExprQua _ _ l | ExprInnatum _ _ l | ExprPostfixNovum _ _ l
  | ExprFinge _ _ _ l | ExprScriptum _ _ l | ExprAmbitus _ _ _ l
  | ExprConversio _ _ _ l => l
  end.


(** ** parser.py *)

Module Parser.

Definition PRECEDENCE : dict nat := [
  ("=", 1); ("+=", 1); ("-=", 1); ("*=", 1); ("/=", 1);
  ("vel", 2); ("??", 2);
  ("aut", 3); ("||", 3);
  ("et", 4); ("&&", 4);
  ("==", 5); ("!=", 5); ("===", 5); ("!==", 5);
  ("<", 6); (">", 6); ("<=", 6); (">=", 6); ("inter", 6); ("intra", 6);
  ("+", 7); ("-", 7);
  ("*", 8); ("/", 8); ("%", 8);
  ("qua", 9); ("innatum", 9); ("novum", 9);
  ("numeratum", 9); ("fractatum", 9); ("textatum", 9); ("bivalentum", 9)
].

Definition UNARY_OPS : list string :=
  ["-"; "!"; "~"; "non"; "nihil"; "nonnihil"; "positivum"; "negativum";
   "nulla"; "nonnulla"].

Definition ASSIGN_OPS : list string := ["="; "+="; "-="; "*="; "/="].

Section WithTokens.

(** [self.tokens] and [self.filename]; the state is [self.pos]. *)
Variable tokens : list Token.
Variable filename : string.

Definition P := M nat.

(** Every [while] loop of the parser consumes a token in each round. *)
Definition loop_fuel : nat := S (length tokens).

Definition peek (offset : nat) : P Token :=
  fun pos =>
    match nth_error tokens (pos + offset) with
    | Some tok => Ok (tok, pos)
    | None =>
        match tokens with
        | [] => Raise_Host IndexError          (* tokens[-1] of no tokens *)
        | t :: ts => Ok (last ts t, pos)
        end
    end.

Definition advance : P Token :=
  fun pos =>
    match nth_error tokens pos with
    | Some tok => Ok (tok, S pos)
    | None => Raise_Host IndexError
    end.

Definition valor_matches (valor : option string) (tok : Token) : bool :=
  match valor with
  | None => true
  | Some v => String.eqb (tok_valor tok) v
  end.

Definition check (tag : TokenTag.t) (valor : option string) : P bool :=
  tok <- peek 0 ;;
  if negb (TokenTag.eqb (tok_tag tok) tag) then ret false
  else if negb (valor_matches valor tok) then ret false
  else ret true.

Definition match_ (tag : TokenTag.t) (valor : option string)
  : P (option Token) :=
  b <- check tag valor ;;
  if b then tok <- advance ;; ret (Some tok) else ret None.

(** The truth value of [self.match(tag, valor)]. *)
Definition matches (tag : TokenTag.t) (valor : string) : P bool :=
  m <- match_ tag (Some valor) ;;
  ret (match m with Some _ => true | None => false end).

(** [raise self.error(msg)] *)
Definition error {A} (msg : string) : P A :=
  tok <- peek 0 ;;
  fun _ => Raise_CompileError msg (locus tok) filename.

Definition expect (tag : TokenTag.t) (valor : option string) : P Token :=
  m <- match_ tag valor ;;
  match m with
  | Some tok => ret tok
  | None =>
      got <- peek 0 ;;
      let msg := match valor with
                 | Some v => if String.eqb v "" then TokenTag.value tag else v
                 | None => TokenTag.value tag
                 end in
      error ("expected " ++ msg ++ ", got '" ++ tok_valor got ++ "'")
  end.

Definition is_name (tok : Token) : bool :=
  TokenTag.eqb (tag tok) TokenTag.IDENTIFIER
  || TokenTag.eqb (tag tok) TokenTag.KEYWORD.

(** Accept identifier OR keyword as a name. *)
Definition expect_name : P Token :=
  tok <- peek 0 ;;
  if is_name tok then advance
  else error ("expected identifier, got '" ++ tok_valor tok ++ "'").

Definition check_name : P bool :=
  tok <- peek 0 ;; ret (is_name tok).

Definition peek_locus : P Locus := tok <- peek 0 ;; ret (locus tok).

(** [expect(tag).valor] and [expect(tag, valor)] as statements *)
Definition expect_valor (tag : TokenTag.t) : P string :=
  tok <- expect tag None ;; ret (tok_valor tok).
Definition expect_lit (tag : TokenTag.t) (valor : string) : P unit :=
  _ <- expect tag (Some valor) ;; ret tt.
Definition expect_name_valor : P string :=
  tok <- expect_name ;; ret (tok_valor tok).

(** [while True: acc.append(item()); if not self.match(tag, sep): break] *)
Fixpoint sep_list {A} (n : nat) (tag : TokenTag.t) (sep : string)
  (item : P A) (acc : list A) : P (list A) :=
  match n with
  | O => out_of_fuel
  | S n' =>
      x <- item ;;
      more <- matches tag sep ;;
      if more then sep_list n' tag sep item (acc ++ [x])%list
      else ret (acc ++ [x])%list
  end.

Definition comma_list {A} (item : P A) : P (list A) :=
  sep_list loop_fuel TokenTag.PUNCTUATOR "," item [].

(** [not self.check(PUNCTUATOR, "}") and not self.check(EOF)] *)
Definition in_braces : P bool :=
  c1 <- check TokenTag.PUNCTUATOR (Some "}") ;;
  if c1 then ret false else
  c2 <- check TokenTag.EOF None ;;
  ret (negb c2).

(** [while <in braces>: acc.append(item())] *)
Fixpoint until_close {A} (n : nat) (item : P A) (acc : list A)
  : P (list A) :=
  match n with
  | O => out_of_fuel
  | S n' =>
      go <- in_braces ;;
      if go then x <- item ;; until_close n' item (acc ++ [x])%list
      else ret acc
  end.

(** The methods that the grammar reaches recursively are called through
    [self]; [knot] below ties them, one unit of fuel per call. *)
Record Self := mkSelf {
  self_parse_stmt : P Stmt;
  self_parse_expr : nat -> P Expr;
  self_parse_unary : P Expr;
  self_parse_primary : P Expr;
  self_parse_typus : P Typus;
  self_parse_si_body : Locus -> P Stmt
}.

Section Methods.
Variable self : Self.

(** [<] type arguments [>], after the opening [<] was consumed *)
Definition parse_type_args : P (list Typus) :=
  args <- comma_list (self_parse_typus self) ;;
  expect_lit TokenTag.OPERATOR ">" ;;
  ret args.

Definition _parse_typus_primary : P Typus :=
  nomen <- expect_valor TokenTag.IDENTIFIER ;;
  lt <- matches TokenTag.OPERATOR "<" ;;
  if lt then
    args <- parse_type_args ;;
    ret (TypusGenericus nomen args)
  else ret (TypusNomen nomen).

Definition parse_typus : P Typus :=
  typus <- _parse_typus_primary ;;
  q <- matches TokenTag.PUNCTUATOR "?" ;;
  let typus := if q then TypusNullabilis typus else typus in
  bar <- matches TokenTag.OPERATOR "|" ;;
  if bar then
    members <- sep_list loop_fuel TokenTag.OPERATOR "|"
                        _parse_typus_primary [typus] ;;
    ret (TypusUnio members)
  else ret typus.

(** The leading-name heuristic shared by variable declarations, parameters
    and variant fields is written out at each use, as in the source. *)

Definition _parse_args : P (list Expr) :=
  close <- check TokenTag.PUNCTUATOR (Some ")") ;;
  if close then ret [] else comma_list (self_parse_expr self 0).

Definition parse_massa : P Stmt :=
  locus <- peek_locus ;;
  expect_lit TokenTag.PUNCTUATOR "{" ;;
  corpus <- until_close loop_fuel (self_parse_stmt self) [] ;;
  expect_lit TokenTag.PUNCTUATOR "}" ;;
  ret (StmtMassa corpus locus).

Definition _parse_novum : P Expr :=
  locus <- peek_locus ;;
  expect_lit TokenTag.KEYWORD "novum" ;;
  callee <- self_parse_primary self ;;
  paren <- matches TokenTag.PUNCTUATOR "(" ;;
  args <- (if paren then
             args <- _parse_args ;;
             expect_lit TokenTag.PUNCTUATOR ")" ;;
             ret args
           else ret []) ;;
  brace <- check TokenTag.PUNCTUATOR (Some "{") ;;
  init <- (if brace then e <- self_parse_primary self ;; ret (Some e)
           else ret None) ;;
  ret (ExprNovum callee args init locus).

Definition _parse_finge_campus : P (ObiectumProp Expr) :=
  loc <- peek_locus ;;
  name <- expect_name_valor ;;
  let key := ExprLittera LitteraSpecies.TEXTUS name loc in
  expect_lit TokenTag.PUNCTUATOR ":" ;;
  valor <- self_parse_expr self 0 ;;
  ret (mkObiectumProp key (Some valor) false false loc).

Definition _parse_finge : P Expr :=
  locus <- peek_locus ;;
  expect_lit TokenTag.KEYWORD "finge" ;;
  variant <- expect_valor TokenTag.IDENTIFIER ;;
  expect_lit TokenTag.PUNCTUATOR "{" ;;
  close <- check TokenTag.PUNCTUATOR (Some "}") ;;
  campi <- (if close then ret [] else comma_list _parse_finge_campus) ;;
  expect_lit TokenTag.PUNCTUATOR "}" ;;
  qua <- matches TokenTag.KEYWORD "qua" ;;
  typus <- (if qua then t <- parse_typus ;; ret (Some t) else ret None) ;;
  ret (ExprFinge variant campi typus locus).

Definition _parse_clausura_param : P (Param Expr) :=
  loc <- peek_locus ;;
  nomen <- expect_valor TokenTag.IDENTIFIER ;;
  colon <- matches TokenTag.PUNCTUATOR ":" ;;
  typus <- (if colon then t <- parse_typus ;; ret (Some t) else ret None) ;;
  ret (mkParam nomen typus None false false "" loc).

Definition _parse_clausura : P Expr :=
  locus <- peek_locus ;;
  expect_lit TokenTag.KEYWORD "clausura" ;;
  ident <- check TokenTag.IDENTIFIER None ;;
  params <- (if ident then comma_list _parse_clausura_param else ret []) ;;
  brace <- check TokenTag.PUNCTUATOR (Some "{") ;;
  corpus <- (if brace then s <- parse_massa ;; ret (CorpusStmt s)
             else expect_lit TokenTag.PUNCTUATOR ":" ;;
                  e <- self_parse_expr self 0 ;; ret (CorpusExpr e)) ;;
  ret (ExprClausura params corpus locus).

(** [while self.match(PUNCTUATOR, ","): args.append(self.parse_expr(0))] *)
Fixpoint more_exprs (n : nat) (args : list Expr)
  : P (list Expr) :=
  match n with
  | O => out_of_fuel
  | S n' =>
      comma <- matches TokenTag.PUNCTUATOR "," ;;
      if comma then
        e <- self_parse_expr self 0 ;;
        more_exprs n' (args ++ [e])%list
      else ret args
  end.

Definition _parse_scriptum : P Expr :=
  locus <- peek_locus ;;
  expect_lit TokenTag.KEYWORD "scriptum" ;;
  expect_lit TokenTag.PUNCTUATOR "(" ;;
  template <- expect_valor TokenTag.TEXTUS ;;
  args <- more_exprs loop_fuel [] ;;
  expect_lit TokenTag.PUNCTUATOR ")" ;;
  ret (ExprScriptum template args locus).

(** One property of an object literal. *)
Definition _parse_obiectum_prop : P (ObiectumProp Expr) :=
  loc <- peek_locus ;;
  bracket <- matches TokenTag.PUNCTUATOR "[" ;;
  '(key, computed) <-
    (if bracket then
       key <- self_parse_expr self 0 ;;
       expect_lit TokenTag.PUNCTUATOR "]" ;;
       ret (key, true)
     else
       str <- check TokenTag.TEXTUS None ;;
       if str then
         tok <- advance ;;
         ret (ExprLittera LitteraSpecies.TEXTUS (tok_valor tok) loc, false)
       else
         name <- expect_name_valor ;;
         ret (ExprLittera LitteraSpecies.TEXTUS name loc, false)) ;;
  colon <- matches TokenTag.PUNCTUATOR ":" ;;
  if colon then
    valor <- self_parse_expr self 0 ;;
    ret (mkObiectumProp key (Some valor) false computed loc)
  else
    let key_name := match key with
                    | ExprLittera _ v _ => v
                    | _ => ""
                    end in
    ret (mkObiectumProp key (Some (ExprNomen key_name loc)) true computed loc).

Definition _parse_primary : P Expr :=
  tok <- peek 0 ;;
  paren <- matches TokenTag.PUNCTUATOR "(" ;;
  if paren then
    expr <- self_parse_expr self 0 ;;
    expect_lit TokenTag.PUNCTUATOR ")" ;;
    ret expr
  else
  bracket <- matches TokenTag.PUNCTUATOR "[" ;;
  if bracket then
    close <- check TokenTag.PUNCTUATOR (Some "]") ;;
    elementa <- (if close then ret []
                 else comma_list (self_parse_expr self 0)) ;;
    expect_lit TokenTag.PUNCTUATOR "]" ;;
    ret (ExprSeries elementa (locus tok))
  else
  brace <- matches TokenTag.PUNCTUATOR "{" ;;
  if brace then
    close <- check TokenTag.PUNCTUATOR (Some "}") ;;
    props <- (if close then ret [] else comma_list _parse_obiectum_prop) ;;
    expect_lit TokenTag.PUNCTUATOR "}" ;;
    ret (ExprObiectum props (locus tok))
  else
  match tag tok with
  | TokenTag.KEYWORD =>
      let v := tok_valor tok in
      if String.eqb v "verum" then
        _ <- advance ;;
        ret (ExprLittera LitteraSpecies.VERUM "true" (locus tok))
      else if String.eqb v "falsum" then
        _ <- advance ;;
        ret (ExprLittera LitteraSpecies.FALSUM "false" (locus tok))
      else if String.eqb v "nihil" then
        _ <- advance ;;
        ret (ExprLittera LitteraSpecies.NIHIL "null" (locus tok))
      else if String.eqb v "ego" then
        _ <- advance ;; ret (ExprEgo (locus tok))
      else if String.eqb v "novum" then _parse_novum
      else if String.eqb v "finge" then _parse_finge
      else if String.eqb v "clausura" then _parse_clausura
      else if String.eqb v "scriptum" then _parse_scriptum
      else _ <- advance ;; ret (ExprNomen v (locus tok))
  | TokenTag.NUMERUS =>
      _ <- advance ;;
      let species := if contains_char "." (tok_valor tok)
                     then LitteraSpecies.FRACTUS
                     else LitteraSpecies.NUMERUS in
      ret (ExprLittera species (tok_valor tok) (locus tok))
  | TokenTag.TEXTUS =>
      _ <- advance ;;
      ret (ExprLittera LitteraSpecies.TEXTUS (tok_valor tok) (locus tok))
  | TokenTag.IDENTIFIER =>
      _ <- advance ;;
      ret (ExprNomen (tok_valor tok) (locus tok))
  | _ => error ("unexpected token '" ++ tok_valor tok ++ "'")
  end.

(** The member name of [.name] and [!.name]: the literal takes the locus of
    the token after the name. *)
Definition _parse_member_name : P Expr :=
  name <- expect_name_valor ;;
  loc <- peek_locus ;;
  ret (ExprLittera LitteraSpecies.TEXTUS name loc).

Fixpoint _parse_postfix_loop (n : nat) (expr : Expr) : P Expr :=
  match n with
  | O => out_of_fuel
  | S n' =>
      tok <- peek 0 ;;
      paren <- matches TokenTag.PUNCTUATOR "(" ;;
      if paren then
        args <- _parse_args ;;
        expect_lit TokenTag.PUNCTUATOR ")" ;;
        _parse_postfix_loop n' (ExprVocatio expr args (locus tok))
      else
      dot <- matches TokenTag.PUNCTUATOR "." ;;
      if dot then
        prop <- _parse_member_name ;;
        _parse_postfix_loop n' (ExprMembrum expr prop false false (locus tok))
      else
      next <- peek 1 ;;
      bang_dot <- matches TokenTag.OPERATOR "!." ;;
      if bang_dot || (String.eqb (tok_valor tok) "!"
                      && String.eqb (tok_valor next) ".") then
        (if String.eqb (tok_valor tok) "!"
         then _ <- advance ;; _ <- advance ;; ret tt
         else ret tt) ;;
        prop <- _parse_member_name ;;
        _parse_postfix_loop n' (ExprMembrum expr prop false true (locus tok))
      else
      if String.eqb (tok_valor tok) "!" && String.eqb (tok_valor next) "[" then
        _ <- advance ;; _ <- advance ;;
        prop <- self_parse_expr self 0 ;;
        expect_lit TokenTag.PUNCTUATOR "]" ;;
        _parse_postfix_loop n' (ExprMembrum expr prop true true (locus tok))
      else
      bracket <- matches TokenTag.PUNCTUATOR "[" ;;
      if bracket then
        prop <- self_parse_expr self 0 ;;
        expect_lit TokenTag.PUNCTUATOR "]" ;;
        _parse_postfix_loop n' (ExprMembrum expr prop true false (locus tok))
      else ret expr
  end.

Definition _parse_postfix : P Expr :=
  expr <- _parse_primary ;;
  _parse_postfix_loop loop_fuel expr.

Definition non_expr : list string := [
  "qua"; "innatum"; "et"; "aut"; "vel"; "sic"; "secus"; "inter"; "intra";
  "perge"; "rumpe"; "redde"; "reddit"; "iace"; "mori";
  "si"; "secussi"; "dum"; "ex"; "de"; "elige"; "discerne"; "custodi";
  "tempta";
  "functio"; "genus"; "pactum"; "ordo"; "discretio";
  "casu"; "ceterum"; "importa"; "incipit"; "incipiet"; "probandum"; "proba"
].

Definition can_be_unary (next_tok : Token) : bool :=
  TokenTag.eqb (tag next_tok) TokenTag.IDENTIFIER
  || (TokenTag.eqb (tag next_tok) TokenTag.KEYWORD
      && negb (in_list (tok_valor next_tok) non_expr))
  || TokenTag.eqb (tag next_tok) TokenTag.NUMERUS
  || TokenTag.eqb (tag next_tok) TokenTag.TEXTUS
  || in_list (tok_valor next_tok) ["("; "["; "{"]
  || in_list (tok_valor next_tok) UNARY_OPS.

Definition _parse_unary : P Expr :=
  tok <- peek 0 ;;
  next_tok <- peek 1 ;;
  if (TokenTag.eqb (tag tok) TokenTag.OPERATOR
      || TokenTag.eqb (tag tok) TokenTag.KEYWORD)
     && in_list (tok_valor tok) UNARY_OPS
     && can_be_unary next_tok
  then
    _ <- advance ;;
    arg <- self_parse_unary self ;;
    ret (ExprUnaria (tok_valor tok) arg (locus tok))
  else
  cede <- matches TokenTag.KEYWORD "cede" ;;
  if cede then
    arg <- self_parse_unary self ;;
    ret (ExprCede arg (locus tok))
  else _parse_postfix.

Fixpoint parse_expr_loop (n : nat) (min_prec : nat) (left : Expr) : P Expr :=
  match n with
  | O => out_of_fuel
  | S n' =>
      tok <- peek 0 ;;
      let op := tok_valor tok in
      match dict_get PRECEDENCE op with
      | None => ret left
      | Some prec =>
          if Nat.ltb prec min_prec then ret left else
          _ <- advance ;;
          if String.eqb op "qua" then
            typus <- parse_typus ;;
            parse_expr_loop n' min_prec (ExprQua left (Some typus) (locus tok))
          else if String.eqb op "innatum" then
            typus <- parse_typus ;;
            parse_expr_loop n' min_prec
                            (ExprInnatum left (Some typus) (locus tok))
          else if String.eqb op "novum" then
            typus <- parse_typus ;;
            parse_expr_loop n' min_prec
                            (ExprPostfixNovum left (Some typus) (locus tok))
          else if in_list op ["numeratum"; "fractatum"; "textatum";
                              "bivalentum"] then
            vel <- (if in_list op ["numeratum"; "fractatum"]
                    then matches TokenTag.KEYWORD "vel" else ret false) ;;
            fallback <- (if vel then e <- _parse_unary ;; ret (Some e)
                         else ret None) ;;
            parse_expr_loop n' min_prec
                            (ExprConversio left op fallback (locus tok))
          else
            right <- self_parse_expr self (prec + 1) ;;
            if in_list op ASSIGN_OPS then
              parse_expr_loop n' min_prec
                              (ExprAssignatio op left right (locus tok))
            else
              parse_expr_loop n' min_prec
                              (ExprBinaria op left right (locus tok))
      end
  end.

Definition parse_expr (min_prec : nat) : P Expr :=
  left <- _parse_unary ;;
  left <- parse_expr_loop loop_fuel min_prec left ;;
  sic <- matches TokenTag.KEYWORD "sic" ;;
  if sic then
    cons <- self_parse_expr self 0 ;;
    expect_lit TokenTag.KEYWORD "secus" ;;
    alt <- self_parse_expr self 0 ;;
    ret (ExprCondicio left cons alt (expr_locus left))
  else ret left.


(** *** Declarations *)

(** The shared routine after a leading name [first] was read: a generic
    type, a nullable type, a plain type, or no type at all. *)
Definition typed_name (first : string) : P (option Typus * string) :=
  lt <- matches TokenTag.OPERATOR "<" ;;
  if lt then
    args <- comma_list parse_typus ;;
    expect_lit TokenTag.OPERATOR ">" ;;
    let typus := TypusGenericus first args in
    q <- matches TokenTag.PUNCTUATOR "?" ;;
    let typus := if q then TypusNullabilis typus else typus in
    nomen <- expect_name_valor ;;
    ret (Some typus, nomen)
  else
  q <- matches TokenTag.PUNCTUATOR "?" ;;
  if q then
    nomen <- expect_name_valor ;;
    ret (Some (TypusNullabilis (TypusNomen first)), nomen)
  else
  name <- check_name ;;
  if name then
    nomen <- expect_name_valor ;;
    ret (Some (TypusNomen first), nomen)
  else ret (None, first).

(** [if self.match(OPERATOR, "="): valor = self.parse_expr(0)] *)
Definition parse_initializer : P (option Expr) :=
  eq <- matches TokenTag.OPERATOR "=" ;;
  if eq then e <- parse_expr 0 ;; ret (Some e) else ret None.

Definition parse_varia (publica externa : bool) : P Stmt :=
  locus <- peek_locus ;;
  kw_tok <- advance ;;
  let kw := tok_valor kw_tok in
  let species :=
    if String.eqb kw "figendum" then VariaSpecies.FIGENDUM
    else if String.eqb kw "fixum" then VariaSpecies.FIXUM
    else if String.eqb kw "variandum" then VariaSpecies.VARIANDUM
    else VariaSpecies.VARIA in
  first <- expect_name_valor ;;
  '(typus, nomen) <- typed_name first ;;
  valor <- parse_initializer ;;
  ret (StmtVaria nomen species typus valor publica externa locus).

(** [fixum] or [varia], then the binding and the block of a loop *)
Definition check_fixum_or_varia : P bool :=
  c1 <- check TokenTag.KEYWORD (Some "fixum") ;;
  if c1 then ret true else check TokenTag.KEYWORD (Some "varia").

Definition parse_ex_stmt (publica : bool) : P Stmt :=
  locus <- peek_locus ;;
  expect_lit TokenTag.KEYWORD "ex" ;;
  expr <- parse_expr 0 ;;
  kw <- check_fixum_or_varia ;;
  if kw then
    _ <- advance ;;
    binding <- expect_valor TokenTag.IDENTIFIER ;;
    corpus <- parse_massa ;;
    ret (StmtIteratio binding expr corpus "Ex" false locus)
  else error "destructuring not supported in nanus".

(** [<] generic names [>] *)
Definition parse_generics : P (list string) :=
  lt <- matches TokenTag.OPERATOR "<" ;;
  if lt then
    generics <- comma_list (expect_valor TokenTag.IDENTIFIER) ;;
    expect_lit TokenTag.OPERATOR ">" ;;
    ret generics
  else ret [].

Definition parse_param : P (Param Expr) :=
  locus <- peek_locus ;;
  rest <- matches TokenTag.KEYWORD "ceteri" ;;
  optional <- matches TokenTag.KEYWORD "si" ;;
  ex <- matches TokenTag.KEYWORD "ex" ;;
  ownership <-
    (if ex then ret "ex" else
     de <- matches TokenTag.KEYWORD "de" ;;
     if de then ret "de" else
     in_ <- matches TokenTag.KEYWORD "in" ;;
     if in_ then ret "in" else ret "") ;;
  name <- check_name ;;
  if negb name then error "expected parameter name" else
  first <- expect_name_valor ;;
  '(typus, nomen) <- typed_name first ;;
  let typus :=
    match typus with
    | Some t =>
        if optional then
          match t with
          | TypusNullabilis _ => Some t
          | _ => Some (TypusNullabilis t)
          end
        else Some t
    | None => None
    end in
  default <- parse_initializer ;;
  ret (mkParam nomen typus default rest optional ownership locus).

Definition parse_params : P (list (Param Expr)) :=
  close <- check TokenTag.PUNCTUATOR (Some ")") ;;
  if close then ret [] else comma_list parse_param.

(** [if self.match(OPERATOR, "->"): typus_reditus = self.parse_typus()] *)
Definition parse_typus_reditus : P (option Typus) :=
  arrow <- matches TokenTag.OPERATOR "->" ;;
  if arrow then t <- parse_typus ;; ret (Some t) else ret None.

Definition parse_functio (publica futura externa : bool) : P Stmt :=
  locus <- peek_locus ;;
  expect_lit TokenTag.KEYWORD "functio" ;;
  let asynca := futura in
  nomen <- expect_name_valor ;;
  generics <- parse_generics ;;
  expect_lit TokenTag.PUNCTUATOR "(" ;;
  params <- parse_params ;;
  expect_lit TokenTag.PUNCTUATOR ")" ;;
  typus_reditus <- parse_typus_reditus ;;
  brace <- check TokenTag.PUNCTUATOR (Some "{") ;;
  corpus <- (if brace then s <- parse_massa ;; ret (Some s) else ret None) ;;
  ret (StmtFunctio nomen params typus_reditus corpus asynca publica generics
                   externa locus).

(** [while self.match(PUNCTUATOR, "@"): ...] inside a class body *)
Fixpoint skip_member_annotations (n : nat) : P unit :=
  match n with
  | O => out_of_fuel
  | S n' =>
      at_ <- matches TokenTag.PUNCTUATOR "@" ;;
      if at_ then
        tok <- peek 0 ;;
        if negb (is_name tok) then error "expected annotation name" else
        _ <- advance ;;
        skip_member_annotations n'
      else ret tt
  end.

Definition parse_visibilitas : P string :=
  m1 <- matches TokenTag.KEYWORD "privata" ;;
  m2 <- (if m1 then ret true else matches TokenTag.KEYWORD "privatus") ;;
  if m2 then ret "Privata" else
  m3 <- matches TokenTag.KEYWORD "protecta" ;;
  m4 <- (if m3 then ret true else matches TokenTag.KEYWORD "protectus") ;;
  if m4 then ret "Protecta" else ret "Publica".

Definition parse_campus (visibilitas : string) : P (CampusDecl Expr) :=
  loc <- peek_locus ;;
  first <- expect_name_valor ;;
  lt <- matches TokenTag.OPERATOR "<" ;;
  '(field_typus, field_nomen) <-
    (if lt then
       args <- comma_list parse_typus ;;
       expect_lit TokenTag.OPERATOR ">" ;;
       let t := TypusGenericus first args in
       q <- matches TokenTag.PUNCTUATOR "?" ;;
       let t := if q then TypusNullabilis t else t in
       field_nomen <- expect_name_valor ;;
       ret (t, field_nomen)
     else
       nullable <- matches TokenTag.PUNCTUATOR "?" ;;
       name <- check_name ;;
       if name then
         let t := TypusNomen first in
         let t := if nullable then TypusNullabilis t else t in
         field_nomen <- expect_name_valor ;;
         ret (t, field_nomen)
       else error "expected field type or name") ;;
  valor <- parse_initializer ;;
  ret (mkCampusDecl field_nomen (Some field_typus) valor visibilitas loc).

Fixpoint parse_genus_body (n : nat) (campi : list (CampusDecl Expr))
  (methodi : list Stmt) : P (list (CampusDecl Expr) * list Stmt) :=
  match n with
  | O => out_of_fuel
  | S n' =>
      go <- in_braces ;;
      if negb go then ret (campi, methodi) else
      skip_member_annotations loop_fuel ;;
      visibilitas <- parse_visibilitas ;;
      fn <- check TokenTag.KEYWORD (Some "functio") ;;
      if fn then
        m <- parse_functio false false false ;;
        parse_genus_body n' campi (methodi ++ [m])%list
      else
        c <- parse_campus visibilitas ;;
        parse_genus_body n' (campi ++ [c])%list methodi
  end.

Definition parse_genus (publica abstractus : bool) : P Stmt :=
  locus <- peek_locus ;;
  expect_lit TokenTag.KEYWORD "genus" ;;
  nomen <- expect_valor TokenTag.IDENTIFIER ;;
  generics <- parse_generics ;;
  imp <- matches TokenTag.KEYWORD "implet" ;;
  implet <- (if imp then comma_list (expect_valor TokenTag.IDENTIFIER)
             else ret []) ;;
  expect_lit TokenTag.PUNCTUATOR "{" ;;
  '(campi, methodi) <- parse_genus_body loop_fuel [] [] ;;
  expect_lit TokenTag.PUNCTUATOR "}" ;;
  ret (StmtGenus nomen campi methodi implet generics publica abstractus locus).

Definition parse_pactum_methodus : P (PactumMethodus Expr) :=
  loc <- peek_locus ;;
  expect_lit TokenTag.KEYWORD "functio" ;;
  asynca <- matches TokenTag.KEYWORD "asynca" ;;
  name <- expect_valor TokenTag.IDENTIFIER ;;
  expect_lit TokenTag.PUNCTUATOR "(" ;;
  params <- parse_params ;;
  expect_lit TokenTag.PUNCTUATOR ")" ;;
  typus_reditus <- parse_typus_reditus ;;
  ret (mkPactumMethodus name params typus_reditus asynca loc).

Definition parse_pactum (publica : bool) : P Stmt :=
  locus <- peek_locus ;;
  expect_lit TokenTag.KEYWORD "pactum" ;;
  nomen <- expect_valor TokenTag.IDENTIFIER ;;
  generics <- parse_generics ;;
  expect_lit TokenTag.PUNCTUATOR "{" ;;
  methodi <- until_close loop_fuel parse_pactum_methodus [] ;;
  expect_lit TokenTag.PUNCTUATOR "}" ;;
  ret (StmtPactum nomen methodi generics publica locus).

Definition parse_ordo_membrum : P OrdoMembrum :=
  loc <- peek_locus ;;
  name <- expect_valor TokenTag.IDENTIFIER ;;
  eq <- matches TokenTag.OPERATOR "=" ;;
  valor <- (if eq then
              tok <- peek 0 ;;
              let v := if TokenTag.eqb (tag tok) TokenTag.TEXTUS
                       then dq ++ tok_valor tok ++ dq
                       else tok_valor tok in
              _ <- advance ;;
              ret (Some v)
            else ret None) ;;
  _ <- matches TokenTag.PUNCTUATOR "," ;;
  ret (mkOrdoMembrum name valor loc).

Definition parse_ordo (publica : bool) : P Stmt :=
  locus <- peek_locus ;;
  expect_lit TokenTag.KEYWORD "ordo" ;;
  nomen <- expect_valor TokenTag.IDENTIFIER ;;
  expect_lit TokenTag.PUNCTUATOR "{" ;;
  membra <- until_close loop_fuel parse_ordo_membrum [] ;;
  expect_lit TokenTag.PUNCTUATOR "}" ;;
  ret (StmtOrdo nomen membra publica locus).

(** The fields of one variant: the loop stops at [}], at the end of input,
    or after a field that no comma follows. *)
Fixpoint parse_varians_campi (n : nat) (campi : list VariansCampus)
  : P (list VariansCampus) :=
  match n with
  | O => out_of_fuel
  | S n' =>
      go <- in_braces ;;
      if negb go then ret campi else
      typ_nomen <- expect_name_valor ;;
      lt <- matches TokenTag.OPERATOR "<" ;;
      field_typus <-
        (if lt then
           args <- comma_list parse_typus ;;
           expect_lit TokenTag.OPERATOR ">" ;;
           ret (TypusGenericus typ_nomen args)
         else ret (TypusNomen typ_nomen)) ;;
      q <- matches TokenTag.PUNCTUATOR "?" ;;
      let field_typus := if q then TypusNullabilis field_typus
                         else field_typus in
      field_nomen <- expect_name_valor ;;
      let campi :=
        (campi ++ [mkVariansCampus field_nomen (Some field_typus)])%list in
      comma <- matches TokenTag.PUNCTUATOR "," ;;
      if comma then parse_varians_campi n' campi else ret campi
  end.

Definition parse_varians : P VariansDecl :=
  loc <- peek_locus ;;
  name <- expect_valor TokenTag.IDENTIFIER ;;
  brace <- matches TokenTag.PUNCTUATOR "{" ;;
  campi <- (if brace then
              campi <- parse_varians_campi loop_fuel [] ;;
              expect_lit TokenTag.PUNCTUATOR "}" ;;
              ret campi
            else ret []) ;;
  ret (mkVariansDecl name campi loc).

Definition parse_discretio (publica : bool) : P Stmt :=
  locus <- peek_locus ;;
  expect_lit TokenTag.KEYWORD "discretio" ;;
  nomen <- expect_valor TokenTag.IDENTIFIER ;;
  generics <- parse_generics ;;
  expect_lit TokenTag.PUNCTUATOR "{" ;;
  variantes <- until_close loop_fuel parse_varians [] ;;
  expect_lit TokenTag.PUNCTUATOR "}" ;;
  ret (StmtDiscretio nomen variantes generics publica locus).

Definition parse_typus_alias (publica : bool) : P Stmt :=
  locus <- peek_locus ;;
  expect_lit TokenTag.KEYWORD "typus" ;;
  nomen <- expect_valor TokenTag.IDENTIFIER ;;
  expect_lit TokenTag.OPERATOR "=" ;;
  typus <- parse_typus ;;
  ret (StmtTypusAlias nomen (Some typus) publica locus).

Definition parse_in_stmt : P Stmt :=
  locus <- peek_locus ;;
  expect_lit TokenTag.KEYWORD "in" ;;
  expr <- parse_expr 0 ;;
  corpus <- parse_massa ;;
  ret (StmtIn expr corpus locus).

Definition parse_de_stmt : P Stmt :=
  locus <- peek_locus ;;
  expect_lit TokenTag.KEYWORD "de" ;;
  expr <- parse_expr 0 ;;
  kw <- check_fixum_or_varia ;;
  if negb kw then error "expected 'fixum' or 'varia' after 'de' expression"
  else
  _ <- advance ;;
  binding <- expect_valor TokenTag.IDENTIFIER ;;
  corpus <- parse_massa ;;
  ret (StmtIteratio binding expr corpus "De" false locus).


(** *** Control flow *)

Definition parse_body : P Stmt :=
  locus <- peek_locus ;;
  brace <- check TokenTag.PUNCTUATOR (Some "{") ;;
  if brace then parse_massa else
  ergo <- matches TokenTag.KEYWORD "ergo" ;;
  if ergo then
    stmt <- self_parse_stmt self ;;
    ret (StmtMassa [stmt] locus)
  else
  reddit <- matches TokenTag.KEYWORD "reddit" ;;
  if reddit then
    valor <- parse_expr 0 ;;
    ret (StmtMassa [StmtRedde (Some valor) locus] locus)
  else
  iacit <- matches TokenTag.KEYWORD "iacit" ;;
  if iacit then
    arg <- parse_expr 0 ;;
    ret (StmtMassa [StmtIace (Some arg) false locus] locus)
  else
  moritor <- matches TokenTag.KEYWORD "moritor" ;;
  if moritor then
    arg <- parse_expr 0 ;;
    ret (StmtMassa [StmtIace (Some arg) true locus] locus)
  else
  tacet <- matches TokenTag.KEYWORD "tacet" ;;
  if tacet then ret (StmtMassa [] locus)
  else parse_massa.

Definition parse_si : P Stmt :=
  locus <- peek_locus ;;
  expect_lit TokenTag.KEYWORD "si" ;;
  self_parse_si_body self locus.

Definition _parse_si_body (locus : Locus) : P Stmt :=
  cond <- parse_expr 0 ;;
  cons <- parse_body ;;
  sin <- matches TokenTag.KEYWORD "sin" ;;
  alt <-
    (if sin then
       sin_locus <- peek_locus ;;
       s <- self_parse_si_body self sin_locus ;;
       ret (Some s)
     else
       secus <- matches TokenTag.KEYWORD "secus" ;;
       if secus then
         si <- check TokenTag.KEYWORD (Some "si") ;;
         if si then s <- parse_si ;; ret (Some s)
         else s <- parse_body ;; ret (Some s)
       else ret None) ;;
  ret (StmtSi cond cons alt locus).

Definition parse_dum : P Stmt :=
  locus <- peek_locus ;;
  expect_lit TokenTag.KEYWORD "dum" ;;
  cond <- parse_expr 0 ;;
  corpus <- parse_body ;;
  ret (StmtDum cond corpus locus).

Definition parse_fac : P Stmt :=
  locus <- peek_locus ;;
  expect_lit TokenTag.KEYWORD "fac" ;;
  corpus <- parse_massa ;;
  expect_lit TokenTag.KEYWORD "dum" ;;
  cond <- parse_expr 0 ;;
  ret (StmtFacDum corpus cond locus).

(** [{ block }] or [reddit expr] after [casu cond] or [ceterum];
    [msg] is the error of the remaining case. *)
Definition parse_elige_corpus (msg : string) : P Stmt :=
  brace <- check TokenTag.PUNCTUATOR (Some "{") ;;
  if brace then parse_massa else
  reddit <- matches TokenTag.KEYWORD "reddit" ;;
  if reddit then
    red_loc <- peek_locus ;;
    valor <- parse_expr 0 ;;
    ret (StmtMassa [StmtRedde (Some valor) red_loc] red_loc)
  else error msg.

Fixpoint parse_elige_body (n : nat) (casus : list (EligeCasus Expr Stmt))
  (default : option Stmt) : P (list (EligeCasus Expr Stmt) * option Stmt) :=
  match n with
  | O => out_of_fuel
  | S n' =>
      go <- in_braces ;;
      if negb go then ret (casus, default) else
      ceterum <- matches TokenTag.KEYWORD "ceterum" ;;
      if ceterum then
        d <- parse_elige_corpus "expected { or reddit after ceterum" ;;
        parse_elige_body n' casus (Some d)
      else
        expect_lit TokenTag.KEYWORD "casu" ;;
        loc <- peek_locus ;;
        cond <- parse_expr 0 ;;
        corpus <- parse_elige_corpus
                    "expected { or reddit after casu condition" ;;
        parse_elige_body n' (casus ++ [mkEligeCasus cond corpus loc])%list
                         default
  end.

Definition parse_elige : P Stmt :=
  locus <- peek_locus ;;
  expect_lit TokenTag.KEYWORD "elige" ;;
  discrim <- parse_expr 0 ;;
  expect_lit TokenTag.PUNCTUATOR "{" ;;
  '(casus, default) <- parse_elige_body loop_fuel [] None ;;
  expect_lit TokenTag.PUNCTUATOR "}" ;;
  ret (StmtElige discrim casus default locus).

Definition parse_pattern : P VariansPattern :=
  p_loc <- peek_locus ;;
  variant <- expect_valor TokenTag.IDENTIFIER ;;
  let wildcard := String.eqb variant "_" in
  ut <- matches TokenTag.KEYWORD "ut" ;;
  if ut then
    alias <- expect_name_valor ;;
    ret (mkVariansPattern variant [] (Some alias) wildcard p_loc)
  else
    pro <- matches TokenTag.KEYWORD "pro" ;;
    bind_kw <- (if pro then ret true else matches TokenTag.KEYWORD "fixum") ;;
    if bind_kw then
      bindings <- comma_list expect_name_valor ;;
      ret (mkVariansPattern variant bindings None wildcard p_loc)
    else ret (mkVariansPattern variant [] None wildcard p_loc).

Definition parse_discerne_casus : P (DiscerneCasus Stmt) :=
  loc <- peek_locus ;;
  ceterum <- matches TokenTag.KEYWORD "ceterum" ;;
  if ceterum then
    let patterns := [mkVariansPattern "_" [] None true loc] in
    corpus <- parse_massa ;;
    ret (mkDiscerneCasus patterns (Some corpus) loc)
  else
    expect_lit TokenTag.KEYWORD "casu" ;;
    patterns <- comma_list parse_pattern ;;
    corpus <- parse_massa ;;
    ret (mkDiscerneCasus patterns (Some corpus) loc).

Definition parse_discerne : P Stmt :=
  locus <- peek_locus ;;
  expect_lit TokenTag.KEYWORD "discerne" ;;
  first <- parse_expr 0 ;;
  discrim <- more_exprs loop_fuel [first] ;;
  expect_lit TokenTag.PUNCTUATOR "{" ;;
  casus <- until_close loop_fuel parse_discerne_casus [] ;;
  expect_lit TokenTag.PUNCTUATOR "}" ;;
  ret (StmtDiscerne discrim casus locus).

Definition parse_custodi_clausula : P (CustodiClausula Expr Stmt) :=
  loc <- peek_locus ;;
  expect_lit TokenTag.KEYWORD "si" ;;
  cond <- parse_expr 0 ;;
  corpus <- parse_massa ;;
  ret (mkCustodiClausula cond corpus loc).

Definition parse_custodi : P Stmt :=
  locus <- peek_locus ;;
  expect_lit TokenTag.KEYWORD "custodi" ;;
  expect_lit TokenTag.PUNCTUATOR "{" ;;
  clausulae <- until_close loop_fuel parse_custodi_clausula [] ;;
  expect_lit TokenTag.PUNCTUATOR "}" ;;
  ret (StmtCustodi clausulae locus).

Definition parse_tempta : P Stmt :=
  locus <- peek_locus ;;
  expect_lit TokenTag.KEYWORD "tempta" ;;
  corpus <- parse_massa ;;
  cape_kw <- matches TokenTag.KEYWORD "cape" ;;
  cape <- (if cape_kw then
             loc <- peek_locus ;;
             param <- expect_valor TokenTag.IDENTIFIER ;;
             body <- parse_massa ;;
             ret (Some (mkCapeClausula param body loc))
           else ret None) ;;
  demum_kw <- matches TokenTag.KEYWORD "demum" ;;
  demum <- (if demum_kw then s <- parse_massa ;; ret (Some s)
            else ret None) ;;
  ret (StmtTempta corpus cape demum locus).

Definition stmt_keywords : list string := [
  "si"; "sin"; "secus"; "dum"; "fac"; "ex"; "de"; "in"; "elige"; "discerne";
  "custodi";
  "tempta"; "cape"; "demum"; "redde"; "rumpe"; "perge"; "iace"; "mori";
  "scribe"; "vide"; "mone"; "adfirma"; "functio"; "genus"; "pactum"; "ordo";
  "discretio"; "varia"; "fixum"; "figendum"; "variandum"; "incipit";
  "probandum"; "proba";
  "casu"; "ceterum"; "reddit"; "ergo"; "tacet"; "iacit"; "moritor"; "typus";
  "abstractus"
].

Definition _is_statement_keyword : P bool :=
  kw <- check TokenTag.KEYWORD None ;;
  if negb kw then ret false else
  tok <- peek 0 ;;
  ret (in_list (tok_valor tok) stmt_keywords).

Definition decl_keywords : list string := [
  "functio"; "genus"; "pactum"; "ordo"; "discretio"; "typus";
  "varia"; "fixum"; "figendum"; "variandum"; "incipit"; "probandum";
  "abstractus"
].

Definition _is_declaration_keyword : P bool :=
  kw <- check TokenTag.KEYWORD None ;;
  if negb kw then ret false else
  tok <- peek 0 ;;
  ret (in_list (tok_valor tok) decl_keywords).

(** The test that delimits the expression after [redde] and [scribe]:
    not at the end of input, not at [}], not at a statement keyword. *)
Definition expr_follows : P bool :=
  eof <- check TokenTag.EOF None ;;
  if eof then ret false else
  close <- check TokenTag.PUNCTUATOR (Some "}") ;;
  if close then ret false else
  kw <- _is_statement_keyword ;;
  ret (negb kw).

Definition parse_redde : P Stmt :=
  locus <- peek_locus ;;
  expect_lit TokenTag.KEYWORD "redde" ;;
  go <- expr_follows ;;
  valor <- (if go then e <- parse_expr 0 ;; ret (Some e) else ret None) ;;
  ret (StmtRedde valor locus).

Definition parse_iace : P Stmt :=
  locus <- peek_locus ;;
  kw <- advance ;;
  let fatale := String.eqb (tok_valor kw) "mori" in
  arg <- parse_expr 0 ;;
  ret (StmtIace (Some arg) fatale locus).

Definition parse_scribe : P Stmt :=
  locus <- peek_locus ;;
  kw_tok <- advance ;;
  let kw := tok_valor kw_tok in
  let gradus := if String.eqb kw "vide" then "Vide"
                else if String.eqb kw "mone" then "Mone"
                else "Scribe" in
  go <- expr_follows ;;
  args <- (if go then comma_list (parse_expr 0) else ret []) ;;
  ret (StmtScribe args gradus locus).

Definition parse_adfirma : P Stmt :=
  locus <- peek_locus ;;
  expect_lit TokenTag.KEYWORD "adfirma" ;;
  cond <- parse_expr 0 ;;
  comma <- matches TokenTag.PUNCTUATOR "," ;;
  msg <- (if comma then e <- parse_expr 0 ;; ret (Some e) else ret None) ;;
  ret (StmtAdfirma cond msg locus).

Definition parse_rumpe : P Stmt :=
  locus <- peek_locus ;;
  expect_lit TokenTag.KEYWORD "rumpe" ;;
  ret (StmtRumpe locus).

Definition parse_perge : P Stmt :=
  locus <- peek_locus ;;
  expect_lit TokenTag.KEYWORD "perge" ;;
  ret (StmtPerge locus).

Definition parse_incipit : P Stmt :=
  locus <- peek_locus ;;
  kw <- advance ;;
  let asynca := String.eqb (tok_valor kw) "incipiet" in
  corpus <- parse_massa ;;
  ret (StmtIncipit corpus asynca locus).

Definition parse_probandum : P Stmt :=
  locus <- peek_locus ;;
  expect_lit TokenTag.KEYWORD "probandum" ;;
  nomen <- expect_valor TokenTag.TEXTUS ;;
  expect_lit TokenTag.PUNCTUATOR "{" ;;
  corpus <- until_close loop_fuel (self_parse_stmt self) [] ;;
  expect_lit TokenTag.PUNCTUATOR "}" ;;
  ret (StmtProbandum nomen corpus locus).

Definition parse_proba : P Stmt :=
  locus <- peek_locus ;;
  expect_lit TokenTag.KEYWORD "proba" ;;
  nomen <- expect_valor TokenTag.TEXTUS ;;
  corpus <- parse_massa ;;
  ret (StmtProba nomen corpus locus).

Definition parse_expressia_stmt : P Stmt :=
  locus <- peek_locus ;;
  expr <- parse_expr 0 ;;
  ret (StmtExpressia expr locus).

(** *** Directives and annotations *)

Definition parse_import_spec : P ImportSpec :=
  loc <- peek_locus ;;
  imported <- expect_valor TokenTag.IDENTIFIER ;;
  ut <- matches TokenTag.KEYWORD "ut" ;;
  local <- (if ut then expect_valor TokenTag.IDENTIFIER else ret imported) ;;
  ret (mkImportSpec imported local loc).

(** The bindings of an import, shared by the two directive forms:
    [* [ut alias]] or a comma-separated list of specs. *)
Definition parse_import_bindings (fons : string) (locus : Locus) : P Stmt :=
  star <- matches TokenTag.OPERATOR "*" ;;
  if star then
    ut <- matches TokenTag.KEYWORD "ut" ;;
    alias <- (if ut then a <- expect_valor TokenTag.IDENTIFIER ;; ret (Some a)
              else ret None) ;;
    ret (StmtImporta fons [] true alias locus)
  else
    specs <- comma_list parse_import_spec ;;
    ret (StmtImporta fons specs false None locus).

Definition parse_sectio_importa : P Stmt :=
  locus <- peek_locus ;;
  expect_lit TokenTag.KEYWORD "ex" ;;
  fons <- expect_valor TokenTag.TEXTUS ;;
  parse_import_bindings fons locus.

Definition parse_sectio_sectio : P Stmt :=
  locus <- peek_locus ;;
  _ <- expect TokenTag.TEXTUS None ;;
  ret (StmtExpressia (ExprLittera LitteraSpecies.NIHIL "null" locus) locus).

Definition parse_sectio_ex_legacy : P Stmt :=
  locus <- peek_locus ;;
  fons <- expect_valor TokenTag.TEXTUS ;;
  expect_lit TokenTag.KEYWORD "importa" ;;
  parse_import_bindings fons locus.

Definition parse_sectio : P Stmt :=
  tok <- peek 0 ;;
  if negb (is_name tok)
  then error ("expected keyword after " ++ Lexer.SECTION_SIGN)
  else
  kw <- advance ;;
  let keyword := tok_valor kw in
  if String.eqb keyword "importa" then parse_sectio_importa
  else if String.eqb keyword "sectio" then parse_sectio_sectio
  else if String.eqb keyword "ex" then parse_sectio_ex_legacy
  else error ("unknown " ++ Lexer.SECTION_SIGN ++ " keyword: " ++ keyword).

Fixpoint _skip_annotatio_args (n : nat) : P unit :=
  match n with
  | O => out_of_fuel
  | S n' =>
      eof <- check TokenTag.EOF None ;;
      if eof then ret tt else
      at_ <- check TokenTag.PUNCTUATOR (Some "@") ;;
      if at_ then ret tt else
      sect <- check TokenTag.PUNCTUATOR (Some Lexer.SECTION_SIGN) ;;
      if sect then ret tt else
      decl <- _is_declaration_keyword ;;
      if decl then ret tt else
      _ <- advance ;;
      _skip_annotatio_args n'
  end.

(** Returns [(publica, futura, externa)]. *)
Definition parse_annotatio : P (bool * bool * bool) :=
  tok <- peek 0 ;;
  if negb (is_name tok) then error "expected keyword after @" else
  kw <- advance ;;
  let keyword := tok_valor kw in
  if in_list keyword ["publica"; "publicum"] then ret (true, false, false)
  else if in_list keyword ["privata"; "privatum"] then
    ret (false, false, false)
  else if String.eqb keyword "futura" then ret (false, true, false)
  else if String.eqb keyword "externa" then ret (false, false, true)
  (* Stdlib, CLI and formatter annotations: skip their arguments *)
  else if in_list keyword ["innatum"; "subsidia"; "radix"; "verte"]
       || in_list keyword ["cli"; "versio"; "descriptio"; "optio";
                           "operandus"; "imperium"; "alias"; "imperia";
                           "nomen"]
       || in_list keyword ["indentum"; "tabulae"; "latitudo"; "ordinatio";
                           "separaGroups"; "bracchiae"; "methodiSeparatio"]
  then
    _skip_annotatio_args loop_fuel ;;
    ret (false, false, false)
  else error ("unknown @ keyword: " ++ keyword).

(** [while self.match(PUNCTUATOR, "@"): ...] at the head of a statement *)
Fixpoint parse_annotationes (n : nat) (publica futura externa : bool)
  : P (bool * bool * bool) :=
  match n with
  | O => out_of_fuel
  | S n' =>
      at_ <- matches TokenTag.PUNCTUATOR "@" ;;
      if at_ then
        '(pub, fut, ext) <- parse_annotatio ;;
        parse_annotationes n' (publica || pub) (futura || fut)
                           (externa || ext)
      else ret (publica, futura, externa)
  end.

Definition parse_stmt : P Stmt :=
  '(publica, futura, externa) <- parse_annotationes loop_fuel false false
                                                    false ;;
  sect <- matches TokenTag.PUNCTUATOR Lexer.SECTION_SIGN ;;
  if sect then parse_sectio else
  tok <- peek 0 ;;
  let v := tok_valor tok in
  let fallback :=
    (brace <- check TokenTag.PUNCTUATOR (Some "{") ;;
     if brace then parse_massa else parse_expressia_stmt) in
  if negb (TokenTag.eqb (tag tok) TokenTag.KEYWORD) then fallback
  else if in_list v ["varia"; "fixum"; "figendum"; "variandum"] then
    parse_varia publica externa
  else if String.eqb v "ex" then parse_ex_stmt publica
  else if String.eqb v "functio" then parse_functio publica futura externa
  else if String.eqb v "abstractus" then
    _ <- advance ;;
    genus <- check TokenTag.KEYWORD (Some "genus") ;;
    if genus then parse_genus publica true
    else error "expected 'genus' after 'abstractus'"
  else if String.eqb v "genus" then parse_genus publica false
  else if String.eqb v "pactum" then parse_pactum publica
  else if String.eqb v "ordo" then parse_ordo publica
  else if String.eqb v "discretio" then parse_discretio publica
  else if String.eqb v "typus" then parse_typus_alias publica
  else if String.eqb v "in" then parse_in_stmt
  else if String.eqb v "de" then parse_de_stmt
  else if String.eqb v "si" then parse_si
  else if String.eqb v "dum" then parse_dum
  else if String.eqb v "fac" then parse_fac
  else if String.eqb v "elige" then parse_elige
  else if String.eqb v "discerne" then parse_discerne
  else if String.eqb v "custodi" then parse_custodi
  else if String.eqb v "tempta" then parse_tempta
  else if String.eqb v "redde" then parse_redde
  else if in_list v ["iace"; "mori"] then parse_iace
  else if in_list v ["scribe"; "vide"; "mone"] then parse_scribe
  else if String.eqb v "adfirma" then parse_adfirma
  else if String.eqb v "rumpe" then parse_rumpe
  else if String.eqb v "perge" then parse_perge
  else if in_list v ["incipit"; "incipiet"] then parse_incipit
  else if String.eqb v "probandum" then parse_probandum
  else if String.eqb v "proba" then parse_proba
  else fallback.

End Methods.

(** Tying the recursive methods: a call through [self] costs one unit. *)
Fixpoint knot (fuel : nat) : Self :=
  match fuel with
  | O => mkSelf out_of_fuel (fun _ => out_of_fuel) out_of_fuel out_of_fuel
                out_of_fuel (fun _ => out_of_fuel)
  | S fuel' =>
      let self := knot fuel' in
      mkSelf (parse_stmt self) (parse_expr self) (_parse_unary self)
             (_parse_primary self) (parse_typus self) (_parse_si_body self)
  end.

(** Between two calls through [self] a token is consumed, so the depth of
    the descent is bounded by the number of tokens. *)
Definition depth_fuel : nat := 2 * length tokens + 2.

(** [while not self.check(EOF): corpus.append(self.parse_stmt())] *)
Fixpoint parse_loop (n : nat) (self : Self) (corpus : list Stmt)
  : P (list Stmt) :=
  match n with
  | O => out_of_fuel
  | S n' =>
      eof <- check TokenTag.EOF None ;;
      if eof then ret corpus
      else s <- self_parse_stmt self ;; parse_loop n' self (corpus ++ [s])%list
  end.

(** [Parser.parse] *)
Definition parse_module : P Modulus :=
  corpus <- parse_loop loop_fuel (knot depth_fuel) [] ;;
  ret (mkModulus corpus (mkLocus 1 1 0)).

End WithTokens.

(** [parse(tokens, filename)] *)
Definition parse (tokens : list Token) (filename : string) : Res Modulus :=
  match parse_module tokens filename 0 with
  | Ok (m, _) => Ok m
  | Raise_CompileError msg l f => Raise_CompileError msg l f
  | Raise_Host e => Raise_Host e
  | OutOfFuel => OutOfFuel
  end.

End Parser.

(** [prepare(lex(source))] followed by [parse], as the driver runs them. *)
Definition parse_source (source : string) : Res Modulus :=
  bind_res (Lexer.lex source STDIN)
           (fun toks => Parser.parse (Lexer.prepare toks) STDIN).


(** ** Results without state: the emitters *)

Declare Scope res_scope.
Delimit Scope res_scope with res.
Notation "x <- c1 ;; c2" := (bind_res c1 (fun x => c2))
  (at level 61, c1 at next level, right associativity) : res_scope.

(** [[f(x) for x in xs]] when [f] can raise *)
Fixpoint map_res {A B} (f : A -> Res B) (xs : list A) : Res (list B) :=
  match xs with
  | [] => Ok []
  | x :: xs' =>
      bind_res (f x) (fun y =>
      bind_res (map_res f xs') (fun ys => Ok (y :: ys)))
  end.

(** The truth value of a [str | None]. *)
Definition truthy (o : option string) : bool :=
  match o with
  | Some v => negb (String.eqb v "")
  | None => false
  end.

(** ** emitter_faber.py *)

Module EmitterFaber.
Local Open Scope res_scope.

Definition _escape_char (ch : ascii) : string :=
  if Ascii.eqb ch ch_nl then bs ++ "n"
  else if Ascii.eqb ch ch_tab then bs ++ "t"
  else if Ascii.eqb ch ch_cr then bs ++ "r"
  else if Ascii.eqb ch ch_bs then bs ++ bs
  else if Ascii.eqb ch ch_dq then bs ++ dq
  else String ch "".

Fixpoint _escape_string (s : string) : string :=
  match s with
  | "" => ""
  | String ch s' => _escape_char ch ++ _escape_string s'
  end.

Fixpoint _typus (t : Typus) : string :=
  match t with
  | TypusNomen nomen => nomen
  | TypusGenericus nomen args =>
      nomen ++ "<" ++ join ", " (map _typus args) ++ ">"
  | TypusFunctio params returns =>
      "(" ++ join ", " (map _typus params) ++ ") -> "
      ++ match returns with Some r => _typus r | None => "" end
  | TypusNullabilis inner => "si " ++ _typus inner
  | TypusUnio members => join " | " (map _typus members)
  | TypusLitteralis valor => valor
  end.

(** [_typus(t)] for [t: Typus | None] *)
Definition _typus_opt (t : option Typus) : string :=
  match t with
  | Some t => _typus t
  | None => ""
  end.

(** [<] generics [>] when there are any *)
Definition generics_text (generics : list string) : string :=
  match generics with
  | [] => ""
  | _ => "<" ++ join ", " generics ++ ">"
  end.

Definition publica_text (publica : bool) : string :=
  if publica then "publica " else "".

Section Recursion.

(** The recursive calls of [_expr] and [_stmt]. *)
Variable expr_rec : Expr -> Res string.
Variable stmt_rec : Stmt -> string -> Res string.

(** [_expr(e)] for [e: Expr | None] *)
Definition _expr_opt (e : option Expr) : Res string :=
  match e with
  | Some e => expr_rec e
  | None => Ok ""
  end.

(** [", ".join(_expr(a) for a in args)] *)
Definition _exprs (args : list Expr) : Res string :=
  l <- map_res expr_rec args ;; Ok (join ", " l).

Definition _param (p : Param Expr) : Res string :=
  match p with
  | mkParam nomen typus default rest _ _ _ =>
      d <- match default with
           | Some e => x <- expr_rec e ;; Ok (" = " ++ x)
           | None => Ok ""
           end ;;
      Ok ((if rest then "..." else "")
          ++ match typus with Some t => _typus t ++ " " | None => "" end
          ++ nomen ++ d)
  end.

Definition _params (params : list (Param Expr)) : Res string :=
  l <- map_res _param params ;; Ok (join ", " l).

Definition _massa (corpus : list Stmt) (indent : string) : Res string :=
  l <- map_res (fun stmt => stmt_rec stmt (indent ++ tab)) corpus ;;
  let close := indent ++ "}" in
  Ok (join nl (["{"] ++ l ++ [close])%list).

Definition _varia (nomen : string) (species : VariaSpecies.t)
  (typus : option Typus) (valor : option Expr) (indent : string)
  : Res string :=
  let keyword := match species with
                 | VariaSpecies.FIXUM => "fixum"
                 | VariaSpecies.FIGENDUM => "figendum"
                 | _ => "varia"
                 end in
  let code := match typus with
              | Some t => indent ++ keyword ++ " " ++ _typus t ++ " " ++ nomen
              | None => indent ++ keyword ++ " " ++ nomen
              end in
  match valor with
  | Some e => x <- expr_rec e ;; Ok (code ++ " = " ++ x)
  | None => Ok code
  end.

Definition _functio (nomen : string) (params : list (Param Expr))
  (typus_reditus : option Typus) (corpus : option Stmt)
  (asynca publica : bool) (generics : list string) (indent : string)
  : Res string :=
  ps <- _params params ;;
  body <- match corpus with
          | Some c => x <- stmt_rec c indent ;; Ok (" " ++ x)
          | None => Ok ""
          end ;;
  Ok (indent ++ publica_text publica
      ++ (if asynca then "asynca " else "")
      ++ "functio " ++ nomen ++ generics_text generics
      ++ "(" ++ ps ++ ")"
      ++ match typus_reditus with
         | Some t => ": " ++ _typus t
         | None => ""
         end
      ++ body).

Definition _campus (indent : string) (c : CampusDecl Expr) : Res string :=
  match c with
  | mkCampusDecl nomen typus valor _ _ =>
      v <- match valor with
           | Some e => x <- expr_rec e ;; Ok (": " ++ x)
           | None => Ok ""
           end ;;
      Ok (match typus with
          | Some t => indent ++ tab ++ _typus t ++ " " ++ nomen
          | None => indent ++ tab ++ nomen
          end ++ v ++ nl)
  end.

Definition _genus (nomen : string) (campi : list (CampusDecl Expr))
  (methodi : list Stmt) (implet generics : list string) (publica : bool)
  (indent : string) : Res string :=
  cs <- map_res (_campus indent) campi ;;
  ms <- map_res (fun m => x <- stmt_rec m (indent ++ tab) ;; Ok (x ++ nl))
                methodi ;;
  Ok (indent ++ publica_text publica ++ "genus " ++ nomen
      ++ generics_text generics
      ++ match implet with
         | [] => ""
         | _ => " implet " ++ join ", " implet
         end
      ++ " {" ++ nl
      ++ String.concat "" cs ++ String.concat "" ms
      ++ indent ++ "}").

Definition _pactum_methodus (indent : string) (m : PactumMethodus Expr)
  : Res string :=
  match m with
  | mkPactumMethodus nomen params typus_reditus asynca _ =>
      ps <- _params params ;;
      Ok (indent ++ tab ++ (if asynca then "asynca " else "")
          ++ "functio " ++ nomen ++ "(" ++ ps ++ ")"
          ++ match typus_reditus with
             | Some t => ": " ++ _typus t
             | None => ""
             end
          ++ nl)
  end.

Definition _pactum (nomen : string) (methodi : list (PactumMethodus Expr))
  (generics : list string) (publica : bool) (indent : string) : Res string :=
  ms <- map_res (_pactum_methodus indent) methodi ;;
  Ok (indent ++ publica_text publica ++ "pactum " ++ nomen
      ++ generics_text generics ++ " {" ++ nl
      ++ String.concat "" ms ++ indent ++ "}").

Definition _ordo_membrum (indent : string) (m : OrdoMembrum) : string :=
  match m with
  | mkOrdoMembrum nomen valor _ =>
      indent ++ tab ++ nomen
      ++ match valor with Some v => " = " ++ v | None => "" end ++ nl
  end.

Definition _ordo (nomen : string) (membra : list OrdoMembrum)
  (publica : bool) (indent : string) : string :=
  indent ++ publica_text publica ++ "ordo " ++ nomen ++ " {" ++ nl
  ++ String.concat "" (map (_ordo_membrum indent) membra) ++ indent ++ "}".

Definition _varians_campus (f : VariansCampus) : string :=
  match f with
  | mkVariansCampus nomen typus => _typus_opt typus ++ " " ++ nomen
  end.

Definition _varians (indent : string) (v : VariansDecl) : string :=
  match v with
  | mkVariansDecl nomen campi _ =>
      indent ++ tab ++ nomen
      ++ match campi with
         | [] => ""
         | _ => " { " ++ join ", " (map _varians_campus campi) ++ " }"
         end
      ++ nl
  end.

Definition _discretio (nomen : string) (variantes : list VariansDecl)
  (generics : list string) (publica : bool) (indent : string) : string :=
  indent ++ publica_text publica ++ "discretio " ++ nomen
  ++ generics_text generics ++ " {" ++ nl
  ++ String.concat "" (map (_varians indent) variantes) ++ indent ++ "}".

(** [_importa] reads [s.publica] first, and [StmtImporta] has no such
    field ([nodes.py]): the attribute access raises. *)
Definition _importa (fons : string) (specs : list ImportSpec) (totum : bool)
  (alias : option string) (indent : string) : Res string :=
  Raise_Host (AttributeError "StmtImporta" "publica").

Definition _redde (valor : option Expr) (indent : string) : Res string :=
  match valor with
  | None => Ok (indent ++ "redde")
  | Some e => x <- expr_rec e ;; Ok (indent ++ "redde " ++ x)
  end.

Definition _si (cond : Expr) (cons : Stmt) (alt : option Stmt)
  (indent : string) : Res string :=
  c <- expr_rec cond ;;
  k <- stmt_rec cons indent ;;
  let code := indent ++ "si " ++ c ++ " " ++ k in
  match alt with
  | Some a => x <- stmt_rec a indent ;; Ok (code ++ " secus " ++ x)
  | None => Ok code
  end.

Definition _dum (cond : Expr) (corpus : Stmt) (indent : string)
  : Res string :=
  c <- expr_rec cond ;;
  k <- stmt_rec corpus indent ;;
  Ok (indent ++ "dum " ++ c ++ " " ++ k).

Definition _fac_dum (corpus : Stmt) (cond : Expr) (indent : string)
  : Res string :=
  k <- stmt_rec corpus indent ;;
  c <- expr_rec cond ;;
  Ok (indent ++ "fac " ++ k ++ " dum " ++ c).

Definition _iteratio (binding : string) (iter : Expr) (corpus : Stmt)
  (species : string) (asynca : bool) (indent : string) : Res string :=
  let kw := if String.eqb species "Ex" then "ex" else "de" in
  i <- expr_rec iter ;;
  k <- stmt_rec corpus indent ;;
  Ok (indent ++ (if asynca then "cede " else "")
      ++ "itera " ++ kw ++ " " ++ i ++ " fixum " ++ binding ++ " " ++ k).

Definition _elige_casus (indent : string) (c : EligeCasus Expr Stmt)
  : Res string :=
  match c with
  | mkEligeCasus cond corpus _ =>
      x <- expr_rec cond ;;
      k <- stmt_rec corpus (indent ++ tab) ;;
      Ok (indent ++ tab ++ "casu " ++ x ++ " " ++ k ++ nl)
  end.

Definition _elige (discrim : Expr) (casus : list (EligeCasus Expr Stmt))
  (default : option Stmt) (indent : string) : Res string :=
  d <- expr_rec discrim ;;
  cs <- map_res (_elige_casus indent) casus ;;
  df <- match default with
        | Some s =>
            k <- stmt_rec s (indent ++ tab) ;;
            Ok (indent ++ tab ++ "ceterum " ++ k ++ nl)
        | None => Ok ""
        end ;;
  Ok (indent ++ "elige " ++ d ++ " {" ++ nl
      ++ String.concat "" cs ++ df ++ indent ++ "}").

Definition _pattern (p : VariansPattern) : string :=
  match p with
  | mkVariansPattern variant bindings alias wildcard _ =>
      if wildcard then "_"
      else variant
           ++ match bindings with
              | [] => ""
              | _ => "(" ++ join ", " bindings ++ ")"
              end
           ++ match alias with
              | Some a => if truthy alias then " ut " ++ a else ""
              | None => ""
              end
  end.

(** [_stmt(c.corpus, ...)] where [corpus] may be [None] *)
Definition _stmt_opt (s : option Stmt) (indent : string) : Res string :=
  match s with
  | Some s => stmt_rec s indent
  | None => Ok (indent ++ "# unknown statement")
  end.

Definition _discerne_casus (indent : string) (c : DiscerneCasus Stmt)
  : Res string :=
  match c with
  | mkDiscerneCasus patterns corpus _ =>
      k <- _stmt_opt corpus (indent ++ tab) ;;
      Ok (indent ++ tab ++ "casu " ++ join ", " (map _pattern patterns)
          ++ " " ++ k ++ nl)
  end.

Definition _discerne (discrim : list Expr)
  (casus : list (DiscerneCasus Stmt)) (indent : string) : Res string :=
  discrim_str <- _exprs discrim ;;
  cs <- map_res (_discerne_casus indent) casus ;;
  Ok (indent ++ "discerne " ++ discrim_str ++ " {" ++ nl
      ++ String.concat "" cs ++ indent ++ "}").

Definition _custodi_clausula (indent : string)
  (c : CustodiClausula Expr Stmt) : Res string :=
  match c with
  | mkCustodiClausula cond corpus _ =>
      x <- expr_rec cond ;;
      k <- stmt_rec corpus indent ;;
      Ok (indent ++ "custodi " ++ x ++ " " ++ k)
  end.

Definition _custodi (clausulae : list (CustodiClausula Expr Stmt))
  (indent : string) : Res string :=
  lines <- map_res (_custodi_clausula indent) clausulae ;;
  Ok (join nl lines).

Definition _tempta (corpus : Stmt) (cape : option (CapeClausula Stmt))
  (demum : option Stmt) (indent : string) : Res string :=
  k <- stmt_rec corpus indent ;;
  c <- match cape with
       | Some (mkCapeClausula param body _) =>
           x <- stmt_rec body indent ;;
           Ok (" cape " ++ param ++ " " ++ x)
       | None => Ok ""
       end ;;
  d <- match demum with
       | Some s => x <- stmt_rec s indent ;; Ok (" demum " ++ x)
       | None => Ok ""
       end ;;
  Ok (indent ++ "tempta " ++ k ++ c ++ d).

Definition _scribe (args : list Expr) (gradus : string) (indent : string)
  : Res string :=
  let keyword := if String.eqb gradus "Vide" then "vide"
                 else if String.eqb gradus "Mone" then "mone"
                 else "scribe" in
  a <- _exprs args ;;
  Ok (indent ++ keyword ++ " " ++ a).

Definition _incipit (corpus : Stmt) (asynca : bool) (indent : string)
  : Res string :=
  let keyword := if asynca then "incipiet" else "incipit" in
  k <- stmt_rec corpus indent ;;
  Ok (indent ++ keyword ++ " " ++ k).

Definition _probandum (nomen : string) (corpus : list Stmt)
  (indent : string) : Res string :=
  l <- map_res (fun stmt => x <- stmt_rec stmt (indent ++ tab) ;;
                            Ok (x ++ nl)) corpus ;;
  Ok (indent ++ "probandum " ++ dq ++ nomen ++ dq ++ " {" ++ nl
      ++ String.concat "" l ++ indent ++ "}").

Definition _proba (nomen : string) (corpus : Stmt) (indent : string)
  : Res string :=
  k <- stmt_rec corpus indent ;;
  Ok (indent ++ "proba " ++ dq ++ nomen ++ dq ++ " " ++ k).

(** The body of [_stmt]. *)
Definition _stmt_body (s : Stmt) (indent : string) : Res string :=
  match s with
  | StmtVaria nomen species typus valor _ _ _ =>
      _varia nomen species typus valor indent
  | StmtFunctio nomen params typus_reditus corpus asynca publica generics
                _ _ =>
      _functio nomen params typus_reditus corpus asynca publica generics
               indent
  | StmtGenus nomen campi methodi implet generics publica _ _ =>
      _genus nomen campi methodi implet generics publica indent
  | StmtPactum nomen methodi generics publica _ =>
      _pactum nomen methodi generics publica indent
  | StmtOrdo nomen membra publica _ => Ok (_ordo nomen membra publica indent)
  | StmtDiscretio nomen variantes generics publica _ =>
      Ok (_discretio nomen variantes generics publica indent)
  | StmtImporta fons specs totum alias _ =>
      _importa fons specs totum alias indent
  | StmtRedde valor _ => _redde valor indent
  | StmtSi cond cons_ alt _ => _si cond cons_ alt indent
  | StmtDum cond corpus _ => _dum cond corpus indent
  | StmtFacDum corpus cond _ => _fac_dum corpus cond indent
  | StmtIteratio binding iter corpus species asynca _ =>
      _iteratio binding iter corpus species asynca indent
  | StmtElige discrim casus default _ => _elige discrim casus default indent
  | StmtDiscerne discrim casus _ => _discerne discrim casus indent
  | StmtCustodi clausulae _ => _custodi clausulae indent
  | StmtTempta corpus cape demum _ => _tempta corpus cape demum indent
  | StmtIace arg fatale _ =>
      if fatale then
        match arg with
        | Some e => x <- expr_rec e ;; Ok (indent ++ "mori " ++ x)
        | None => Ok (indent ++ "mori")
        end
      else x <- _expr_opt arg ;; Ok (indent ++ "iace " ++ x)
  | StmtRumpe _ => Ok (indent ++ "rumpe")
  | StmtPerge _ => Ok (indent ++ "perge")
  | StmtScribe args gradus _ => _scribe args gradus indent
  | StmtAdfirma cond msg _ =>
      c <- expr_rec cond ;;
      match msg with
      | Some m => x <- expr_rec m ;;
                  Ok (indent ++ "adfirma " ++ c ++ ", " ++ x)
      | None => Ok (indent ++ "adfirma " ++ c)
      end
  | StmtExpressia expr _ => x <- expr_rec expr ;; Ok (indent ++ x)
  | StmtMassa corpus _ => _massa corpus indent
  | StmtIncipit corpus asynca _ => _incipit corpus asynca indent
  | StmtProbandum nomen corpus _ => _probandum nomen corpus indent
  | StmtProba nomen corpus _ => _proba nomen corpus indent
  | StmtTypusAlias _ _ _ _ | StmtIn _ _ _ =>
      Ok (indent ++ "# unknown statement")
  end.

(** [p.key.valor if isinstance(p.key, ExprLittera) else _expr(p.key)] *)
Definition _key (key : Expr) : Res string :=
  match key with
  | ExprLittera _ valor _ => Ok valor
  | _ => expr_rec key
  end.

Definition _obiectum_pair (p : ObiectumProp Expr) : Res string :=
  match p with
  | mkObiectumProp key valor shorthand _ _ =>
      k <- _key key ;;
      if shorthand then Ok k
      else v <- _expr_opt valor ;; Ok (k ++ ": " ++ v)
  end.

Definition _finge_pair (p : ObiectumProp Expr) : Res string :=
  match p with
  | mkObiectumProp key valor shorthand _ _ =>
      k <- expr_rec key ;;
      if shorthand then Ok k
      else v <- _expr_opt valor ;; Ok (k ++ ": " ++ v)
  end.

(** The body of [_expr]. *)
Definition _expr_body (e : Expr) : Res string :=
  match e with
  | ExprNomen valor _ => Ok valor
  | ExprEgo _ => Ok "ego"
  | ExprLittera species valor _ =>
      match species with
      | LitteraSpecies.TEXTUS => Ok (dq ++ _escape_string valor ++ dq)
      | LitteraSpecies.VERUM => Ok "verum"
      | LitteraSpecies.FALSUM => Ok "falsum"
      | LitteraSpecies.NIHIL => Ok "nihil"
      | _ => Ok valor
      end
  | ExprBinaria signum sin dex _ =>
      l <- expr_rec sin ;; r <- expr_rec dex ;;
      Ok (l ++ " " ++ signum ++ " " ++ r)
  | ExprUnaria signum arg _ =>
      a <- expr_rec arg ;;
      if in_list signum ["nihil"; "non"; "nonnihil"]
      then Ok (signum ++ " " ++ a)
      else Ok (signum ++ a)
  | ExprAssignatio signum sin dex _ =>
      l <- expr_rec sin ;; r <- expr_rec dex ;;
      Ok (l ++ " " ++ signum ++ " " ++ r)
  | ExprVocatio callee args _ =>
      a <- _exprs args ;;
      c <- expr_rec callee ;;
      Ok (c ++ "(" ++ a ++ ")")
  | ExprMembrum obj prop computed non_null _ =>
      o <- expr_rec obj ;;
      if computed then p <- expr_rec prop ;; Ok (o ++ "[" ++ p ++ "]")
      else
        p <- _key prop ;;
        if non_null then Ok (o ++ "!." ++ p) else Ok (o ++ "." ++ p)
  | ExprCondicio cond cons_ alt _ =>
      c <- expr_rec cond ;; k <- expr_rec cons_ ;; a <- expr_rec alt ;;
      Ok (c ++ " ? " ++ k ++ " : " ++ a)
  | ExprSeries elementa _ =>
      items <- _exprs elementa ;; Ok ("[" ++ items ++ "]")
  | ExprObiectum props _ =>
      pairs <- map_res _obiectum_pair props ;;
      Ok ("{ " ++ join ", " pairs ++ " }")
  | ExprClausura params corpus _ =>
      ps <- _params params ;;
      match corpus with
      | CorpusStmt s => k <- stmt_rec s "" ;; Ok ("(" ++ ps ++ ") => " ++ k)
      | CorpusNone => Ok ("(" ++ ps ++ ") => " ++ "# unknown statement")
      | CorpusExpr x => k <- expr_rec x ;; Ok ("(" ++ ps ++ ") => " ++ k)
      end
  | ExprNovum callee args init _ =>
      a <- _exprs args ;;
      c <- expr_rec callee ;;
      let code := match args, init with
                  | [], Some _ => "novum " ++ c
                  | _, _ => "novum " ++ c ++ "(" ++ a ++ ")"
                  end in
      match init with
      | Some i => x <- expr_rec i ;; Ok (code ++ " " ++ x)
      | None => Ok code
      end
  | ExprQua expr typus _ =>
      x <- expr_rec expr ;; Ok (x ++ " qua " ++ _typus_opt typus)
  | ExprInnatum expr _ _ => x <- expr_rec expr ;; Ok ("innatum " ++ x)
  | ExprCede arg _ => x <- expr_rec arg ;; Ok ("cede " ++ x)
  | ExprFinge variant campi _ _ =>
      pairs <- map_res _finge_pair campi ;;
      Ok ("finge " ++ variant ++ " { " ++ join ", " pairs ++ " }")
  | ExprScriptum template _ _ =>
      Ok ("scriptum(" ++ dq ++ template ++ dq ++ ")")
  | ExprAmbitus start finis inclusive _ =>
      a <- expr_rec start ;; b <- expr_rec finis ;;
      if inclusive then Ok (a ++ " usque " ++ b)
      else Ok (a ++ " ante " ++ b)
  | ExprPostfixNovum expr typus _ =>
      x <- expr_rec expr ;; Ok (x ++ " novum " ++ _typus_opt typus)
  | ExprConversio _ _ _ _ => Ok "# unknown expr"
  end.

End Recursion.

Fixpoint _expr (e : Expr) : Res string := _expr_body _expr _stmt e
with _stmt (s : Stmt) (indent : string) : Res string :=
  _stmt_body _expr _stmt s indent.

(** A blank line before every statement but the first. *)
Fixpoint blank_between (lines : list string) : list string :=
  match lines with
  | [] => []
  | [x] => [x]
  | x :: rest => x :: "" :: blank_between rest
  end.

Definition emit_faber (mod_ : Modulus) : Res string :=
  match mod_ with
  | mkModulus corpus _ =>
      l <- map_res (fun stmt => _stmt stmt "") corpus ;;
      Ok (join nl (blank_between l))
  end.

End EmitterFaber.

(** The driver's [emit -t fab]. *)
Definition emit_faber_source (source : string) : Res string :=
  bind_res (parse_source source) EmitterFaber.emit_faber.


(** ** scope.py *)

Module SymbolSpecies.
Inductive t :=
| VARIABILIS | FUNCTIO | PARAMETRUM | TYPUS | GENUS | ORDO | DISCRETIO
| PACTUM | VARIANS.
Definition eqb (a b : t) : bool :=
  match a, b with
  | VARIABILIS, VARIABILIS | FUNCTIO, FUNCTIO | PARAMETRUM, PARAMETRUM
  | TYPUS, TYPUS | GENUS, GENUS | ORDO, ORDO | DISCRETIO, DISCRETIO
  | PACTUM, PACTUM | VARIANS, VARIANS => true
  | _, _ => false
  end.
End SymbolSpecies.

Module ScopusSpecies.
Inductive t := GLOBAL | FUNCTIO | MASSA | GENUS.
End ScopusSpecies.

(** Semantic types.  [SemanticTypus] is the union of [scope.py], [None]
    included ([PyNone]); the classes that the code also uses on their own
    ([SemFunctio], [SemGenus], [SemOrdo], [SemDiscretio]) are types of their
    own, injected by [TFunctio], [TGenus], [TOrdo] and [TDiscretio]. *)
Inductive SemOrdo :=
| mkSemOrdo (nomen : string) (membra : dict nat).

Inductive SemanticTypus :=
| SemPrimitivus (species : string) (nullabilis : bool)
| SemLista (elementum : SemanticTypus) (nullabilis : bool)
| SemTabula (clavis valor : SemanticTypus) (nullabilis : bool)
| SemCopia (elementum : SemanticTypus) (nullabilis : bool)
| TFunctio (f : SemFunctio)
| TGenus (g : SemGenus)
| TOrdo (o : SemOrdo)
| TDiscretio (d : SemDiscretio)
| SemPactum (nomen : string) (methodi : list (string * SemFunctio))
| SemUsitatum (nomen : string) (nullabilis : bool)
| SemUnio (membra : list SemanticTypus) (nullabilis : bool)
| SemParametrum (nomen : string)
| SemIgnotum (ratio : string)
| PyNone
with SemFunctio :=
| mkSemFunctio (params : list SemanticTypus) (reditus : SemanticTypus)
               (nullabilis : bool)
with SemGenus :=
| mkSemGenus (nomen : string) (agri : list (string * SemanticTypus))
             (methodi : list (string * SemFunctio)) (nullabilis : bool)
with SemDiscretio :=
| mkSemDiscretio (nomen : string) (variantes : list (string * SemGenus)).

Module Scope.

(** Primitive type constants *)
Definition TEXTUS : SemanticTypus := SemPrimitivus "textus" false.
Definition NUMERUS : SemanticTypus := SemPrimitivus "numerus" false.
Definition FRACTUS : SemanticTypus := SemPrimitivus "fractus" false.
Definition BIVALENS : SemanticTypus := SemPrimitivus "bivalens" false.
Definition NIHIL : SemanticTypus := SemPrimitivus "nihil" false.
Definition VACUUM : SemanticTypus := SemPrimitivus "vacuum" false.
Definition IGNOTUM : SemanticTypus := SemIgnotum "unresolved".

(** Make a type nullable. *)
Definition nullabilis (t : SemanticTypus) : SemanticTypus :=
  match t with
  | PyNone => PyNone
  | SemPrimitivus species _ => SemPrimitivus species true
  | SemLista elementum _ => SemLista elementum true
  | SemTabula clavis valor _ => SemTabula clavis valor true
  | SemCopia elementum _ => SemCopia elementum true
  | TFunctio (mkSemFunctio params reditus _) =>
      TFunctio (mkSemFunctio params reditus true)
  | TGenus (mkSemGenus nomen agri methodi _) =>
      TGenus (mkSemGenus nomen agri methodi true)
  | SemUsitatum nomen _ => SemUsitatum nomen true
  | SemUnio membra _ => SemUnio membra true
  | _ => t
  end.

(** The [node] of a symbol: the declaration it comes from, if any. *)
Inductive SymbolNode :=
| NodeNone
| NodeStmt (s : Stmt)
| NodeVarians (v : VariansDecl).

Record Symbolum := mkSymbolum {
  sym_nomen : string;
  sym_typus : SemanticTypus;
  sym_species : SymbolSpecies.t;
  sym_mutabilis : bool;
  sym_locus : Locus;
  sym_node : SymbolNode
}.

(** [Symbolum(nomen=..., typus=..., species=...)] with the other defaults *)
Definition Symbolum_simple (nomen : string) (typus : SemanticTypus)
  (species : SymbolSpecies.t) : Symbolum :=
  mkSymbolum nomen typus species true Locus_default NodeNone.

(** A lexical scope with a symbol table.  [parent] is the enclosing scope
    object; only the current scope is ever written to, so a scope holds its
    parent by value. *)
Inductive Scopus :=
| mkScopus (parent : option Scopus) (symbola : dict Symbolum)
           (species : ScopusSpecies.t) (nomen : string).

Definition scopus_parent (sc : Scopus) : option Scopus :=
  match sc with mkScopus parent _ _ _ => parent end.
Definition scopus_symbola (sc : Scopus) : dict Symbolum :=
  match sc with mkScopus _ symbola _ _ => symbola end.
Definition scopus_species (sc : Scopus) : ScopusSpecies.t :=
  match sc with mkScopus _ _ species _ => species end.
Definition scopus_nomen (sc : Scopus) : string :=
  match sc with mkScopus _ _ _ nomen => nomen end.

(** [Scopus.definie] *)
Definition Scopus_definie (sc : Scopus) (sym : Symbolum) : Scopus :=
  match sc with
  | mkScopus parent symbola species nomen =>
      mkScopus parent (dict_set symbola (sym_nomen sym) sym) species nomen
  end.

(** [Scopus.quaere]: this scope, then the parent scopes. *)
Fixpoint Scopus_quaere (sc : Scopus) (nomen : string)
  : Res (option Symbolum) :=
  match sc with
  | mkScopus parent symbola _ _ =>
      if dict_has symbola nomen
      then bind_res (dict_index symbola nomen) (fun sym => Ok (Some sym))
      else match parent with
           | Some p => Scopus_quaere p nomen
           | None => Ok None
           end
  end.

(** [Scopus.quaere_localis] *)
Definition Scopus_quaere_localis (sc : Scopus) (nomen : string)
  : option Symbolum :=
  dict_get (scopus_symbola sc) nomen.

(** [Scopus.quaere_typus] *)
Definition Scopus_quaere_typus (sc : Scopus) (nomen : string)
  : Res (option Symbolum) :=
  bind_res (Scopus_quaere sc nomen) (fun sym =>
  match sym with
  | None => Ok None
  | Some y =>
      match sym_species y with
      | SymbolSpecies.GENUS | SymbolSpecies.ORDO | SymbolSpecies.DISCRETIO
      | SymbolSpecies.PACTUM | SymbolSpecies.TYPUS => Ok (Some y)
      | _ => Ok None
      end
  end).

Record SemanticError := mkSemanticError {
  nuntius : string;
  err_locus : Locus
}.

(** The identity of an expression node, [id(expr)]: its position in the
    module tree (the parser builds a tree, no node occurs twice), as the list
    of argument positions from the node up to the module. *)
Definition NodeId : Type := list nat.
Definition sub (p : NodeId) (i : nat) : NodeId := i :: p.
Definition sub2 (p : NodeId) (i j : nat) : NodeId := j :: i :: p.

Fixpoint NodeId_eqb (a b : NodeId) : bool :=
  match a, b with
  | [], [] => true
  | x :: a', y :: b' => Nat.eqb x y && NodeId_eqb a' b'
  | _, _ => false
  end.

(** The state of one analysis.  [global_scope] is not a field: it is the
    scope at the end of the parent chain of [current] (see below). *)
Record SemanticContext := mkSemanticContext {
  current : Scopus;
  typi : dict SemanticTypus;
  ordo_registry : dict SemOrdo;
  disc_registry : dict SemDiscretio;
  genus_registry : dict SemGenus;
  errores : list SemanticError;
  expr_types : list (NodeId * SemanticTypus)
}.

(** [SemanticContext()] *)
Definition SemanticContext_new : SemanticContext :=
  mkSemanticContext (mkScopus None [] ScopusSpecies.GLOBAL "")
                    [] [] [] [] [] [].

(** The scope that has no parent, up the chain from [sc]. *)
Fixpoint scopus_root (sc : Scopus) : Scopus :=
  match sc with
  | mkScopus (Some p) _ _ _ => scopus_root p
  | mkScopus None _ _ _ => sc
  end.

(** [ctx.global_scope]: the constructor makes it the one scope without a
    parent, and every other scope is made by [intra_scopum] with a parent. *)
Definition global_scope (ctx : SemanticContext) : Scopus :=
  scopus_root (current ctx).

Definition with_current (ctx : SemanticContext) (sc : Scopus)
  : SemanticContext :=
  mkSemanticContext sc (typi ctx) (ordo_registry ctx) (disc_registry ctx)
                    (genus_registry ctx) (errores ctx) (expr_types ctx).

(** The methods of [SemanticContext], on the state. *)
Definition A := M SemanticContext.

Definition intra_scopum (species : ScopusSpecies.t) (nomen : string)
  : A unit :=
  modify (fun ctx =>
            with_current ctx (mkScopus (Some (current ctx)) [] species nomen)).

Definition exi_scopum : A unit :=
  modify (fun ctx =>
            match scopus_parent (current ctx) with
            | Some p => with_current ctx p
            | None => ctx
            end).

Definition definie (sym : Symbolum) : A unit :=
  modify (fun ctx => with_current ctx (Scopus_definie (current ctx) sym)).

Definition quaere (nomen : string) : A (option Symbolum) :=
  ctx <- get ;; lift_res (Scopus_quaere (current ctx) nomen).

Definition error (nuntius : string) (locus : Locus) : A unit :=
  modify (fun ctx =>
            mkSemanticContext (current ctx) (typi ctx) (ordo_registry ctx)
              (disc_registry ctx) (genus_registry ctx)
              (errores ctx ++ [mkSemanticError nuntius locus])%list
              (expr_types ctx)).

Definition register_typus (nomen : string) (typus : SemanticTypus)
  : A unit :=
  modify (fun ctx =>
            mkSemanticContext (current ctx) (dict_set (typi ctx) nomen typus)
              (ordo_registry ctx) (disc_registry ctx) (genus_registry ctx)
              (errores ctx) (expr_types ctx)).

Definition primitives : dict SemanticTypus := [
  ("textus", TEXTUS);
  ("numerus", NUMERUS);
  ("fractus", FRACTUS);
  ("bivalens", BIVALENS);
  ("nihil", NIHIL);
  ("vacuum", VACUUM);
  ("vacuus", VACUUM);
  ("ignotum", IGNOTUM);
  ("quodlibet", IGNOTUM);
  ("quidlibet", IGNOTUM)
].

(** [SemanticContext.resolve_typus_nomen]; it only reads the context. *)
Definition resolve_typus_nomen (ctx : SemanticContext) (nomen : string)
  : Res SemanticTypus :=
  (* Check primitive types first *)
  if dict_has primitives nomen then dict_index primitives nomen
  (* Check registered types *)
  else if dict_has (typi ctx) nomen then dict_index (typi ctx) nomen
  (* Check registries *)
  else if dict_has (ordo_registry ctx) nomen
  then bind_res (dict_index (ordo_registry ctx) nomen)
                (fun o => Ok (TOrdo o))
  else if dict_has (disc_registry ctx) nomen
  then bind_res (dict_index (disc_registry ctx) nomen)
                (fun d => Ok (TDiscretio d))
  else if dict_has (genus_registry ctx) nomen
  then bind_res (dict_index (genus_registry ctx) nomen)
                (fun g => Ok (TGenus g))
  (* Return unresolved reference *)
  else Ok (SemUsitatum nomen false).

Definition set_expr_type (expr : NodeId) (typus : SemanticTypus) : A unit :=
  modify (fun ctx =>
            mkSemanticContext (current ctx) (typi ctx) (ordo_registry ctx)
              (disc_registry ctx) (genus_registry ctx) (errores ctx)
              (PyDict.set NodeId_eqb (expr_types ctx) expr typus)).

Definition get_expr_type (expr : NodeId) : A SemanticTypus :=
  ctx <- get ;;
  ret (match PyDict.get NodeId_eqb (expr_types ctx) expr with
       | Some t => t
       | None => IGNOTUM
       end).

(** [ctx.ordo_registry[nomen] = ordo] and the two other registries *)
Definition set_ordo_registry (nomen : string) (o : SemOrdo) : A unit :=
  modify (fun ctx =>
            mkSemanticContext (current ctx) (typi ctx)
              (dict_set (ordo_registry ctx) nomen o)
              (disc_registry ctx) (genus_registry ctx) (errores ctx)
              (expr_types ctx)).
Definition set_disc_registry (nomen : string) (d : SemDiscretio) : A unit :=
  modify (fun ctx =>
            mkSemanticContext (current ctx) (typi ctx) (ordo_registry ctx)
              (dict_set (disc_registry ctx) nomen d)
              (genus_registry ctx) (errores ctx) (expr_types ctx)).
Definition set_genus_registry (nomen : string) (g : SemGenus) : A unit :=
  modify (fun ctx =>
            mkSemanticContext (current ctx) (typi ctx) (ordo_registry ctx)
              (disc_registry ctx)
              (dict_set (genus_registry ctx) nomen g) (errores ctx)
              (expr_types ctx)).

End Scope.

(** ** semantic.py *)

Module Semantic.
Import Scope.

(** Convert an AST type annotation to a [SemanticTypus].  [typus.args[0]]
    and [typus.args[1]] are read under the tests [if typus.args] and
    [len(typus.args) > 1]: the head and the second element of the list. *)
Fixpoint _resolve_typus_annotatio (ctx : SemanticContext) (typus : Typus)
  : Res SemanticTypus :=
  match typus with
  | TypusNomen nomen => resolve_typus_nomen ctx nomen
  | TypusNullabilis inner =>
      bind_res (_resolve_typus_annotatio ctx inner) (fun inner' =>
      Ok (nullabilis inner'))
  | TypusGenericus base args =>
      if String.eqb base "lista" then
        bind_res (match args with
                  | a0 :: _ => _resolve_typus_annotatio ctx a0
                  | [] => Ok IGNOTUM
                  end) (fun elem =>
        Ok (SemLista elem false))
      else if String.eqb base "tabula" then
        bind_res (match args with
                  | a0 :: _ => _resolve_typus_annotatio ctx a0
                  | [] => Ok TEXTUS
                  end) (fun clavis =>
        bind_res (match args with
                  | _ :: a1 :: _ => _resolve_typus_annotatio ctx a1
                  | _ => Ok IGNOTUM
                  end) (fun valor =>
        Ok (SemTabula clavis valor false)))
      else if in_list base ["copia"; "collectio"] then
        bind_res (match args with
                  | a0 :: _ => _resolve_typus_annotatio ctx a0
                  | [] => Ok IGNOTUM
                  end) (fun elem =>
        Ok (SemCopia elem false))
      else Ok (SemUsitatum base false)
  | TypusFunctio params returns =>
      bind_res (map_res (_resolve_typus_annotatio ctx) params) (fun ps =>
      bind_res (match returns with
                | Some r => _resolve_typus_annotatio ctx r
                | None => Ok PyNone
                end) (fun reditus =>
      Ok (TFunctio (mkSemFunctio ps reditus false))))
  | TypusUnio members =>
      bind_res (map_res (_resolve_typus_annotatio ctx) members) (fun ms =>
      Ok (SemUnio ms false))
  | TypusLitteralis _ => Ok TEXTUS
  end.

(** [_resolve_typus_annotatio(ctx, typus)] on the state; [None] resolves
    to [IGNOTUM]. *)
Definition resolve (typus : option Typus) : A SemanticTypus :=
  match typus with
  | None => ret IGNOTUM
  | Some t => ctx <- get ;; lift_res (_resolve_typus_annotatio ctx t)
  end.

(** [for x in xs: f(x)] and [for i, x in enumerate(xs): f(i, x)] *)
Fixpoint for_each_i {X} (f : nat -> X -> A unit) (i : nat) (xs : list X)
  : A unit :=
  match xs with
  | [] => ret tt
  | x :: xs' => f i x ;; for_each_i f (S i) xs'
  end.

Definition for_each {X} (f : X -> A unit) (xs : list X) : A unit :=
  for_each_i (fun _ x => f x) 0 xs.

(** [[f(x) for x in xs]] on the state *)
Fixpoint map_A {X Y} (f : X -> A Y) (xs : list X) : A (list Y) :=
  match xs with
  | [] => ret []
  | x :: xs' => y <- f x ;; ys <- map_A f xs' ;; ret (y :: ys)
  end.

(** The parameter types of a declaration: annotation or [IGNOTUM]. *)
Definition resolve_param_typus (p : Param Expr) : A SemanticTypus :=
  match p with
  | mkParam _ typus _ _ _ _ _ => resolve typus
  end.

(** [reditus = None; if typus is not None: reditus = resolve(typus)] *)
Definition resolve_reditus (typus_reditus : option Typus)
  : A SemanticTypus :=
  match typus_reditus with
  | None => ret PyNone
  | Some _ => resolve typus_reditus
  end.

Definition _resolve_functio_typus (params : list (Param Expr))
  (typus_reditus : option Typus) : A SemFunctio :=
  ps <- map_A resolve_param_typus params ;;
  reditus <- resolve_reditus typus_reditus ;;
  ret (mkSemFunctio ps reditus false).

Definition _resolve_pactum_method_typus (m : PactumMethodus Expr)
  : A SemFunctio :=
  match m with
  | mkPactumMethodus _ params typus_reditus _ _ =>
      ps <- map_A resolve_param_typus params ;;
      reditus <- resolve_reditus typus_reditus ;;
      ret (mkSemFunctio ps reditus false)
  end.

(** *** Pass 1: declarations *)

Fixpoint collect_agri (campi : list (CampusDecl Expr))
  (agri : dict SemanticTypus) : A (dict SemanticTypus) :=
  match campi with
  | [] => ret agri
  | mkCampusDecl nomen typus _ _ _ :: rest =>
      t <- resolve typus ;;
      collect_agri rest (dict_set agri nomen t)
  end.

Fixpoint collect_methodi (methodi : list Stmt) (acc : dict SemFunctio)
  : A (dict SemFunctio) :=
  match methodi with
  | [] => ret acc
  | StmtFunctio nomen params typus_reditus _ _ _ _ _ _ :: rest =>
      f <- _resolve_functio_typus params typus_reditus ;;
      collect_methodi rest (dict_set acc nomen f)
  | _ :: rest => collect_methodi rest acc
  end.

Definition _collect_genus (s : Stmt) (nomen : string)
  (campi : list (CampusDecl Expr)) (methodi : list Stmt) (locus : Locus)
  : A unit :=
  agri <- collect_agri campi [] ;;
  ms <- collect_methodi methodi [] ;;
  let genus := mkSemGenus nomen agri ms false in
  set_genus_registry nomen genus ;;
  register_typus nomen (TGenus genus) ;;
  definie (mkSymbolum nomen (TGenus genus) SymbolSpecies.GENUS true locus
                      (NodeStmt s)).

Fixpoint collect_membra (i : nat) (membra : list OrdoMembrum)
  (acc : dict nat) : dict nat :=
  match membra with
  | [] => acc
  | mkOrdoMembrum nomen _ _ :: rest =>
      collect_membra (S i) rest (dict_set acc nomen i)
  end.

Definition _collect_ordo (s : Stmt) (nomen : string)
  (membra : list OrdoMembrum) (locus : Locus) : A unit :=
  let ordo := mkSemOrdo nomen (collect_membra 0 membra []) in
  set_ordo_registry nomen ordo ;;
  register_typus nomen (TOrdo ordo) ;;
  definie (mkSymbolum nomen (TOrdo ordo) SymbolSpecies.ORDO true locus
                      (NodeStmt s)).

Fixpoint collect_varians_agri (campi : list VariansCampus)
  (agri : dict SemanticTypus) : A (dict SemanticTypus) :=
  match campi with
  | [] => ret agri
  | mkVariansCampus nomen typus :: rest =>
      t <- resolve typus ;;
      collect_varians_agri rest (dict_set agri nomen t)
  end.

Fixpoint collect_variantes (variantes : list VariansDecl)
  (acc : dict SemGenus) : A (dict SemGenus) :=
  match variantes with
  | [] => ret acc
  | (mkVariansDecl nomen campi locus as v) :: rest =>
      agri <- collect_varians_agri campi [] ;;
      let variant := mkSemGenus nomen agri [] false in
      definie (mkSymbolum nomen (TGenus variant) SymbolSpecies.VARIANS true
                          locus (NodeVarians v)) ;;
      collect_variantes rest (dict_set acc nomen variant)
  end.

Definition _collect_discretio (s : Stmt) (nomen : string)
  (variantes : list VariansDecl) (locus : Locus) : A unit :=
  vs <- collect_variantes variantes [] ;;
  let disc := mkSemDiscretio nomen vs in
  set_disc_registry nomen disc ;;
  register_typus nomen (TDiscretio disc) ;;
  definie (mkSymbolum nomen (TDiscretio disc) SymbolSpecies.DISCRETIO true
                      locus (NodeStmt s)).

Fixpoint collect_pactum_methodi (methodi : list (PactumMethodus Expr))
  (acc : dict SemFunctio) : A (dict SemFunctio) :=
  match methodi with
  | [] => ret acc
  | (mkPactumMethodus nomen _ _ _ _ as m) :: rest =>
      f <- _resolve_pactum_method_typus m ;;
      collect_pactum_methodi rest (dict_set acc nomen f)
  end.

Definition _collect_pactum (s : Stmt) (nomen : string)
  (methodi : list (PactumMethodus Expr)) (locus : Locus) : A unit :=
  ms <- collect_pactum_methodi methodi [] ;;
  let pactum := SemPactum nomen ms in
  register_typus nomen pactum ;;
  definie (mkSymbolum nomen pactum SymbolSpecies.PACTUM true locus
                      (NodeStmt s)).

Definition _collect_functio (s : Stmt) (nomen : string)
  (params : list (Param Expr)) (typus_reditus : option Typus)
  (externa : bool) (locus : Locus) : A unit :=
  if externa then ret tt else
  func_typus <- _resolve_functio_typus params typus_reditus ;;
  definie (mkSymbolum nomen (TFunctio func_typus) SymbolSpecies.FUNCTIO true
                      locus (NodeStmt s)).

(** Register type declarations in the first pass. *)
Definition _collect_declaration (stmt : Stmt) : A unit :=
  match stmt with
  | StmtGenus nomen campi methodi _ _ _ _ locus =>
      _collect_genus stmt nomen campi methodi locus
  | StmtOrdo nomen membra _ locus => _collect_ordo stmt nomen membra locus
  | StmtDiscretio nomen variantes _ _ locus =>
      _collect_discretio stmt nomen variantes locus
  | StmtPactum nomen methodi _ _ locus =>
      _collect_pactum stmt nomen methodi locus
  | StmtFunctio nomen params typus_reditus _ _ _ _ externa locus =>
      _collect_functio stmt nomen params typus_reditus externa locus
  | _ => ret tt
  end.

(** *** Pass 2: bodies *)

Definition _is_numeric (t : SemanticTypus) : bool :=
  match t with
  | SemPrimitivus species _ => in_list species ["numerus"; "fractus"]
  | _ => false
  end.

Definition _is_fractus (t : SemanticTypus) : bool :=
  match t with
  | SemPrimitivus species _ => String.eqb species "fractus"
  | _ => false
  end.

Definition _is_textus (t : SemanticTypus) : bool :=
  match t with
  | SemPrimitivus species _ => String.eqb species "textus"
  | _ => false
  end.

Definition _analyze_littera (species : LitteraSpecies.t) : SemanticTypus :=
  match species with
  | LitteraSpecies.TEXTUS => TEXTUS
  | LitteraSpecies.NUMERUS => NUMERUS
  | LitteraSpecies.FRACTUS => FRACTUS
  | LitteraSpecies.VERUM | LitteraSpecies.FALSUM => BIVALENS
  | LitteraSpecies.NIHIL => NIHIL
  end.

Definition _analyze_nomen (valor : string) (locus : Locus)
  : A SemanticTypus :=
  sym <- quaere valor ;;
  match sym with
  | Some y => ret (sym_typus y)
  | None =>
      ctx <- get ;;
      t <- lift_res (resolve_typus_nomen ctx valor) ;;
      match t with
      | PyNone | SemUsitatum _ _ =>
          error ("undefined identifier: " ++ valor) locus ;;
          ret IGNOTUM
      | _ => ret t
      end
  end.

(** [x if x else VACUUM] for a [reditus] *)
Definition reditus_or_vacuum (reditus : SemanticTypus) : SemanticTypus :=
  match reditus with
  | PyNone => VACUUM
  | _ => reditus
  end.

(** The value of [d[k]] under the test [k in d], or nothing. *)
Definition lookup_if_present {V} (d : dict V) (k : string)
  : Res (option V) :=
  if dict_has d k then bind_res (dict_index d k) (fun v => Ok (Some v))
  else Ok None.

(** [prop_name in genus.agri], then [prop_name in genus.methodi] *)
Definition genus_member (g : SemGenus) (prop_name : string)
  : Res (option SemanticTypus) :=
  match g with
  | mkSemGenus _ agri methodi _ =>
      bind_res (lookup_if_present agri prop_name) (fun a =>
      match a with
      | Some t => Ok (Some t)
      | None =>
          bind_res (lookup_if_present methodi prop_name) (fun m =>
          match m with
          | Some f => Ok (Some (TFunctio f))
          | None => Ok None
          end)
      end)
  end.

(** The first [disc.variantes[variant]] over [disc_registry.values()] *)
Fixpoint find_variant (discs : list SemDiscretio) (variant : string)
  : Res (option SemGenus) :=
  match discs with
  | [] => Ok None
  | mkSemDiscretio _ variantes :: rest =>
      if dict_has variantes variant
      then bind_res (dict_index variantes variant) (fun g => Ok (Some g))
      else find_variant rest variant
  end.

Section Recursion.

(** The recursive calls of [_analyze_expression] and [_analyze_statement],
    each with the identity of the node it is called on. *)
Variable expr_rec : NodeId -> Expr -> A SemanticTypus.
Variable stmt_rec : NodeId -> Stmt -> A unit.

(** [_analyze_expression(ctx, e)] for [e: Expr | None] *)
Definition _analyze_expression_opt (id : NodeId) (e : option Expr)
  : A SemanticTypus :=
  match e with
  | None => ret IGNOTUM
  | Some e => expr_rec id e
  end.

(** [for arg in args: _analyze_expression(ctx, arg)], the list at [id] *)
Definition analyze_each (id : NodeId) (args : list Expr) : A unit :=
  for_each_i (fun j arg => _ <- expr_rec (sub id j) arg ;; ret tt) 0 args.

(** [_analyze_statement(ctx, s)] for [s: Stmt | None] *)
Definition _analyze_statement_opt (id : NodeId) (s : option Stmt) : A unit :=
  match s with
  | None => ret tt
  | Some s => stmt_rec id s
  end.

Definition _analyze_binaria (id : NodeId) (signum : string) (sin dex : Expr)
  : A SemanticTypus :=
  left_type <- expr_rec (sub id 1) sin ;;
  right_type <- expr_rec (sub id 2) dex ;;
  if in_list signum ["+"; "-"; "*"; "/"; "%"] then
    if _is_numeric left_type && _is_numeric right_type then
      if _is_fractus left_type || _is_fractus right_type then ret FRACTUS
      else ret NUMERUS
    else if String.eqb signum "+" && _is_textus left_type then ret TEXTUS
    else ret IGNOTUM
  else if in_list signum ["=="; "!="; "<"; ">"; "<="; ">="] then ret BIVALENS
  else if in_list signum ["et"; "aut"; "&&"; "||"] then ret BIVALENS
  else if String.eqb signum "vel" then ret left_type
  else ret IGNOTUM.

Definition _analyze_unaria (id : NodeId) (signum : string) (arg : Expr)
  : A SemanticTypus :=
  arg_type <- expr_rec (sub id 1) arg ;;
  if in_list signum ["non"; "!"] then ret BIVALENS
  else if in_list signum ["nihil"; "nonnihil"; "nulla"; "nonnulla"]
  then ret BIVALENS
  else if in_list signum ["-"; "+"; "~"; "positivum"; "negativum"]
  then ret arg_type
  else ret arg_type.

Definition _analyze_vocatio (id : NodeId) (callee : Expr) (args : list Expr)
  : A SemanticTypus :=
  analyze_each (sub id 1) args ;;
  callee_type <- expr_rec (sub id 0) callee ;;
  match callee_type with
  | TFunctio (mkSemFunctio _ reditus _) => ret (reditus_or_vacuum reditus)
  | _ =>
      method <-
        match callee with
        | ExprMembrum _ prop _ _ _ =>
            obj_type <- get_expr_type (sub (sub id 0) 0) ;;
            match obj_type, prop with
            | TGenus (mkSemGenus _ _ methodi _), ExprLittera _ valor _ =>
                ret (dict_get methodi valor)
            | _, _ => ret None
            end
        | _ => ret None
        end ;;
      match method with
      | Some (mkSemFunctio _ reditus _) => ret (reditus_or_vacuum reditus)
      | None =>
          match callee with
          | ExprNomen valor _ =>
              ctx <- get ;;
              match dict_get (genus_registry ctx) valor with
              | Some genus => ret (TGenus genus)
              | None => ret IGNOTUM
              end
          | _ => ret IGNOTUM
          end
      end
  end.

(** The named-member rules of [_analyze_membrum], in the order of the
    source; each rule that does not apply falls through to the next. *)
Definition member_typus (ctx : SemanticContext) (obj_type : SemanticTypus)
  (prop_name : string) : Res SemanticTypus :=
  let is_collection := match obj_type with
                       | SemLista _ _ | SemTabula _ _ _ | SemCopia _ _ => true
                       | _ => false
                       end in
  if String.eqb prop_name "longitudo"
     && (is_collection || _is_textus obj_type)
  then Ok NUMERUS
  else
  match (if in_list prop_name ["primus"; "ultimus"] then
           match obj_type with
           | SemLista elementum _ => Some elementum
           | _ => None
           end
         else None) with
  | Some t => Ok t
  | None =>
      match obj_type with
      | TGenus g =>
          bind_res (genus_member g prop_name) (fun r =>
          match r with Some t => Ok t | None => Ok IGNOTUM end)
      | SemUsitatum nomen _ =>
          match dict_get (genus_registry ctx) nomen with
          | Some genus =>
              bind_res (genus_member genus prop_name) (fun r =>
              match r with Some t => Ok t | None => Ok IGNOTUM end)
          | None => Ok IGNOTUM
          end
      | TOrdo (mkSemOrdo _ membra) =>
          if dict_has membra prop_name then Ok obj_type else Ok IGNOTUM
      | TDiscretio (mkSemDiscretio _ variantes) =>
          bind_res (lookup_if_present variantes prop_name) (fun r =>
          match r with Some g => Ok (TGenus g) | None => Ok IGNOTUM end)
      | _ => Ok IGNOTUM
      end
  end.

Definition _analyze_membrum (id : NodeId) (obj prop : Expr)
  (computed : bool) : A SemanticTypus :=
  obj_type <- expr_rec (sub id 0) obj ;;
  if computed then
    _ <- expr_rec (sub id 1) prop ;;
    match obj_type with
    | SemLista elementum _ => ret elementum
    | SemTabula _ valor _ => ret valor
    | SemCopia _ _ => ret BIVALENS
    | _ => ret IGNOTUM
    end
  else
    match prop with
    | ExprLittera _ prop_name _ =>
        ctx <- get ;;
        lift_res (member_typus ctx obj_type prop_name)
    | _ => ret IGNOTUM
    end.

Fixpoint analyze_elementa (id : NodeId) (i : nat) (elementa : list Expr)
  (elem_type : SemanticTypus) : A SemanticTypus :=
  match elementa with
  | [] => ret elem_type
  | elem :: rest =>
      t <- expr_rec (sub id i) elem ;;
      analyze_elementa id (S i) rest
                       (if Nat.eqb i 0 then t else elem_type)
  end.

Definition _analyze_series (id : NodeId) (elementa : list Expr)
  : A SemanticTypus :=
  elem_type <- analyze_elementa (sub id 0) 0 elementa IGNOTUM ;;
  ret (SemLista elem_type false).

Fixpoint analyze_props (id : NodeId) (i : nat)
  (props : list (ObiectumProp Expr)) (fields : dict SemanticTypus)
  : A (dict SemanticTypus) :=
  match props with
  | [] => ret fields
  | mkObiectumProp key valor _ _ _ :: rest =>
      value_type <- _analyze_expression_opt (sub (sub id i) 1) valor ;;
      analyze_props id (S i) rest
                    match key with
                    | ExprLittera _ k _ => dict_set fields k value_type
                    | _ => fields
                    end
  end.

Definition _analyze_obiectum (id : NodeId)
  (props : list (ObiectumProp Expr)) : A SemanticTypus :=
  fields <- analyze_props (sub id 0) 0 props [] ;;
  ret (TGenus (mkSemGenus "" fields [] false)).

Fixpoint bind_params (params : list (Param Expr))
  (acc : list SemanticTypus) : A (list SemanticTypus) :=
  match params with
  | [] => ret acc
  | mkParam nomen typus _ _ _ _ _ :: rest =>
      param_type <- resolve typus ;;
      definie (Symbolum_simple nomen param_type SymbolSpecies.PARAMETRUM) ;;
      bind_params rest (acc ++ [param_type])%list
  end.

Definition _analyze_clausura (id : NodeId) (params : list (Param Expr))
  (corpus : ClausuraCorpus Expr Stmt) : A SemanticTypus :=
  intra_scopum ScopusSpecies.FUNCTIO "" ;;
  ps <- bind_params params [] ;;
  reditus <- match corpus with
             | CorpusStmt s => stmt_rec (sub id 1) s ;; ret PyNone
             | CorpusNone => ret PyNone
             | CorpusExpr e => expr_rec (sub id 1) e
             end ;;
  exi_scopum ;;
  ret (TFunctio (mkSemFunctio ps reditus false)).

Definition _analyze_novum (id : NodeId) (callee : Expr) (args : list Expr)
  (init : option Expr) : A SemanticTypus :=
  analyze_each (sub id 1) args ;;
  _ <- match init with
       | Some e => expr_rec (sub id 2) e
       | None => ret IGNOTUM
       end ;;
  match callee with
  | ExprNomen valor _ =>
      ctx <- get ;;
      match dict_get (genus_registry ctx) valor with
      | Some genus => ret (TGenus genus)
      | None =>
          sym <- quaere valor ;;
          match sym with
          | Some y =>
              if SymbolSpecies.eqb (sym_species y) SymbolSpecies.VARIANS
              then ret (sym_typus y)
              else ret (SemUsitatum valor false)
          | None => ret (SemUsitatum valor false)
          end
      end
  | _ => ret IGNOTUM
  end.

Fixpoint analyze_campi (id : NodeId) (i : nat)
  (campi : list (ObiectumProp Expr)) : A unit :=
  match campi with
  | [] => ret tt
  | mkObiectumProp _ valor _ _ _ :: rest =>
      _ <- _analyze_expression_opt (sub (sub id i) 1) valor ;;
      analyze_campi id (S i) rest
  end.

Definition _analyze_finge (id : NodeId) (variant : string)
  (campi : list (ObiectumProp Expr)) : A SemanticTypus :=
  analyze_campi (sub id 1) 0 campi ;;
  sym <- quaere variant ;;
  let by_symbol :=
    match sym with
    | Some y =>
        if SymbolSpecies.eqb (sym_species y) SymbolSpecies.VARIANS
        then Some (sym_typus y) else None
    | None => None
    end in
  match by_symbol with
  | Some t => ret t
  | None =>
      ctx <- get ;;
      found <- lift_res (find_variant (PyDict.values (disc_registry ctx))
                                      variant) ;;
      match found with
      | Some g => ret (TGenus g)
      | None => ret (SemUsitatum variant false)
      end
  end.

(** The body of [_analyze_expression] for a node that is not [None]: the
    type by cases, then [ctx.set_expr_type(expr, result)]. *)
Definition _analyze_expression_body (id : NodeId) (expr : Expr)
  : A SemanticTypus :=
  result <-
    match expr with
    | ExprLittera species _ _ => ret (_analyze_littera species)
    | ExprNomen valor locus => _analyze_nomen valor locus
    | ExprEgo _ =>
        sym <- quaere "ego" ;;
        ret (match sym with Some y => sym_typus y | None => IGNOTUM end)
    | ExprBinaria signum sin dex _ => _analyze_binaria id signum sin dex
    | ExprUnaria signum arg _ => _analyze_unaria id signum arg
    | ExprAssignatio _ sin dex _ =>
        _ <- expr_rec (sub id 1) sin ;;
        _ <- expr_rec (sub id 2) dex ;;
        get_expr_type (sub id 1)
    | ExprCondicio cond cons_ alt _ =>
        _ <- expr_rec (sub id 0) cond ;;
        cons_type <- expr_rec (sub id 1) cons_ ;;
        _ <- expr_rec (sub id 2) alt ;;
        ret cons_type
    | ExprVocatio callee args _ => _analyze_vocatio id callee args
    | ExprMembrum obj prop computed _ _ =>
        _analyze_membrum id obj prop computed
    | ExprSeries elementa _ => _analyze_series id elementa
    | ExprObiectum props _ => _analyze_obiectum id props
    | ExprClausura params corpus _ => _analyze_clausura id params corpus
    | ExprNovum callee args init _ => _analyze_novum id callee args init
    | ExprFinge variant campi _ _ => _analyze_finge id variant campi
    | ExprCede arg _ => expr_rec (sub id 0) arg
    | ExprQua _ typus _ => resolve typus
    | ExprInnatum _ typus _ => resolve typus
    | ExprPostfixNovum _ typus _ => resolve typus
    | ExprScriptum _ args _ =>
        analyze_each (sub id 1) args ;;
        ret TEXTUS
    | ExprAmbitus start finis _ _ =>
        _ <- expr_rec (sub id 0) start ;;
        _ <- expr_rec (sub id 1) finis ;;
        ret (SemLista NUMERUS false)
    | ExprConversio expr' species fallback _ =>
        _ <- expr_rec (sub id 0) expr' ;;
        _ <- match fallback with
             | Some f => expr_rec (sub id 2) f
             | None => ret IGNOTUM
             end ;;
        if String.eqb species "numeratum" then ret NUMERUS
        else if String.eqb species "fractatum" then ret FRACTUS
        else if String.eqb species "textatum" then ret TEXTUS
        else if String.eqb species "bivalentum" then ret BIVALENS
        else ret IGNOTUM
    end ;;
  set_expr_type id result ;;
  ret result.

Definition _analyze_varia (id : NodeId) (s : Stmt) (nomen : string)
  (species : VariaSpecies.t) (typus : option Typus) (valor : option Expr)
  (externa : bool) (locus : Locus) : A unit :=
  if externa then ret tt else
  annotated <- match typus with
               | Some _ => resolve typus
               | None => ret IGNOTUM
               end ;;
  var_type <-
    match valor with
    | Some e =>
        _ <- expr_rec (sub id 3) e ;;
        init_type <- get_expr_type (sub id 3) ;;
        ret (match typus with None => init_type | Some _ => annotated end)
    | None => ret annotated
    end ;;
  definie (mkSymbolum nomen var_type SymbolSpecies.VARIABILIS
                      match species with
                      | VariaSpecies.VARIA => true
                      | _ => false
                      end
                      locus (NodeStmt s)).

Fixpoint define_params (params : list (Param Expr)) : A unit :=
  match params with
  | [] => ret tt
  | mkParam nomen typus _ _ _ _ _ :: rest =>
      param_type <- resolve typus ;;
      definie (Symbolum_simple nomen param_type SymbolSpecies.PARAMETRUM) ;;
      define_params rest
  end.

Definition _analyze_functio (id : NodeId) (nomen : string)
  (params : list (Param Expr)) (corpus : option Stmt) (externa : bool)
  : A unit :=
  match corpus with
  | None => ret tt
  | Some c =>
      if externa then ret tt else
      intra_scopum ScopusSpecies.FUNCTIO nomen ;;
      define_params params ;;
      stmt_rec (sub id 3) c ;;
      exi_scopum
  end.

Definition _analyze_genus (id : NodeId) (nomen : string)
  (methodi : list Stmt) : A unit :=
  for_each_i
    (fun j method =>
       match method with
       | StmtFunctio m_nomen params _ corpus _ _ _ externa _ =>
           intra_scopum ScopusSpecies.GENUS nomen ;;
           ctx <- get ;;
           let genus := match dict_get (genus_registry ctx) nomen with
                        | Some g => TGenus g
                        | None => PyNone
                        end in
           definie (Symbolum_simple "ego" genus SymbolSpecies.VARIABILIS) ;;
           _analyze_functio (sub2 id 2 j) m_nomen params corpus externa ;;
           exi_scopum
       | _ => ret tt
       end)
    0 methodi.

Fixpoint define_bindings (agri : dict SemanticTypus)
  (bindings : list string) : A unit :=
  match bindings with
  | [] => ret tt
  | b :: rest =>
      let field_type := match dict_get agri b with
                        | Some t => t
                        | None => IGNOTUM
                        end in
      definie (Symbolum_simple b field_type SymbolSpecies.VARIABILIS) ;;
      define_bindings agri rest
  end.

(** [discrim_id] is the identity of [discrim[0]], when there is one. *)
Definition _analyze_pattern (p : VariansPattern)
  (discrim_id : option NodeId) : A unit :=
  match p with
  | mkVariansPattern variant bindings alias wildcard _ =>
      if wildcard then ret tt else
      match discrim_id with
      | Some d =>
          discrim_type <- get_expr_type d ;;
          match discrim_type with
          | TDiscretio (mkSemDiscretio _ variantes) =>
              v <- lift_res (lookup_if_present variantes variant) ;;
              match v with
              | Some (mkSemGenus _ agri _ _) => define_bindings agri bindings
              | None => ret tt
              end
          | _ => ret tt
          end
      | None => ret tt
      end ;;
      match alias with
      | Some a => definie (Symbolum_simple a IGNOTUM SymbolSpecies.VARIABILIS)
      | None => ret tt
      end
  end.

(** The body of [_analyze_statement]. *)
Definition _analyze_statement_body (id : NodeId) (stmt : Stmt) : A unit :=
  match stmt with
  | StmtMassa corpus _ =>
      intra_scopum ScopusSpecies.MASSA "" ;;
      for_each_i (fun j inner => stmt_rec (sub2 id 0 j) inner) 0 corpus ;;
      exi_scopum
  | StmtVaria nomen species typus valor _ externa locus =>
      _analyze_varia id stmt nomen species typus valor externa locus
  | StmtFunctio nomen params _ corpus _ _ _ externa _ =>
      _analyze_functio id nomen params corpus externa
  | StmtGenus nomen _ methodi _ _ _ _ _ => _analyze_genus id nomen methodi
  | StmtSi cond cons_ alt _ =>
      _ <- expr_rec (sub id 0) cond ;;
      stmt_rec (sub id 1) cons_ ;;
      _analyze_statement_opt (sub id 2) alt
  | StmtDum cond corpus _ =>
      _ <- expr_rec (sub id 0) cond ;;
      stmt_rec (sub id 1) corpus
  | StmtFacDum corpus cond _ =>
      stmt_rec (sub id 0) corpus ;;
      _ <- expr_rec (sub id 1) cond ;;
      ret tt
  | StmtIteratio binding iter corpus _ _ _ =>
      _ <- expr_rec (sub id 1) iter ;;
      intra_scopum ScopusSpecies.MASSA "" ;;
      iter_type <- get_expr_type (sub id 1) ;;
      let elem_type := match iter_type with
                       | SemLista elementum _ => elementum
                       | _ => IGNOTUM
                       end in
      definie (Symbolum_simple binding elem_type SymbolSpecies.VARIABILIS) ;;
      stmt_rec (sub id 2) corpus ;;
      exi_scopum
  | StmtElige discrim casus default _ =>
      _ <- expr_rec (sub id 0) discrim ;;
      for_each_i
        (fun j c =>
           match c with
           | mkEligeCasus cond corpus _ =>
               _ <- expr_rec (sub (sub2 id 1 j) 0) cond ;;
               stmt_rec (sub (sub2 id 1 j) 1) corpus
           end) 0 casus ;;
      _analyze_statement_opt (sub id 2) default
  | StmtDiscerne discrim casus _ =>
      analyze_each (sub id 0) discrim ;;
      let discrim_id := match discrim with
                        | _ :: _ => Some (sub2 id 0 0)
                        | [] => None
                        end in
      for_each_i
        (fun j c =>
           match c with
           | mkDiscerneCasus patterns corpus _ =>
               intra_scopum ScopusSpecies.MASSA "" ;;
               for_each (fun p => _analyze_pattern p discrim_id) patterns ;;
               _analyze_statement_opt (sub (sub2 id 1 j) 1) corpus ;;
               exi_scopum
           end) 0 casus
  | StmtRedde valor _ =>
      _ <- _analyze_expression_opt (sub id 0) valor ;; ret tt
  | StmtExpressia expr _ =>
      _ <- expr_rec (sub id 0) expr ;; ret tt
  | StmtScribe args _ _ => analyze_each (sub id 0) args
  | StmtAdfirma cond msg _ =>
      _ <- expr_rec (sub id 0) cond ;;
      _ <- _analyze_expression_opt (sub id 1) msg ;; ret tt
  | StmtIace arg _ _ =>
      _ <- _analyze_expression_opt (sub id 0) arg ;; ret tt
  | StmtCustodi clausulae _ =>
      for_each_i
        (fun j c =>
           match c with
           | mkCustodiClausula cond corpus _ =>
               _ <- expr_rec (sub (sub2 id 0 j) 0) cond ;;
               stmt_rec (sub (sub2 id 0 j) 1) corpus
           end) 0 clausulae
  | StmtIncipit corpus _ _ => stmt_rec (sub id 0) corpus
  | StmtTempta corpus cape demum _ =>
      stmt_rec (sub id 0) corpus ;;
      match cape with
      | Some (mkCapeClausula _ body _) => stmt_rec (sub (sub id 1) 1) body
      | None => ret tt
      end ;;
      _analyze_statement_opt (sub id 2) demum
  | StmtTypusAlias nomen typus _ locus =>
      target_type <- resolve typus ;;
      register_typus nomen target_type ;;
      definie (mkSymbolum nomen target_type SymbolSpecies.TYPUS true locus
                          (NodeStmt stmt))
  | StmtIn expr corpus _ =>
      _ <- expr_rec (sub id 0) expr ;;
      stmt_rec (sub id 1) corpus
  | _ => ret tt
  end.

End Recursion.

Fixpoint _analyze_expression (id : NodeId) (expr : Expr)
  : A SemanticTypus :=
  _analyze_expression_body _analyze_expression _analyze_statement id expr
with _analyze_statement (id : NodeId) (stmt : Stmt) : A unit :=
  _analyze_statement_body _analyze_expression _analyze_statement id stmt.

(** Perform semantic analysis on a parsed module. *)
Definition analyze_module (corpus : list Stmt) : A unit :=
  (* Pass 1: Collect all type declarations *)
  for_each _collect_declaration corpus ;;
  (* Pass 2: Resolve types in all declarations and bodies *)
  for_each_i (fun j stmt => _analyze_statement (sub2 [] 0 j) stmt) 0 corpus.

Definition analyze (mod_ : Modulus) : Res SemanticContext :=
  match mod_ with
  | mkModulus corpus _ =>
      bind_res (analyze_module corpus SemanticContext_new)
               (fun r => Ok (snd r))
  end.

End Semantic.


(** ** emitter_py.py *)

Module PyEmitter.
Local Open Scope res_scope.

Definition PY_BINARY_OPS : dict string := [
  ("et", "and");
  ("aut", "or");
  ("==", "==");
  ("!=", "!=");
  ("===", "is");
  ("!==", "is not")
].

Definition PY_UNARY_OPS : dict string := [
  ("non", "not ");
  ("nihil", "");
  ("nonnihil", "");
  ("positivum", "+");
  ("negativum", "-")
].

Definition PY_TYPE_MAP : dict string := [
  ("textus", "str");
  ("numerus", "int");
  ("fractus", "float");
  ("bivalens", "bool");
  ("nihil", "None");
  ("vacuum", "None");
  ("vacuus", "None");
  ("ignotum", "Any");
  ("quodlibet", "Any");
  ("quidlibet", "Any");
  ("lista", "list");
  ("tabula", "dict");
  ("copia", "set")
].

(** [d.get(k, k)] *)
Definition get_or_self (d : dict string) (k : string) : string :=
  match dict_get d k with
  | Some v => v
  | None => k
  end.

Definition indent_char : string := "    ".

(** The placeholder that the template case replaces, as the source file
    spells it: the two characters U+0E22 U+0E07, not the section sign. *)
Definition TEMPLATE_PLACEHOLDER : string := "ยง".

(** [_typus] on a type that is not [None]. *)
Fixpoint _typus (t : Typus) : string :=
  match t with
  | TypusNomen nomen => get_or_self PY_TYPE_MAP nomen
  | TypusNullabilis inner => _typus inner ++ " | None"
  | TypusGenericus nomen args =>
      get_or_self PY_TYPE_MAP nomen
      ++ "[" ++ join ", " (map _typus args) ++ "]"
  | TypusFunctio params returns =>
      "Callable[[" ++ join ", " (map _typus params) ++ "], "
      ++ match returns with Some r => _typus r | None => "None" end ++ "]"
  | TypusUnio members => join " | " (map _typus members)
  | TypusLitteralis valor => valor
  end.

(** [self._typus(t)] for [t: Typus | None] *)
Definition _typus_opt (t : option Typus) : string :=
  match t with
  | Some t => _typus t
  | None => "Any"
  end.

(** [self._typus(x) if x else "Any"] *)
Definition _typus_or_any (t : option Typus) : string := _typus_opt t.

Section ExprRecursion.
Variable expr_rec : Expr -> string.

(** [self._expr(e)] for [e: Expr | None] *)
Definition _expr_opt (e : option Expr) : string :=
  match e with
  | Some e => expr_rec e
  | None => "None"
  end.

(** [key=value] for the properties of an initializer block *)
Definition _field (p : ObiectumProp Expr) : string :=
  match p with
  | mkObiectumProp key valor _ _ _ =>
      match key with
      | ExprLittera _ k _ => k
      | _ => expr_rec key
      end ++ "=" ++ _expr_opt valor
  end.

Definition _fields (props : list (ObiectumProp Expr)) : string :=
  join ", " (map _field props).

Definition _obiectum_pair (p : ObiectumProp Expr) : string :=
  match p with
  | mkObiectumProp key valor shorthand _ _ =>
      if shorthand then
        let k := expr_rec key in
        dq ++ k ++ dq ++ ": " ++ k
      else
        let k := match key with
                 | ExprLittera _ v _ => repr v
                 | _ => expr_rec key
                 end in
        k ++ ": " ++ _expr_opt valor
  end.

(** The builtin method rewrites of the call case: [Some] text when the
    method name is a recognized one and, for [sectio], the number of
    arguments is one or two. *)
Definition _builtin (method obj : string) (args : list string)
  : option string :=
  if String.eqb method "longitudo" then Some ("len(" ++ obj ++ ")")
  else if String.eqb method "appende" then
    Some (obj ++ ".append(" ++ join ", " args ++ ")")
  else if String.eqb method "adde" then
    Some (obj ++ ".add(" ++ join ", " args ++ ")")
  else if String.eqb method "coniunge" then
    Some (join ", " args ++ ".join(" ++ obj ++ ")")
  else if String.eqb method "continet" then
    Some (join ", " args ++ " in " ++ obj)
  else if String.eqb method "initium" then
    Some (obj ++ ".startswith(" ++ join ", " args ++ ")")
  else if String.eqb method "finis" then
    Some (obj ++ ".endswith(" ++ join ", " args ++ ")")
  else if String.eqb method "maiuscula" then Some (obj ++ ".upper()")
  else if String.eqb method "minuscula" then Some (obj ++ ".lower()")
  else if String.eqb method "recide" then Some (obj ++ ".strip()")
  else if String.eqb method "divide" then
    Some (obj ++ ".split(" ++ join ", " args ++ ")")
  else if String.eqb method "muta" then
    Some (obj ++ ".replace(" ++ join ", " args ++ ")")
  else if String.eqb method "sectio" then
    match args with
    | [a; b] => Some (obj ++ "[" ++ a ++ ":" ++ b ++ "]")
    | [a] => Some (obj ++ "[" ++ a ++ ":]")
    | _ => None
    end
  else None.

Definition _vocatio (callee : Expr) (args : list Expr) : string :=
  let generic :=
    expr_rec callee ++ "(" ++ join ", " (map expr_rec args) ++ ")" in
  match callee with
  | ExprMembrum obj (ExprLittera _ method _) false _ _ =>
      match _builtin method (expr_rec obj) (map expr_rec args) with
      | Some text => text
      | None => generic
      end
  | _ => generic
  end.

Definition _membrum (obj prop : Expr) (computed : bool) : string :=
  let o := expr_rec obj in
  if computed then o ++ "[" ++ expr_rec prop ++ "]"
  else
    let p := match prop with
             | ExprLittera _ v _ => v
             | _ => expr_rec prop
             end in
    if String.eqb p "longitudo" then "len(" ++ o ++ ")"
    else if String.eqb p "primus" then o ++ "[0]"
    else if String.eqb p "ultimus" then o ++ "[-1]"
    else o ++ "." ++ p.

Definition param_nomen (p : Param Expr) : string :=
  match p with mkParam nomen _ _ _ _ _ _ => nomen end.

(** The body of [_expr]. *)
Definition _expr_body (e : Expr) : string :=
  match e with
  | ExprNomen valor _ => valor
  | ExprEgo _ => "self"
  | ExprLittera species valor _ =>
      match species with
      | LitteraSpecies.TEXTUS => repr valor
      | LitteraSpecies.VERUM => "True"
      | LitteraSpecies.FALSUM => "False"
      | LitteraSpecies.NIHIL => "None"
      | _ => valor
      end
  | ExprBinaria signum sin dex _ =>
      let op := get_or_self PY_BINARY_OPS signum in
      if String.eqb signum "vel" then
        let left := expr_rec sin in
        let right := expr_rec dex in
        "(" ++ left ++ " if " ++ left ++ " is not None else " ++ right ++ ")"
      else if String.eqb signum "inter" then
        expr_rec sin ++ " in " ++ expr_rec dex
      else if String.eqb signum "intra" then
        expr_rec sin ++ " not in " ++ expr_rec dex
      else "(" ++ expr_rec sin ++ " " ++ op ++ " " ++ expr_rec dex ++ ")"
  | ExprUnaria signum arg _ =>
      if String.eqb signum "nonnihil" then
        "(" ++ expr_rec arg ++ " is not None)"
      else if String.eqb signum "nihil" then
        "(" ++ expr_rec arg ++ " is None)"
      else "(" ++ get_or_self PY_UNARY_OPS signum ++ expr_rec arg ++ ")"
  | ExprAssignatio signum sin dex _ =>
      expr_rec sin ++ " " ++ signum ++ " " ++ expr_rec dex
  | ExprVocatio callee args _ => _vocatio callee args
  | ExprMembrum obj prop computed _ _ => _membrum obj prop computed
  | ExprCondicio cond cons_ alt _ =>
      "(" ++ expr_rec cons_ ++ " if " ++ expr_rec cond ++ " else "
      ++ expr_rec alt ++ ")"
  | ExprSeries elementa _ => "[" ++ join ", " (map expr_rec elementa) ++ "]"
  | ExprObiectum props _ =>
      "{" ++ join ", " (map _obiectum_pair props) ++ "}"
  | ExprClausura params corpus _ =>
      let ps := join ", " (map param_nomen params) in
      match corpus with
      | CorpusExpr x => "lambda " ++ ps ++ ": " ++ expr_rec x
      | CorpusNone => "lambda " ++ ps ++ ": " ++ "None"
      | CorpusStmt _ => "(lambda " ++ ps ++ ": None)"
      end
  | ExprNovum callee args init _ =>
      let a := join ", " (map expr_rec args) in
      let c := expr_rec callee in
      match init with
      | Some (ExprObiectum props _) => c ++ "(" ++ _fields props ++ ")"
      | _ => c ++ "(" ++ a ++ ")"
      end
  | ExprPostfixNovum expr typus _ =>
      let typ := _typus_opt typus in
      match expr with
      | ExprObiectum props _ => typ ++ "(" ++ _fields props ++ ")"
      | _ => typ ++ "(" ++ expr_rec expr ++ ")"
      end
  | ExprQua expr _ _ => expr_rec expr
  | ExprInnatum expr _ _ => expr_rec expr
  | ExprCede arg _ => "await " ++ expr_rec arg
  | ExprFinge variant campi _ _ => variant ++ "(" ++ _fields campi ++ ")"
  | ExprScriptum template args _ =>
      let template' := replace template TEMPLATE_PLACEHOLDER "{}" in
      let a := join ", " (map expr_rec args) in
      "f" ++ dq ++ template' ++ dq ++ ".format(" ++ a ++ ")"
  | ExprAmbitus start finis inclusive _ =>
      let a := expr_rec start in
      let b := expr_rec finis in
      if inclusive then "range(" ++ a ++ ", " ++ b ++ " + 1)"
      else "range(" ++ a ++ ", " ++ b ++ ")"
  | ExprConversio _ _ _ _ => "# unknown expr"
  end.

End ExprRecursion.

Fixpoint _expr (e : Expr) : string := _expr_body _expr e.

(** [self._expr(e)] for [e: Expr | None] *)
Definition _expr_o (e : option Expr) : string := _expr_opt _expr e.

Definition _param (p : Param Expr) : string :=
  match p with
  | mkParam nomen typus default rest _ _ _ =>
      let typ := match typus with Some t => _typus t | None => "" end in
      let name := if rest then "*" ++ nomen else nomen in
      name
      ++ (if String.eqb typ "" then "" else ": " ++ typ)
      ++ match default with
         | Some d => " = " ++ _expr d
         | None => ""
         end
  end.

(** Recursively scan for needed imports; the set is a list without
    repetition. *)
Definition set_add (x : string) (xs : list string) : list string :=
  if in_list x xs then xs else (xs ++ [x])%list.

Fixpoint _scan_imports (stmt : Stmt) (imports : list string) : list string :=
  match stmt with
  | StmtPactum _ _ _ _ _ => set_add "from typing import Protocol" imports
  | StmtOrdo _ _ _ _ => set_add "from enum import Enum, auto" imports
  | StmtDiscretio _ _ _ _ _ =>
      set_add "from dataclasses import dataclass" imports
  | StmtGenus _ _ methodi _ _ _ _ _ =>
      fold_left (fun acc m => _scan_imports m acc) methodi
                (set_add "from dataclasses import dataclass" imports)
  | StmtFunctio _ _ _ corpus _ _ _ _ _ =>
      match corpus with
      | Some c => _scan_imports c imports
      | None => imports
      end
  | StmtMassa corpus _ =>
      fold_left (fun acc x => _scan_imports x acc) corpus imports
  | StmtSi _ cons_ alt _ =>
      let imports := _scan_imports cons_ imports in
      match alt with
      | Some a => _scan_imports a imports
      | None => imports
      end
  | StmtDum _ corpus _ => _scan_imports corpus imports
  | StmtIteratio _ _ corpus _ _ _ => _scan_imports corpus imports
  | StmtElige _ casus default _ =>
      let imports :=
        fold_left (fun acc c => match c with
                                | mkEligeCasus _ corpus _ =>
                                    _scan_imports corpus acc
                                end) casus imports in
      match default with
      | Some d => _scan_imports d imports
      | None => imports
      end
  | StmtTempta corpus cape demum _ =>
      let imports := _scan_imports corpus imports in
      let imports := match cape with
                     | Some (mkCapeClausula _ body _) =>
                         _scan_imports body imports
                     | None => imports
                     end in
      match demum with
      | Some d => _scan_imports d imports
      | None => imports
      end
  | StmtProbandum _ corpus _ =>
      fold_left (fun acc x => _scan_imports x acc) corpus imports
  | StmtProba _ corpus _ => _scan_imports corpus imports
  | StmtIncipit corpus _ _ => _scan_imports corpus imports
  | _ => imports
  end.

Definition _collect_imports (corpus : list Stmt) : list string :=
  fold_left (fun acc stmt => _scan_imports stmt acc) corpus [].

(** [sorted(imports)] *)
Fixpoint insert_sorted (x : string) (xs : list string) : list string :=
  match xs with
  | [] => [x]
  | y :: ys => if String.leb x y then x :: xs else y :: insert_sorted x ys
  end.

Definition sorted (xs : list string) : list string :=
  fold_right insert_sorted [] xs.

Section StmtRecursion.
Variable stmt_rec : Stmt -> string -> Res string.

(** [" -> T"] of a signature *)
Definition reditus_text (typus_reditus : option Typus) : string :=
  match typus_reditus with
  | Some t => " -> " ++ _typus t
  | None => ""
  end.

(** The body of a definition: the statement, or [pass]. *)
Definition body_or_pass (corpus : option Stmt) (indent : string)
  : Res string :=
  match corpus with
  | Some c => stmt_rec c (indent ++ indent_char)
  | None => Ok (indent ++ indent_char ++ "pass")
  end.

Definition _massa (corpus : list Stmt) (indent : string) : Res string :=
  match corpus with
  | [] => Ok (indent ++ "pass")
  | _ =>
      lines <- map_res (fun stmt => stmt_rec stmt indent) corpus ;;
      Ok (join nl lines)
  end.

Definition _varia (nomen : string) (typus : option Typus)
  (valor : option Expr) (externa : bool) (indent : string) : string :=
  if externa then indent ++ "# extern: " ++ nomen else
  let typ_ann := match typus with
                 | Some t => ": " ++ _typus t
                 | None => ""
                 end in
  match valor with
  | Some v => indent ++ nomen ++ typ_ann ++ " = " ++ _expr v
  | None =>
      if String.eqb typ_ann "" then indent ++ nomen ++ " = None"
      else indent ++ nomen ++ typ_ann ++ " = None"
  end.

Definition _functio (nomen : string) (params : list (Param Expr))
  (typus_reditus : option Typus) (corpus : option Stmt)
  (asynca externa : bool) (indent : string) : Res string :=
  if externa then Ok (indent ++ "# extern: " ++ nomen) else
  let head := indent ++ (if asynca then "async def " else "def ") ++ nomen
              ++ "(" ++ join ", " (map _param params) ++ ")"
              ++ reditus_text typus_reditus ++ ":" in
  body <- body_or_pass corpus indent ;;
  Ok (join nl [head; body]).

Definition _method (nomen : string) (params : list (Param Expr))
  (typus_reditus : option Typus) (corpus : option Stmt) (asynca : bool)
  (indent : string) : Res string :=
  let head := indent ++ (if asynca then "async def " else "def ") ++ nomen
              ++ "(self"
              ++ String.concat "" (map (fun p => ", " ++ _param p) params)
              ++ ")" ++ reditus_text typus_reditus ++ ":" in
  body <- body_or_pass corpus indent ;;
  Ok (join nl [head; body]).

Definition _campus (inner : string) (c : CampusDecl Expr) : string :=
  match c with
  | mkCampusDecl nomen typus valor _ _ =>
      let typ := _typus_or_any typus in
      match valor with
      | Some v => inner ++ nomen ++ ": " ++ typ ++ " = " ++ _expr v
      | None => inner ++ nomen ++ ": " ++ typ
      end
  end.

(** The lines of the methods of a class: a blank line before each. *)
Fixpoint _genus_methodi (methodi : list Stmt) (inner : string)
  : Res (list string) :=
  match methodi with
  | [] => Ok []
  | StmtFunctio nomen params typus_reditus corpus asynca _ _ _ _ :: rest =>
      m <- _method nomen params typus_reditus corpus asynca inner ;;
      ms <- _genus_methodi rest inner ;;
      Ok ("" :: m :: ms)
  | _ :: rest => _genus_methodi rest inner
  end.

Definition _genus (nomen : string) (campi : list (CampusDecl Expr))
  (methodi : list Stmt) (indent : string) : Res string :=
  let head := [indent ++ "@dataclass"; indent ++ "class " ++ nomen ++ ":"] in
  let inner := indent ++ indent_char in
  match campi, methodi with
  | [], [] =>
      let pass := inner ++ "pass" in
      Ok (join nl (head ++ [pass])%list)
  | _, _ =>
      ms <- _genus_methodi methodi inner ;;
      Ok (join nl (head ++ map (_campus inner) campi ++ ms)%list)
  end.

Definition _pactum_methodus (inner : string) (m : PactumMethodus Expr)
  : string :=
  match m with
  | mkPactumMethodus nomen params typus_reditus asynca _ =>
      inner ++ (if asynca then "async def " else "def ") ++ nomen ++ "(self"
      ++ String.concat "" (map (fun p => ", " ++ _param p) params)
      ++ ")" ++ reditus_text typus_reditus ++ ": ..."
  end.

Definition _pactum (nomen : string) (methodi : list (PactumMethodus Expr))
  (indent : string) : string :=
  let head := indent ++ "class " ++ nomen ++ "(Protocol):" in
  let inner := indent ++ indent_char in
  match methodi with
  | [] => join nl [head; inner ++ "pass"]
  | _ => join nl (head :: map (_pactum_methodus inner) methodi)
  end.

Definition _ordo_membrum (inner : string) (m : OrdoMembrum) : string :=
  match m with
  | mkOrdoMembrum nomen valor _ =>
      match valor with
      | Some v => inner ++ nomen ++ " = " ++ v
      | None => inner ++ nomen ++ " = auto()"
      end
  end.

Definition _ordo (nomen : string) (membra : list OrdoMembrum)
  (indent : string) : string :=
  let head := indent ++ "class " ++ nomen ++ "(Enum):" in
  let inner := indent ++ indent_char in
  match membra with
  | [] => join nl [head; inner ++ "pass"]
  | _ => join nl (head :: map (_ordo_membrum inner) membra)
  end.

Definition _varians_campus (inner : string) (f : VariansCampus) : string :=
  match f with
  | mkVariansCampus nomen typus =>
      inner ++ nomen ++ ": " ++ _typus_or_any typus
  end.

Definition _varians (indent : string) (v : VariansDecl) : list string :=
  match v with
  | mkVariansDecl nomen campi _ =>
      let inner := indent ++ indent_char in
      let head := [indent ++ "@dataclass"; indent ++ "class " ++ nomen ++ ":"] in
      let body := match campi with
                  | [] => [inner ++ "pass"]
                  | _ => map (_varians_campus inner) campi
                  end in
      (head ++ body ++ [""])%list
  end.

Definition varians_nomen (v : VariansDecl) : string :=
  match v with mkVariansDecl nomen _ _ => nomen end.

Definition _discretio (nomen : string) (variantes : list VariansDecl)
  (indent : string) : string :=
  let last_line := indent ++ nomen ++ " = "
                   ++ join " | " (map varians_nomen variantes) in
  join nl (concat (map (_varians indent) variantes) ++ [last_line])%list.

(** [_importa] reads [s.local] for a total import and [s.imported]
    otherwise; [StmtImporta] has the fields [fons], [specs], [totum],
    [alias] and [locus] ([nodes.py]), so either attribute access raises. *)
Definition _importa (fons : string) (specs : list ImportSpec) (totum : bool)
  (alias : option string) (indent : string) : Res string :=
  let module := replace (replace fons "/" ".") "-" "_" in
  if totum then Raise_Host (AttributeError "StmtImporta" "local")
  else Raise_Host (AttributeError "StmtImporta" "imported").

Definition _redde (valor : option Expr) (indent : string) : string :=
  match valor with
  | None => indent ++ "return"
  | Some v => indent ++ "return " ++ _expr v
  end.

Definition _si (cond : Expr) (cons : Stmt) (alt : option Stmt)
  (indent : string) : Res string :=
  let head := indent ++ "if " ++ _expr cond ++ ":" in
  body <- stmt_rec cons (indent ++ indent_char) ;;
  match alt with
  | None => Ok (join nl [head; body])
  | Some (StmtSi _ _ _ _ as a) =>
      x <- stmt_rec a "" ;;
      Ok (join nl [head; body;
                   indent ++ "el" ++ drop (String.length indent) x])
  | Some a =>
      x <- stmt_rec a (indent ++ indent_char) ;;
      Ok (join nl [head; body; indent ++ "else:"; x])
  end.

Definition _dum (cond : Expr) (corpus : Stmt) (indent : string)
  : Res string :=
  body <- stmt_rec corpus (indent ++ indent_char) ;;
  Ok (join nl [indent ++ "while " ++ _expr cond ++ ":"; body]).

Definition _fac_dum (corpus : Stmt) (cond : Expr) (indent : string)
  : Res string :=
  let inner := indent ++ indent_char in
  body <- stmt_rec corpus inner ;;
  Ok (join nl [indent ++ "while True:"; body;
               inner ++ "if not (" ++ _expr cond ++ "):";
               inner ++ indent_char ++ "break"]).

Definition _iteratio (binding : string) (iter : Expr) (corpus : Stmt)
  (asynca : bool) (indent : string) : Res string :=
  let head := indent ++ (if asynca then "async for " else "for ")
              ++ binding ++ " in " ++ _expr iter ++ ":" in
  body <- stmt_rec corpus (indent ++ indent_char) ;;
  Ok (join nl [head; body]).

Definition _elige_casus (inner : string) (c : EligeCasus Expr Stmt)
  : Res (list string) :=
  match c with
  | mkEligeCasus cond corpus _ =>
      body <- stmt_rec corpus (inner ++ indent_char) ;;
      Ok [inner ++ "case " ++ _expr cond ++ ":"; body]
  end.

Definition _elige (discrim : Expr) (casus : list (EligeCasus Expr Stmt))
  (default : option Stmt) (indent : string) : Res string :=
  let inner := indent ++ indent_char in
  cs <- map_res (_elige_casus inner) casus ;;
  df <- match default with
        | Some d =>
            body <- stmt_rec d (inner ++ indent_char) ;;
            Ok [inner ++ "case _:"; body]
        | None => Ok []
        end ;;
  let head := indent ++ "match " ++ _expr discrim ++ ":" in
  Ok (join nl (head :: concat cs ++ df)%list).

Definition _pattern (p : VariansPattern) : string :=
  match p with
  | mkVariansPattern variant bindings alias wildcard _ =>
      if wildcard then "_"
      else variant
           ++ match bindings with
              | [] => ""
              | _ => "(" ++ join ", " bindings ++ ")"
              end
           ++ match alias with
              | Some a => if truthy alias then " as " ++ a else ""
              | None => ""
              end
  end.

(** [self._stmt(s, indent)] for [s: Stmt | None] *)
Definition _stmt_opt (s : option Stmt) (indent : string) : Res string :=
  match s with
  | Some s => stmt_rec s indent
  | None => Ok (indent ++ "# unknown statement")
  end.

Definition _discerne_casus (inner : string) (c : DiscerneCasus Stmt)
  : Res (list string) :=
  match c with
  | mkDiscerneCasus patterns corpus _ =>
      body <- _stmt_opt corpus (inner ++ indent_char) ;;
      Ok [inner ++ "case " ++ join ", " (map _pattern patterns) ++ ":"; body]
  end.

Definition _discerne (discrim : list Expr)
  (casus : list (DiscerneCasus Stmt)) (indent : string) : Res string :=
  let d := join ", " (map _expr discrim) in
  let head := if Nat.ltb 1 (length discrim)
              then indent ++ "match (" ++ d ++ "):"
              else indent ++ "match " ++ d ++ ":" in
  let inner := indent ++ indent_char in
  cs <- map_res (_discerne_casus inner) casus ;;
  Ok (join nl (head :: concat cs)).

Definition _custodi_clausula (indent : string)
  (c : CustodiClausula Expr Stmt) : Res (list string) :=
  match c with
  | mkCustodiClausula cond corpus _ =>
      body <- stmt_rec corpus (indent ++ indent_char) ;;
      Ok [indent ++ "if " ++ _expr cond ++ ":"; body]
  end.

Definition _custodi (clausulae : list (CustodiClausula Expr Stmt))
  (indent : string) : Res string :=
  cs <- map_res (_custodi_clausula indent) clausulae ;;
  Ok (join nl (concat cs)).

Definition _tempta (corpus : Stmt) (cape : option (CapeClausula Stmt))
  (demum : option Stmt) (indent : string) : Res string :=
  body <- stmt_rec corpus (indent ++ indent_char) ;;
  c <- match cape with
       | Some (mkCapeClausula param cbody _) =>
           x <- stmt_rec cbody (indent ++ indent_char) ;;
           Ok [indent ++ "except Exception as " ++ param ++ ":"; x]
       | None => Ok []
       end ;;
  d <- match demum with
       | Some s =>
           x <- stmt_rec s (indent ++ indent_char) ;;
           Ok [indent ++ "finally:"; x]
       | None => Ok []
       end ;;
  let head := indent ++ "try:" in
  Ok (join nl ([head; body] ++ c ++ d)%list).

Definition _scribe (args : list Expr) (gradus : string) (indent : string)
  : string :=
  let a := join ", " (map _expr args) in
  if String.eqb gradus "Mone"
  then indent ++ "import sys; print(" ++ a ++ ", file=sys.stderr)"
  else indent ++ "print(" ++ a ++ ")".

Definition MAIN_GUARD : string :=
  "if __name__ == " ++ dq ++ "__main__" ++ dq ++ ":".

Definition _incipit (corpus : Stmt) (asynca : bool) (indent : string)
  : Res string :=
  body <- stmt_rec corpus (indent ++ indent_char) ;;
  if asynca then
    Ok (join nl [indent ++ "async def main():"; body; "";
                 indent ++ MAIN_GUARD;
                 indent ++ indent_char ++ "import asyncio";
                 indent ++ indent_char ++ "asyncio.run(main())"])
  else Ok (join nl [indent ++ MAIN_GUARD; body]).

Definition safe_name (nomen : string) : string :=
  replace (replace nomen " " "_") "-" "_".

Definition _probandum (nomen : string) (corpus : list Stmt)
  (indent : string) : Res string :=
  let head := indent ++ "class Test" ++ safe_name nomen ++ ":" in
  let inner := indent ++ indent_char in
  match corpus with
  | [] => Ok (join nl [head; inner ++ "pass"])
  | _ =>
      lines <- map_res (fun stmt => stmt_rec stmt inner) corpus ;;
      Ok (join nl (head :: lines))
  end.

Definition _proba (nomen : string) (corpus : Stmt) (indent : string)
  : Res string :=
  body <- stmt_rec corpus (indent ++ indent_char) ;;
  Ok (join nl [indent ++ "def test_" ++ safe_name nomen ++ "(self):"; body]).

(** The body of [_stmt]. *)
Definition _stmt_body (s : Stmt) (indent : string) : Res string :=
  match s with
  | StmtVaria nomen _ typus valor _ externa _ =>
      Ok (_varia nomen typus valor externa indent)
  | StmtFunctio nomen params typus_reditus corpus asynca _ _ externa _ =>
      _functio nomen params typus_reditus corpus asynca externa indent
  | StmtGenus nomen campi methodi _ _ _ _ _ =>
      _genus nomen campi methodi indent
  | StmtPactum nomen methodi _ _ _ => Ok (_pactum nomen methodi indent)
  | StmtOrdo nomen membra _ _ => Ok (_ordo nomen membra indent)
  | StmtDiscretio nomen variantes _ _ _ =>
      Ok (_discretio nomen variantes indent)
  | StmtImporta fons specs totum alias _ =>
      _importa fons specs totum alias indent
  | StmtRedde valor _ => Ok (_redde valor indent)
  | StmtSi cond cons_ alt _ => _si cond cons_ alt indent
  | StmtDum cond corpus _ => _dum cond corpus indent
  | StmtFacDum corpus cond _ => _fac_dum corpus cond indent
  | StmtIteratio binding iter corpus _ asynca _ =>
      _iteratio binding iter corpus asynca indent
  | StmtElige discrim casus default _ => _elige discrim casus default indent
  | StmtDiscerne discrim casus _ => _discerne discrim casus indent
  | StmtCustodi clausulae _ => _custodi clausulae indent
  | StmtTempta corpus cape demum _ => _tempta corpus cape demum indent
  | StmtIace arg fatale _ =>
      if fatale then
        match arg with
        | Some a => Ok (indent ++ "raise SystemExit(" ++ _expr a ++ ")")
        | None => Ok (indent ++ "raise SystemExit()")
        end
      else Ok (indent ++ "raise Exception(" ++ _expr_o arg ++ ")")
  | StmtRumpe _ => Ok (indent ++ "break")
  | StmtPerge _ => Ok (indent ++ "continue")
  | StmtScribe args gradus _ => Ok (_scribe args gradus indent)
  | StmtAdfirma cond msg _ =>
      Ok (indent ++ "assert " ++ _expr cond
          ++ match msg with
             | Some m => ", " ++ _expr m
             | None => ""
             end)
  | StmtExpressia expr _ => Ok (indent ++ _expr expr)
  | StmtMassa corpus _ => _massa corpus indent
  | StmtIncipit corpus asynca _ => _incipit corpus asynca indent
  | StmtProbandum nomen corpus _ => _probandum nomen corpus indent
  | StmtProba nomen corpus _ => _proba nomen corpus indent
  | StmtTypusAlias _ _ _ _ | StmtIn _ _ _ =>
      Ok (indent ++ "# unknown statement")
  end.

End StmtRecursion.

Fixpoint _stmt (s : Stmt) (indent : string) : Res string :=
  _stmt_body _stmt s indent.

(** [for stmt in mod.corpus: code = ...; if code: lines += [code, ""]] *)
Fixpoint emit_corpus (corpus : list Stmt) : Res (list string) :=
  match corpus with
  | [] => Ok []
  | stmt :: rest =>
      code <- _stmt stmt "" ;;
      lines <- emit_corpus rest ;;
      if String.eqb code "" then Ok lines else Ok (code :: "" :: lines)
  end.

(** [PyEmitter.emit]; the emitter keeps [ctx] and never reads it. *)
Definition emit (ctx : Scope.SemanticContext) (mod_ : Modulus)
  : Res string :=
  match mod_ with
  | mkModulus corpus _ =>
      let imports := _collect_imports corpus in
      let head := match imports with
                  | [] => []
                  | _ => (sorted imports ++ [""])%list
                  end in
      lines <- emit_corpus corpus ;;
      Ok (join nl (head ++ lines)%list)
  end.

(** Emit Python code for a module. *)
Definition emit_py (mod_ : Modulus) : Res string :=
  ctx <- Semantic.analyze mod_ ;;
  emit ctx mod_.

End PyEmitter.

(** The driver's [emit -t py]. *)
Definition emit_py_source (source : string) : Res string :=
  bind_res (parse_source source) PyEmitter.emit_py.


(** ** Programs used in the statements below *)

Module Exempla.

(** [incipit { scribe "salve" }] *)
Definition minimal : string :=
  "incipit { scribe " ++ dq ++ "salve" ++ dq ++ " }".

(** [print("salve")] and [print('salve')] *)
Definition print_salve_dq : string := "print(" ++ dq ++ "salve" ++ dq ++ ")".
Definition print_salve_sq : string := "print('salve')".

(** A string literal that is never closed: a double quote, then [abc] *)
Definition unterminated : string := dq ++ "abc".

(** A triple-quoted string that is never closed *)
Definition unterminated_triple : string := dq ++ dq ++ dq ++ "abc".

(** [functio f() -> numerus { }] *)
Definition functio_reditus : string := "functio f() -> numerus { }".

(** A total import, [§ importa ex "a/b" * ut m], and a named one,
    [§ importa ex "a/b" x ut y] *)
Definition importa_totum : string :=
  "§ importa ex " ++ dq ++ "a/b" ++ dq ++ " * ut m".
Definition importa_nomen : string :=
  "§ importa ex " ++ dq ++ "a/b" ++ dq ++ " x ut y".

(** [scriptum("a § b", x)] *)
Definition scriptum_src : string :=
  "scriptum(" ++ dq ++ "a § b" ++ dq ++ ", x)".



End Exempla.

(** The operators of [PRECEDENCE] that [parse_expr] gives a right operand
    ([right = self.parse_expr(prec + 1)]): all but the postfix forms. *)
Definition postfix_operators : list string :=
  ["qua"; "innatum"; "novum"; "numeratum"; "fractatum"; "textatum";
   "bivalentum"].

Definition binary_operators : list string :=
  filter (fun op => negb (in_list op postfix_operators))
         (map fst Parser.PRECEDENCE).

(** The precedence of an operator of the table. *)
Definition prec (op : string) : nat :=
  match dict_get Parser.PRECEDENCE op with
  | Some p => p
  | None => 0
  end.

(** The token the lexer makes of an operator: a keyword for the word forms,
    an operator otherwise. *)
Definition operator_token (op : string) (l : Locus) : Token :=
  mkToken (if in_list op Lexer.KEYWORDS then TokenTag.KEYWORD
           else TokenTag.OPERATOR) op l.

Definition identifier_token (name : string) (l : Locus) : Token :=
  mkToken TokenTag.IDENTIFIER name l.

(** The node [parse_expr] builds for [op]: an assignment or a binary node. *)
Definition binary_node (op : string) (sin dex : Expr) (l : Locus) : Expr :=
  if in_list op Parser.ASSIGN_OPS then ExprAssignatio op sin dex l
  else ExprBinaria op sin dex l.


(** ** The analysis as a state transformer

    What one call of the analyzer may do to the context: the frame of the
    current scope stays (only symbols are added to it), diagnostics are only
    appended, and no entry of the expression-type map is removed. *)

Scheme Expr_mut_ind := Induction for Expr Sort Prop
  with Stmt_mut_ind := Induction for Stmt Sort Prop.
Combined Scheme Expr_Stmt_mutind from Expr_mut_ind, Stmt_mut_ind.

Module SemanticSpec.
Import Scope.

(** The current scope of [c'] is the current scope of [c], but for the
    symbols defined in it. *)
Definition same_frame (c c' : SemanticContext) : Prop :=
  scopus_parent (current c') = scopus_parent (current c)
  /\ scopus_species (current c') = scopus_species (current c)
  /\ scopus_nomen (current c') = scopus_nomen (current c).

(** [errores] of [c'] starts with [errores] of [c]. *)
Definition errores_grow (c c' : SemanticContext) : Prop :=
  exists extra, errores c' = (errores c ++ extra)%list.

(** Every key of [expr_types] of [c] is a key of [expr_types] of [c']. *)
Definition types_grow (c c' : SemanticContext) : Prop :=
  forall k, PyDict.has NodeId_eqb (expr_types c) k = true ->
            PyDict.has NodeId_eqb (expr_types c') k = true.

Definition grows (c c' : SemanticContext) : Prop :=
  errores_grow c c' /\ types_grow c c'.

Definition extends (c c' : SemanticContext) : Prop :=
  same_frame c c' /\ grows c c'.

(** [c1] is one scope below a context that extends [c0]. *)
Definition inside (c0 c1 : SemanticContext) : Prop :=
  exists c, extends c0 c
            /\ scopus_parent (current c1) = Some (current c)
            /\ grows c c1.

(** From a context in [P], [m] returns normally, in a context in [Q]. *)
Definition Hoare {X} (P : SemanticContext -> Prop) (m : A X)
  (Q : X -> SemanticContext -> Prop) : Prop :=
  forall c, P c -> exists x c', m c = Ok (x, c') /\ Q x c'.

(** From every context, [m] returns normally, in a context that extends
    it. *)
Definition steady {X} (m : A X) : Prop :=
  forall c, exists x c', m c = Ok (x, c') /\ extends c c'.


(** The number of scopes from [sc] up to the root. *)
Fixpoint scopus_depth (sc : Scopus) : nat :=
  match sc with
  | mkScopus (Some p) _ _ _ => S (scopus_depth p)
  | mkScopus None _ _ _ => 0
  end.

End SemanticSpec.

(** ** Declarations of pass 1 *)

(** The name that [_collect_declaration] registers as a type: the name of a
    class, an enum, a discriminated union or an interface. *)
Definition declared_typus (stmt : Stmt) : option string :=
  match stmt with
  | StmtGenus nomen _ _ _ _ _ _ _
  | StmtOrdo nomen _ _ _
  | StmtDiscretio nomen _ _ _ _
  | StmtPactum nomen _ _ _ _ => Some nomen
  | _ => None
  end.

(** The name that [_collect_declaration] defines as a symbol for the
    statement itself: a declared type, or a function that is not extern. *)
Definition declared_symbolum (stmt : Stmt) : option string :=
  match stmt with
  | StmtFunctio nomen _ _ _ _ _ _ externa _ =>
      if externa then None else Some nomen
  | _ => declared_typus stmt
  end.

(** Every key of [d] is a key of [d']. *)
Definition keys_grow {V} (d d' : dict V) : Prop :=
  forall k, dict_has d k = true -> dict_has d' k = true.

(** What pass 1 keeps: the registered names and the symbols of the current
    scope, and the parent of that scope. *)
Definition registered (c c' : Scope.SemanticContext) : Prop :=
  keys_grow (Scope.typi c) (Scope.typi c')
  /\ keys_grow (Scope.scopus_symbola (Scope.current c))
               (Scope.scopus_symbola (Scope.current c'))
  /\ Scope.scopus_parent (Scope.current c')
     = Scope.scopus_parent (Scope.current c).

(** ** Calls that leave the current scope alone *)

Module ScopeSpec.
Import Scope SemanticSpec.

(** From every context, [m] returns normally, in a context that extends it
    and has the same current scope, symbols included. *)
Definition still {X} (m : A X) : Prop :=
  forall c, exists x c',
    m c = Ok (x, c') /\ extends c c' /\ current c' = current c.

(** [c1] is in a scope opened in [c0]: the parent of its current scope is
    the current scope of [c0]. *)
Definition below (c0 c1 : SemanticContext) : Prop :=
  scopus_parent (current c1) = Some (current c0) /\ grows c0 c1.

(** Back in the scope of [c0]. *)
Definition back (c0 c' : SemanticContext) : Prop :=
  extends c0 c' /\ current c' = current c0.

End ScopeSpec.

(** ** Positions in a source text *)

Module LexerSpec.
Import Lexer.

(** The number of line breaks in [s] *)
Fixpoint count_nl (s : string) : nat :=
  match s with
  | "" => 0
  | String c s' => (if Ascii.eqb c ch_nl then 1 else 0) + count_nl s'
  end.

(** The number of characters of [s] after its last line break, counted
    from [cur] when [s] has none. *)
Fixpoint tail_length (cur : nat) (s : string) : nat :=
  match s with
  | "" => cur
  | String c s' =>
      if Ascii.eqb c ch_nl then tail_length 0 s'
      else tail_length (S cur) s'
  end.

(** [l] is the position in [source] where the text [v] starts: [index]
    characters precede it, [linea] is the number of its line and [columna]
    its place in that line, both from 1. *)
Definition text_at (source : string) (l : Locus) (v : string) : Prop :=
  exists before after,
    source = before ++ v ++ after
    /\ index l = String.length before
    /\ linea l = S (count_nl before)
    /\ columna l = S (tail_length 0 before).






End LexerSpec.

(** ** Results of the emitters *)

(** A result of an emitter: a text, or, when [allow] is set, the one error
    that the emitters raise, for an attribute that an import statement does
    not have. *)
Definition emission (allow : bool) {X} (r : Res X) : Prop :=
  match r with
  | Ok _ => True
  | Raise_Host (AttributeError class_name _) =>
      allow = true /\ class_name = "StmtImporta"
  | _ => False
  end.

Definition is_importa (s : Stmt) : bool :=
  match s with
  | StmtImporta _ _ _ _ _ => true
  | _ => false
  end.

(** [importa_free] of a statement [s: Stmt | None] *)
Definition free_opt (free : Stmt -> bool) (s : option Stmt) : bool :=
  match s with
  | Some s => free s
  | None => true
  end.

(** No import statement in [s], at any depth of the statements in it. *)
Fixpoint importa_free (s : Stmt) : bool :=
  match s with
  | StmtImporta _ _ _ _ _ => false
  | StmtMassa corpus _ => forallb importa_free corpus
  | StmtProbandum _ corpus _ => forallb importa_free corpus
  | StmtFunctio _ _ _ corpus _ _ _ _ _ => free_opt importa_free corpus
  | StmtGenus _ _ methodi _ _ _ _ _ => forallb importa_free methodi
  | StmtSi _ cons_ alt _ => importa_free cons_ && free_opt importa_free alt
  | StmtDum _ corpus _ => importa_free corpus
  | StmtFacDum corpus _ _ => importa_free corpus
  | StmtIteratio _ _ corpus _ _ _ => importa_free corpus
  | StmtIncipit corpus _ _ => importa_free corpus
  | StmtProba _ corpus _ => importa_free corpus
  | StmtIn _ corpus _ => importa_free corpus
  | StmtElige _ casus default _ =>
      forallb (fun c => match c with
                        | mkEligeCasus _ corpus _ => importa_free corpus
                        end) casus
      && free_opt importa_free default
  | StmtDiscerne _ casus _ =>
      forallb (fun c => match c with
                        | mkDiscerneCasus _ corpus _ =>
                            free_opt importa_free corpus
                        end) casus
  | StmtCustodi clausulae _ =>
      forallb (fun c => match c with
                        | mkCustodiClausula _ corpus _ => importa_free corpus
                        end) clausulae
  | StmtTempta corpus cape demum _ =>
      importa_free corpus
      && match cape with
         | Some (mkCapeClausula _ body _) => importa_free body
         | None => true
         end
      && free_opt importa_free demum
  | _ => true
  end.

(** What the induction on a statement carries for the lowering to Python:
    its text, and for a function the text of its body, that a class emits
    as a method; without error when the statement has no import. *)
Definition emits (s : Stmt) : Prop :=
  forall allow,
    (allow = false -> importa_free s = true) ->
    (forall indent, emission allow (PyEmitter._stmt s indent))
    /\ match s with
       | StmtFunctio _ _ _ corpus _ _ _ _ _ =>
           forall indent,
             emission allow
               (PyEmitter.body_or_pass PyEmitter._stmt corpus indent)
       | _ => True
       end.

(** ** The cursor of the parser

    What a method of the parser does with [self.pos], on a token list that
    ends with the end marker, as the lexer leaves it. *)

Module ParserSpec.

(** The last token is [EOF], with the empty text. *)
Definition ends_with_eof (tokens : list Token) : Prop :=
  exists body l, tokens = (body ++ [mkToken TokenTag.EOF "" l])%list.

Section WithTokens.
Variable tokens : list Token.
Variable filename : string.

(** The token that [peek(offset)] returns at [pos]. *)
Definition peeked (offset pos : nat) : Token :=
  match nth_error tokens (pos + offset) with
  | Some tok => tok
  | None => last tokens (mkToken TokenTag.EOF "" Locus_default)
  end.

(** The answer of [check(tag, valor)] at [pos]. *)
Definition checked (tag : TokenTag.t) (valor : option string) (pos : nat)
  : bool :=
  TokenTag.eqb (tok_tag (peeked 0 pos)) tag
  && Parser.valor_matches valor (peeked 0 pos).

(** The outcome [r] of a method: a value, with the cursor at [lo] or
    beyond and not beyond the number of tokens; or a compile error with the
    name of the file, at a token of the input. *)
Definition lands {A} (lo : nat) (r : Res (A * nat)) : Prop :=
  match r with
  | Ok (_, pos) => lo <= pos <= length tokens
  | Raise_CompileError _ l f =>
      f = filename /\ exists tok, In tok tokens /\ l = locus tok
  | Raise_Host _ => False
  | OutOfFuel => False
  end.

(** The methods reached through [self] consume a token, from every cursor
    at [q] or beyond. *)
Definition SelfFrom (q : nat) (self : Parser.Self) : Prop :=
  forall pos, q <= pos -> pos <= length tokens ->
    lands (S pos) (Parser.self_parse_stmt self pos)
    /\ (forall min_prec,
           lands (S pos) (Parser.self_parse_expr self min_prec pos))
    /\ lands (S pos) (Parser.self_parse_unary self pos)
    /\ lands (S pos) (Parser.self_parse_primary self pos)
    /\ lands (S pos) (Parser.self_parse_typus self pos)
    /\ (forall locus,
           lands (S pos) (Parser.self_parse_si_body self locus pos)).

End WithTokens.
End ParserSpec.

(** ** errors.py: the rendering of an error *)

From Stdlib Require Import DecimalString.

Module Errors.
Import LexerSpec.

(** [str(n)] for an [int] that is not negative *)
Definition str_of_nat (n : nat) : string :=
  NilEmpty.string_of_uint (Nat.to_uint n).

(** [s.split("\n")] *)
Fixpoint split_nl (s : string) : list string :=
  match s with
  | "" => [""]
  | String c s' =>
      if Ascii.eqb c ch_nl then "" :: split_nl s'
      else match split_nl s' with
           | x :: rest => String c x :: rest
           | [] => [String c ""]
           end
  end.

(** [" " * n] *)
Fixpoint spaces (n : nat) : string :=
  match n with
  | O => ""
  | S n' => String " " (spaces n')
  end.

(** The argument [err] of [format_error]: a [CompileError] with its
    fields, or another exception, of which [str(err)] is taken. *)
Inductive Exception :=
| CompileError (message : string) (locus : Locus) (filename : string)
| OtherException (str_err : string).

(** [format_error]: the parameter [filename] is not read, the file name is
    that of the error.  [lines[line_idx] if 0 <= line_idx < len(lines)
    else ""] with [line_idx = linea - 1]. *)
Definition format_error (err : Exception) (source filename : string)
  : string :=
  match err with
  | OtherException str_err => str_err
  | CompileError message locus err_filename =>
      let lines := split_nl source in
      let src_line := match linea locus with
                      | O => ""
                      | S line_idx => nth line_idx lines ""
                      end in
      let pointer := spaces (columna locus - 1) ++ "^" in
      join nl [
        err_filename ++ ":" ++ str_of_nat (linea locus) ++ ":"
        ++ str_of_nat (columna locus) ++ ": error: " ++ message;
        "";
        "  " ++ src_line;
        "  " ++ pointer
      ]
  end.

(** No line break in [s] *)
Definition one_line (s : string) : Prop := count_nl s = 0.

(** [s] is empty or ends with a line break. *)
Definition ends_line (s : string) : Prop :=
  s = "" \/ exists s', s = s' ++ nl.

(** [s] is empty or starts with a line break. *)
Definition starts_line (s : string) : Prop :=
  s = "" \/ exists s', s = nl ++ s'.

End Errors.

(** ** Trees without import statements *)

(** No import statement in [e] or [s], at any depth: in the blocks, in the
    bodies of the closures, in the initializers. *)
Fixpoint sine_importa_expr (e : Expr) : bool :=
  match e with
  | ExprNomen _ _ | ExprEgo _ | ExprLittera _ _ _ => true
  | ExprBinaria _ a b _ | ExprAssignatio _ a b _ | ExprAmbitus a b _ _
  | ExprMembrum a b _ _ _ =>
      sine_importa_expr a && sine_importa_expr b
  | ExprUnaria _ a _ | ExprCede a _ | ExprQua a _ _ | ExprInnatum a _ _
  | ExprPostfixNovum a _ _ => sine_importa_expr a
  | ExprCondicio a b c _ =>
      sine_importa_expr a && sine_importa_expr b && sine_importa_expr c
  | ExprVocatio callee args _ =>
      sine_importa_expr callee && forallb sine_importa_expr args
  | ExprSeries args _ | ExprScriptum _ args _ =>
      forallb sine_importa_expr args
  | ExprObiectum props _ | ExprFinge _ props _ _ =>
      forallb (fun p => match p with
                        | mkObiectumProp key valor _ _ _ =>
                            sine_importa_expr key
                            && match valor with
                               | Some v => sine_importa_expr v
                               | None => true
                               end
                        end) props
  | ExprClausura params corpus _ =>
      forallb (fun p => match p with
                        | mkParam _ _ default _ _ _ _ =>
                            match default with
                            | Some d => sine_importa_expr d
                            | None => true
                            end
                        end) params
      && match corpus with
         | CorpusNone => true
         | CorpusStmt s => sine_importa_stmt s
         | CorpusExpr x => sine_importa_expr x
         end
  | ExprNovum callee args init _ =>
      sine_importa_expr callee && forallb sine_importa_expr args
      && match init with
         | Some i => sine_importa_expr i
         | None => true
         end
  | ExprConversio a _ fallback _ =>
      sine_importa_expr a
      && match fallback with
         | Some f => sine_importa_expr f
         | None => true
         end
  end
with sine_importa_stmt (s : Stmt) : bool :=
  match s with
  | StmtImporta _ _ _ _ _ => false
  | StmtMassa corpus _ | StmtProbandum _ corpus _ =>
      forallb sine_importa_stmt corpus
  | StmtExpressia e _ => sine_importa_expr e
  | StmtVaria _ _ _ valor _ _ _ | StmtRedde valor _ | StmtIace valor _ _ =>
      match valor with
      | Some v => sine_importa_expr v
      | None => true
      end
  | StmtFunctio _ params _ corpus _ _ _ _ _ =>
      forallb (fun p => match p with
                        | mkParam _ _ default _ _ _ _ =>
                            match default with
                            | Some d => sine_importa_expr d
                            | None => true
                            end
                        end) params
      && match corpus with
         | Some c => sine_importa_stmt c
         | None => true
         end
  | StmtGenus _ campi methodi _ _ _ _ _ =>
      forallb (fun c => match c with
                        | mkCampusDecl _ _ valor _ _ =>
                            match valor with
                            | Some v => sine_importa_expr v
                            | None => true
                            end
                        end) campi
      && forallb sine_importa_stmt methodi
  | StmtPactum _ methodi _ _ _ =>
      forallb (fun m => match m with
                        | mkPactumMethodus _ params _ _ _ =>
                            forallb (fun p => match p with
                                              | mkParam _ _ default _ _ _ _ =>
                                                  match default with
                                                  | Some d =>
                                                      sine_importa_expr d
                                                  | None => true
                                                  end
                                              end) params
                        end) methodi
  | StmtOrdo _ _ _ _ | StmtDiscretio _ _ _ _ _ | StmtTypusAlias _ _ _ _
  | StmtRumpe _ | StmtPerge _ => true
  | StmtSi cond cons_ alt _ =>
      sine_importa_expr cond && sine_importa_stmt cons_
      && match alt with
         | Some a => sine_importa_stmt a
         | None => true
         end
  | StmtDum cond corpus _ | StmtFacDum corpus cond _
  | StmtIteratio _ cond corpus _ _ _ | StmtIn cond corpus _ =>
      sine_importa_expr cond && sine_importa_stmt corpus
  | StmtElige discrim casus default _ =>
      sine_importa_expr discrim
      && forallb (fun c => match c with
                           | mkEligeCasus cond corpus _ =>
                               sine_importa_expr cond
                               && sine_importa_stmt corpus
                           end) casus
      && match default with
         | Some d => sine_importa_stmt d
         | None => true
         end
  | StmtDiscerne discrim casus _ =>
      forallb sine_importa_expr discrim
      && forallb (fun c => match c with
                           | mkDiscerneCasus _ corpus _ =>
                               match corpus with
                               | Some k => sine_importa_stmt k
                               | None => true
                               end
                           end) casus
  | StmtCustodi clausulae _ =>
      forallb (fun c => match c with
                        | mkCustodiClausula cond corpus _ =>
                            sine_importa_expr cond
                            && sine_importa_stmt corpus
                        end) clausulae
  | StmtTempta corpus cape demum _ =>
      sine_importa_stmt corpus
      && match cape with
         | Some (mkCapeClausula _ body _) => sine_importa_stmt body
         | None => true
         end
      && match demum with
         | Some d => sine_importa_stmt d
         | None => true
         end
  | StmtScribe args _ _ => forallb sine_importa_expr args
  | StmtAdfirma cond msg _ =>
      sine_importa_expr cond
      && match msg with
         | Some m => sine_importa_expr m
         | None => true
         end
  | StmtIncipit corpus _ _ | StmtProba _ corpus _ =>
      sine_importa_stmt corpus
  end.

(** ** What the parser builds *)

Module TreeSpec.

(** [c] of the value of an optional field *)
Definition copt {X} (c : X -> bool) (o : option X) : bool :=
  match o with
  | Some x => c x
  | None => true
  end.

(** No import statement in the expressions and statements of a supporting
    node. *)
Definition clean_param (p : Param Expr) : bool :=
  match p with
  | mkParam _ _ default _ _ _ _ => copt sine_importa_expr default
  end.

Definition clean_prop (p : ObiectumProp Expr) : bool :=
  match p with
  | mkObiectumProp key valor _ _ _ =>
      sine_importa_expr key && copt sine_importa_expr valor
  end.

Definition clean_campus (c : CampusDecl Expr) : bool :=
  match c with
  | mkCampusDecl _ _ valor _ _ => copt sine_importa_expr valor
  end.

Definition clean_methodus (m : PactumMethodus Expr) : bool :=
  match m with
  | mkPactumMethodus _ params _ _ _ => forallb clean_param params
  end.

Definition clean_elige_casus (c : EligeCasus Expr Stmt) : bool :=
  match c with
  | mkEligeCasus cond corpus _ =>
      sine_importa_expr cond && sine_importa_stmt corpus
  end.

Definition clean_discerne_casus (c : DiscerneCasus Stmt) : bool :=
  match c with
  | mkDiscerneCasus _ corpus _ => copt sine_importa_stmt corpus
  end.

Definition clean_custodi_clausula (c : CustodiClausula Expr Stmt) : bool :=
  match c with
  | mkCustodiClausula cond corpus _ =>
      sine_importa_expr cond && sine_importa_stmt corpus
  end.

(** The token of the section sign, that starts a directive. *)
Definition is_sectio (tok : Token) : bool :=
  TokenTag.eqb (tag tok) TokenTag.PUNCTUATOR
  && String.eqb (valor tok) Lexer.SECTION_SIGN.

(** Whenever [m] returns, what it returns is in [Q]. *)
Definition yields {A} (Q : A -> Prop) (m : Parser.P A) : Prop :=
  forall pos x pos', m pos = Ok (x, pos') -> Q x.

(** The methods reached through [self] build trees without imports. *)
Definition SelfClean (self : Parser.Self) : Prop :=
  yields (fun s => sine_importa_stmt s = true) (Parser.self_parse_stmt self)
  /\ (forall min_prec,
         yields (fun e => sine_importa_expr e = true)
                (Parser.self_parse_expr self min_prec))
  /\ yields (fun e => sine_importa_expr e = true)
            (Parser.self_parse_unary self)
  /\ yields (fun e => sine_importa_expr e = true)
            (Parser.self_parse_primary self)
  /\ (forall locus,
         yields (fun s => sine_importa_stmt s = true)
                (Parser.self_parse_si_body self locus)).

End TreeSpec.
(** * Properties *)

(** Split a conjunction of closed equations and evaluate each side. *)
Ltac conj_split := repeat match goal with |- _ /\ _ => split end.
Ltac evaluate := conj_split; vm_compute; reflexivity.

(** ** Lexer *)

(** C3 (the code departs from the claim).  A string literal whose closing
    quote is missing makes [lex] run past the end of the input:
    [read_string] calls [advance()] for the closing quote and [source[pos]]
    raises the host's [IndexError], which carries no locus.  A triple-quoted
    string that is never closed raises nothing at all.  The unrecognized
    character, by contrast, is a positioned [CompileError]. *)
Theorem lex_unterminated_string :
  Lexer.lex Exempla.unterminated STDIN = Raise_Host IndexError
  /\ Lexer.lex Exempla.unterminated_triple STDIN
     = Ok [mkToken TokenTag.TEXTUS "abc" (mkLocus 1 1 0);
           mkToken TokenTag.EOF "" (mkLocus 1 7 6)]
  /\ Lexer.lex "a $" STDIN
     = Raise_CompileError "unexpected character '$'" (mkLocus 1 3 2) STDIN.
Proof. evaluate. Qed.

(** ** Parser *)

Lemma in_list_In : forall x l, in_list x l = true -> In x l.
Proof.
  intros x l H. unfold in_list in H. apply existsb_exists in H.
  destruct H as [y [Hy He]]. apply String.eqb_eq in He. subst. exact Hy.
Qed.

(** The lexer turns the text [a op1 b op2 c] into the six tokens of the
    theorem below, for every pair of binary operators. *)
Lemma lex_operator_expression :
  forall op1 op2,
    in_list op1 binary_operators = true ->
    in_list op2 binary_operators = true ->
    exists la l1 lb l2 lc le,
      bind_res (Lexer.lex ("a " ++ op1 ++ " b " ++ op2 ++ " c") STDIN)
               (fun toks => Ok (Lexer.prepare toks))
      = Ok [identifier_token "a" la; operator_token op1 l1;
            identifier_token "b" lb; operator_token op2 l2;
            identifier_token "c" lc; mkToken TokenTag.EOF "" le].
Proof.
  intros op1 op2 H1 H2.
  apply in_list_In in H1. apply in_list_In in H2.
  vm_compute in H1, H2.
  repeat (destruct H1 as [<-|H1]); try contradiction;
    repeat (destruct H2 as [<-|H2]); try contradiction;
    do 6 eexists; vm_compute; reflexivity.
Qed.

(** C5.  For identifiers [a], [b], [c] and binary operators [op1], [op2] of
    the precedence table, the tokens of [a op1 b op2 c] parse into one
    expression statement.  When the precedence of [op2] is not higher than
    that of [op1] the outer node is [op2] with left child [a op1 b] (the
    lower precedence outside; left association when they are equal);
    otherwise the outer node is [op1], the lower one, with right child
    [b op2 c]. *)
Theorem precedence_and_associativity :
  forall (a b c op1 op2 : string) (la l1 lb l2 lc le : Locus),
    in_list op1 binary_operators = true ->
    in_list op2 binary_operators = true ->
    Parser.parse
      [identifier_token a la; operator_token op1 l1;
       identifier_token b lb; operator_token op2 l2;
       identifier_token c lc; mkToken TokenTag.EOF "" le] STDIN
    = Ok (mkModulus
            [StmtExpressia
               (if Nat.leb (prec op2) (prec op1)
                then binary_node op2
                       (binary_node op1 (ExprNomen a la) (ExprNomen b lb) l1)
                       (ExprNomen c lc) l2
                else binary_node op1 (ExprNomen a la)
                       (binary_node op2 (ExprNomen b lb) (ExprNomen c lc) l2)
                       l1)
               la]
            (mkLocus 1 1 0)).
Proof.
  intros a b c op1 op2 la l1 lb l2 lc le H1 H2.
  apply in_list_In in H1. apply in_list_In in H2.
  vm_compute in H1, H2.
  repeat (destruct H1 as [<-|H1]); try contradiction;
    repeat (destruct H2 as [<-|H2]); try contradiction;
    vm_compute; reflexivity.
Qed.

(** The theorem at [a + b * c]: the sum is the outer node. *)
Lemma precedence_and_associativity_witness :
  in_list "+" binary_operators = true
  /\ in_list "*" binary_operators = true
  /\ Parser.parse
       [identifier_token "a" (mkLocus 1 1 0); operator_token "+" (mkLocus 1 3 2);
        identifier_token "b" (mkLocus 1 5 4); operator_token "*" (mkLocus 1 7 6);
        identifier_token "c" (mkLocus 1 9 8);
        mkToken TokenTag.EOF "" (mkLocus 1 10 9)] STDIN
     = Ok (mkModulus
             [StmtExpressia
                (ExprBinaria "+" (ExprNomen "a" (mkLocus 1 1 0))
                   (ExprBinaria "*" (ExprNomen "b" (mkLocus 1 5 4))
                                (ExprNomen "c" (mkLocus 1 9 8))
                                (mkLocus 1 7 6))
                   (mkLocus 1 3 2))
                (mkLocus 1 1 0)]
             (mkLocus 1 1 0)).
Proof.
  split; [reflexivity|]. split; [reflexivity|].
  apply (precedence_and_associativity "a" "b" "c" "+" "*"); reflexivity.
Defined.

(** ** Canonical emitter *)

(** C9.  The source [x.casu], whose member name is a keyword, parses into
    an expression statement holding a member access, and the canonical
    emitter gives back [x.casu]; the same holds for every keyword of the
    fixed set in the place of [casu]. *)
Theorem keyword_as_field_name :
  in_list "casu" Lexer.KEYWORDS = true
  /\ parse_source "x.casu"
     = Ok (mkModulus
             [StmtExpressia
                (ExprMembrum (ExprNomen "x" (mkLocus 1 1 0))
                             (ExprLittera LitteraSpecies.TEXTUS "casu"
                                          (mkLocus 1 7 6))
                             false false (mkLocus 1 2 1))
                (mkLocus 1 1 0)]
             (mkLocus 1 1 0))
  /\ emit_faber_source "x.casu" = Ok "x.casu"
  /\ Forall (fun kw => emit_faber_source ("x." ++ kw) = Ok ("x." ++ kw))
            Lexer.KEYWORDS.
Proof.
  split; [vm_compute; reflexivity|].
  split; [vm_compute; reflexivity|].
  split; [vm_compute; reflexivity|].
  unfold Lexer.KEYWORDS.
  repeat (constructor; [vm_compute; reflexivity|]).
  constructor.
Qed.

(** C1 (the code departs from the claim).  [functio f() -> numerus { }]
    parses; the canonical emitter writes the return type after a colon,
    which the parser reads only after [->], so parsing the emitted text
    fails with a compile error instead of giving the module back. *)
Theorem round_trip_fails_on_return_type :
  parse_source Exempla.functio_reditus
  = Ok (mkModulus
          [StmtFunctio "f" [] (Some (TypusNomen "numerus"))
                       (Some (StmtMassa [] (mkLocus 1 24 23)))
                       false false [] false (mkLocus 1 1 0)]
          (mkLocus 1 1 0))
  /\ emit_faber_source Exempla.functio_reditus
     = Ok ("functio f(): numerus {" ++ nl ++ "}")
  /\ bind_res (emit_faber_source Exempla.functio_reditus) parse_source
     = Raise_CompileError "unexpected token ':'" (mkLocus 1 12 11) STDIN.
Proof. evaluate. Qed.

(** ** Lowering emitter *)

(** C2 (the code departs from the claim).  The emitter's [_importa] reads
    the attributes [local] and [imported], which [StmtImporta] does not
    have: lowering any import statement raises [AttributeError], for the
    total and for the named form, and [emit_py] fails on a module that
    holds one. *)
Theorem importa_lowering_raises :
  (forall fons specs totum alias locus indent,
      PyEmitter._stmt (StmtImporta fons specs totum alias locus) indent
      = Raise_Host (AttributeError "StmtImporta"
                      (if totum then "local" else "imported")))
  /\ emit_py_source Exempla.importa_totum
     = Raise_Host (AttributeError "StmtImporta" "local")
  /\ emit_py_source Exempla.importa_nomen
     = Raise_Host (AttributeError "StmtImporta" "imported").
Proof.
  split; [|evaluate].
  intros fons specs totum alias locus indent.
  destruct totum; reflexivity.
Qed.

(** C6, as the claim states it, fails: the lowered minimal program does not
    contain [print("salve")]. *)
Lemma minimal_program_no_double_quoted_print :
  ~ (exists out,
        emit_py_source Exempla.minimal = Ok out
        /\ contains out PyEmitter.MAIN_GUARD = true
        /\ contains out Exempla.print_salve_dq = true).
Proof.
  intros [out [H [_ H2]]].
  vm_compute in H. injection H as <-.
  vm_compute in H2. discriminate.
Qed.

(** C6, amended.  Lowering [incipit { scribe "salve" }] gives the main
    guard and, under it, [print('salve')]: the string literal is written by
    the host's [repr], which uses single quotes. *)
Theorem minimal_program_lowering :
  emit_py_source Exempla.minimal
  = Ok (PyEmitter.MAIN_GUARD ++ nl ++ "    print('salve')" ++ nl)
  /\ (exists out,
         emit_py_source Exempla.minimal = Ok out
         /\ contains out PyEmitter.MAIN_GUARD = true
         /\ contains out Exempla.print_salve_sq = true).
Proof.
  split; [vm_compute; reflexivity|].
  eexists. split; [vm_compute; reflexivity|].
  evaluate.
Qed.

(** C7 (the code departs from the claim).  The template case replaces the
    two characters U+0E22 U+0E07 and not the section sign, so a section
    sign of the template stays in the lowered text; the call to the format
    method is emitted. *)
Theorem scriptum_keeps_section_sign :
  forall l1 l2,
    PyEmitter._expr (ExprScriptum "a § b" [ExprNomen "x" l1] l2)
    = "f" ++ dq ++ "a § b" ++ dq ++ ".format(x)"
    /\ contains (PyEmitter._expr (ExprScriptum "a § b" [ExprNomen "x" l1] l2))
                Lexer.SECTION_SIGN = true
    /\ emit_py_source Exempla.scriptum_src
       = Ok ("f" ++ dq ++ "a § b" ++ dq ++ ".format(x)" ++ nl).
Proof. intros; evaluate. Qed.


(** ** Host dictionaries *)

Lemma NodeId_eqb_eq (a b : Scope.NodeId) :
  Scope.NodeId_eqb a b = true -> a = b.
Proof.
  revert b; induction a as [|x a IH]; intros [|y b]; simpl;
    try discriminate; auto.
  intros H; apply andb_prop in H; destruct H as [H1 H2].
  apply Nat.eqb_eq in H1; f_equal; auto.
Qed.

Lemma NodeId_eqb_refl (a : Scope.NodeId) : Scope.NodeId_eqb a a = true.
Proof.
  induction a as [|x a IH]; simpl; auto.
  rewrite Nat.eqb_refl; auto.
Qed.

Section DictFacts.
Context {K V : Type} (eqb : K -> K -> bool).
Hypothesis eqb_eq : forall a b, eqb a b = true -> a = b.
Hypothesis eqb_refl : forall a, eqb a a = true.

Lemma has_index (d : list (K * V)) (k : K) :
  PyDict.has eqb d k = true -> exists v, PyDict.index eqb d k = Ok v.
Proof.
  unfold PyDict.has, PyDict.index.
  destruct (PyDict.get eqb d k); [eauto | discriminate].
Qed.

Lemma get_set_same (d : list (K * V)) (k : K) (v : V) :
  PyDict.get eqb (PyDict.set eqb d k v) k = Some v.
Proof.
  induction d as [|[k' v'] d IH]; simpl.
  - now rewrite eqb_refl.
  - destruct (eqb k k') eqn:E; simpl.
    + now rewrite eqb_refl.
    + now rewrite E.
Qed.

Lemma has_set_mono (d : list (K * V)) (k k0 : K) (v : V) :
  PyDict.has eqb d k0 = true ->
  PyDict.has eqb (PyDict.set eqb d k v) k0 = true.
Proof.
  unfold PyDict.has.
  induction d as [|[k' v'] d IH]; simpl; [discriminate|].
  destruct (eqb k k') eqn:E; simpl.
  - apply eqb_eq in E; subst k'.
    destruct (eqb k0 k); auto.
  - destruct (eqb k0 k'); auto.
Qed.

End DictFacts.

Lemma dict_has_index {V} (d : dict V) (k : string) :
  dict_has d k = true -> exists v, dict_index d k = Ok v.
Proof. apply has_index. Qed.

(** ** Lookups never raise *)

Lemma lookup_if_present_ok {V} (d : dict V) (k : string) :
  exists r, Semantic.lookup_if_present d k = Ok r.
Proof.
  unfold Semantic.lookup_if_present.
  destruct (dict_has d k) eqn:E; [|eauto].
  destruct (dict_has_index d k E) as [v ->]; simpl; eauto.
Qed.

Lemma genus_member_ok (g : SemGenus) (prop_name : string) :
  exists r, Semantic.genus_member g prop_name = Ok r.
Proof.
  destruct g as [nomen agri methodi nb]; simpl.
  destruct (lookup_if_present_ok agri prop_name) as [[t|] ->]; simpl;
    [eauto|].
  destruct (lookup_if_present_ok methodi prop_name) as [[f|] ->]; simpl;
    eauto.
Qed.

Lemma find_variant_ok (discs : list SemDiscretio) (variant : string) :
  exists r, Semantic.find_variant discs variant = Ok r.
Proof.
  induction discs as [|[nomen variantes] rest IH]; simpl; [eauto|].
  destruct (dict_has variantes variant) eqn:E; [|exact IH].
  destruct (dict_has_index variantes variant E) as [v ->]; simpl; eauto.
Qed.

Lemma member_typus_ok (ctx : Scope.SemanticContext)
  (obj_type : SemanticTypus) (prop_name : string) :
  exists t, Semantic.member_typus ctx obj_type prop_name = Ok t.
Proof.
  unfold Semantic.member_typus.
  destruct (_ && _); [eauto|].
  destruct (if in_list prop_name _ then _ else _); [eauto|].
  destruct obj_type; eauto.
  - destruct (genus_member_ok g prop_name) as [[t|] ->]; simpl; eauto.
  - destruct o as [nomen membra].
    destruct (dict_has membra prop_name); eauto.
  - destruct d as [nomen variantes].
    destruct (lookup_if_present_ok variantes prop_name) as [[g|] ->];
      simpl; eauto.
  - destruct (dict_get (Scope.genus_registry ctx) nomen) as [genus|];
      [|eauto].
    destruct (genus_member_ok genus prop_name) as [[t|] ->]; simpl; eauto.
Qed.

Lemma Scopus_quaere_ok (sc : Scope.Scopus) (nomen : string) :
  exists r, Scope.Scopus_quaere sc nomen = Ok r.
Proof.
  induction sc as [parent IH symbola species nomen'] using Scope.Scopus_ind.
  simpl.
  destruct (dict_has symbola nomen) eqn:E.
  - destruct (dict_has_index symbola nomen E) as [v ->]; simpl; eauto.
  - destruct IH as [p IHp|]; [exact IHp | eauto].
Qed.

Lemma resolve_typus_nomen_ok (ctx : Scope.SemanticContext) (nomen : string) :
  exists t, Scope.resolve_typus_nomen ctx nomen = Ok t.
Proof.
  unfold Scope.resolve_typus_nomen.
  repeat match goal with
         | |- context [if dict_has ?d ?k then _ else _] =>
             let E := fresh "E" in
             destruct (dict_has d k) eqn:E;
             [destruct (dict_has_index d k E) as [? ->]; simpl; eauto|]
         end.
  eauto.
Qed.

Lemma map_res_ok {X Y} (f : X -> Res Y) (xs : list X) :
  list_all X (fun x => exists y, f x = Ok y) xs ->
  exists ys, map_res f xs = Ok ys.
Proof.
  induction 1 as [|x [y Hy] xs _ [ys Hys]]; simpl; [eauto|].
  rewrite Hy; simpl; rewrite Hys; simpl; eauto.
Qed.

Lemma resolve_typus_annotatio_ok (ctx : Scope.SemanticContext)
  (typus : Typus) :
  exists t, Semantic._resolve_typus_annotatio ctx typus = Ok t.
Proof.
  induction typus as [nomen | inner [t IH] | nomen args IH
                      | params IHp returns IHr | members IH | valor]
    using Typus_ind; simpl.
  - apply resolve_typus_nomen_ok.
  - rewrite IH; simpl; eauto.
  - assert (H0 : forall d, exists t,
               match args with
               | a0 :: _ => Semantic._resolve_typus_annotatio ctx a0
               | [] => Ok d
               end = Ok t)
      by (intros d; destruct IH; eauto).
    assert (H1 : exists t,
               match args with
               | _ :: a1 :: _ => Semantic._resolve_typus_annotatio ctx a1
               | _ => Ok Scope.IGNOTUM
               end = Ok t)
      by (destruct IH as [|a0 _ l [|a1 H1 l' _]]; eauto).
    destruct (String.eqb nomen "lista").
    { destruct (H0 Scope.IGNOTUM) as [t ->]; simpl; eauto. }
    destruct (String.eqb nomen "tabula").
    { destruct (H0 Scope.TEXTUS) as [t ->]; simpl.
      destruct H1 as [t1 ->]; simpl; eauto. }
    match goal with |- context [if ?b then _ else _] => destruct b end;
      [|eauto].
    destruct (H0 Scope.IGNOTUM) as [t ->]; simpl; eauto.
  - destruct (map_res_ok _ _ IHp) as [ps ->]; simpl.
    destruct IHr as [r [t ->]|]; simpl; eauto.
  - destruct (map_res_ok _ _ IH) as [ms ->]; simpl; eauto.
  - eauto.
Qed.

(** ** Rules for [steady] *)

Module SteadyRules.
Import Scope Semantic SemanticSpec.

Lemma grows_refl c : grows c c.
Proof.
  split; [exists []; now rewrite app_nil_r | intros k H; exact H].
Qed.

Lemma grows_same c c' :
  errores c' = errores c -> expr_types c' = expr_types c -> grows c c'.
Proof.
  intros E T; split.
  - exists []; now rewrite app_nil_r.
  - intros k H; now rewrite T.
Qed.

Lemma grows_trans c1 c2 c3 : grows c1 c2 -> grows c2 c3 -> grows c1 c3.
Proof.
  intros [[e1 H1] K1] [[e2 H2] K2]; split.
  - exists (e1 ++ e2)%list. now rewrite H2, H1, app_assoc.
  - intros k H; auto.
Qed.

Lemma extends_refl c : extends c c.
Proof. split; [repeat split | apply grows_refl]. Qed.

Lemma extends_trans c1 c2 c3 :
  extends c1 c2 -> extends c2 c3 -> extends c1 c3.
Proof.
  intros [(P1 & S1 & N1) G1] [(P2 & S2 & N2) G2]; split.
  - repeat split; congruence.
  - eapply grows_trans; eauto.
Qed.

Lemma steady_ret {X} (x : X) : steady (ret x).
Proof. intros c; exists x, c; split; [reflexivity | apply extends_refl]. Qed.

Lemma steady_bind {X Y} (m : A X) (f : X -> A Y) :
  steady m -> (forall x, steady (f x)) -> steady (bind m f).
Proof.
  intros Hm Hf c.
  destruct (Hm c) as (x & c1 & E1 & X1).
  destruct (Hf x c1) as (y & c2 & E2 & X2).
  exists y, c2; split; [|eapply extends_trans; eauto].
  unfold bind; now rewrite E1.
Qed.

Lemma steady_get : steady (@get SemanticContext).
Proof. intros c; exists c, c; split; [reflexivity | apply extends_refl]. Qed.

Lemma steady_modify (f : SemanticContext -> SemanticContext) :
  (forall c, extends c (f c)) -> steady (modify f).
Proof. intros H c; exists tt, (f c); split; [reflexivity | apply H]. Qed.

Lemma steady_lift_res {X} (r : Res X) :
  (exists x, r = Ok x) -> steady (lift_res r).
Proof.
  intros [x ->] c; exists x, c; split; [reflexivity | apply extends_refl].
Qed.

Lemma steady_definie sym : steady (definie sym).
Proof.
  apply steady_modify; intros c; split; [|now apply grows_same].
  unfold same_frame; simpl; destruct (current c); simpl; auto.
Qed.

Lemma steady_error nuntius locus : steady (error nuntius locus).
Proof.
  apply steady_modify; intros c; split; [repeat split|].
  split; [eexists; reflexivity | intros k H; exact H].
Qed.

Lemma steady_register_typus nomen typus :
  steady (register_typus nomen typus).
Proof.
  apply steady_modify; intros c; split; [repeat split | now apply grows_same].
Qed.

Lemma steady_set_ordo_registry nomen o : steady (set_ordo_registry nomen o).
Proof.
  apply steady_modify; intros c; split; [repeat split | now apply grows_same].
Qed.

Lemma steady_set_disc_registry nomen d : steady (set_disc_registry nomen d).
Proof.
  apply steady_modify; intros c; split; [repeat split | now apply grows_same].
Qed.

Lemma steady_set_genus_registry nomen g :
  steady (set_genus_registry nomen g).
Proof.
  apply steady_modify; intros c; split; [repeat split | now apply grows_same].
Qed.

Lemma steady_set_expr_type id typus : steady (set_expr_type id typus).
Proof.
  apply steady_modify; intros c; split; [repeat split|].
  split; [exists []; simpl; now rewrite app_nil_r|].
  intros k H; simpl.
  apply has_set_mono; [apply NodeId_eqb_eq | exact H].
Qed.

Lemma steady_get_expr_type id : steady (get_expr_type id).
Proof.
  unfold get_expr_type.
  apply steady_bind; [apply steady_get | intros; apply steady_ret].
Qed.

Lemma steady_quaere nomen : steady (quaere nomen).
Proof.
  unfold quaere.
  apply steady_bind; [apply steady_get | intros ctx].
  apply steady_lift_res, Scopus_quaere_ok.
Qed.

Lemma steady_resolve typus : steady (resolve typus).
Proof.
  destruct typus as [t|]; simpl; [|apply steady_ret].
  apply steady_bind; [apply steady_get | intros ctx].
  apply steady_lift_res, resolve_typus_annotatio_ok.
Qed.

(** *** Scopes: from [intra_scopum] to the [exi_scopum] that closes it *)

Lemma steady_scope {X} species nomen (rest : A X) :
  (forall c0, Hoare (inside c0) rest (fun _ => extends c0)) ->
  steady (intra_scopum species nomen ;; rest).
Proof.
  intros H c.
  apply (H c).
  exists c; split; [apply extends_refl|]; split; [reflexivity|].
  now apply grows_same.
Qed.

Lemma inside_bind {X Y} c0 (m : A X) (f : X -> A Y) Q :
  steady m -> (forall x, Hoare (inside c0) (f x) Q) ->
  Hoare (inside c0) (bind m f) Q.
Proof.
  intros Hm Hf c1 (c & E & P & G).
  destruct (Hm c1) as (x & c2 & E2 & (P2 & _) & G2).
  destruct (Hf x c2) as (y & c3 & E3 & Q3).
  { exists c; split; [exact E|]; split; [congruence|].
    eapply grows_trans; eauto. }
  exists y, c3; split; [|exact Q3].
  unfold bind; now rewrite E2.
Qed.

Lemma inside_exi c0 :
  Hoare (inside c0) exi_scopum (fun _ => extends c0).
Proof.
  intros c1 (c & [F G] & P & G1).
  eexists tt, _; split; [reflexivity|].
  rewrite P; split.
  - exact F.
  - eapply grows_trans; [exact G|].
    destruct G1 as [E1 K1]; split; [exact E1 | exact K1].
Qed.

Lemma inside_exi_bind {Y} c0 (f : unit -> A Y) :
  (forall x, steady (f x)) ->
  Hoare (inside c0) (bind exi_scopum f) (fun _ => extends c0).
Proof.
  intros Hf c1 H1.
  destruct (inside_exi c0 c1 H1) as (x & c2 & E2 & X2).
  destruct (Hf x c2) as (y & c3 & E3 & X3).
  exists y, c3; split; [|eapply extends_trans; eauto].
  unfold bind; now rewrite E2.
Qed.

(** *** Loops *)

Lemma steady_for_each_i {X} (PX : X -> Prop) (f : nat -> X -> A unit)
  (xs : list X) :
  list_all X PX xs -> (forall i x, PX x -> steady (f i x)) ->
  forall i, steady (for_each_i f i xs).
Proof.
  intros H Hf; induction H as [|x Hx xs _ IH]; intros i; simpl.
  - apply steady_ret.
  - apply steady_bind; auto.
Qed.

(** The same when the premise on the elements is itself a family of
    premises on their parts. *)
Lemma steady_for_each_i_parts {X} (PX : X -> Type)
  (f : nat -> X -> A unit) (xs : list X) :
  list_all X PX xs -> (forall i x, PX x -> steady (f i x)) ->
  forall i, steady (for_each_i f i xs).
Proof.
  intros H Hf; induction H as [|x Hx xs _ IH]; intros i; simpl.
  - apply steady_ret.
  - apply steady_bind; auto.
Qed.

Lemma list_all_true {X} (xs : list X) : list_all X (fun _ => True) xs.
Proof. induction xs; constructor; auto. Qed.

Lemma steady_for_each {X} (f : X -> A unit) (xs : list X) :
  (forall x, steady (f x)) -> steady (for_each f xs).
Proof.
  intros Hf; unfold for_each.
  apply (steady_for_each_i (fun _ => True)); auto using list_all_true.
Qed.

Lemma steady_map_A {X Y} (f : X -> A Y) (xs : list X) :
  (forall x, steady (f x)) -> steady (map_A f xs).
Proof.
  intros Hf; induction xs as [|x xs IH]; simpl.
  - apply steady_ret.
  - apply steady_bind; [apply Hf | intros y].
    apply steady_bind; [apply IH | intros ys; apply steady_ret].
Qed.

End SteadyRules.

(** ** Every call of the analyzer is steady *)

Module SteadyAnalysis.
Import Scope Semantic SemanticSpec SteadyRules.

Create HintDb steady.
Create HintDb analysis.

#[local] Hint Resolve steady_ret steady_get steady_definie steady_error
  steady_register_typus steady_set_ordo_registry steady_set_disc_registry
  steady_set_genus_registry steady_set_expr_type steady_get_expr_type
  steady_quaere steady_resolve inside_exi : steady.

#[local] Hint Resolve Scopus_quaere_ok resolve_typus_nomen_ok
  resolve_typus_annotatio_ok lookup_if_present_ok genus_member_ok
  find_variant_ok member_typus_ok : steady.

#[local] Hint Unfold _analyze_expression_opt _analyze_statement_opt
  analyze_each _analyze_binaria _analyze_unaria _analyze_vocatio
  _analyze_membrum _analyze_series _analyze_obiectum _analyze_clausura
  _analyze_novum _analyze_finge _analyze_nomen _analyze_varia
  _analyze_genus _analyze_pattern
  resolve_param_typus resolve_reditus _resolve_functio_typus
  _resolve_pactum_method_typus _collect_genus _collect_ordo
  _collect_discretio _collect_pactum _collect_functio : analysis.

(** The premises that the induction principle gives for the parts of a
    node. *)
Ltac break_all :=
  repeat match goal with
         | H : option_all _ _ _ |- _ => destruct H
         | H : EligeCasus_all _ _ _ _ _ |- _ => destruct H
         | H : ClausuraCorpus_all _ _ _ _ _ |- _ => destruct H
         | H : DiscerneCasus_all _ _ _ |- _ => destruct H
         | H : CapeClausula_all _ _ _ |- _ => destruct H
         | H : CustodiClausula_all _ _ _ _ _ |- _ => destruct H
         | H : ObiectumProp_all _ _ _ |- _ => destruct H
         | H : Param_all _ _ _ |- _ => destruct H
         end.

Ltac steady_step :=
  lazymatch goal with
  | H : forall id,
        steady (_analyze_statement id (StmtFunctio _ _ _ _ _ _ _ _ _))
    |- steady (_analyze_functio _ ?id _ _ _ _) => exact (H id)
  | |- steady (_analyze_functio _ _ _ _ _ _) => unfold _analyze_functio
  | |- steady (bind (intra_scopum _ _) _) => apply steady_scope; intros ?
  | |- steady (bind _ _) => apply steady_bind; [|intros ?]
  | |- steady (lift_res _) => apply steady_lift_res; auto with steady
  | H : list_all _ ?P ?xs |- steady (for_each_i _ _ ?xs) =>
      first [apply (steady_for_each_i P _ _ H)
            | apply (steady_for_each_i_parts P _ _ H)];
      intros ? ? ?; break_all
  | |- steady (for_each _ _) => apply steady_for_each; intros ?
  | |- steady (map_A _ _) => apply steady_map_A; intros ?
  | |- steady (match ?x with _ => _ end) => destruct x
  | |- Hoare (inside _) (bind exi_scopum _) _ =>
      apply inside_exi_bind; intros ?
  | |- Hoare (inside _) (bind _ _) _ => apply inside_bind; [|intros ?]
  | |- Hoare (inside _) (match ?x with _ => _ end) _ => destruct x
  | |- _ => progress autounfold with analysis
  end.

Ltac steady_tac :=
  break_all;
  repeat (cbv beta iota zeta; first [solve [auto with steady] | steady_step]).

(** *** Pass 1 *)

Lemma steady_collect_agri campi :
  forall agri, steady (collect_agri campi agri).
Proof.
  induction campi as [|[nomen typus ? ? ?] rest IH]; intros agri;
    cbn [collect_agri]; steady_tac.
Qed.

Lemma steady_collect_methodi methodi :
  forall acc, steady (collect_methodi methodi acc).
Proof.
  induction methodi as [|m rest IH]; intros acc;
    [apply steady_ret|].
  destruct m; cbn [collect_methodi]; steady_tac.
Qed.

Lemma steady_collect_varians_agri campi :
  forall agri, steady (collect_varians_agri campi agri).
Proof.
  induction campi as [|[nomen typus] rest IH]; intros agri;
    cbn [collect_varians_agri]; steady_tac.
Qed.

Lemma steady_collect_variantes variantes :
  forall acc, steady (collect_variantes variantes acc).
Proof.
  pose proof steady_collect_varians_agri.
  induction variantes as [|[nomen campi locus] rest IH]; intros acc;
    cbn [collect_variantes]; steady_tac.
Qed.

Lemma steady_collect_pactum_methodi methodi :
  forall acc, steady (collect_pactum_methodi methodi acc).
Proof.
  induction methodi as [|[nomen params tr ? ?] rest IH]; intros acc;
    cbn [collect_pactum_methodi]; steady_tac.
Qed.

Lemma steady_collect_declaration stmt : steady (_collect_declaration stmt).
Proof.
  pose proof steady_collect_agri.
  pose proof steady_collect_methodi.
  pose proof steady_collect_variantes.
  pose proof steady_collect_pactum_methodi.
  destruct stmt; cbn [_collect_declaration]; steady_tac.
Qed.

(** *** Pass 2 *)

Lemma analyze_expression_eq id expr :
  _analyze_expression id expr
  = _analyze_expression_body _analyze_expression _analyze_statement id expr.
Proof. destruct expr; reflexivity. Qed.

Lemma analyze_statement_eq id stmt :
  _analyze_statement id stmt
  = _analyze_statement_body _analyze_expression _analyze_statement id stmt.
Proof. destruct stmt; reflexivity. Qed.

Section Recursion.
Variable expr_rec : NodeId -> Expr -> A SemanticTypus.
Variable stmt_rec : NodeId -> Stmt -> A unit.

(** The premise on a sub-expression: its analysis is steady. *)
Local Notation PE := (fun e : Expr => forall id, steady (expr_rec id e)).

Lemma steady_analyze_elementa id elementa :
  list_all Expr PE elementa ->
  forall i elem_type,
    steady (analyze_elementa expr_rec id i elementa elem_type).
Proof.
  induction 1 as [|e He rest _ IH]; intros i elem_type;
    cbn [analyze_elementa]; steady_tac.
Qed.

Lemma steady_analyze_props id props :
  list_all (ObiectumProp Expr) (ObiectumProp_all Expr PE) props ->
  forall i fields, steady (analyze_props expr_rec id i props fields).
Proof.
  induction 1 as [|p Hp rest _ IH]; intros i fields;
    [apply steady_ret|].
  destruct Hp; cbn [analyze_props]; steady_tac.
Qed.

Lemma steady_analyze_campi id campi :
  list_all (ObiectumProp Expr) (ObiectumProp_all Expr PE) campi ->
  forall i, steady (analyze_campi expr_rec id i campi).
Proof.
  induction 1 as [|p Hp rest _ IH]; intros i; [apply steady_ret|].
  destruct Hp; cbn [analyze_campi]; steady_tac.
Qed.

Lemma steady_bind_params params :
  forall acc, steady (bind_params params acc).
Proof.
  induction params as [|[nomen typus ? ? ? ? ?] rest IH]; intros acc;
    cbn [bind_params]; steady_tac.
Qed.

Lemma steady_define_params params : steady (define_params params).
Proof.
  induction params as [|[nomen typus ? ? ? ? ?] rest IH];
    cbn [define_params]; steady_tac.
Qed.

Lemma steady_define_bindings agri bindings :
  steady (define_bindings agri bindings).
Proof.
  induction bindings as [|b rest IH]; cbn [define_bindings]; steady_tac.
Qed.

End Recursion.

#[local] Hint Resolve steady_analyze_elementa steady_analyze_props
  steady_analyze_campi steady_bind_params steady_define_params
  steady_define_bindings : steady.

Lemma steady_analyze_pattern p discrim_id :
  steady (_analyze_pattern p discrim_id).
Proof. destruct p; steady_tac. Qed.

#[local] Hint Resolve steady_analyze_pattern : steady.

Lemma steady_analyze :
  (forall expr id, steady (_analyze_expression id expr))
  /\ (forall stmt id, steady (_analyze_statement id stmt)).
Proof.
  apply Expr_Stmt_mutind; intros;
    rewrite ?analyze_expression_eq, ?analyze_statement_eq;
    unfold _analyze_expression_body, _analyze_statement_body.
  all: steady_tac.
Qed.

Lemma steady_analyze_module corpus : steady (analyze_module corpus).
Proof.
  unfold analyze_module.
  apply steady_bind; [|intros _].
  - apply steady_for_each, steady_collect_declaration.
  - apply (steady_for_each_i (fun _ => True)); [apply list_all_true|].
    intros i x _; apply steady_analyze.
Qed.

(** The call on an expression leaves its type in the map, at the node. *)
Lemma analyze_expression_recorded id expr c :
  exists t c',
    _analyze_expression id expr c = Ok (t, c')
    /\ extends c c'
    /\ PyDict.get NodeId_eqb (expr_types c') id = Some t.
Proof.
  destruct (proj1 steady_analyze expr id c) as (t & c' & E & X).
  exists t, c'; split; [exact E|]; split; [exact X|].
  rewrite analyze_expression_eq in E.
  unfold _analyze_expression_body, bind in E.
  match type of E with
  | match ?m with _ => _ end = _ => destruct m as [[r c1]| | |]
  end; try discriminate.
  unfold set_expr_type, modify, ret in E.
  injection E as <- <-; simpl.
  apply get_set_same, NodeId_eqb_refl.
Qed.

End SteadyAnalysis.

(** ** What the analyzer leaves in the context *)

Module AnalysisFacts.
Import Scope Semantic SemanticSpec SteadyRules SteadyAnalysis.

Lemma scopus_root_parent sc : scopus_parent (scopus_root sc) = None.
Proof.
  induction sc as [parent IH symbola species nomen] using Scopus_ind.
  destruct IH as [p IHp|]; simpl; auto.
Qed.

Lemma global_scope_parent ctx :
  current ctx = global_scope ctx <-> scopus_parent (current ctx) = None.
Proof.
  unfold global_scope; split; intros H.
  - rewrite H; apply scopus_root_parent.
  - destruct (current ctx) as [[p|] symbola species nomen];
      [discriminate | reflexivity].
Qed.

Lemma same_frame_depth c c' :
  same_frame c c' ->
  scopus_depth (current c') = scopus_depth (current c).
Proof.
  intros (P & _ & _).
  destruct (current c) as [[p|] ? ? ?], (current c') as [[p'|] ? ? ?];
    simpl in *; congruence.
Qed.

Lemma analyze_ok mod_ :
  exists ctx, analyze mod_ = Ok ctx /\ extends SemanticContext_new ctx.
Proof.
  destruct mod_ as [corpus locus]; unfold analyze.
  destruct (steady_analyze_module corpus SemanticContext_new)
    as ([] & ctx & E & X).
  exists ctx; rewrite E; auto.
Qed.


(** *** Diagnostics *)






Lemma resolve_pure typus c : exists t, resolve typus c = Ok (t, c).
Proof.
  destruct typus as [t|]; simpl; [|eexists; reflexivity].
  unfold bind, get, lift_res.
  destruct (resolve_typus_annotatio_ok c t) as [t' ->]; simpl; eauto.
Qed.


End AnalysisFacts.

(** ** Semantic analysis: totality, diagnostics, recorded types *)




(** ** Scopes *)

(** C10: the scope stack is balanced.
    - [analyze] returns a context whose current scope is the global scope:
      the scope of kind [GLOBAL] that has no parent;
    - every call on a statement or an expression, from every context,
      returns in the scope it was called in: same parent chain, same kind,
      same name, same depth (every scope it enters, it leaves);
    - [exi_scopum] right after [intra_scopum] gives back the context;
    - in the global scope [exi_scopum] returns the context as it is. *)
Theorem scope_stack_balance :
  (forall mod_, exists ctx,
      Semantic.analyze mod_ = Ok ctx
      /\ Scope.current ctx = Scope.global_scope ctx
      /\ Scope.scopus_parent (Scope.current ctx) = None
      /\ Scope.scopus_species (Scope.current ctx) = ScopusSpecies.GLOBAL)
  /\ (forall id stmt c, exists c',
        Semantic._analyze_statement id stmt c = Ok (tt, c')
        /\ SemanticSpec.same_frame c c'
        /\ SemanticSpec.scopus_depth (Scope.current c')
           = SemanticSpec.scopus_depth (Scope.current c))
  /\ (forall id expr c, exists t c',
        Semantic._analyze_expression id expr c = Ok (t, c')
        /\ SemanticSpec.same_frame c c'
        /\ SemanticSpec.scopus_depth (Scope.current c')
           = SemanticSpec.scopus_depth (Scope.current c))
  /\ (forall species nomen c,
        (Scope.intra_scopum species nomen ;; Scope.exi_scopum) c
        = Ok (tt, c))
  /\ (forall ctx,
        Scope.current ctx = Scope.global_scope ctx ->
        Scope.exi_scopum ctx = Ok (tt, ctx)).
Proof.
  conj_split.
  - intros mod_.
    destruct (AnalysisFacts.analyze_ok mod_) as (ctx & E & (P & S & _) & _).
    exists ctx; split; [exact E|].
    split; [apply AnalysisFacts.global_scope_parent|]; auto.
  - intros id stmt c.
    destruct (proj2 SteadyAnalysis.steady_analyze stmt id c)
      as ([] & c' & E & F & _).
    exists c'; auto using AnalysisFacts.same_frame_depth.
  - intros id expr c.
    destruct (proj1 SteadyAnalysis.steady_analyze expr id c)
      as (t & c' & E & F & _).
    exists t, c'; auto using AnalysisFacts.same_frame_depth.
  - intros species nomen [cur ty o d g e x]; reflexivity.
  - intros ctx H.
    apply AnalysisFacts.global_scope_parent in H.
    unfold Scope.exi_scopum, modify; now rewrite H.
Qed.

(** A new context is in its global scope, and [exi_scopum] leaves it
    there. *)
Lemma scope_stack_balance_witness :
  Scope.exi_scopum Scope.SemanticContext_new
  = Ok (tt, Scope.SemanticContext_new).
Proof.
  apply (proj2 (proj2 (proj2 (proj2 scope_stack_balance)))).
  reflexivity.
Defined.

(** * Further properties of the code *)

(** ** scope.py: symbols and scopes *)

Module ScopeFacts.
Import Scope SemanticSpec.

Lemma string_eqb_eq (a b : string) : String.eqb a b = true -> a = b.
Proof. apply String.eqb_eq. Qed.

Lemma dict_get_set_same {V} (d : dict V) (k : string) (v : V) :
  dict_get (dict_set d k v) k = Some v.
Proof. apply get_set_same, String.eqb_refl. Qed.

Lemma dict_get_set_other {V} (d : dict V) (k k0 : string) (v : V) :
  k0 <> k -> dict_get (dict_set d k v) k0 = dict_get d k0.
Proof.
  intros N; unfold dict_get, dict_set.
  assert (E0 : String.eqb k0 k = false) by now apply String.eqb_neq.
  induction d as [|[k' v'] d IH]; simpl.
  - now rewrite E0.
  - destruct (String.eqb k k') eqn:E; simpl.
    + apply String.eqb_eq in E; subst k'. now rewrite E0.
    + now rewrite IH.
Qed.

Lemma dict_has_get {V} (d : dict V) (k : string) :
  dict_has d k = match dict_get d k with Some _ => true | None => false end.
Proof. reflexivity. Qed.

Lemma dict_index_get {V} (d : dict V) (k : string) (v : V) :
  dict_get d k = Some v -> dict_index d k = Ok v.
Proof. unfold dict_get, dict_index, PyDict.index; now intros ->. Qed.

(** The lookup in one scope, by the entry the scope has for the name. *)
Lemma Scopus_quaere_local parent symbola species nomen n y :
  dict_get symbola n = Some y ->
  Scopus_quaere (mkScopus parent symbola species nomen) n = Ok (Some y).
Proof.
  intros H; simpl.
  rewrite dict_has_get, H, (dict_index_get _ _ _ H); reflexivity.
Qed.

Lemma Scopus_quaere_outer p symbola species nomen n :
  dict_get symbola n = None ->
  Scopus_quaere (mkScopus (Some p) symbola species nomen) n
  = Scopus_quaere p n.
Proof. intros H; simpl. now rewrite dict_has_get, H. Qed.

Lemma Scopus_quaere_definie_same sc sym :
  Scopus_quaere (Scopus_definie sc sym) (sym_nomen sym) = Ok (Some sym).
Proof.
  destruct sc as [parent symbola species nomen]; simpl Scopus_definie.
  apply Scopus_quaere_local, dict_get_set_same.
Qed.

Lemma Scopus_quaere_definie_other sc sym n :
  n <> sym_nomen sym ->
  Scopus_quaere (Scopus_definie sc sym) n = Scopus_quaere sc n.
Proof.
  intros N; destruct sc as [parent symbola species nomen]; simpl.
  unfold dict_has, dict_index, PyDict.has, PyDict.index.
  fold (dict_set symbola (sym_nomen sym) sym).
  fold (dict_get (dict_set symbola (sym_nomen sym) sym) n).
  fold (dict_get symbola n).
  now rewrite (dict_get_set_other _ _ _ _ N).
Qed.

Lemma with_current_current c : with_current c (current c) = c.
Proof. destruct c; reflexivity. Qed.

Lemma definie_then_quaere_aux sym c :
  exists c',
    definie sym c = Ok (tt, c')
    /\ quaere (sym_nomen sym) c' = Ok (Some sym, c').
Proof.
  eexists; split; [reflexivity|].
  unfold quaere, bind, get, lift_res; cbn [current with_current].
  now rewrite Scopus_quaere_definie_same.
Qed.

End ScopeFacts.

(** X1.  A symbol that [definie] adds is the one [quaere] finds under its
    name, whatever the scope held before (a second definition replaces the
    first); the other names are found as before, and the scope keeps its
    parent. *)
Theorem definie_then_quaere (sym : Scope.Symbolum)
  (c : Scope.SemanticContext) :
  exists c',
    Scope.definie sym c = Ok (tt, c')
    /\ Scope.quaere (Scope.sym_nomen sym) c' = Ok (Some sym, c')
    /\ (forall n, n <> Scope.sym_nomen sym ->
          Scope.Scopus_quaere (Scope.current c') n
          = Scope.Scopus_quaere (Scope.current c) n)
    /\ Scope.scopus_parent (Scope.current c')
       = Scope.scopus_parent (Scope.current c).
Proof.
  eexists; split; [reflexivity|]; conj_split.
  - unfold Scope.quaere, bind, get, lift_res.
    cbn [Scope.current Scope.with_current].
    now rewrite ScopeFacts.Scopus_quaere_definie_same.
  - intros n N; cbn [Scope.current Scope.with_current].
    now apply ScopeFacts.Scopus_quaere_definie_other.
  - cbn [Scope.current Scope.with_current].
    destruct (Scope.current c); reflexivity.
Qed.

(** The name [y] keeps its symbol when [x] is defined. *)
Lemma definie_then_quaere_witness :
  Scope.Scopus_quaere
    (Scope.Scopus_definie
       (Scope.current Scope.SemanticContext_new)
       (Scope.Symbolum_simple "x" Scope.NUMERUS SymbolSpecies.VARIABILIS))
    "y"
  = Scope.Scopus_quaere (Scope.current Scope.SemanticContext_new) "y".
Proof.
  destruct (definie_then_quaere
              (Scope.Symbolum_simple "x" Scope.NUMERUS
                                     SymbolSpecies.VARIABILIS)
              Scope.SemanticContext_new) as (c' & E & _ & H & _).
  injection E as <-.
  apply H; discriminate.
Defined.

(** X2.  A definition made in an inner scope is found there, before the
    symbols of the enclosing scopes, and is gone when the scope is left:
    [exi_scopum] gives back the context as it was at [intra_scopum].  A name
    that the inner scope does not define is looked up in the enclosing
    scopes. *)
Theorem inner_scope_shadows_and_forgets (species : ScopusSpecies.t)
  (nomen : string) (sym : Scope.Symbolum) (n : string)
  (c : Scope.SemanticContext) :
  (Scope.intra_scopum species nomen ;;
   Scope.definie sym ;;
   r <- Scope.quaere (Scope.sym_nomen sym) ;;
   Scope.exi_scopum ;;
   ret r) c = Ok (Some sym, c)
  /\ exists r,
       Scope.quaere n c = Ok (r, c)
       /\ (Scope.intra_scopum species nomen ;;
           r' <- Scope.quaere n ;;
           Scope.exi_scopum ;;
           ret r') c = Ok (r, c).
Proof.
  split.
  - cbv [Scope.intra_scopum Scope.definie Scope.quaere Scope.exi_scopum
         modify get lift_res ret bind].
    cbn [Scope.current Scope.with_current].
    rewrite ScopeFacts.Scopus_quaere_definie_same.
    cbn -[Scope.Scopus_quaere].
    now destruct c.
  - destruct (Scopus_quaere_ok (Scope.current c) n) as [r E].
    exists r.
    cbv [Scope.intra_scopum Scope.quaere Scope.exi_scopum
         modify get lift_res ret bind].
    cbn [Scope.current Scope.with_current].
    rewrite (ScopeFacts.Scopus_quaere_outer (Scope.current c) [] species
               nomen n eq_refl), E.
    cbn -[Scope.Scopus_quaere].
    now destruct c.
Qed.

(** X3.  [quaere_typus] looks at the nearest symbol of the name only: when
    that symbol is a variable, a function, a parameter or a variant, the
    result is [None], also when an enclosing scope declares a type of that
    name.  What it returns is what [quaere] returns, and a type-like
    symbol. *)
Theorem quaere_typus_nearest_symbol :
  (forall parent symbola species nomen n y,
      dict_get symbola n = Some y ->
      In (Scope.sym_species y)
         [SymbolSpecies.VARIABILIS; SymbolSpecies.FUNCTIO;
          SymbolSpecies.PARAMETRUM; SymbolSpecies.VARIANS] ->
      Scope.Scopus_quaere_typus
        (Scope.mkScopus parent symbola species nomen) n = Ok None)
  /\ (forall sc n y,
        Scope.Scopus_quaere_typus sc n = Ok (Some y) ->
        Scope.Scopus_quaere sc n = Ok (Some y)
        /\ In (Scope.sym_species y)
              [SymbolSpecies.GENUS; SymbolSpecies.ORDO;
               SymbolSpecies.DISCRETIO; SymbolSpecies.PACTUM;
               SymbolSpecies.TYPUS]).
Proof.
  split.
  - intros parent symbola species nomen n y H S.
    unfold Scope.Scopus_quaere_typus.
    rewrite (ScopeFacts.Scopus_quaere_local _ _ _ _ _ _ H); simpl.
    simpl in S; decompose [or] S; try contradiction;
      match goal with E : _ = Scope.sym_species y |- _ => now rewrite <- E end.
  - intros sc n y; unfold Scope.Scopus_quaere_typus.
    destruct (Scopus_quaere_ok sc n) as [[z|] ->]; simpl; [|discriminate].
    destruct (Scope.sym_species z) eqn:E; intros H; try discriminate;
      injection H as ->; rewrite E; simpl; auto 10.
Qed.

(** A variable [T] in a block hides the class [T] of the global scope. *)
Lemma quaere_typus_nearest_symbol_witness :
  Scope.Scopus_quaere_typus
    (Scope.mkScopus
       (Some (Scope.mkScopus None
                [("T", Scope.Symbolum_simple "T" Scope.IGNOTUM
                                             SymbolSpecies.GENUS)]
                ScopusSpecies.GLOBAL ""))
       [("T", Scope.Symbolum_simple "T" Scope.NUMERUS
                                    SymbolSpecies.VARIABILIS)]
       ScopusSpecies.MASSA "") "T" = Ok None.
Proof.
  eapply (proj1 quaere_typus_nearest_symbol); [reflexivity|].
  simpl; auto.
Defined.


(** ** Types by name *)

(** X5.  A registered type is what its name resolves to, unless the name is
    that of a primitive type: the primitive names resolve the same in every
    context.  A name that nothing declares resolves to the placeholder
    [SemUsitatum], and nothing is raised. *)
Theorem register_then_resolve :
  (forall n t c,
      dict_has Scope.primitives n = false ->
      exists c',
        Scope.register_typus n t c = Ok (tt, c')
        /\ Scope.resolve_typus_nomen c' n = Ok t)
  /\ (forall n c c',
        dict_has Scope.primitives n = true ->
        Scope.resolve_typus_nomen c n = Scope.resolve_typus_nomen c' n)
  /\ (forall n c,
        dict_has Scope.primitives n = false ->
        dict_has (Scope.typi c) n = false ->
        dict_has (Scope.ordo_registry c) n = false ->
        dict_has (Scope.disc_registry c) n = false ->
        dict_has (Scope.genus_registry c) n = false ->
        Scope.resolve_typus_nomen c n = Ok (SemUsitatum n false)).
Proof.
  conj_split.
  - intros n t c H; eexists; split; [reflexivity|].
    unfold Scope.resolve_typus_nomen; rewrite H.
    cbn [Scope.typi].
    rewrite ScopeFacts.dict_has_get, ScopeFacts.dict_get_set_same.
    apply ScopeFacts.dict_index_get, ScopeFacts.dict_get_set_same.
  - intros n c c' H; unfold Scope.resolve_typus_nomen; now rewrite H.
  - intros n c H1 H2 H3 H4 H5; unfold Scope.resolve_typus_nomen.
    now rewrite H1, H2, H3, H4, H5.
Qed.

(** [numerus] stays the primitive type when a type of that name is
    registered; [Punctum] resolves to what was registered; [Nemo] to the
    placeholder. *)
Lemma register_then_resolve_witness :
  (exists c',
      Scope.register_typus "Punctum" Scope.TEXTUS Scope.SemanticContext_new
      = Ok (tt, c')
      /\ Scope.resolve_typus_nomen c' "Punctum" = Ok Scope.TEXTUS)
  /\ Scope.resolve_typus_nomen Scope.SemanticContext_new "numerus"
     = Scope.resolve_typus_nomen
         (snd (tt, Scope.with_current Scope.SemanticContext_new
                     (Scope.current Scope.SemanticContext_new))) "numerus"
  /\ Scope.resolve_typus_nomen Scope.SemanticContext_new "Nemo"
     = Ok (SemUsitatum "Nemo" false).
Proof.
  destruct register_then_resolve as (H1 & H2 & H3).
  split; [apply H1; reflexivity|].
  split; [apply H2; reflexivity | apply H3; reflexivity].
Defined.

(** ** semantic.py: pass 1 *)

Module PassOne.
Import Scope Semantic SemanticSpec SteadyRules SteadyAnalysis.

(** [m] returns normally and leaves the context as it is. *)
Local Notation pure m := (forall c, exists x, m c = Ok (x, c)).

Lemma pure_bind {X Y} (m : A X) (f : X -> A Y) :
  pure m -> (forall x, pure (f x)) -> pure (bind m f).
Proof.
  intros Hm Hf c; destruct (Hm c) as [x E]; destruct (Hf x c) as [y E'].
  exists y; unfold bind; now rewrite E.
Qed.

Lemma pure_ret {X} (x : X) : pure (@ret SemanticContext X x).
Proof. intros c; now exists x. Qed.

Lemma pure_map_A {X Y} (f : X -> A Y) xs :
  (forall x, pure (f x)) -> pure (map_A f xs).
Proof.
  intros Hf; induction xs as [|x xs IH]; cbn [map_A]; [apply pure_ret|].
  apply pure_bind; [apply Hf | intros y].
  apply pure_bind; [apply IH | intros ys; apply pure_ret].
Qed.

Lemma pure_resolve_functio_typus params typus_reditus :
  pure (_resolve_functio_typus params typus_reditus).
Proof.
  unfold _resolve_functio_typus.
  apply pure_bind; [|intros ps; apply pure_bind; [|intros; apply pure_ret]].
  - apply pure_map_A; intros [? typus ? ? ? ? ?];
      apply AnalysisFacts.resolve_pure.
  - destruct typus_reditus; [apply AnalysisFacts.resolve_pure|apply pure_ret].
Qed.

Lemma pure_collect_agri campi : forall agri, pure (collect_agri campi agri).
Proof.
  induction campi as [|[nomen typus ? ? ?] rest IH]; intros agri;
    cbn [collect_agri]; [apply pure_ret|].
  apply pure_bind; [apply AnalysisFacts.resolve_pure | intros t; apply IH].
Qed.

Lemma pure_collect_methodi methodi :
  forall acc, pure (collect_methodi methodi acc).
Proof.
  induction methodi as [|m rest IH]; intros acc; [apply pure_ret|].
  destruct m; cbn [collect_methodi]; try apply IH.
  apply pure_bind; [apply pure_resolve_functio_typus | intros f; apply IH].
Qed.

Lemma pure_collect_pactum_methodi methodi :
  forall acc, pure (collect_pactum_methodi methodi acc).
Proof.
  induction methodi as [|[nomen params tr ? ?] rest IH]; intros acc;
    cbn [collect_pactum_methodi]; [apply pure_ret|].
  apply pure_bind; [|intros f; apply IH].
  exact (pure_resolve_functio_typus params tr).
Qed.

Lemma keys_grow_refl {V} (d : dict V) : keys_grow d d.
Proof. intros k H; exact H. Qed.

Lemma keys_grow_set {V} (d : dict V) k v : keys_grow d (dict_set d k v).
Proof. intros k0; apply has_set_mono, ScopeFacts.string_eqb_eq. Qed.

Lemma dict_has_set {V} (d : dict V) k v : dict_has (dict_set d k v) k = true.
Proof.
  now rewrite ScopeFacts.dict_has_get, ScopeFacts.dict_get_set_same.
Qed.

Lemma registered_refl c : registered c c.
Proof. repeat split; apply keys_grow_refl. Qed.

Lemma registered_trans c1 c2 c3 :
  registered c1 c2 -> registered c2 c3 -> registered c1 c3.
Proof.
  intros (T1 & S1 & P1) (T2 & S2 & P2); repeat split.
  - intros k H; auto.
  - intros k H; auto.
  - congruence.
Qed.

Lemma registered_definie c sym :
  registered c (with_current c (Scopus_definie (current c) sym))
  /\ dict_has
       (scopus_symbola (current (with_current c
                                   (Scopus_definie (current c) sym))))
       (sym_nomen sym) = true.
Proof.
  unfold registered; cbn [current with_current typi].
  destruct (current c) as [parent symbola species nomen];
    cbn [Scopus_definie scopus_symbola scopus_parent].
  repeat split; auto using keys_grow_refl, keys_grow_set, dict_has_set.
Qed.

Lemma registered_step c c' sym :
  keys_grow (typi c) (typi c') ->
  current c' = Scopus_definie (current c) sym ->
  registered c c'
  /\ dict_has (scopus_symbola (current c')) (sym_nomen sym) = true.
Proof.
  intros T E; unfold registered; rewrite E.
  destruct (current c) as [parent symbola species nomen];
    cbn [Scopus_definie scopus_symbola scopus_parent].
  repeat split; auto using keys_grow_set, dict_has_set.
Qed.

Lemma collect_variantes_registered variantes :
  forall acc c, exists vs c',
    collect_variantes variantes acc c = Ok (vs, c')
    /\ registered c c' /\ typi c' = typi c.
Proof.
  induction variantes as [|[nomen campi locus] rest IH]; intros acc c;
    cbn [collect_variantes].
  - exists acc, c; repeat split; apply keys_grow_refl.
  - unfold bind at 1.
    destruct (steady_collect_varians_agri campi [] c)
      as (agri & c1 & E & _).
    assert (c1 = c) as ->.
    { clear - E; revert E; generalize (@nil (string * SemanticTypus)).
      induction campi as [|[n t] campi IHc]; intros agri0;
        cbn [collect_varians_agri].
      - now intros [= _ ->].
      - unfold bind at 1.
        destruct (AnalysisFacts.resolve_pure t c) as [t' ->]; apply IHc. }
    rewrite E; cbv zeta; unfold bind at 1, definie at 1, modify.
    match goal with
    | |- context [collect_variantes rest ?a ?s] =>
        destruct (IH a s) as (vs & c' & -> & R & T)
    end.
    exists vs, c'; split; [reflexivity|]; split; [|exact T].
    eapply registered_trans; [|exact R].
    apply registered_definie.
Qed.

(** One declaration: what was registered stays, and the declaration is
    registered. *)
Lemma collect_declaration_registered stmt c :
  exists c',
    _collect_declaration stmt c = Ok (tt, c')
    /\ registered c c'
    /\ (forall nomen, declared_typus stmt = Some nomen ->
                      dict_has (typi c') nomen = true)
    /\ (forall nomen, declared_symbolum stmt = Some nomen ->
                      dict_has (scopus_symbola (current c')) nomen = true).
Proof.
  destruct stmt;
    try (exists c; split; [reflexivity|]; split; [apply registered_refl|];
         split; intros ?; discriminate);
    cbn [_collect_declaration declared_typus declared_symbolum].
  - (* functio *)
    unfold _collect_functio; destruct externa.
    { exists c; split; [reflexivity|]; split; [apply registered_refl|];
        split; intros ?; discriminate. }
    unfold bind at 1.
    destruct (pure_resolve_functio_typus params typus_reditus c) as [f ->].
    eexists; split; [reflexivity|].
    split; [apply registered_definie|]; split; [discriminate|].
    intros ? [= <-]; apply registered_definie.
  - (* genus *)
    unfold _collect_genus, bind.
    destruct (pure_collect_agri campi [] c) as [agri ->].
    destruct (pure_collect_methodi methodi [] c) as [ms ->].
    cbv zeta; eexists; split; [reflexivity|].
    cbn [current with_current typi].
    split; [|split; intros ? [= <-]].
    + eapply proj1, registered_step; [apply keys_grow_set | reflexivity].
    + apply dict_has_set.
    + destruct (current c); apply dict_has_set.
  - (* pactum *)
    unfold _collect_pactum, bind.
    destruct (pure_collect_pactum_methodi methodi [] c) as [ms ->].
    cbv zeta; eexists; split; [reflexivity|].
    cbn [current with_current typi].
    split; [|split; intros ? [= <-]].
    + eapply proj1, registered_step; [apply keys_grow_set | reflexivity].
    + apply dict_has_set.
    + destruct (current c); apply dict_has_set.
  - (* ordo *)
    unfold _collect_ordo; cbv zeta; eexists; split; [reflexivity|].
    cbn [current with_current typi].
    split; [|split; intros ? [= <-]].
    + eapply proj1, registered_step; [apply keys_grow_set | reflexivity].
    + apply dict_has_set.
    + destruct (current c); apply dict_has_set.
  - (* discretio *)
    unfold _collect_discretio; unfold bind at 1.
    destruct (collect_variantes_registered variantes [] c)
      as (vs & c1 & -> & (T1 & S1 & P1) & _).
    cbv zeta; eexists; split; [reflexivity|].
    cbn [current with_current typi].
    split; [|split; intros ? [= <-]].
    + eapply registered_trans; [split; [exact T1 | split; eauto]|].
      eapply proj1, registered_step; [apply keys_grow_set | reflexivity].
    + apply dict_has_set.
    + destruct (current c1); apply dict_has_set.
Qed.

Lemma pass_one_registered corpus :
  forall c, exists c',
    for_each _collect_declaration corpus c = Ok (tt, c')
    /\ registered c c'
    /\ (forall stmt nomen,
          In stmt corpus -> declared_typus stmt = Some nomen ->
          dict_has (typi c') nomen = true)
    /\ (forall stmt nomen,
          In stmt corpus -> declared_symbolum stmt = Some nomen ->
          dict_has (scopus_symbola (current c')) nomen = true).
Proof.
  unfold for_each; generalize 0.
  induction corpus as [|s rest IH]; intros i c; cbn [for_each_i].
  - exists c; split; [reflexivity|]; split; [apply registered_refl|].
    split; intros ? ? [].
  - destruct (collect_declaration_registered s c)
      as (c1 & E1 & R1 & T1 & S1).
    destruct (IH (S i) c1) as (c2 & E2 & R2 & T2 & S2).
    exists c2; split; [unfold bind; now rewrite E1|].
    split; [eapply registered_trans; eauto|].
    destruct R2 as (TG & SG & _).
    split; intros stmt nomen [<-|H] D; eauto.
Qed.

End PassOne.

(** X6.  Pass 1 registers every declaration whatever its place in the
    module: when it ends, the name of every class, enum, discriminated
    union and interface of the module is a registered type, and it and the
    name of every function that is not extern are symbols that [quaere]
    finds in the global scope. *)
Theorem pass_one_registers_declarations (corpus : list Stmt) :
  exists c1,
    Semantic.for_each Semantic._collect_declaration corpus
      Scope.SemanticContext_new = Ok (tt, c1)
    /\ Scope.scopus_parent (Scope.current c1) = None
    /\ (forall stmt nomen,
          In stmt corpus -> declared_typus stmt = Some nomen ->
          dict_has (Scope.typi c1) nomen = true)
    /\ (forall stmt nomen,
          In stmt corpus -> declared_symbolum stmt = Some nomen ->
          exists y, Scope.quaere nomen c1 = Ok (Some y, c1)).
Proof.
  destruct (PassOne.pass_one_registered corpus Scope.SemanticContext_new)
    as (c1 & E & (_ & _ & P) & T & S).
  exists c1; split; [exact E|]; split; [exact P|]; split; [exact T|].
  intros stmt nomen I D.
  specialize (S stmt nomen I D).
  rewrite ScopeFacts.dict_has_get in S.
  destruct (dict_get (Scope.scopus_symbola (Scope.current c1)) nomen)
    as [y|] eqn:G; [|discriminate].
  exists y; unfold Scope.quaere, bind, get, lift_res.
  destruct (Scope.current c1) as [parent symbola species nomen'].
  now rewrite (ScopeFacts.Scopus_quaere_local _ _ _ _ _ _ G).
Qed.

(** A function declared after the class it names: both are registered. *)
Lemma pass_one_registers_declarations_witness :
  exists c1,
    Semantic.for_each Semantic._collect_declaration
      [StmtFunctio "f" [] (Some (TypusNomen "G")) None false false [] false
                   Locus_default;
       StmtGenus "G" [] [] [] [] false false Locus_default]
      Scope.SemanticContext_new = Ok (tt, c1)
    /\ dict_has (Scope.typi c1) "G" = true
    /\ (exists y, Scope.quaere "f" c1 = Ok (Some y, c1)).
Proof.
  destruct (pass_one_registers_declarations
              [StmtFunctio "f" [] (Some (TypusNomen "G")) None false false []
                           false Locus_default;
               StmtGenus "G" [] [] [] [] false false Locus_default])
    as (c1 & E & _ & T & S).
  exists c1; split; [exact E|]; split.
  - apply (T (StmtGenus "G" [] [] [] [] false false Locus_default));
      [simpl; auto | reflexivity].
  - apply (S (StmtFunctio "f" [] (Some (TypusNomen "G")) None false false []
                          false Locus_default));
      [simpl; auto | reflexivity].
Defined.

(** ** semantic.py: pass 2 *)

(** X7.  A comparison or a logical operator has the type [bivalens]
    whatever its operands are, and that type is recorded for the node.  The
    other operators of the precedence table that are not arithmetic,
    [===], [!==], [??], [inter] and [intra], have no rule: their type is
    the unknown type. *)
Theorem comparison_is_bivalens (id : Scope.NodeId) (signum : string)
  (sin dex : Expr) (locus : Locus) (c : Scope.SemanticContext) :
  (in_list signum ["=="; "!="; "<"; ">"; "<="; ">=";
                   "et"; "aut"; "&&"; "||"] = true ->
   exists c',
     Semantic._analyze_expression id (ExprBinaria signum sin dex locus) c
     = Ok (Scope.BIVALENS, c')
     /\ PyDict.get Scope.NodeId_eqb (Scope.expr_types c') id
        = Some Scope.BIVALENS)
  /\ (in_list signum ["==="; "!=="; "??"; "inter"; "intra"] = true ->
      exists c',
        Semantic._analyze_expression id (ExprBinaria signum sin dex locus) c
        = Ok (Scope.IGNOTUM, c')).
Proof.
  destruct (proj1 SteadyAnalysis.steady_analyze sin (Scope.sub id 1) c)
    as (t1 & c1 & E1 & _).
  destruct (proj1 SteadyAnalysis.steady_analyze dex (Scope.sub id 2) c1)
    as (t2 & c2 & E2 & _).
  split; intros H; apply in_list_In in H;
    rewrite SteadyAnalysis.analyze_expression_eq;
    unfold Semantic._analyze_expression_body, Semantic._analyze_binaria;
    unfold bind at 1 2 3; rewrite E1, E2;
    simpl in H; decompose [or] H; try contradiction; subst signum;
    eexists; try reflexivity;
    (split; [reflexivity|]);
    cbn [Scope.expr_types]; apply get_set_same, NodeId_eqb_refl.
Qed.

Lemma comparison_is_bivalens_witness :
  exists c',
    Semantic._analyze_expression [0]
      (ExprBinaria "<" (ExprNomen "a" Locus_default)
                   (ExprLittera LitteraSpecies.TEXTUS "b" Locus_default)
                   Locus_default) Scope.SemanticContext_new
    = Ok (Scope.BIVALENS, c')
    /\ PyDict.get Scope.NodeId_eqb (Scope.expr_types c') [0]
       = Some Scope.BIVALENS.
Proof.
  apply (proj1 (comparison_is_bivalens _ _ _ _ _ _)); reflexivity.
Defined.

(** X8.  A variable declaration that is not extern defines the variable in
    the current scope, where [quaere] finds it afterwards: its type is the
    annotation as it resolves when the declaration is reached or, without
    annotation, the type of the initializer (the unknown type when there is
    neither); it is mutable for [varia] only.  An extern declaration
    defines nothing: the context stays as it is. *)
Theorem varia_defines_symbol (id : Scope.NodeId) (nomen : string)
  (species : VariaSpecies.t) (typus : option Typus) (valor : option Expr)
  (publica : bool) (locus : Locus) (c : Scope.SemanticContext) :
  (exists t c',
      Semantic._analyze_statement id
        (StmtVaria nomen species typus valor publica false locus) c
      = Ok (tt, c')
      /\ Scope.quaere nomen c'
         = Ok (Some (Scope.mkSymbolum nomen t SymbolSpecies.VARIABILIS
                       match species with
                       | VariaSpecies.VARIA => true
                       | _ => false
                       end
                       locus
                       (Scope.NodeStmt
                          (StmtVaria nomen species typus valor publica false
                                     locus))), c')
      /\ match typus, valor with
         | Some ty, _ => Semantic._resolve_typus_annotatio c ty = Ok t
         | None, Some e =>
             exists c1,
               Semantic._analyze_expression (Scope.sub id 3) e c
               = Ok (t, c1)
         | None, None => t = Scope.IGNOTUM
         end)
  /\ Semantic._analyze_statement id
       (StmtVaria nomen species typus valor publica true locus) c
     = Ok (tt, c).
Proof.
  split; [|reflexivity].
  rewrite SteadyAnalysis.analyze_statement_eq.
  unfold Semantic._analyze_statement_body, Semantic._analyze_varia.
  assert (D : forall sym c2,
             exists c',
               Scope.definie sym c2 = Ok (tt, c')
               /\ Scope.quaere (Scope.sym_nomen sym) c' = Ok (Some sym, c')).
  { intros sym c2.
    destruct (ScopeFacts.definie_then_quaere_aux sym c2) as (c' & E & Q); eauto. }
  destruct typus as [ty|].
  - unfold bind at 1.
    destruct (resolve_typus_annotatio_ok c ty) as [t Et].
    unfold Semantic.resolve, bind at 1, get, lift_res; rewrite Et.
    cbn [bind_res].
    destruct valor as [e|].
    + unfold bind at 1 2.
      destruct (SteadyAnalysis.analyze_expression_recorded
                  (Scope.sub id 3) e c) as (t' & c1 & -> & _ & K).
      cbv [bind get ret Scope.get_expr_type].
      match goal with
      | |- context [Scope.definie ?sym ?s] =>
          destruct (D sym s) as (c' & -> & Q)
      end.
      exists t, c'; auto.
    + cbv [bind get ret].
      match goal with
      | |- context [Scope.definie ?sym ?s] =>
          destruct (D sym s) as (c' & -> & Q)
      end.
      exists t, c'; auto.
  - unfold bind at 1, ret at 1.
    destruct valor as [e|].
    + unfold bind at 1 2.
      destruct (SteadyAnalysis.analyze_expression_recorded
                  (Scope.sub id 3) e c) as (t' & c1 & E & _ & K).
      rewrite E.
      cbv [bind get ret Scope.get_expr_type]; rewrite K.
      match goal with
      | |- context [Scope.definie ?sym ?s] =>
          destruct (D sym s) as (c' & -> & Q)
      end.
      exists t', c'; eauto.
    + cbv [bind get ret].
      match goal with
      | |- context [Scope.definie ?sym ?s] =>
          destruct (D sym s) as (c' & -> & Q)
      end.
      exists Scope.IGNOTUM, c'; auto.
Qed.

(** ** Scopes: what is defined inside stays inside *)

Module StillAnalysis.
Import Scope Semantic SemanticSpec ScopeSpec SteadyRules SteadyAnalysis.

Lemma still_steady {X} (m : A X) : still m -> steady m.
Proof.
  intros H c; destruct (H c) as (x & c' & E & X' & _); eauto.
Qed.

Lemma still_ret {X} (x : X) : still (ret x).
Proof.
  intros c; exists x, c; split; [reflexivity|].
  split; [apply extends_refl | reflexivity].
Qed.

Lemma still_bind {X Y} (m : A X) (f : X -> A Y) :
  still m -> (forall x, still (f x)) -> still (bind m f).
Proof.
  intros Hm Hf c.
  destruct (Hm c) as (x & c1 & E1 & X1 & C1).
  destruct (Hf x c1) as (y & c2 & E2 & X2 & C2).
  exists y, c2; split; [unfold bind; now rewrite E1|].
  split; [eapply extends_trans; eauto | congruence].
Qed.

(** A steady step that does not write to the current scope. *)
Lemma still_of_steady {X} (m : A X) :
  steady m -> (forall c x c', m c = Ok (x, c') -> current c' = current c) ->
  still m.
Proof.
  intros Hm Hc c; destruct (Hm c) as (x & c' & E & X').
  exists x, c'; eauto.
Qed.

Lemma still_get : still (@get SemanticContext).
Proof.
  apply still_of_steady; [apply steady_get|].
  intros c x c' H; injection H; intros; subst; reflexivity.
Qed.

Lemma still_lift_res {X} (r : Res X) :
  (exists x, r = Ok x) -> still (lift_res r).
Proof.
  intros H; apply still_of_steady; [now apply steady_lift_res|].
  destruct H as [x ->]; intros c x' c' H; injection H; intros; subst; reflexivity.
Qed.

Lemma still_error nuntius locus : still (error nuntius locus).
Proof.
  apply still_of_steady; [apply steady_error|].
  intros c x c' H; injection H; intros; subst; reflexivity.
Qed.

Lemma still_set_expr_type id typus : still (set_expr_type id typus).
Proof.
  apply still_of_steady; [apply steady_set_expr_type|].
  intros c x c' H; injection H; intros; subst; reflexivity.
Qed.

Lemma still_get_expr_type id : still (get_expr_type id).
Proof.
  apply still_of_steady; [apply steady_get_expr_type|].
  intros c x c' H; injection H; intros; subst; reflexivity.
Qed.

Lemma still_quaere nomen : still (quaere nomen).
Proof.
  unfold quaere; apply still_bind; [apply still_get | intros ctx].
  apply still_lift_res, Scopus_quaere_ok.
Qed.

Lemma still_resolve typus : still (resolve typus).
Proof.
  destruct typus as [t|]; simpl; [|apply still_ret].
  apply still_bind; [apply still_get | intros ctx].
  apply still_lift_res, resolve_typus_annotatio_ok.
Qed.

Lemma below_grows c0 c1 c2 : below c0 c1 -> extends c1 c2 -> below c0 c2.
Proof.
  intros [P G] [(P2 & _) G2]; split; [congruence|].
  eapply grows_trans; eauto.
Qed.

Lemma still_scope {X} species nomen (rest : A X) :
  (forall c0, Hoare (below c0) rest (fun _ => back c0)) ->
  still (intra_scopum species nomen ;; rest).
Proof.
  intros H c.
  apply (H c); split; [reflexivity | now apply grows_same].
Qed.

Lemma below_bind {X Y} c0 (m : A X) (f : X -> A Y) Q :
  steady m -> (forall x, Hoare (below c0) (f x) Q) ->
  Hoare (below c0) (bind m f) Q.
Proof.
  intros Hm Hf c1 B.
  destruct (Hm c1) as (x & c2 & E2 & X2).
  destruct (Hf x c2 (below_grows _ _ _ B X2)) as (y & c3 & E3 & Q3).
  exists y, c3; split; [unfold bind; now rewrite E2 | exact Q3].
Qed.

Lemma below_exi c0 : Hoare (below c0) exi_scopum (fun _ => back c0).
Proof.
  intros c1 [P G].
  eexists tt, _; split; [reflexivity|].
  rewrite P; split; [|reflexivity].
  split; [repeat split|].
  destruct G as [E K]; split; [exact E | exact K].
Qed.

Lemma below_exi_bind {Y} c0 (f : unit -> A Y) :
  (forall x, still (f x)) ->
  Hoare (below c0) (bind exi_scopum f) (fun _ => back c0).
Proof.
  intros Hf c1 B.
  destruct (below_exi c0 c1 B) as (x & c2 & E2 & X2 & C2).
  destruct (Hf x c2) as (y & c3 & E3 & X3 & C3).
  exists y, c3; split; [unfold bind; now rewrite E2|].
  split; [eapply extends_trans; eauto | congruence].
Qed.

Lemma still_for_each_i {X} (PX : X -> Prop) (f : nat -> X -> A unit)
  (xs : list X) :
  list_all X PX xs -> (forall i x, PX x -> still (f i x)) ->
  forall i, still (for_each_i f i xs).
Proof.
  intros H Hf; induction H as [|x Hx xs _ IH]; intros i; simpl.
  - apply still_ret.
  - apply still_bind; auto.
Qed.

Create HintDb still.
Create HintDb expression.

#[local] Hint Resolve steady_ret steady_get steady_definie steady_error
  steady_register_typus steady_set_ordo_registry steady_set_disc_registry
  steady_set_genus_registry steady_set_expr_type steady_get_expr_type
  steady_quaere steady_resolve inside_exi steady_analyze_elementa
  steady_analyze_props steady_analyze_campi steady_bind_params
  steady_define_params steady_define_bindings steady_analyze_pattern
  : steady.

#[local] Hint Resolve Scopus_quaere_ok resolve_typus_nomen_ok
  resolve_typus_annotatio_ok lookup_if_present_ok genus_member_ok
  find_variant_ok member_typus_ok : steady.

#[local] Hint Resolve still_ret still_get still_error still_set_expr_type
  still_get_expr_type still_quaere still_resolve below_exi : still.

#[local] Hint Unfold _analyze_expression_opt analyze_each _analyze_binaria
  _analyze_unaria _analyze_vocatio _analyze_membrum _analyze_series
  _analyze_obiectum _analyze_clausura _analyze_novum _analyze_finge
  _analyze_nomen : expression.

Ltac still_step :=
  lazymatch goal with
  | |- steady _ => solve [steady_tac]
  | |- still (bind (intra_scopum _ _) _) => apply still_scope; intros ?
  | |- still (bind _ _) => apply still_bind; [|intros ?]
  | |- still (lift_res _) => apply still_lift_res; auto with steady
  | H : list_all _ ?P ?xs |- still (for_each_i _ _ ?xs) =>
      apply (still_for_each_i P _ _ H); intros ? ? ?
  | |- still (match ?x with _ => _ end) => destruct x
  | |- Hoare (below _) (bind exi_scopum _) _ =>
      apply below_exi_bind; intros ?
  | |- Hoare (below _) (bind _ _) _ => apply below_bind; [|intros ?]
  | |- Hoare (below _) (match ?x with _ => _ end) _ => destruct x
  | |- _ => progress autounfold with expression
  end.

Ltac still_tac :=
  break_all;
  repeat (cbv beta iota zeta; first [solve [auto with still] | still_step]).

Section Recursion.
Variable expr_rec : NodeId -> Expr -> A SemanticTypus.

Local Notation PE := (fun e : Expr => forall id, still (expr_rec id e)).

Lemma still_analyze_elementa id elementa :
  list_all Expr PE elementa ->
  forall i elem_type,
    still (analyze_elementa expr_rec id i elementa elem_type).
Proof.
  induction 1 as [|e He rest _ IH]; intros i elem_type;
    cbn [analyze_elementa]; still_tac.
Qed.

Lemma still_analyze_props id props :
  list_all (ObiectumProp Expr) (ObiectumProp_all Expr PE) props ->
  forall i fields, still (analyze_props expr_rec id i props fields).
Proof.
  induction 1 as [|p Hp rest _ IH]; intros i fields;
    [apply still_ret|].
  destruct Hp; cbn [analyze_props]; still_tac.
Qed.

Lemma still_analyze_campi id campi :
  list_all (ObiectumProp Expr) (ObiectumProp_all Expr PE) campi ->
  forall i, still (analyze_campi expr_rec id i campi).
Proof.
  induction 1 as [|p Hp rest _ IH]; intros i; [apply still_ret|].
  destruct Hp; cbn [analyze_campi]; still_tac.
Qed.

End Recursion.

#[local] Hint Resolve still_analyze_elementa still_analyze_props
  still_analyze_campi : still.

(** The analysis of an expression defines nothing in the scope it runs
    in. *)
Lemma still_analyze_expression expr :
  forall id, still (_analyze_expression id expr).
Proof.
  pose proof (proj1 steady_analyze) as SE.
  pose proof (proj2 steady_analyze) as SS.
  induction expr using Expr_mut_ind with (P0 := fun _ => True);
    try exact I; intros;
    rewrite analyze_expression_eq; unfold _analyze_expression_body.
  all: still_tac.
Qed.

Lemma still_analyze_functio id nomen params corpus externa :
  still (_analyze_functio _analyze_statement id nomen params corpus externa).
Proof.
  pose proof (proj2 steady_analyze) as SS.
  unfold _analyze_functio; still_tac.
Qed.

Lemma still_analyze_massa id corpus locus :
  still (_analyze_statement id (StmtMassa corpus locus)).
Proof.
  pose proof (proj2 steady_analyze) as SS.
  rewrite analyze_statement_eq; unfold _analyze_statement_body.
  apply still_scope; intros c0.
  apply below_bind; [|intros _; apply below_exi].
  apply (steady_for_each_i (fun _ => True)); [apply list_all_true|].
  intros i x _; apply SS.
Qed.

Lemma still_analyze_genus id nomen methodi :
  still (_analyze_genus _analyze_statement id nomen methodi).
Proof.
  unfold _analyze_genus.
  apply (still_for_each_i (fun _ => True)); [apply list_all_true|].
  intros i method _; destruct method; try apply still_ret.
  apply still_scope; intros c0.
  apply below_bind; [apply steady_get | intros ctx]; cbv zeta.
  apply below_bind; [apply steady_definie | intros _].
  apply below_bind; [|intros _; apply below_exi].
  apply still_steady, still_analyze_functio.
Qed.

End StillAnalysis.

(** X9.  What is defined inside stays inside.  The analysis of an
    expression leaves the current scope exactly as it found it: the
    parameters of a closure and what its body declares are defined in the
    scope of the closure.  So does the analysis of a block, of a function
    declaration (parameters, locals) and of a class declaration ([ego], the
    parameters and locals of its methods). *)
Theorem analysis_defines_nothing_outside :
  (forall id expr c, exists t c',
      Semantic._analyze_expression id expr c = Ok (t, c')
      /\ Scope.current c' = Scope.current c)
  /\ (forall id corpus locus c, exists c',
        Semantic._analyze_statement id (StmtMassa corpus locus) c
        = Ok (tt, c')
        /\ Scope.current c' = Scope.current c)
  /\ (forall id nomen params typus_reditus corpus asynca publica generics
             externa locus c,
        exists c',
          Semantic._analyze_statement id
            (StmtFunctio nomen params typus_reditus corpus asynca publica
                         generics externa locus) c = Ok (tt, c')
          /\ Scope.current c' = Scope.current c)
  /\ (forall id nomen campi methodi implet generics publica abstractus
             locus c,
        exists c',
          Semantic._analyze_statement id
            (StmtGenus nomen campi methodi implet generics publica
                       abstractus locus) c = Ok (tt, c')
          /\ Scope.current c' = Scope.current c).
Proof.
  conj_split.
  - intros id expr c.
    destruct (StillAnalysis.still_analyze_expression expr id c)
      as (t & c' & E & _ & C); eauto.
  - intros id corpus locus c.
    destruct (StillAnalysis.still_analyze_massa id corpus locus c)
      as ([] & c' & E & _ & C); eauto.
  - intros id nomen params typus_reditus corpus asynca publica generics
      externa locus c.
    destruct (StillAnalysis.still_analyze_functio id nomen params corpus
                externa c) as ([] & c' & E & _ & C).
    exists c'; split; [|exact C].
    rewrite SteadyAnalysis.analyze_statement_eq; exact E.
  - intros id nomen campi methodi implet generics publica abstractus
      locus c.
    destruct (StillAnalysis.still_analyze_genus id nomen methodi c)
      as ([] & c' & E & _ & C).
    exists c'; split; [|exact C].
    rewrite SteadyAnalysis.analyze_statement_eq; exact E.
Qed.

(** ** lexer.py *)

Module LexerFacts.
Import Lexer LexerSpec.

Lemma length_app (a b : string) :
  String.length (a ++ b) = String.length a + String.length b.
Proof. induction a; simpl; auto. Qed.

Lemma app_assoc_s (a b c : string) : ((a ++ b) ++ c = a ++ (b ++ c))%string.
Proof. induction a; simpl; congruence. Qed.

Lemma app_nil_r_s (a : string) : (a ++ "" = a)%string.
Proof. induction a; simpl; congruence. Qed.

Lemma count_nl_app (a b : string) :
  count_nl (a ++ b) = count_nl a + count_nl b.
Proof. induction a; simpl; lia. Qed.




















End LexerFacts.





(** ** emitter_faber.py and lexer.py: string literals *)

Module EscapeFacts.
Import Lexer.

Lemma advance_rest st c r :
  rest st = String c r ->
  exists st',
    advance st = Ok (c, st') /\ rest st' = r /\ tokens st' = tokens st.
Proof.
  intros R; unfold advance; rewrite R.
  destruct (Ascii.eqb c ch_nl); eexists; repeat split.
Qed.

Lemma loop_escape fuel result st x r :
  rest st = String ch_bs (String x r) ->
  exists st2,
    read_string_loop (S fuel) ch_dq result st
    = read_string_loop fuel ch_dq (result ++ String (unescape x) "") st2
    /\ rest st2 = r /\ tokens st2 = tokens st.
Proof.
  intros R.
  destruct (advance_rest st _ _ R) as (st1 & E1 & R1 & T1).
  destruct (advance_rest st1 _ _ R1) as (st2 & E2 & R2 & T2).
  exists st2; split; [|split; congruence].
  cbn [read_string_loop]; unfold bind at 1, peek, gets.
  rewrite R; cbn [String.get].
  change (Ascii.eqb ch_bs ch_dq) with false.
  change (Ascii.eqb ch_bs ch_bs) with true; cbv beta iota.
  unfold bind at 1; rewrite E1.
  unfold bind at 1; rewrite E2; reflexivity.
Qed.

Lemma loop_plain fuel result st c r :
  rest st = String c r ->
  Ascii.eqb c ch_dq = false -> Ascii.eqb c ch_bs = false ->
  exists st1,
    read_string_loop (S fuel) ch_dq result st
    = read_string_loop fuel ch_dq (result ++ String c "") st1
    /\ rest st1 = r /\ tokens st1 = tokens st.
Proof.
  intros R Q B.
  destruct (advance_rest st _ _ R) as (st1 & E1 & R1 & T1).
  exists st1; split; [|split; congruence].
  cbn [read_string_loop]; unfold bind at 1, peek, gets.
  rewrite R; cbn [String.get]; rewrite Q, B.
  unfold bind at 1; rewrite E1; reflexivity.
Qed.

(** [read_string] reads back what [_escape_string] wrote. *)
Lemma read_escaped s :
  forall result st tail fuel,
    rest st
    = (EmitterFaber._escape_string s ++ String ch_dq tail)%string ->
    String.length (rest st) < fuel ->
    exists st',
      read_string_loop fuel ch_dq result st = Ok ((result ++ s)%string, st')
      /\ rest st' = String ch_dq tail /\ tokens st' = tokens st.
Proof.
  induction s as [|ch s IH]; intros result st tail fuel R F;
    (destruct fuel as [|fuel]; [lia|]).
  - cbn [read_string_loop]; unfold bind at 1, peek, gets.
    cbn [EmitterFaber._escape_string append] in R; rewrite R.
    cbn [String.get]; rewrite Ascii.eqb_refl.
    exists st; rewrite LexerFacts.app_nil_r_s; auto.
  - cbn [EmitterFaber._escape_string] in R.
    assert (Esc : forall x,
               unescape x = ch ->
               rest st = String ch_bs (String x
                           (EmitterFaber._escape_string s
                            ++ String ch_dq tail)) ->
               exists st',
                 read_string_loop (S fuel) ch_dq result st
                 = Ok ((result ++ String ch s)%string, st')
                 /\ rest st' = String ch_dq tail
                 /\ tokens st' = tokens st).
    { intros x U R'.
      destruct (loop_escape fuel result st x _ R') as (st2 & -> & R2 & T2).
      destruct (IH (result ++ String (unescape x) "")%string st2 tail fuel R2)
        as (st' & E & R3 & T3).
      { rewrite R2; rewrite R' in F; simpl in F; lia. }
      exists st'; rewrite E, U, LexerFacts.app_assoc_s.
      repeat split; auto; congruence. }
    unfold EmitterFaber._escape_char, bs, dq in R.
    destruct (Ascii.eqb ch ch_nl) eqn:E1;
      [apply Ascii.eqb_eq in E1; subst ch;
       apply (Esc "n"%char); [reflexivity | exact R]|].
    destruct (Ascii.eqb ch ch_tab) eqn:E2;
      [apply Ascii.eqb_eq in E2; subst ch;
       apply (Esc "t"%char); [reflexivity | exact R]|].
    destruct (Ascii.eqb ch ch_cr) eqn:E3;
      [apply Ascii.eqb_eq in E3; subst ch;
       apply (Esc "r"%char); [reflexivity | exact R]|].
    destruct (Ascii.eqb ch ch_bs) eqn:E4;
      [apply Ascii.eqb_eq in E4; subst ch;
       apply (Esc ch_bs); [reflexivity | exact R]|].
    destruct (Ascii.eqb ch ch_dq) eqn:E5;
      [apply Ascii.eqb_eq in E5; subst ch;
       apply (Esc ch_dq); [reflexivity | exact R]|].
    cbn [append] in R.
    destruct (loop_plain fuel result st ch _ R E5 E4) as (st1 & -> & R1 & T1).
    destruct (IH (result ++ String ch "")%string st1 tail fuel R1)
      as (st' & E & R3 & T3).
    { rewrite R1; rewrite R in F; simpl in F; lia. }
    exists st'; rewrite E, LexerFacts.app_assoc_s.
    repeat split; auto; congruence.
Qed.

(** The text after the opening quote starts no triple-quoted string. *)
Lemma escaped_not_triple s :
  is_some_char
    (String.get 0 (EmitterFaber._escape_string s ++ dq)) ch_dq
  && is_some_char
       (String.get 1 (EmitterFaber._escape_string s ++ dq)) ch_dq = false.
Proof.
  destruct s as [|ch s]; [reflexivity|].
  cbn [EmitterFaber._escape_string]; unfold EmitterFaber._escape_char, bs, dq.
  destruct (Ascii.eqb ch ch_nl); [reflexivity|].
  destruct (Ascii.eqb ch ch_tab); [reflexivity|].
  destruct (Ascii.eqb ch ch_cr); [reflexivity|].
  destruct (Ascii.eqb ch ch_bs); [reflexivity|].
  destruct (Ascii.eqb ch ch_dq) eqn:E; [reflexivity|].
  cbn [append String.get is_some_char]; now rewrite E.
Qed.

Lemma skip_whitespace_none fuel st c r :
  rest st = String c r ->
  contains_char c (" " ++ tab ++ String ch_cr "") = false ->
  Ascii.eqb c ch_nl = false ->
  skip_whitespace (S fuel) st = Ok (tt, st).
Proof.
  intros R W N; cbn [skip_whitespace]; unfold bind at 1, peek, gets.
  rewrite R; cbn [String.get]; now rewrite W, N.
Qed.

(** One turn of the loop of [lex] on a string literal. *)
Lemma lex_loop_string fuel fuel0 filename st body v st2 :
  rest st = String ch_dq body ->
  is_some_char (String.get 0 body) ch_dq
  && is_some_char (String.get 1 body) ch_dq = false ->
  skip_whitespace fuel0 st = Ok (tt, st) ->
  read_string fuel0 ch_dq st = Ok (v, st2) ->
  lex_loop (S fuel) fuel0 filename st
  = (append_token (mkToken TokenTag.TEXTUS v (locus_of st)) ;;
     lex_loop fuel fuel0 filename) st2.
Proof.
  intros R NT SK RS; cbn [lex_loop].
  unfold in_range, get_locus, peek, gets.
  unfold bind at 1; cbv beta iota; rewrite R; cbn [negb].
  unfold bind at 1; rewrite SK.
  unfold bind at 1; cbv beta iota; rewrite R; cbn [negb].
  unfold bind at 1 2 3 4; cbv beta iota; rewrite R; cbn [String.get].
  change (Ascii.eqb ch_dq "#") with false.
  change (Ascii.eqb ch_dq ch_dq) with true.
  cbn [andb]; rewrite NT; cbn [orb].
  unfold bind at 1; rewrite RS; reflexivity.
Qed.

Lemma lex_loop_end fuel fuel0 filename st :
  rest st = "" -> lex_loop (S fuel) fuel0 filename st = Ok (tt, st).
Proof.
  intros R; cbn [lex_loop]; unfold in_range, gets.
  unfold bind at 1; cbv beta iota; now rewrite R.
Qed.

End EscapeFacts.

(** X12.  Escaping round trip.  For every text [s], the literal that
    [emit_faber] writes for it, [s] escaped by [_escape_string] between
    double quotes, is read back by [lex] as the one string token of value
    [s]. *)
Theorem escape_string_round_trip (s filename : string) :
  exists l,
    Lexer.lex (dq ++ EmitterFaber._escape_string s ++ dq) filename
    = Ok [mkToken TokenTag.TEXTUS s (mkLocus 1 1 0);
          mkToken TokenTag.EOF "" l].
Proof.
  set (body := (EmitterFaber._escape_string s ++ dq)%string).
  set (st0 := Lexer.mkState (String ch_dq body) 0 1 0 []).
  destruct (EscapeFacts.advance_rest st0 ch_dq body eq_refl)
    as (st1 & E1 & R1 & T1).
  destruct (EscapeFacts.read_escaped s "" st1 ""
              (S (S (String.length body)))) as (st2 & E2 & R2 & T2).
  { exact R1. }
  { rewrite R1; lia. }
  destruct (EscapeFacts.advance_rest st2 ch_dq "" R2)
    as (st3 & E3 & R3 & T3).
  assert (RS : Lexer.read_string (S (S (String.length body))) ch_dq st0
               = Ok (s, st3)).
  { unfold Lexer.read_string.
    unfold bind at 1; rewrite E1.
    unfold bind at 1; rewrite E2.
    unfold bind at 1; rewrite E3; reflexivity. }
  unfold Lexer.lex; change (dq ++ body)%string with (String ch_dq body).
  cbn [String.length]; fold st0.
  unfold bind at 1.
  rewrite (EscapeFacts.lex_loop_string _ _ filename st0 body s st3 eq_refl
             (EscapeFacts.escaped_not_triple s)
             (EscapeFacts.skip_whitespace_none _ st0 ch_dq body eq_refl
                eq_refl eq_refl) RS).
  unfold bind at 1, Lexer.append_token, modify.
  rewrite EscapeFacts.lex_loop_end by exact R3.
  cbv [bind Lexer.get_locus gets Lexer.append_token modify].
  cbn [Lexer.tokens]; rewrite T3, T2, T1.
  eexists; reflexivity.
Qed.

(** ** emitter_py.py: what the lowering raises *)

Module PyEmitFacts.
Import PyEmitter.

Lemma emission_bind allow {X Y} (r : Res X) (k : X -> Res Y) :
  emission allow r -> (forall x, emission allow (k x)) ->
  emission allow (bind_res r k).
Proof. destruct r; simpl; auto. Qed.

Lemma emission_map_res allow {X Y} (PX : X -> Prop) (f : X -> Res Y) xs :
  list_all X PX xs -> (forall x, PX x -> emission allow (f x)) ->
  emission allow (map_res f xs).
Proof.
  intros H Hf; induction H as [|x Hx xs _ IH]; simpl; [exact I|].
  apply emission_bind; [auto | intros y].
  apply emission_bind; [exact IH | intros ys; exact I].
Qed.

Lemma emission_map_res_parts allow {X Y} (PX : X -> Type)
  (f : X -> Res Y) xs :
  list_all X PX xs -> (forall x, PX x -> emission allow (f x)) ->
  emission allow (map_res f xs).
Proof.
  intros H Hf; induction H as [|x Hx xs _ IH]; simpl; [exact I|].
  apply emission_bind; [auto | intros y].
  apply emission_bind; [exact IH | intros ys; exact I].
Qed.

(** The premises of the induction, for the parts of a statement that has
    no import. *)
Section Free.
Variable allow : bool.

Local Notation free b := (allow = false -> b = true).
Local Notation E := (fun s => forall indent, emission allow (_stmt s indent)).

Lemma free_andb b1 b2 : free (b1 && b2) -> free b1 /\ free b2.
Proof.
  intros H; split; intros A; specialize (H A);
    apply andb_prop in H; tauto.
Qed.

Lemma free_stmt s : emits s -> free (importa_free s) -> E s.
Proof. intros H F; exact (proj1 (H allow F)). Qed.

Lemma free_opt_stmt s :
  option_all Stmt emits s -> free (free_opt importa_free s) ->
  option_all Stmt E s.
Proof.
  intros [x H|] F; constructor; now apply free_stmt.
Qed.

Lemma free_list xs :
  list_all Stmt emits xs -> free (forallb importa_free xs) ->
  list_all Stmt (fun s => emits s /\ free (importa_free s)) xs.
Proof.
  induction 1 as [|x Hx xs _ IH]; intros F; constructor.
  - split; [exact Hx|]; intros A; specialize (F A); simpl in F.
    apply andb_prop in F; tauto.
  - apply IH; intros A; specialize (F A); simpl in F.
    apply andb_prop in F; tauto.
Qed.

Lemma free_elige casus :
  list_all _ (EligeCasus_all Expr (fun _ => True) Stmt emits) casus ->
  free (forallb (fun c => match c with
                          | mkEligeCasus _ corpus _ => importa_free corpus
                          end) casus) ->
  list_all _ (fun c => match c with
                       | mkEligeCasus _ corpus _ => E corpus
                       end) casus.
Proof.
  induction 1 as [|x Hx xs _ IH]; intros F; constructor.
  - destruct Hx as [cond _ corpus Hc locus]; apply free_stmt; [exact Hc|].
    intros A; specialize (F A); simpl in F; apply andb_prop in F; tauto.
  - apply IH; intros A; specialize (F A); simpl in F.
    apply andb_prop in F; tauto.
Qed.

Lemma free_discerne casus :
  list_all _ (DiscerneCasus_all Stmt emits) casus ->
  free (forallb (fun c => match c with
                          | mkDiscerneCasus _ corpus _ =>
                              free_opt importa_free corpus
                          end) casus) ->
  list_all _ (fun c => match c with
                       | mkDiscerneCasus _ corpus _ => option_all Stmt E corpus
                       end) casus.
Proof.
  induction 1 as [|x Hx xs _ IH]; intros F; constructor.
  - destruct Hx as [patterns corpus Hc locus]; apply free_opt_stmt;
      [exact Hc|].
    intros A; specialize (F A); simpl in F; apply andb_prop in F; tauto.
  - apply IH; intros A; specialize (F A); simpl in F.
    apply andb_prop in F; tauto.
Qed.

Lemma free_custodi clausulae :
  list_all _ (CustodiClausula_all Expr (fun _ => True) Stmt emits)
           clausulae ->
  free (forallb (fun c => match c with
                          | mkCustodiClausula _ corpus _ =>
                              importa_free corpus
                          end) clausulae) ->
  list_all _ (fun c => match c with
                       | mkCustodiClausula _ corpus _ => E corpus
                       end) clausulae.
Proof.
  induction 1 as [|x Hx xs _ IH]; intros F; constructor.
  - destruct Hx as [cond _ corpus Hc locus]; apply free_stmt; [exact Hc|].
    intros A; specialize (F A); simpl in F; apply andb_prop in F; tauto.
  - apply IH; intros A; specialize (F A); simpl in F.
    apply andb_prop in F; tauto.
Qed.

Lemma free_cape cape :
  option_all _ (CapeClausula_all Stmt emits) cape ->
  free (match cape with
        | Some (mkCapeClausula _ body _) => importa_free body
        | None => true
        end) ->
  option_all _ (fun c => match c with
                         | mkCapeClausula _ body _ => E body
                         end) cape.
Proof.
  intros [x Hx|] F; constructor.
  destruct Hx as [param body Hb locus]; now apply free_stmt.
Qed.

Lemma emission_genus_methodi methodi :
  list_all Stmt (fun s => emits s /\ free (importa_free s)) methodi ->
  forall inner, emission allow (_genus_methodi _stmt methodi inner).
Proof.
  induction 1 as [|m [Hm Fm] rest _ IH]; intros inner; [exact I|].
  destruct m; cbn [_genus_methodi]; try apply IH.
  apply emission_bind;
    [|intros x; apply emission_bind; [apply IH | intros; exact I]].
  unfold _method; cbv zeta.
  apply emission_bind; [apply (proj2 (Hm allow Fm)) | intros; exact I].
Qed.

End Free.

Create HintDb pyemit.

#[local] Hint Unfold _massa _functio body_or_pass _genus _si _dum
  _fac_dum _iteratio _elige_casus _elige _stmt_opt _discerne_casus _discerne
  _custodi_clausula _custodi _tempta _incipit _probandum _proba : pyemit.

Ltac emission_step :=
  lazymatch goal with
  | |- emission _ (Ok _) => exact I
  | H : forall indent, emission ?a (_stmt ?s indent)
    |- emission ?a (_stmt ?s _) => apply H
  | H : emits ?s, G : ?a = false -> importa_free ?s = true
    |- emission ?a (_stmt ?s _) => apply (proj1 (H a G))
  | |- emission _ (bind_res _ _) => apply emission_bind; [|intros ?]
  | H : list_all _ _ ?xs |- emission _ (_genus_methodi _ ?xs _) =>
      apply emission_genus_methodi, H
  | H : list_all _ ?P ?xs |- emission _ (map_res _ ?xs) =>
      first [apply (emission_map_res _ P _ _ H)
            | apply (emission_map_res_parts _ P _ _ H)];
      intros ? ?
  | H : match ?x with _ => _ end |- _ => destruct x
  | H : option_all _ _ _ |- _ => destruct H
  | H : _ /\ _ |- _ => destruct H
  | |- emission _ (match ?x with _ => _ end) => destruct x
  | |- _ => progress autounfold with pyemit
  end.

Ltac emission_tac := repeat (cbv beta iota zeta; emission_step).

(** The premises on the parts, from the premises of the induction. *)
Ltac free_parts allow F :=
  cbn [importa_free] in F;
  repeat match goal with
         | H : allow = false -> (_ && _)%bool = true |- _ =>
             apply free_andb in H; destruct H
         end;
  repeat match goal with
         | H : emits ?s, G : allow = false -> importa_free ?s = true |- _ =>
             pose proof (free_stmt allow s H G);
             pose proof (proj2 (H allow G)); clear H G
         | H : option_all Stmt _ ?s,
           G : allow = false -> free_opt importa_free ?s = true |- _ =>
             pose proof (free_opt_stmt allow s H G); clear H G
         | H : list_all Stmt _ ?xs,
           G : allow = false -> forallb importa_free ?xs = true |- _ =>
             pose proof (free_list allow xs H G); clear H G
         | H : list_all (EligeCasus _ _) _ ?xs,
           G : allow = false -> forallb _ ?xs = true |- _ =>
             pose proof (free_elige allow xs H G); clear H G
         | H : list_all (DiscerneCasus _) _ ?xs,
           G : allow = false -> forallb _ ?xs = true |- _ =>
             pose proof (free_discerne allow xs H G); clear H G
         | H : option_all (CapeClausula _) _ ?c,
           G : allow = false -> match ?c with _ => _ end = true |- _ =>
             pose proof (free_cape allow c H G); clear H G
         | H : list_all (CustodiClausula _ _) _ ?xs,
           G : allow = false -> forallb _ ?xs = true |- _ =>
             pose proof (free_custodi allow xs H G); clear H G
         end.

Lemma stmt_eq s indent : _stmt s indent = _stmt_body _stmt s indent.
Proof. destruct s; reflexivity. Qed.

Lemma emits_all : forall s, emits s.
Proof.
  induction s using Stmt_mut_ind with (P := fun _ => True);
    try exact I; intros allow F; free_parts allow F;
    (split; [intros indent; rewrite stmt_eq; unfold _stmt_body
            |try exact I]).
  all: try solve [emission_tac].
  all: try solve [intros indent; emission_tac].
  unfold _importa; cbv zeta.
  destruct allow; [|discriminate (F eq_refl)].
  destruct totum; split; reflexivity.
Qed.

Lemma emission_emit_corpus allow corpus :
  (allow = false -> forallb importa_free corpus = true) ->
  emission allow (emit_corpus corpus).
Proof.
  induction corpus as [|s rest IH]; intros F; [exact I|].
  cbn [emit_corpus].
  assert (F1 : allow = false -> importa_free s = true)
    by (intros A; specialize (F A); simpl in F;
        apply andb_prop in F; tauto).
  assert (F2 : allow = false -> forallb importa_free rest = true)
    by (intros A; specialize (F A); simpl in F;
        apply andb_prop in F; tauto).
  apply emission_bind; [apply (proj1 (emits_all s allow F1)) | intros code].
  apply emission_bind; [exact (IH F2) | intros lines].
  destruct (String.eqb code ""); exact I.
Qed.

(** Every statement before the first import of a list emits or raises the
    error of the imports; the import raises it. *)
Lemma emit_corpus_importa corpus :
  existsb is_importa corpus = true ->
  exists attribute,
    emit_corpus corpus
    = Raise_Host (AttributeError "StmtImporta" attribute).
Proof.
  induction corpus as [|s rest IH]; [discriminate|].
  cbn [existsb emit_corpus]; intros H.
  pose proof (proj1 (emits_all s true (fun A => False_ind _
                                         (Bool.diff_true_false A))) "")
    as Hs.
  destruct (is_importa s) eqn:E.
  - destruct s; try discriminate.
    cbn; unfold _importa; destruct totum; eexists; reflexivity.
  - cbn [orb] in H; specialize (IH H).
    unfold emission in Hs.
    destruct (_stmt s "") as [code|m l f|[| |cls a]|]; try contradiction;
      try (destruct Hs; discriminate).
    + destruct IH as [a ->]; cbn; eexists; reflexivity.
    + destruct Hs as [_ ->]; cbn; eexists; reflexivity.
Qed.

End PyEmitFacts.

(** X13.  What the lowering to Python raises.  On every module [emit_py]
    returns the text or raises the [AttributeError] of the import
    statements (C2), nothing else.  It returns the text when no statement
    of the module is an import, at any depth; it raises the error when a
    top-level statement is an import. *)
Theorem emit_py_errors (corpus : list Stmt) (locus : Locus) :
  emission true (PyEmitter.emit_py (mkModulus corpus locus))
  /\ (forallb importa_free corpus = true ->
      exists text, PyEmitter.emit_py (mkModulus corpus locus) = Ok text)
  /\ (existsb is_importa corpus = true ->
      exists attribute,
        PyEmitter.emit_py (mkModulus corpus locus)
        = Raise_Host (AttributeError "StmtImporta" attribute)).
Proof.
  unfold PyEmitter.emit_py.
  destruct (AnalysisFacts.analyze_ok (mkModulus corpus locus))
    as (ctx & -> & _).
  cbn [bind_res PyEmitter.emit]; cbv zeta.
  conj_split.
  - apply PyEmitFacts.emission_bind; [|intros; exact I].
    apply PyEmitFacts.emission_emit_corpus; discriminate.
  - intros F.
    pose proof (PyEmitFacts.emission_emit_corpus false corpus (fun _ => F))
      as H.
    destruct (PyEmitter.emit_corpus corpus) as [lines| |[]|];
      try contradiction; [|destruct H; discriminate].
    eexists; reflexivity.
  - intros H.
    destruct (PyEmitFacts.emit_corpus_importa corpus H) as [a ->].
    exists a; reflexivity.
Qed.

Lemma emit_py_errors_witness :
  (exists text,
      PyEmitter.emit_py
        (mkModulus [StmtRumpe Locus_default] Locus_default) = Ok text)
  /\ (exists attribute,
        PyEmitter.emit_py
          (mkModulus [StmtRumpe Locus_default;
                      StmtImporta "a" [] true None Locus_default]
                     Locus_default)
        = Raise_Host (AttributeError "StmtImporta" attribute)).
Proof.
  split.
  - apply (proj1 (proj2 (emit_py_errors _ _))); reflexivity.
  - apply (proj2 (proj2 (emit_py_errors _ _))); reflexivity.
Defined.

(** X14.  An else-if chain is lowered to [elif] at the top level only.
    [_si] emits the nested [si] without indentation, cuts as many
    characters from it as the indentation is long and puts [el] before
    what is left.  At the top level this gives [elif cond:].  One level
    down, in the body of a function, four characters are cut: [if ], and
    the first character of the condition; and the body of the nested [si]
    stays at the indentation of the first level. *)
Theorem elif_only_at_top_level (cond c2 : Expr) (cons_ b2 : Stmt)
  (l l2 : Locus) (body body' body2 : string) :
  PyEmitter._stmt cons_ PyEmitter.indent_char = Ok body ->
  PyEmitter._stmt cons_ (PyEmitter.indent_char ++ PyEmitter.indent_char)
  = Ok body' ->
  PyEmitter._stmt b2 PyEmitter.indent_char = Ok body2 ->
  PyEmitter._stmt (StmtSi cond cons_ (Some (StmtSi c2 b2 None l2)) l) ""
  = Ok (join nl ["if " ++ PyEmitter._expr cond ++ ":"; body;
                 "elif " ++ PyEmitter._expr c2 ++ ":"; body2])
  /\ PyEmitter._stmt (StmtSi cond cons_ (Some (StmtSi c2 b2 None l2)) l)
       PyEmitter.indent_char
     = Ok (join nl [PyEmitter.indent_char ++ "if " ++ PyEmitter._expr cond
                    ++ ":";
                    body';
                    PyEmitter.indent_char ++ "el"
                    ++ drop 1 (PyEmitter._expr c2 ++ ":");
                    body2]).
Proof.
  intros H1 H1' H2.
  assert (Inner : PyEmitter._stmt (StmtSi c2 b2 None l2) ""
                  = Ok (join nl ["if " ++ PyEmitter._expr c2 ++ ":"; body2])).
  { rewrite PyEmitFacts.stmt_eq.
    unfold PyEmitter._stmt_body, PyEmitter._si; cbv zeta.
    cbn [append]; rewrite H2; reflexivity. }
  split; rewrite PyEmitFacts.stmt_eq;
    unfold PyEmitter._stmt_body, PyEmitter._si; cbv zeta.
  - cbn [append]; rewrite H1; cbn [bind_res]; rewrite Inner; cbn [bind_res].
    cbn [String.length drop join append].
    now rewrite !LexerFacts.app_assoc_s.
  - rewrite H1'; cbn [bind_res]; rewrite Inner; cbn [bind_res].
    f_equal; cbn [join].
    change PyEmitter.indent_char with "    ".
    cbn [String.length drop append].
    destruct (PyEmitter._expr c2) as [|ch e]; cbn [drop append];
      reflexivity.
Qed.

Lemma elif_only_at_top_level_witness :
  PyEmitter._stmt
    (StmtSi (ExprNomen "a" Locus_default) (StmtRumpe Locus_default)
       (Some (StmtSi (ExprNomen "b" Locus_default) (StmtPerge Locus_default)
                     None Locus_default)) Locus_default)
    PyEmitter.indent_char
  = Ok ("    if a:" ++ nl ++ "        break" ++ nl ++ "    el:" ++ nl
        ++ "    continue").
Proof.
  apply (proj2 (elif_only_at_top_level
                  (ExprNomen "a" Locus_default) (ExprNomen "b" Locus_default)
                  (StmtRumpe Locus_default) (StmtPerge Locus_default)
                  Locus_default Locus_default
                  "    break" "        break" "    continue"
                  eq_refl eq_refl eq_refl)).
Defined.
(** ** The parser: every outcome is a module or a positioned error *)

Module ParserFacts.
Import ParserSpec.

Section WithTokens.
Variable tokens : list Token.
Variable filename : string.
Hypothesis Ended : ends_with_eof tokens.

Local Notation len := (length tokens).
Local Notation lands := (ParserSpec.lands tokens filename).
Local Notation peeked := (ParserSpec.peeked tokens).
Local Notation checked := (ParserSpec.checked tokens).
Local Notation SelfFrom := (ParserSpec.SelfFrom tokens filename).

Lemma peeked_in k pos : In (peeked k pos) tokens.
Proof.
  unfold ParserSpec.peeked.
  destruct (nth_error tokens (pos + k)) eqn:E.
  - eapply nth_error_In; eauto.
  - destruct Ended as (body & l & ->).
    rewrite last_last. apply in_or_app; right; left; reflexivity.
Qed.

(** At the last token and beyond, [peek] returns the end marker. *)
Lemma peeked_past k pos :
  len <= S (pos + k) ->
  tag (peeked k pos) = TokenTag.EOF /\ valor (peeked k pos) = "".
Proof.
  unfold ParserSpec.peeked.
  destruct Ended as (body & l & ->).
  rewrite length_app; cbn [length]; intros H.
  destruct (Nat.eq_dec (pos + k) (length body)) as [E|E].
  - rewrite E, nth_error_app2, Nat.sub_diag by lia. split; reflexivity.
  - rewrite (proj2 (nth_error_None _ _))
      by (rewrite length_app; cbn [length]; lia).
    rewrite last_last. split; reflexivity.
Qed.

Lemma peeked_tag k pos :
  tag (peeked k pos) <> TokenTag.EOF -> S (pos + k) < len.
Proof.
  intros H. destruct (Nat.lt_ge_cases (S (pos + k)) len) as [L|L]; auto.
  destruct (peeked_past k pos L); contradiction.
Qed.

Lemma peeked_valor k pos :
  valor (peeked k pos) <> "" -> S (pos + k) < len.
Proof.
  intros H. destruct (Nat.lt_ge_cases (S (pos + k)) len) as [L|L]; auto.
  destruct (peeked_past k pos L); contradiction.
Qed.

Lemma peek_eq k pos : Parser.peek tokens k pos = Ok (peeked k pos, pos).
Proof.
  unfold Parser.peek, ParserSpec.peeked.
  destruct (nth_error tokens (pos + k)); auto.
  destruct Ended as (body & l & E).
  destruct tokens as [|t ts]; [destruct body; discriminate|].
  do 2 f_equal. clear.
  revert t; induction ts as [|a ts IH]; intros t; [reflexivity|].
  cbn [last] in *. destruct ts; [reflexivity | apply IH].
Qed.

Lemma advance_eq pos :
  pos < len -> Parser.advance tokens pos = Ok (peeked 0 pos, S pos).
Proof.
  intros H. unfold Parser.advance, ParserSpec.peeked.
  rewrite Nat.add_0_r.
  destruct (nth_error tokens pos) eqn:E; auto.
  apply nth_error_None in E; lia.
Qed.

Lemma check_eq tag valor pos :
  Parser.check tokens tag valor pos = Ok (checked tag valor pos, pos).
Proof.
  unfold Parser.check, bind. rewrite peek_eq. unfold ParserSpec.checked.
  destruct (TokenTag.eqb _ _); cbn [negb andb]; [|reflexivity].
  destruct (Parser.valor_matches _ _); reflexivity.
Qed.

(** A token that passes a check for another tag than [EOF] is not the
    last one. *)
Lemma checked_lt tag valor pos :
  tag <> TokenTag.EOF -> checked tag valor pos = true -> S pos < len.
Proof.
  intros T H. unfold ParserSpec.checked in H.
  apply andb_prop in H; destruct H as [H _].
  rewrite <- (Nat.add_0_r pos) at 1. apply peeked_tag.
  intros E; rewrite E in H. destruct tag; try discriminate; auto.
Qed.

Lemma match_eq tag valor pos :
  tag <> TokenTag.EOF ->
  Parser.match_ tokens tag valor pos
  = if checked tag valor pos then Ok (Some (peeked 0 pos), S pos)
    else Ok (None, pos).
Proof.
  intros T. unfold Parser.match_, bind. rewrite check_eq.
  destruct (checked tag valor pos) eqn:E; [|reflexivity].
  rewrite advance_eq; [reflexivity|].
  pose proof (checked_lt _ _ _ T E); lia.
Qed.

Lemma unchecked_eof_lt pos :
  checked TokenTag.EOF None pos = false -> S pos < len.
Proof.
  unfold ParserSpec.checked; cbn [Parser.valor_matches]; intros H.
  rewrite andb_true_r in H.
  rewrite <- (Nat.add_0_r pos) at 1. apply peeked_tag.
  intros E; rewrite E in H; discriminate.
Qed.

(** *** Rules *)

Lemma lands_ret {A} lo (x : A) pos :
  lo <= pos <= len -> lands lo (ret x pos).
Proof. auto. Qed.

Lemma lands_weaken {A} lo lo' (r : Res (A * nat)) :
  lands lo' r -> lo <= lo' -> lands lo r.
Proof.
  destruct r as [[x p]| | |]; cbn; auto. lia.
Qed.

Lemma lands_bind {A B} lo' lo (m : Parser.P A) (f : A -> Parser.P B) pos :
  lands lo' (m pos) ->
  (forall x p, lo' <= p -> p <= len -> lands lo (f x p)) ->
  lands lo (bind m f pos).
Proof.
  unfold bind. destruct (m pos) as [[x p]| | |]; cbn; auto.
  intros [H1 H2] H; auto.
Qed.

Lemma lands_assoc {A B C} lo (m : Parser.P A) (g : A -> Parser.P B)
  (f : B -> Parser.P C) pos :
  lands lo (bind m (fun x => bind (g x) f) pos) ->
  lands lo (bind (bind m g) f pos).
Proof.
  unfold bind. destruct (m pos) as [[x p]| | |]; auto.
Qed.

Lemma lands_ret_bind {A B} lo (x : A) (f : A -> Parser.P B) pos :
  lands lo (f x pos) -> lands lo (bind (ret x) f pos).
Proof. auto. Qed.

Lemma lands_peek {A} lo k (f : Token -> Parser.P A) pos :
  lands lo (f (peeked k pos) pos) ->
  lands lo (bind (Parser.peek tokens k) f pos).
Proof. unfold bind; rewrite peek_eq; auto. Qed.

Lemma lands_peek_locus {A} lo (f : Locus -> Parser.P A) pos :
  lands lo (f (locus (peeked 0 pos)) pos) ->
  lands lo (bind (Parser.peek_locus tokens) f pos).
Proof.
  unfold Parser.peek_locus; intros H.
  apply lands_assoc, lands_peek. exact H.
Qed.

Lemma lands_check {A} lo tag valor (f : bool -> Parser.P A) pos :
  lands lo (f (checked tag valor pos) pos) ->
  lands lo (bind (Parser.check tokens tag valor) f pos).
Proof. unfold bind; rewrite check_eq; auto. Qed.

Lemma lands_check_name {A} lo (f : bool -> Parser.P A) pos :
  lands lo (f (Parser.is_name (peeked 0 pos)) pos) ->
  lands lo (bind (Parser.check_name tokens) f pos).
Proof.
  unfold Parser.check_name; intros H.
  apply lands_assoc, lands_peek. exact H.
Qed.

Lemma lands_advance {A} lo (f : Token -> Parser.P A) pos :
  pos < len ->
  lands lo (f (peeked 0 pos) (S pos)) ->
  lands lo (bind (Parser.advance tokens) f pos).
Proof. intros L; unfold bind; rewrite advance_eq; auto. Qed.

Lemma lands_error {A} lo msg pos :
  lands lo (@Parser.error tokens filename A msg pos).
Proof.
  unfold Parser.error, bind. rewrite peek_eq. cbn.
  split; [reflexivity|]. eexists; split; [apply peeked_in | reflexivity].
Qed.

Lemma lands_error_bind {A B} lo msg (f : A -> Parser.P B) pos :
  lands lo (bind (Parser.error tokens filename msg) f pos).
Proof.
  unfold Parser.error, bind. rewrite peek_eq. cbn.
  split; [reflexivity|]. eexists; split; [apply peeked_in | reflexivity].
Qed.

Lemma lands_matches {A} lo tag valor (f : bool -> Parser.P A) pos :
  tag <> TokenTag.EOF ->
  (checked tag (Some valor) pos = true -> S pos < len ->
   lands lo (f true (S pos))) ->
  (checked tag (Some valor) pos = false -> lands lo (f false pos)) ->
  lands lo (bind (Parser.matches tokens tag valor) f pos).
Proof.
  intros T H1 H2. unfold Parser.matches.
  apply lands_assoc. unfold bind at 1. rewrite match_eq by assumption.
  destruct (checked tag (Some valor) pos) eqn:E.
  - apply H1; auto. eapply checked_lt; eauto.
  - apply H2; auto.
Qed.

Lemma lands_expect {A} lo tag valor (f : Token -> Parser.P A) pos :
  tag <> TokenTag.EOF ->
  (checked tag valor pos = true -> S pos < len ->
   lands lo (f (peeked 0 pos) (S pos))) ->
  lands lo (bind (Parser.expect tokens filename tag valor) f pos).
Proof.
  intros T H. unfold Parser.expect.
  apply lands_assoc. unfold bind at 1. rewrite match_eq by assumption.
  destruct (checked tag valor pos) eqn:E.
  - apply H; auto. eapply checked_lt; eauto.
  - cbv beta iota. apply lands_assoc, lands_peek; cbv beta zeta.
    apply lands_error_bind.
Qed.

Lemma lands_expect_lit {A} lo tag valor (f : unit -> Parser.P A) pos :
  tag <> TokenTag.EOF ->
  (checked tag (Some valor) pos = true -> S pos < len ->
   lands lo (f tt (S pos))) ->
  lands lo (bind (Parser.expect_lit tokens filename tag valor) f pos).
Proof.
  intros T H. unfold Parser.expect_lit.
  apply lands_assoc, lands_expect; auto.
Qed.

Lemma lands_expect_valor {A} lo tag (f : string -> Parser.P A) pos :
  tag <> TokenTag.EOF ->
  (checked tag None pos = true -> S pos < len ->
   lands lo (f (valor (peeked 0 pos)) (S pos))) ->
  lands lo (bind (Parser.expect_valor tokens filename tag) f pos).
Proof.
  intros T H. unfold Parser.expect_valor.
  apply lands_assoc, lands_expect; auto.
Qed.

Lemma is_name_lt pos : Parser.is_name (peeked 0 pos) = true -> S pos < len.
Proof.
  intros H. rewrite <- (Nat.add_0_r pos) at 1. apply peeked_tag.
  intros E; unfold Parser.is_name in H; rewrite E in H; discriminate.
Qed.

Lemma lands_expect_name {A} lo (f : Token -> Parser.P A) pos :
  (Parser.is_name (peeked 0 pos) = true -> S pos < len ->
   lands lo (f (peeked 0 pos) (S pos))) ->
  lands lo (bind (Parser.expect_name tokens filename) f pos).
Proof.
  intros H. unfold Parser.expect_name.
  apply lands_assoc, lands_peek.
  destruct (Parser.is_name (peeked 0 pos)) eqn:E.
  - pose proof (is_name_lt _ E).
    apply lands_advance; [lia | auto].
  - apply lands_error_bind.
Qed.

Lemma lands_expect_name_valor {A} lo (f : string -> Parser.P A) pos :
  (Parser.is_name (peeked 0 pos) = true -> S pos < len ->
   lands lo (f (valor (peeked 0 pos)) (S pos))) ->
  lands lo (bind (Parser.expect_name_valor tokens filename) f pos).
Proof.
  intros H. unfold Parser.expect_name_valor.
  apply lands_assoc, lands_expect_name; auto.
Qed.

(** A method in the last position *)
Lemma lands_last {A} lo (m : Parser.P A) pos :
  lands lo (bind m ret pos) -> lands lo (m pos).
Proof.
  unfold bind, ret. destruct (m pos) as [[x p]| | |]; auto.
Qed.

Lemma SelfFrom_mono q q' self : SelfFrom q self -> q <= q' -> SelfFrom q' self.
Proof. intros H L pos H1 H2. apply H; lia. Qed.

Lemma self_stmt self pos :
  SelfFrom pos self -> pos <= len ->
  lands (S pos) (Parser.self_parse_stmt self pos).
Proof. intros H L; apply H; auto. Qed.

Lemma self_expr self min_prec pos :
  SelfFrom pos self -> pos <= len ->
  lands (S pos) (Parser.self_parse_expr self min_prec pos).
Proof. intros H L; apply H; auto. Qed.

Lemma self_unary self pos :
  SelfFrom pos self -> pos <= len ->
  lands (S pos) (Parser.self_parse_unary self pos).
Proof. intros H L; apply H; auto. Qed.

Lemma self_primary self pos :
  SelfFrom pos self -> pos <= len ->
  lands (S pos) (Parser.self_parse_primary self pos).
Proof. intros H L; apply H; auto. Qed.

Lemma self_typus self pos :
  SelfFrom pos self -> pos <= len ->
  lands (S pos) (Parser.self_parse_typus self pos).
Proof. intros H L; apply H; auto. Qed.

Lemma self_si_body self locus pos :
  SelfFrom pos self -> pos <= len ->
  lands (S pos) (Parser.self_parse_si_body self locus pos).
Proof. intros H L; apply H; auto. Qed.

(** The helpers in the last position of a method *)

Lemma matches_lands tag valor pos :
  tag <> TokenTag.EOF -> pos <= len ->
  lands pos (Parser.matches tokens tag valor pos).
Proof.
  intros T L. apply lands_last, lands_matches; auto; intros;
    apply lands_ret; lia.
Qed.

Lemma expect_lands tag valor pos :
  tag <> TokenTag.EOF -> pos <= len ->
  lands (S pos) (Parser.expect tokens filename tag valor pos).
Proof.
  intros T L. apply lands_last, lands_expect; auto; intros;
    apply lands_ret; lia.
Qed.

Lemma expect_lit_lands tag valor pos :
  tag <> TokenTag.EOF -> pos <= len ->
  lands (S pos) (Parser.expect_lit tokens filename tag valor pos).
Proof.
  intros T L. apply lands_last, lands_expect_lit; auto; intros;
    apply lands_ret; lia.
Qed.

Lemma expect_valor_lands tag pos :
  tag <> TokenTag.EOF -> pos <= len ->
  lands (S pos) (Parser.expect_valor tokens filename tag pos).
Proof.
  intros T L. apply lands_last, lands_expect_valor; auto; intros;
    apply lands_ret; lia.
Qed.

Lemma expect_name_lands pos :
  pos <= len -> lands (S pos) (Parser.expect_name tokens filename pos).
Proof.
  intros L. apply lands_last, lands_expect_name; auto; intros;
    apply lands_ret; lia.
Qed.

Lemma expect_name_valor_lands pos :
  pos <= len -> lands (S pos) (Parser.expect_name_valor tokens filename pos).
Proof.
  intros L. apply lands_last, lands_expect_name_valor; auto; intros;
    apply lands_ret; lia.
Qed.

Lemma check_lands tag valor pos :
  pos <= len -> lands pos (Parser.check tokens tag valor pos).
Proof. intros L. rewrite check_eq. cbn. lia. Qed.

Create HintDb parser.
#[local] Hint Resolve matches_lands expect_lands expect_lit_lands
  expect_valor_lands expect_name_lands expect_name_valor_lands check_lands
  : parser.
#[local] Hint Resolve self_stmt self_expr self_unary self_primary self_typus
  self_si_body : parser.
#[local] Hint Extern 1 (_ <= _) => lia : parser.
#[local] Hint Extern 1 (_ < _) => (unfold Parser.loop_fuel; lia) : parser.
#[local] Hint Extern 1 (_ <> _) => discriminate : parser.
#[local] Hint Extern 1 (ParserSpec.SelfFrom _ _ _ _) =>
  (eapply SelfFrom_mono; [eassumption | lia]) : parser.

(** What a test on the token at the cursor tells about the cursor: a
    token with a text, or with another tag than [EOF], is not the last. *)
Ltac bools :=
  repeat match goal with
         | H : _ && _ = true |- _ =>
             apply andb_prop in H; destruct H
         | H : _ || _ = false |- _ =>
             apply orb_false_elim in H; destruct H
         | H : negb _ = true |- _ => apply negb_true_iff in H
         | H : negb _ = false |- _ => apply negb_false_iff in H
         end.

Ltac learn_from H :=
  lazymatch type of H with
  | ParserSpec.checked _ ?t ?v ?p = true =>
      tryif assert_succeeds (assert (S (p + 0) < length tokens) by lia)
      then idtac
      else
        first
          [ assert (S (p + 0) < length tokens)
              by (rewrite Nat.add_0_r; apply (checked_lt t v p);
                  [discriminate | exact H])
          | idtac ]
  | Parser.is_name (ParserSpec.peeked _ 0 ?p) = true =>
      tryif assert_succeeds (assert (S (p + 0) < length tokens) by lia)
      then idtac
      else
        assert (S (p + 0) < length tokens)
          by (rewrite Nat.add_0_r; apply (is_name_lt p H))
  | ParserSpec.checked _ TokenTag.EOF None ?p = false =>
      tryif assert_succeeds (assert (S (p + 0) < length tokens) by lia)
      then idtac
      else
        assert (S (p + 0) < length tokens)
          by (rewrite Nat.add_0_r; apply (unchecked_eof_lt p H))
  | context [ParserSpec.peeked _ ?k ?p] =>
      tryif assert_succeeds (assert (S (p + k) < length tokens) by lia)
      then idtac
      else
        let E := fresh "E" in
        first
          [ assert (S (p + k) < length tokens)
              by (apply peeked_valor; intros E; rewrite E in H;
                  vm_compute in H; discriminate)
          | assert (S (p + k) < length tokens)
              by (apply peeked_tag; intros E; rewrite E in H;
                  vm_compute in H; discriminate)
          | idtac ]
  | _ => idtac
  end.

Ltac learn :=
  bools;
  repeat match goal with
         | H : _ = _ |- _ => progress (learn_from H)
         end.

(** One step of a method.  A conditional block in the middle of a method
    is taken as a whole where that is enough (it moves the cursor on, or
    leaves it), and branch by branch otherwise. *)
Ltac step_with run :=
  cbv beta zeta;
  lazymatch goal with
  | |- ParserSpec.lands _ _ _ (ret _ _) => apply lands_ret; lia
  | |- ParserSpec.lands _ _ _ (Parser.error _ _ _ _) => apply lands_error
  | |- ParserSpec.lands _ _ _ (bind ?m _ ?pos) =>
      lazymatch m with
      | Parser.peek _ _ => apply lands_peek
      | Parser.peek_locus _ => apply lands_peek_locus
      | Parser.check _ _ _ => apply lands_check
      | Parser.check_name _ => apply lands_check_name
      | Parser.advance _ => apply lands_advance; [lia|]
      | Parser.matches _ _ _ =>
          apply lands_matches;
          [first [assumption | discriminate] | intros ? ? | intros ?]
      | Parser.expect_lit _ _ _ _ =>
          apply lands_expect_lit;
          [first [assumption | discriminate] | intros ? ?]
      | Parser.expect_valor _ _ _ =>
          apply lands_expect_valor;
          [first [assumption | discriminate] | intros ? ?]
      | Parser.expect _ _ _ _ =>
          apply lands_expect;
          [first [assumption | discriminate] | intros ? ?]
      | Parser.expect_name_valor _ _ =>
          apply lands_expect_name_valor; intros ? ?
      | Parser.expect_name _ _ => apply lands_expect_name; intros ? ?
      | Parser.error _ _ _ => apply lands_error_bind
      | Parser.in_braces _ => unfold Parser.in_braces
      | Parser.check_fixum_or_varia _ => unfold Parser.check_fixum_or_varia
      | Parser.expr_follows _ => unfold Parser.expr_follows
      | Parser._is_statement_keyword _ =>
          unfold Parser._is_statement_keyword
      | Parser._is_declaration_keyword _ =>
          unfold Parser._is_declaration_keyword
      | bind _ _ => apply lands_assoc
      | ret _ => apply lands_ret_bind
      | match ?b with _ => _ end =>
          first
            [ apply (lands_bind (S pos));
              [solve [destruct b eqn:?; learn; run] | intros ? ? ? ?]
            | solve [ apply (lands_bind pos);
                      [destruct b eqn:?; learn | intros ? ? ? ?]; run ]
            | destruct b eqn:?; learn ]
      | _ => eapply lands_bind; [solve [eauto with parser] | intros ? ? ? ?]
      end
  | |- ParserSpec.lands _ _ _ (match ?x with _ => _ end _) =>
      destruct x eqn:?; learn
  | |- ParserSpec.lands _ _ _ (_ _) =>
      eapply lands_weaken; [solve [eauto with parser] | lia]
  end.

Ltac run := repeat (step_with ltac:(run)).

(** *** The loops over a list of items *)

Lemma sep_list_lands {A} (item : Parser.P A) tag sep n acc pos :
  tag <> TokenTag.EOF ->
  (forall p, pos <= p -> p <= len -> lands (S p) (item p)) ->
  len < pos + n -> pos <= len ->
  lands (S pos) (Parser.sep_list tokens n tag sep item acc pos).
Proof.
  intros T. revert acc pos.
  induction n as [|n IH]; intros acc pos I' F L; [lia|].
  cbn [Parser.sep_list].
  eapply lands_bind; [apply I'; lia|]. intros x p H1 H2.
  run.
Qed.

Lemma comma_list_lands {A} (item : Parser.P A) pos :
  (forall p, pos <= p -> p <= len -> lands (S p) (item p)) ->
  pos <= len ->
  lands (S pos) (Parser.comma_list tokens item pos).
Proof.
  intros I L. unfold Parser.comma_list, Parser.loop_fuel.
  apply sep_list_lands; auto; try discriminate; lia.
Qed.

Lemma until_close_lands {A} (item : Parser.P A) n acc pos :
  (forall p, pos <= p -> p <= len -> lands (S p) (item p)) ->
  len < pos + n -> pos <= len ->
  lands pos (Parser.until_close tokens n item acc pos).
Proof.
  revert acc pos.
  induction n as [|n IH]; intros acc pos I F L; [lia|].
  cbn [Parser.until_close]. unfold Parser.in_braces.
  run.
Qed.

#[local] Hint Resolve sep_list_lands comma_list_lands until_close_lands
  : parser.

(** *** The methods

    From a cursor within the tokens every method returns with the cursor
    further on, or where it was for the helpers that may read nothing, or
    raises a compile error.  The methods that start with [advance] are
    entered at a token that is not the last ([pos < len]): [parse_stmt]
    calls them at a keyword.  Where a method calls through [self] before it
    has read a token, [self] is sound from its cursor on; elsewhere from
    the next. *)

Section Methods.
Variable self : Parser.Self.

Lemma parse_type_args_lands pos :
  SelfFrom pos self -> pos <= len ->
  lands (S pos) (Parser.parse_type_args tokens filename self pos).
Proof. intros Hs L. unfold Parser.parse_type_args. run. Qed.
#[local] Hint Resolve parse_type_args_lands : parser.

Lemma _parse_typus_primary_lands pos :
  SelfFrom (S pos) self -> pos <= len ->
  lands (S pos) (Parser._parse_typus_primary tokens filename self pos).
Proof. intros Hs L. unfold Parser._parse_typus_primary. run. Qed.
#[local] Hint Resolve _parse_typus_primary_lands : parser.

Lemma parse_typus_lands pos :
  SelfFrom (S pos) self -> pos <= len ->
  lands (S pos) (Parser.parse_typus tokens filename self pos).
Proof.
  intros Hs L. unfold Parser.parse_typus, Parser.loop_fuel. run.
Qed.
#[local] Hint Resolve parse_typus_lands : parser.

Lemma _parse_args_lands pos :
  SelfFrom pos self ->
  pos <= len ->
  lands pos (Parser._parse_args tokens self pos).
Proof. intros; unfold Parser._parse_args. run. Qed.
#[local] Hint Resolve _parse_args_lands : parser.

Lemma parse_massa_lands pos :
  SelfFrom (S pos) self ->
  pos <= len ->
  lands (S pos) (Parser.parse_massa tokens filename self pos).
Proof. intros; unfold Parser.parse_massa, Parser.loop_fuel. run. Qed.
#[local] Hint Resolve parse_massa_lands : parser.

Lemma _parse_novum_lands pos :
  SelfFrom (S pos) self ->
  pos <= len ->
  lands (S pos) (Parser._parse_novum tokens filename self pos).
Proof. intros; unfold Parser._parse_novum. run. Qed.
#[local] Hint Resolve _parse_novum_lands : parser.

Lemma _parse_finge_campus_lands pos :
  SelfFrom (S pos) self ->
  pos <= len ->
  lands (S pos) (Parser._parse_finge_campus tokens filename self pos).
Proof. intros; unfold Parser._parse_finge_campus. run. Qed.
#[local] Hint Resolve _parse_finge_campus_lands : parser.

Lemma _parse_finge_lands pos :
  SelfFrom (S pos) self ->
  pos <= len ->
  lands (S pos) (Parser._parse_finge tokens filename self pos).
Proof. intros; unfold Parser._parse_finge. run. Qed.
#[local] Hint Resolve _parse_finge_lands : parser.

Lemma _parse_clausura_param_lands pos :
  SelfFrom (S pos) self ->
  pos <= len ->
  lands (S pos) (Parser._parse_clausura_param tokens filename self pos).
Proof. intros; unfold Parser._parse_clausura_param. run. Qed.
#[local] Hint Resolve _parse_clausura_param_lands : parser.

Lemma _parse_clausura_lands pos :
  SelfFrom (S pos) self ->
  pos <= len ->
  lands (S pos) (Parser._parse_clausura tokens filename self pos).
Proof. intros; unfold Parser._parse_clausura. run. Qed.
#[local] Hint Resolve _parse_clausura_lands : parser.

Lemma more_exprs_lands n args pos :
  SelfFrom (S pos) self ->
  len < pos + n -> pos <= len ->
  lands pos (Parser.more_exprs tokens self n args pos).
Proof.
  revert args pos; induction n as [|n IH]; intros; [lia|].
  cbn [Parser.more_exprs]. run.
Qed.
#[local] Hint Resolve more_exprs_lands : parser.

Lemma _parse_scriptum_lands pos :
  SelfFrom (S pos) self ->
  pos <= len ->
  lands (S pos) (Parser._parse_scriptum tokens filename self pos).
Proof. intros; unfold Parser._parse_scriptum, Parser.loop_fuel. run. Qed.
#[local] Hint Resolve _parse_scriptum_lands : parser.

Lemma _parse_obiectum_prop_lands pos :
  SelfFrom (S pos) self ->
  pos <= len ->
  lands (S pos) (Parser._parse_obiectum_prop tokens filename self pos).
Proof. intros; unfold Parser._parse_obiectum_prop. run. Qed.
#[local] Hint Resolve _parse_obiectum_prop_lands : parser.

Lemma _parse_primary_lands pos :
  SelfFrom (S pos) self ->
  pos <= len ->
  lands (S pos) (Parser._parse_primary tokens filename self pos).
Proof. intros; unfold Parser._parse_primary. run. Qed.
#[local] Hint Resolve _parse_primary_lands : parser.

Lemma _parse_member_name_lands pos :
  pos <= len ->
  lands (S pos) (Parser._parse_member_name tokens filename pos).
Proof. intros; unfold Parser._parse_member_name. run. Qed.
#[local] Hint Resolve _parse_member_name_lands : parser.

Lemma _parse_postfix_loop_lands n expr pos :
  SelfFrom (S pos) self ->
  len < pos + n -> pos <= len ->
  lands pos (Parser._parse_postfix_loop tokens filename self n expr pos).
Proof.
  revert expr pos; induction n as [|n IH]; intros; [lia|].
  cbn [Parser._parse_postfix_loop]. run.
  (* the token is not both [!.] and [!] *)
  match goal with
  | A : checked _ (Some "!.") ?p = true,
    B : (valor (peeked 0 ?p) =? "!") = true |- _ =>
      exfalso; unfold ParserSpec.checked in A;
      apply andb_prop in A; destruct A as [_ A];
      cbn [Parser.valor_matches] in A;
      apply String.eqb_eq in A, B; rewrite A in B; discriminate
  end.
Qed.
#[local] Hint Resolve _parse_postfix_loop_lands : parser.

Lemma _parse_postfix_lands pos :
  SelfFrom (S pos) self ->
  pos <= len ->
  lands (S pos) (Parser._parse_postfix tokens filename self pos).
Proof. intros; unfold Parser._parse_postfix, Parser.loop_fuel. run. Qed.
#[local] Hint Resolve _parse_postfix_lands : parser.

Lemma _parse_unary_lands pos :
  SelfFrom (S pos) self ->
  pos <= len ->
  lands (S pos) (Parser._parse_unary tokens filename self pos).
Proof. intros; unfold Parser._parse_unary. run. Qed.
#[local] Hint Resolve _parse_unary_lands : parser.

Lemma parse_expr_loop_lands n min_prec left pos :
  SelfFrom (S pos) self ->
  len < pos + n -> pos <= len ->
  lands pos (Parser.parse_expr_loop tokens filename self n min_prec left pos).
Proof.
  revert left pos; induction n as [|n IH]; intros; [lia|].
  cbn [Parser.parse_expr_loop]. run.
Qed.
#[local] Hint Resolve parse_expr_loop_lands : parser.

Lemma parse_expr_lands min_prec pos :
  SelfFrom (S pos) self ->
  pos <= len ->
  lands (S pos) (Parser.parse_expr tokens filename self min_prec pos).
Proof. intros; unfold Parser.parse_expr, Parser.loop_fuel. run. Qed.
#[local] Hint Resolve parse_expr_lands : parser.

Lemma typed_name_lands first pos :
  SelfFrom (S pos) self ->
  pos <= len ->
  lands pos (Parser.typed_name tokens filename self first pos).
Proof. intros; unfold Parser.typed_name. run. Qed.
#[local] Hint Resolve typed_name_lands : parser.

Lemma parse_initializer_lands pos :
  SelfFrom (S pos) self ->
  pos <= len ->
  lands pos (Parser.parse_initializer tokens filename self pos).
Proof. intros; unfold Parser.parse_initializer. run. Qed.
#[local] Hint Resolve parse_initializer_lands : parser.

Lemma parse_varia_lands publica externa pos :
  SelfFrom (S pos) self ->
  pos < len ->
  pos <= len ->
  lands (S pos) (Parser.parse_varia tokens filename self publica externa pos).
Proof. intros; unfold Parser.parse_varia. run. Qed.
#[local] Hint Resolve parse_varia_lands : parser.

Lemma parse_ex_stmt_lands publica pos :
  SelfFrom (S pos) self ->
  pos <= len ->
  lands (S pos) (Parser.parse_ex_stmt tokens filename self publica pos).
Proof. intros; unfold Parser.parse_ex_stmt. run. Qed.
#[local] Hint Resolve parse_ex_stmt_lands : parser.

Lemma parse_generics_lands pos :
  pos <= len ->
  lands pos (Parser.parse_generics tokens filename pos).
Proof. intros; unfold Parser.parse_generics. run. Qed.
#[local] Hint Resolve parse_generics_lands : parser.

Lemma parse_param_lands pos :
  SelfFrom (S pos) self ->
  pos <= len ->
  lands (S pos) (Parser.parse_param tokens filename self pos).
Proof. intros; unfold Parser.parse_param. run. Qed.
#[local] Hint Resolve parse_param_lands : parser.

Lemma parse_params_lands pos :
  SelfFrom (S pos) self ->
  pos <= len ->
  lands pos (Parser.parse_params tokens filename self pos).
Proof. intros; unfold Parser.parse_params. run. Qed.
#[local] Hint Resolve parse_params_lands : parser.

Lemma parse_typus_reditus_lands pos :
  SelfFrom (S pos) self ->
  pos <= len ->
  lands pos (Parser.parse_typus_reditus tokens filename self pos).
Proof. intros; unfold Parser.parse_typus_reditus. run. Qed.
#[local] Hint Resolve parse_typus_reditus_lands : parser.

Lemma parse_functio_lands publica futura externa pos :
  SelfFrom (S pos) self ->
  pos <= len ->
  lands (S pos)
    (Parser.parse_functio tokens filename self publica futura externa pos).
Proof. intros; unfold Parser.parse_functio. run. Qed.
#[local] Hint Resolve parse_functio_lands : parser.

Lemma skip_member_annotations_lands n pos :
  len < pos + n -> pos <= len ->
  lands pos (Parser.skip_member_annotations tokens filename n pos).
Proof.
  revert  pos; induction n as [|n IH]; intros; [lia|].
  cbn [Parser.skip_member_annotations]. run.
Qed.
#[local] Hint Resolve skip_member_annotations_lands : parser.

Lemma parse_visibilitas_lands pos :
  pos <= len ->
  lands pos (Parser.parse_visibilitas tokens pos).
Proof. intros; unfold Parser.parse_visibilitas. run. Qed.
#[local] Hint Resolve parse_visibilitas_lands : parser.

Lemma parse_campus_lands visibilitas pos :
  SelfFrom (S pos) self ->
  pos <= len ->
  lands (S pos) (Parser.parse_campus tokens filename self visibilitas pos).
Proof. intros; unfold Parser.parse_campus. run. Qed.
#[local] Hint Resolve parse_campus_lands : parser.

Lemma parse_genus_body_lands n campi methodi pos :
  SelfFrom (S pos) self ->
  len < pos + n -> pos <= len ->
  lands pos
    (Parser.parse_genus_body tokens filename self n campi methodi pos).
Proof.
  revert campi methodi pos; induction n as [|n IH]; intros; [lia|].
  cbn [Parser.parse_genus_body]. run.
Qed.
#[local] Hint Resolve parse_genus_body_lands : parser.

Lemma parse_genus_lands publica abstractus pos :
  SelfFrom (S pos) self ->
  pos <= len ->
  lands (S pos)
    (Parser.parse_genus tokens filename self publica abstractus pos).
Proof. intros; unfold Parser.parse_genus, Parser.loop_fuel. run. Qed.
#[local] Hint Resolve parse_genus_lands : parser.

Lemma parse_pactum_methodus_lands pos :
  SelfFrom (S pos) self ->
  pos <= len ->
  lands (S pos) (Parser.parse_pactum_methodus tokens filename self pos).
Proof. intros; unfold Parser.parse_pactum_methodus. run. Qed.
#[local] Hint Resolve parse_pactum_methodus_lands : parser.

Lemma parse_pactum_lands publica pos :
  SelfFrom (S pos) self ->
  pos <= len ->
  lands (S pos) (Parser.parse_pactum tokens filename self publica pos).
Proof. intros; unfold Parser.parse_pactum, Parser.loop_fuel. run. Qed.
#[local] Hint Resolve parse_pactum_lands : parser.

Lemma parse_ordo_membrum_lands pos :
  pos <= len ->
  lands (S pos) (Parser.parse_ordo_membrum tokens filename pos).
Proof. intros; unfold Parser.parse_ordo_membrum. run. Qed.
#[local] Hint Resolve parse_ordo_membrum_lands : parser.

Lemma parse_ordo_lands publica pos :
  pos <= len ->
  lands (S pos) (Parser.parse_ordo tokens filename publica pos).
Proof. intros; unfold Parser.parse_ordo, Parser.loop_fuel. run. Qed.
#[local] Hint Resolve parse_ordo_lands : parser.

Lemma parse_varians_campi_lands n campi pos :
  SelfFrom (S pos) self ->
  len < pos + n -> pos <= len ->
  lands pos (Parser.parse_varians_campi tokens filename self n campi pos).
Proof.
  revert campi pos; induction n as [|n IH]; intros; [lia|].
  cbn [Parser.parse_varians_campi]. run.
Qed.
#[local] Hint Resolve parse_varians_campi_lands : parser.

Lemma parse_varians_lands pos :
  SelfFrom (S pos) self ->
  pos <= len ->
  lands (S pos) (Parser.parse_varians tokens filename self pos).
Proof. intros; unfold Parser.parse_varians, Parser.loop_fuel. run. Qed.
#[local] Hint Resolve parse_varians_lands : parser.

Lemma parse_discretio_lands publica pos :
  SelfFrom (S pos) self ->
  pos <= len ->
  lands (S pos) (Parser.parse_discretio tokens filename self publica pos).
Proof. intros; unfold Parser.parse_discretio, Parser.loop_fuel. run. Qed.
#[local] Hint Resolve parse_discretio_lands : parser.

Lemma parse_typus_alias_lands publica pos :
  SelfFrom (S pos) self ->
  pos <= len ->
  lands (S pos) (Parser.parse_typus_alias tokens filename self publica pos).
Proof. intros; unfold Parser.parse_typus_alias. run. Qed.
#[local] Hint Resolve parse_typus_alias_lands : parser.

Lemma parse_in_stmt_lands pos :
  SelfFrom (S pos) self ->
  pos <= len ->
  lands (S pos) (Parser.parse_in_stmt tokens filename self pos).
Proof. intros; unfold Parser.parse_in_stmt. run. Qed.
#[local] Hint Resolve parse_in_stmt_lands : parser.

Lemma parse_de_stmt_lands pos :
  SelfFrom (S pos) self ->
  pos <= len ->
  lands (S pos) (Parser.parse_de_stmt tokens filename self pos).
Proof. intros; unfold Parser.parse_de_stmt. run. Qed.
#[local] Hint Resolve parse_de_stmt_lands : parser.

Lemma parse_body_lands pos :
  SelfFrom (S pos) self ->
  pos <= len ->
  lands (S pos) (Parser.parse_body tokens filename self pos).
Proof. intros; unfold Parser.parse_body. run. Qed.
#[local] Hint Resolve parse_body_lands : parser.

Lemma parse_si_lands pos :
  SelfFrom (S pos) self ->
  pos <= len ->
  lands (S pos) (Parser.parse_si tokens filename self pos).
Proof. intros; unfold Parser.parse_si. run. Qed.
#[local] Hint Resolve parse_si_lands : parser.

Lemma _parse_si_body_lands locus pos :
  SelfFrom (S pos) self ->
  pos <= len ->
  lands (S pos) (Parser._parse_si_body tokens filename self locus pos).
Proof. intros; unfold Parser._parse_si_body. run. Qed.
#[local] Hint Resolve _parse_si_body_lands : parser.

Lemma parse_dum_lands pos :
  SelfFrom (S pos) self ->
  pos <= len ->
  lands (S pos) (Parser.parse_dum tokens filename self pos).
Proof. intros; unfold Parser.parse_dum. run. Qed.
#[local] Hint Resolve parse_dum_lands : parser.

Lemma parse_fac_lands pos :
  SelfFrom (S pos) self ->
  pos <= len ->
  lands (S pos) (Parser.parse_fac tokens filename self pos).
Proof. intros; unfold Parser.parse_fac. run. Qed.
#[local] Hint Resolve parse_fac_lands : parser.

Lemma parse_elige_corpus_lands msg pos :
  SelfFrom (S pos) self ->
  pos <= len ->
  lands (S pos) (Parser.parse_elige_corpus tokens filename self msg pos).
Proof. intros; unfold Parser.parse_elige_corpus. run. Qed.
#[local] Hint Resolve parse_elige_corpus_lands : parser.

Lemma parse_elige_body_lands n casus default pos :
  SelfFrom (S pos) self ->
  len < pos + n -> pos <= len ->
  lands pos
    (Parser.parse_elige_body tokens filename self n casus default pos).
Proof.
  revert casus default pos; induction n as [|n IH]; intros; [lia|].
  cbn [Parser.parse_elige_body]. run.
Qed.
#[local] Hint Resolve parse_elige_body_lands : parser.

Lemma parse_elige_lands pos :
  SelfFrom (S pos) self ->
  pos <= len ->
  lands (S pos) (Parser.parse_elige tokens filename self pos).
Proof. intros; unfold Parser.parse_elige, Parser.loop_fuel. run. Qed.
#[local] Hint Resolve parse_elige_lands : parser.

Lemma parse_pattern_lands pos :
  pos <= len ->
  lands (S pos) (Parser.parse_pattern tokens filename pos).
Proof. intros; unfold Parser.parse_pattern. run. Qed.
#[local] Hint Resolve parse_pattern_lands : parser.

Lemma parse_discerne_casus_lands pos :
  SelfFrom (S pos) self ->
  pos <= len ->
  lands (S pos) (Parser.parse_discerne_casus tokens filename self pos).
Proof. intros; unfold Parser.parse_discerne_casus. run. Qed.
#[local] Hint Resolve parse_discerne_casus_lands : parser.

Lemma parse_discerne_lands pos :
  SelfFrom (S pos) self ->
  pos <= len ->
  lands (S pos) (Parser.parse_discerne tokens filename self pos).
Proof. intros; unfold Parser.parse_discerne, Parser.loop_fuel. run. Qed.
#[local] Hint Resolve parse_discerne_lands : parser.

Lemma parse_custodi_clausula_lands pos :
  SelfFrom (S pos) self ->
  pos <= len ->
  lands (S pos) (Parser.parse_custodi_clausula tokens filename self pos).
Proof. intros; unfold Parser.parse_custodi_clausula. run. Qed.
#[local] Hint Resolve parse_custodi_clausula_lands : parser.

Lemma parse_custodi_lands pos :
  SelfFrom (S pos) self ->
  pos <= len ->
  lands (S pos) (Parser.parse_custodi tokens filename self pos).
Proof. intros; unfold Parser.parse_custodi, Parser.loop_fuel. run. Qed.
#[local] Hint Resolve parse_custodi_lands : parser.

Lemma parse_tempta_lands pos :
  SelfFrom (S pos) self ->
  pos <= len ->
  lands (S pos) (Parser.parse_tempta tokens filename self pos).
Proof. intros; unfold Parser.parse_tempta. run. Qed.
#[local] Hint Resolve parse_tempta_lands : parser.

Lemma parse_redde_lands pos :
  SelfFrom (S pos) self ->
  pos <= len ->
  lands (S pos) (Parser.parse_redde tokens filename self pos).
Proof. intros; unfold Parser.parse_redde. run. Qed.
#[local] Hint Resolve parse_redde_lands : parser.

Lemma parse_iace_lands pos :
  SelfFrom (S pos) self ->
  pos < len ->
  pos <= len ->
  lands (S pos) (Parser.parse_iace tokens filename self pos).
Proof. intros; unfold Parser.parse_iace. run. Qed.
#[local] Hint Resolve parse_iace_lands : parser.

Lemma parse_scribe_lands pos :
  SelfFrom (S pos) self ->
  pos < len ->
  pos <= len ->
  lands (S pos) (Parser.parse_scribe tokens filename self pos).
Proof. intros; unfold Parser.parse_scribe. run. Qed.
#[local] Hint Resolve parse_scribe_lands : parser.

Lemma parse_adfirma_lands pos :
  SelfFrom (S pos) self ->
  pos <= len ->
  lands (S pos) (Parser.parse_adfirma tokens filename self pos).
Proof. intros; unfold Parser.parse_adfirma. run. Qed.
#[local] Hint Resolve parse_adfirma_lands : parser.

Lemma parse_rumpe_lands pos :
  pos <= len ->
  lands (S pos) (Parser.parse_rumpe tokens filename pos).
Proof. intros; unfold Parser.parse_rumpe. run. Qed.
#[local] Hint Resolve parse_rumpe_lands : parser.

Lemma parse_perge_lands pos :
  pos <= len ->
  lands (S pos) (Parser.parse_perge tokens filename pos).
Proof. intros; unfold Parser.parse_perge. run. Qed.
#[local] Hint Resolve parse_perge_lands : parser.

Lemma parse_incipit_lands pos :
  SelfFrom (S pos) self ->
  pos < len ->
  pos <= len ->
  lands (S pos) (Parser.parse_incipit tokens filename self pos).
Proof. intros; unfold Parser.parse_incipit. run. Qed.
#[local] Hint Resolve parse_incipit_lands : parser.

Lemma parse_probandum_lands pos :
  SelfFrom (S pos) self ->
  pos <= len ->
  lands (S pos) (Parser.parse_probandum tokens filename self pos).
Proof. intros; unfold Parser.parse_probandum, Parser.loop_fuel. run. Qed.
#[local] Hint Resolve parse_probandum_lands : parser.

Lemma parse_proba_lands pos :
  SelfFrom (S pos) self ->
  pos <= len ->
  lands (S pos) (Parser.parse_proba tokens filename self pos).
Proof. intros; unfold Parser.parse_proba. run. Qed.
#[local] Hint Resolve parse_proba_lands : parser.

Lemma parse_expressia_stmt_lands pos :
  SelfFrom (S pos) self ->
  pos <= len ->
  lands (S pos) (Parser.parse_expressia_stmt tokens filename self pos).
Proof. intros; unfold Parser.parse_expressia_stmt. run. Qed.
#[local] Hint Resolve parse_expressia_stmt_lands : parser.

Lemma parse_import_spec_lands pos :
  pos <= len ->
  lands (S pos) (Parser.parse_import_spec tokens filename pos).
Proof. intros; unfold Parser.parse_import_spec. run. Qed.
#[local] Hint Resolve parse_import_spec_lands : parser.

Lemma parse_import_bindings_lands fons locus pos :
  pos <= len ->
  lands (S pos) (Parser.parse_import_bindings tokens filename fons locus pos).
Proof. intros; unfold Parser.parse_import_bindings. run. Qed.
#[local] Hint Resolve parse_import_bindings_lands : parser.

Lemma parse_sectio_importa_lands pos :
  pos <= len ->
  lands (S pos) (Parser.parse_sectio_importa tokens filename pos).
Proof. intros; unfold Parser.parse_sectio_importa. run. Qed.
#[local] Hint Resolve parse_sectio_importa_lands : parser.

Lemma parse_sectio_sectio_lands pos :
  pos <= len ->
  lands (S pos) (Parser.parse_sectio_sectio tokens filename pos).
Proof. intros; unfold Parser.parse_sectio_sectio. run. Qed.
#[local] Hint Resolve parse_sectio_sectio_lands : parser.

Lemma parse_sectio_ex_legacy_lands pos :
  pos <= len ->
  lands (S pos) (Parser.parse_sectio_ex_legacy tokens filename pos).
Proof. intros; unfold Parser.parse_sectio_ex_legacy. run. Qed.
#[local] Hint Resolve parse_sectio_ex_legacy_lands : parser.

Lemma parse_sectio_lands pos :
  pos <= len ->
  lands (S pos) (Parser.parse_sectio tokens filename pos).
Proof. intros; unfold Parser.parse_sectio. run. Qed.
#[local] Hint Resolve parse_sectio_lands : parser.

Lemma _skip_annotatio_args_lands n pos :
  len < pos + n -> pos <= len ->
  lands pos (Parser._skip_annotatio_args tokens n pos).
Proof.
  revert  pos; induction n as [|n IH]; intros; [lia|].
  cbn [Parser._skip_annotatio_args]. run.
Qed.
#[local] Hint Resolve _skip_annotatio_args_lands : parser.

Lemma parse_annotatio_lands pos :
  pos <= len ->
  lands (S pos) (Parser.parse_annotatio tokens filename pos).
Proof. intros; unfold Parser.parse_annotatio, Parser.loop_fuel. run. Qed.
#[local] Hint Resolve parse_annotatio_lands : parser.

Lemma parse_annotationes_lands n publica futura externa pos :
  len < pos + n -> pos <= len ->
  lands pos
    (Parser.parse_annotationes tokens filename n publica futura externa pos).
Proof.
  revert publica futura externa pos; induction n as [|n IH]; intros; [lia|].
  cbn [Parser.parse_annotationes]. run.
Qed.
#[local] Hint Resolve parse_annotationes_lands : parser.

Lemma parse_stmt_lands pos :
  SelfFrom (S pos) self ->
  pos <= len ->
  lands (S pos) (Parser.parse_stmt tokens filename self pos).
Proof. intros; unfold Parser.parse_stmt, Parser.loop_fuel. run. Qed.
#[local] Hint Resolve parse_stmt_lands : parser.

End Methods.

(** *** The recursion *)

(** With [fuel] units, the methods reached through [self] do their work
    from every cursor that has less than [fuel] tokens to its right. *)
Lemma knot_lands fuel :
  forall q, len < q + fuel ->
            SelfFrom q (Parser.knot tokens filename fuel).
Proof.
  induction fuel as [|fuel IH]; intros q F pos Q L; [lia|].
  assert (Hs : SelfFrom (S pos) (Parser.knot tokens filename fuel))
    by (apply IH; lia).
  cbn [Parser.knot Parser.self_parse_stmt Parser.self_parse_expr
       Parser.self_parse_unary Parser.self_parse_primary
       Parser.self_parse_typus Parser.self_parse_si_body].
  repeat split; intros.
  - apply parse_stmt_lands; auto.
  - apply parse_expr_lands; auto.
  - apply _parse_unary_lands; auto.
  - apply _parse_primary_lands; auto.
  - apply parse_typus_lands; auto.
  - apply _parse_si_body_lands; auto.
Qed.

Lemma parse_loop_lands self n corpus pos :
  SelfFrom pos self -> len < pos + n -> pos <= len ->
  lands pos (Parser.parse_loop tokens n self corpus pos).
Proof.
  revert corpus pos; induction n as [|n IH]; intros; [lia|].
  cbn [Parser.parse_loop]. run.
Qed.

Lemma parse_module_lands : lands 0 (Parser.parse_module tokens filename 0).
Proof.
  unfold Parser.parse_module.
  eapply lands_bind.
  - apply parse_loop_lands; [|unfold Parser.loop_fuel; lia | lia].
    apply knot_lands. unfold Parser.depth_fuel; lia.
  - intros; apply lands_ret; lia.
Qed.

End WithTokens.


End ParserFacts.

(** X15.  The parser returns a module or raises a compile error, for every
    token list that ends with the end marker, as the lexer's do: it never
    reads past the tokens (no [IndexError]) and every loop and every
    descent of it ends.  The error has the file name that was passed, and
    the position of one of the tokens. *)
Theorem parse_module_or_compile_error (tokens : list Token)
  (filename : string) :
  ParserSpec.ends_with_eof tokens ->
  (exists m, Parser.parse tokens filename = Ok m)
  \/ (exists msg tok,
         In tok tokens
         /\ Parser.parse tokens filename
            = Raise_CompileError msg (locus tok) filename).
Proof.
  intros E. pose proof (ParserFacts.parse_module_lands tokens filename E) as L.
  unfold Parser.parse.
  destruct (Parser.parse_module tokens filename 0) as [[m p]|msg l f| |];
    cbn in L; try contradiction.
  - left; eauto.
  - right. destruct L as (-> & tok & I & ->). eauto.
Qed.

Lemma parse_module_or_compile_error_witness :
  (exists m, Parser.parse [mkToken TokenTag.EOF "" Locus_default] STDIN = Ok m)
  \/ (exists msg tok,
         In tok [mkToken TokenTag.EOF "" Locus_default]
         /\ Parser.parse [mkToken TokenTag.EOF "" Locus_default] STDIN
            = Raise_CompileError msg (locus tok) STDIN).
Proof.
  apply (parse_module_or_compile_error
           [mkToken TokenTag.EOF "" Locus_default] STDIN).
  exists [], Locus_default; reflexivity.
Defined.

(** ** The front end: [lex], [prepare], [parse] *)

Module FrontEndFacts.
Import LexerSpec.




End FrontEndFacts.


(** ** emitter_faber.py: what the canonical emitter raises *)

Module FaberEmitFacts.
Import EmitterFaber.

Lemma faber_expr_eq e : _expr e = _expr_body _expr _stmt e.
Proof. destruct e; reflexivity. Qed.

Lemma faber_stmt_eq s indent : _stmt s indent = _stmt_body _expr _stmt s indent.
Proof. destruct s; reflexivity. Qed.

Create HintDb faber.

#[local] Hint Unfold _expr_opt _exprs _param _params _massa _varia _functio
  _campus _genus _pactum_methodus _pactum _importa _redde _si _dum _fac_dum
  _iteratio _elige_casus _elige _stmt_opt _discerne_casus _discerne
  _custodi_clausula _custodi _tempta _scribe _incipit _probandum _proba
  _key _obiectum_pair _finge_pair : faber.

Ltac faber_step :=
  lazymatch goal with
  | |- emission _ (Ok _) => exact I
  | |- emission _ (Raise_Host (AttributeError _ _)) => split; reflexivity
  | H : forall indent, emission _ (_stmt ?s indent)
    |- emission _ (_stmt ?s _) => apply H
  | H : emission _ (_expr ?e) |- emission _ (_expr ?e) => exact H
  | |- emission _ (bind_res _ _) =>
      apply PyEmitFacts.emission_bind; [|intros ?]
  | H : list_all _ ?P ?xs |- emission _ (map_res _ ?xs) =>
      first [apply (PyEmitFacts.emission_map_res _ P _ _ H)
            | apply (PyEmitFacts.emission_map_res_parts _ P _ _ H)];
      intros ? ?
  | H : option_all _ _ _ |- _ => destruct H
  | H : ObiectumProp_all _ _ _ |- _ => destruct H
  | H : Param_all _ _ _ |- _ => destruct H
  | H : CampusDecl_all _ _ _ |- _ => destruct H
  | H : PactumMethodus_all _ _ _ |- _ => destruct H
  | H : EligeCasus_all _ _ _ _ _ |- _ => destruct H
  | H : DiscerneCasus_all _ _ _ |- _ => destruct H
  | H : CustodiClausula_all _ _ _ _ _ |- _ => destruct H
  | H : CapeClausula_all _ _ _ |- _ => destruct H
  | H : ClausuraCorpus_all _ _ _ _ _ |- _ => destruct H
  | |- emission _ (match ?x with _ => _ end) => destruct x
  | |- _ => progress autounfold with faber
  end.

Ltac faber_tac := repeat (cbv beta iota zeta; faber_step).

(** Every expression and every statement is written, or raises the error
    of the imports. *)
Lemma emission_all :
  (forall e, emission true (_expr e))
  /\ (forall s indent, emission true (_stmt s indent)).
Proof.
  apply Expr_Stmt_mutind; intros;
    first [rewrite faber_expr_eq; unfold _expr_body
          | rewrite faber_stmt_eq; unfold _stmt_body];
    faber_tac.
Qed.

(** *** Trees without import statements are written *)

Lemma emission_map_res_free allow {X Y} (PX : X -> Prop) (free : X -> bool)
  (g : X -> Res Y) xs :
  list_all X PX xs -> forallb free xs = true ->
  (forall x, PX x -> free x = true -> emission allow (g x)) ->
  emission allow (map_res g xs).
Proof.
  intros H F Hg; induction H as [|x Hx xs _ IH]; simpl; [exact I|].
  cbn [forallb] in F; apply andb_prop in F; destruct F as [F1 F2].
  apply PyEmitFacts.emission_bind; [auto | intros y].
  apply PyEmitFacts.emission_bind; [exact (IH F2) | intros ys; exact I].
Qed.

Lemma emission_map_res_free_parts allow {X Y} (PX : X -> Type)
  (free : X -> bool) (g : X -> Res Y) xs :
  list_all X PX xs -> forallb free xs = true ->
  (forall x, PX x -> free x = true -> emission allow (g x)) ->
  emission allow (map_res g xs).
Proof.
  intros H F Hg; induction H as [|x Hx xs _ IH]; simpl; [exact I|].
  cbn [forallb] in F; apply andb_prop in F; destruct F as [F1 F2].
  apply PyEmitFacts.emission_bind; [auto | intros y].
  apply PyEmitFacts.emission_bind; [exact (IH F2) | intros ys; exact I].
Qed.

Ltac written_step :=
  lazymatch goal with
  | F : false = true |- _ => discriminate F
  | F : (_ && _)%bool = true |- _ => apply andb_prop in F; destruct F
  | IH : ?c = true -> _, F : ?c = true |- _ => specialize (IH F)
  | |- emission _ (Ok _) => exact I
  | H : forall indent, emission _ (_stmt ?s indent)
    |- emission _ (_stmt ?s _) => apply H
  | H : emission _ (_expr ?e) |- emission _ (_expr ?e) => exact H
  | |- emission _ (bind_res _ _) =>
      apply PyEmitFacts.emission_bind; [|intros ?]
  | H : list_all _ ?P ?xs, F : forallb ?f ?xs = true
    |- emission _ (map_res _ ?xs) =>
      first [apply (emission_map_res_free _ P f _ _ H F)
            | apply (emission_map_res_free_parts _ P f _ _ H F)];
      intros ? ? ?
  | H : option_all _ _ _ |- _ => destruct H
  | H : ObiectumProp_all _ _ _ |- _ => destruct H
  | H : Param_all _ _ _ |- _ => destruct H
  | H : CampusDecl_all _ _ _ |- _ => destruct H
  | H : PactumMethodus_all _ _ _ |- _ => destruct H
  | H : EligeCasus_all _ _ _ _ _ |- _ => destruct H
  | H : DiscerneCasus_all _ _ _ |- _ => destruct H
  | H : CustodiClausula_all _ _ _ _ _ |- _ => destruct H
  | H : CapeClausula_all _ _ _ |- _ => destruct H
  | H : ClausuraCorpus_all _ _ _ _ _ |- _ => destruct H
  | |- emission _ (match ?x with _ => _ end) => destruct x
  | |- _ => progress autounfold with faber
  end.

Ltac written_tac := repeat (cbv beta iota zeta in *; written_step).

Lemma written_all :
  (forall e, sine_importa_expr e = true -> emission false (_expr e))
  /\ (forall s, sine_importa_stmt s = true ->
                forall indent, emission false (_stmt s indent)).
Proof.
  apply Expr_Stmt_mutind; intros;
    first [rewrite faber_expr_eq; unfold _expr_body
          | rewrite faber_stmt_eq; unfold _stmt_body];
    match goal with
    | F : sine_importa_expr _ = true |- _ =>
        cbn [sine_importa_expr sine_importa_stmt] in F
    | F : sine_importa_stmt _ = true |- _ =>
        cbn [sine_importa_expr sine_importa_stmt] in F
    end;
    written_tac.
Qed.

Lemma written_corpus corpus :
  forallb sine_importa_stmt corpus = true ->
  emission false (map_res (fun stmt => _stmt stmt "") corpus).
Proof.
  induction corpus as [|s rest IH]; intros F; [exact I|]. cbn [map_res].
  cbn [forallb] in F; apply andb_prop in F; destruct F as [F1 F2].
  apply PyEmitFacts.emission_bind;
    [apply (proj2 written_all s F1) | intros x].
  apply PyEmitFacts.emission_bind; [exact (IH F2) | intros; exact I].
Qed.

Lemma emission_corpus corpus :
  emission true (map_res (fun stmt => _stmt stmt "") corpus).
Proof.
  induction corpus as [|s rest IH]; [exact I|]. cbn [map_res].
  apply PyEmitFacts.emission_bind; [apply emission_all | intros x].
  apply PyEmitFacts.emission_bind; [exact IH | intros; exact I].
Qed.

(** Every statement before the first import of a list is written or
    raises the error of the imports; the import raises it. *)
Lemma corpus_importa corpus :
  existsb is_importa corpus = true ->
  exists attribute,
    map_res (fun stmt => _stmt stmt "") corpus
    = Raise_Host (AttributeError "StmtImporta" attribute).
Proof.
  induction corpus as [|s rest IH]; [discriminate|].
  cbn [existsb map_res]; intros H.
  pose proof (proj2 emission_all s "") as Hs.
  destruct (is_importa s) eqn:E.
  - destruct s; try discriminate. eexists; reflexivity.
  - cbn [orb] in H; specialize (IH H).
    unfold emission in Hs.
    destruct (_stmt s "") as [code|m l f|[| |cls a]|]; try contradiction;
      try (destruct Hs; discriminate).
    + destruct IH as [a ->]; cbn; eexists; reflexivity.
    + destruct Hs as [_ ->]; cbn; eexists; reflexivity.
Qed.

End FaberEmitFacts.

(** X17.  What the canonical emitter raises.  On every module [emit_faber]
    returns the text or raises the [AttributeError] of the import
    statements, whose field [publica] it reads and [StmtImporta] does not
    have; nothing else.  It returns the text when the module has no import
    statement at any depth, the bodies of closures included; it raises the
    error when a top-level statement is an import, so no module with an
    import is written back. *)
Theorem emit_faber_errors (corpus : list Stmt) (locus : Locus) :
  emission true (EmitterFaber.emit_faber (mkModulus corpus locus))
  /\ (forallb sine_importa_stmt corpus = true ->
      exists text,
        EmitterFaber.emit_faber (mkModulus corpus locus) = Ok text)
  /\ (existsb is_importa corpus = true ->
      exists attribute,
        EmitterFaber.emit_faber (mkModulus corpus locus)
        = Raise_Host (AttributeError "StmtImporta" attribute)).
Proof.
  unfold EmitterFaber.emit_faber. conj_split.
  - apply PyEmitFacts.emission_bind; [|intros; exact I].
    apply FaberEmitFacts.emission_corpus.
  - intros F.
    pose proof (FaberEmitFacts.written_corpus corpus F) as H.
    destruct (map_res _ corpus) as [lines| |[]|];
      try contradiction; try (destruct H; discriminate).
    eexists; reflexivity.
  - intros H.
    destruct (FaberEmitFacts.corpus_importa corpus H) as [a ->].
    exists a; reflexivity.
Qed.

Lemma emit_faber_errors_witness :
  (exists text,
      EmitterFaber.emit_faber
        (mkModulus [StmtRumpe Locus_default] Locus_default) = Ok text)
  /\ (exists attribute,
        EmitterFaber.emit_faber
          (mkModulus [StmtRumpe Locus_default;
                      StmtImporta "a" [] true None Locus_default]
                     Locus_default)
        = Raise_Host (AttributeError "StmtImporta" attribute)).
Proof.
  split.
  - apply (proj1 (proj2 (emit_faber_errors _ _))); reflexivity.
  - apply (proj2 (proj2 (emit_faber_errors _ _))); reflexivity.
Defined.

(** ** errors.py: the line and the caret of a rendered error *)

Module ErrorFacts.
Import LexerSpec Errors.

Lemma split_nl_cons s : exists x rest, split_nl s = x :: rest.
Proof.
  induction s as [|c s (x & rest & E)]; cbn [split_nl]; [eauto|].
  destruct (Ascii.eqb c ch_nl); [eauto|]. rewrite E; eauto.
Qed.

(** The first line of [s] and what follows it. *)
Lemma first_line s :
  exists C D,
    s = C ++ D /\ one_line C /\ starts_line D
    /\ exists rest, split_nl s = C :: rest.
Proof.
  induction s as [|c s (C & D & E & O & L & rest & R)].
  - exists "", ""; conj_split;
      [reflexivity | reflexivity | left; reflexivity
      | eexists; reflexivity].
  - cbn [split_nl]. destruct (Ascii.eqb c ch_nl) eqn:N.
    + apply Ascii.eqb_eq in N; subst c.
      exists "", (String ch_nl s); conj_split;
        [reflexivity | reflexivity | right; exists s; reflexivity
        | eexists; reflexivity].
    + exists (String c C), D; rewrite R; conj_split;
        [cbn; congruence
        | unfold one_line in *; cbn [count_nl]; rewrite N; exact O
        | exact L
        | eexists; reflexivity].
Qed.

Lemma count_nl_line s' : count_nl (s' ++ nl) <> 0.
Proof.
  induction s' as [|d s' IH]; cbn; [discriminate|].
  destruct (Ascii.eqb d ch_nl); cbn; [discriminate | exact IH].
Qed.

(** The line of [before ++ rest] that holds the place after [before]. *)
Lemma line_at before rest :
  exists A B C D,
    before = A ++ B /\ rest = C ++ D
    /\ ends_line A /\ one_line B /\ one_line C /\ starts_line D
    /\ (forall cur, tail_length cur before
                    = if String.eqb A "" then cur + String.length B
                      else String.length B)
    /\ exists pre post,
         split_nl (before ++ rest) = (pre ++ (B ++ C)%string :: post)%list
         /\ length pre = count_nl before.
Proof.
  induction before as [|c before IH].
  - destruct (first_line rest) as (C & D & E & O & L & post & R).
    exists "", "", C, D; conj_split;
      [reflexivity | exact E | left; reflexivity | reflexivity | exact O
      | exact L | intros cur; cbn; lia
      | exists [], post; split; [exact R | reflexivity]].
  - destruct IH as (A & B & C & D & E1 & E2 & LA & OB & OC & LD & T
                    & pre & post & R & P).
    cbn [append split_nl]. destruct (Ascii.eqb c ch_nl) eqn:N.
    + apply Ascii.eqb_eq in N; subst c.
      exists (String ch_nl A), B, C, D; conj_split;
        [cbn; congruence | exact E2 | | exact OB | exact OC | exact LD | |].
      * right. destruct LA as [->|[s' ->]];
          [exists ""; reflexivity | exists (String ch_nl s'); reflexivity].
      * intros cur; cbn [tail_length String.eqb]. rewrite Ascii.eqb_refl.
        rewrite T. destruct (String.eqb A ""); cbn; lia.
      * exists ("" :: pre), post; split.
        -- rewrite R; reflexivity.
        -- cbn [length count_nl]; rewrite Ascii.eqb_refl, P; reflexivity.
    + destruct LA as [->|[s' ->]].
      * (* still in the first line *)
        exists "", (String c B), C, D; conj_split;
          [cbn in E1 |- *; congruence | exact E2 | left; reflexivity
          | unfold one_line in *; cbn [count_nl]; rewrite N; exact OB
          | exact OC | exact LD | |].
        -- intros cur; cbn [tail_length String.eqb String.length].
           rewrite N, T; cbn; lia.
        -- assert (Z : count_nl before = 0)
             by (rewrite E1; cbn; exact OB).
           rewrite Z in P; destruct pre; [|discriminate].
           cbn [app] in R. rewrite R.
           exists [], post; split; [reflexivity|].
           cbn [length count_nl]; rewrite N; cbn; lia.
      * exists (String c (s' ++ nl)), B, C, D; conj_split;
          [cbn; congruence | exact E2
          | right; exists (String c s'); reflexivity
          | exact OB | exact OC | exact LD | |].
        -- intros cur; cbn [tail_length String.eqb]. rewrite N, T.
           destruct (String.eqb (s' ++ nl) "") eqn:Z; [|reflexivity].
           apply String.eqb_eq in Z. destruct s'; discriminate.
        -- assert (Z : count_nl before <> 0).
           { rewrite E1, LexerFacts.count_nl_app.
             pose proof (count_nl_line s'). lia. }
           destruct pre as [|x pre]; [cbn in P; lia|].
           cbn [app] in R. rewrite R.
           exists (String c x :: pre), post; split; [reflexivity|].
           cbn [length count_nl]; rewrite N; cbn; cbn in P; lia.
Qed.

End ErrorFacts.

(** X18.  The rendering of a positioned error shows the line of the source
    that holds the position, and the caret under the position.  For a
    locus that is a place of the source (as every locus of the front end
    is, X16), the source is [A ++ B ++ C ++ D] with the position between
    [B] and [C], [B ++ C] one whole line; the third line of the rendering
    is that line and the caret of the fourth is as far to the right as [B]
    is long.  The file name is that of the error: the parameter
    [filename] is not read. *)
Theorem format_error_points_at_locus (source : string) (l : Locus)
  (v message err_filename filename : string) :
  LexerSpec.text_at source l v ->
  exists A B C D,
    source = A ++ B ++ C ++ D
    /\ index l = String.length (A ++ B)
    /\ Errors.ends_line A /\ Errors.one_line B
    /\ Errors.one_line C /\ Errors.starts_line D
    /\ Errors.format_error
         (Errors.CompileError message l err_filename) source filename
       = join nl [
           err_filename ++ ":" ++ Errors.str_of_nat (linea l) ++ ":"
           ++ Errors.str_of_nat (columna l) ++ ": error: " ++ message;
           "";
           "  " ++ B ++ C;
           "  " ++ Errors.spaces (String.length B) ++ "^"
         ].
Proof.
  intros (before & after & -> & I & Li & Co).
  destruct (ErrorFacts.line_at before (v ++ after))
    as (A & B & C & D & E1 & E2 & LA & OB & OC & LD & T
        & pre & post & R & P).
  exists A, B, C, D.
  split; [rewrite E1, E2, !LexerFacts.app_assoc_s; reflexivity|].
  split; [rewrite I, E1; reflexivity|].
  repeat (split; [assumption|]).
  unfold Errors.format_error; cbv zeta.
  rewrite Li, Co, R, <- P, nth_middle.
  cbn [Nat.sub]. rewrite Nat.sub_0_r, (T 0).
  destruct (String.eqb A ""); reflexivity.
Qed.

Lemma format_error_points_at_locus_witness :
  exists A B C D,
    "a" ++ nl ++ "b $" = A ++ B ++ C ++ D
    /\ index (mkLocus 2 3 4) = String.length (A ++ B)
    /\ Errors.ends_line A /\ Errors.one_line B
    /\ Errors.one_line C /\ Errors.starts_line D
    /\ Errors.format_error
         (Errors.CompileError "unexpected character '$'" (mkLocus 2 3 4)
                              "f.fab")
         ("a" ++ nl ++ "b $") STDIN
       = join nl [
           "f.fab" ++ ":" ++ Errors.str_of_nat 2 ++ ":"
           ++ Errors.str_of_nat 3 ++ ": error: "
           ++ "unexpected character '$'";
           "";
           "  " ++ B ++ C;
           "  " ++ Errors.spaces (String.length B) ++ "^"
         ].
Proof.
  apply (format_error_points_at_locus ("a" ++ nl ++ "b $") (mkLocus 2 3 4)
           "$" "unexpected character '$'" "f.fab" STDIN).
  exists ("a" ++ nl ++ "b "), ""; repeat split.
Defined.

(** ** The driver: [emit] *)

Module DriverFacts.



End DriverFacts.


(** X20.  The lowering to Python does not wait for the analysis.
    [emit_py] runs [analyze] and hands the context to the emitter, which
    never reads it: the text is the one the emitter gives with any context.
    So a diagnostic does not stop the lowering and is not shown: a module
    that only names an identifier nobody declares is analyzed with the one
    error [undefined identifier] and lowered all the same. *)
Theorem emit_py_ignores_analysis :
  (forall mod_ ctx, PyEmitter.emit_py mod_ = PyEmitter.emit ctx mod_)
  /\ (forall nomen l l' ml,
        dict_has Scope.primitives nomen = false ->
        let mod_ := mkModulus [StmtExpressia (ExprNomen nomen l) l'] ml in
        exists ctx,
          Semantic.analyze mod_ = Ok ctx
          /\ Scope.errores ctx
             = [Scope.mkSemanticError ("undefined identifier: " ++ nomen) l]
          /\ exists text, PyEmitter.emit_py mod_ = Ok text).
Proof.
  split.
  - intros mod_ ctx. unfold PyEmitter.emit_py.
    destruct (AnalysisFacts.analyze_ok mod_) as (ctx' & -> & _).
    destruct mod_; reflexivity.
  - intros nomen l l' ml P mod_.
    assert (R : Scope.resolve_typus_nomen Scope.SemanticContext_new nomen
                = Ok (SemUsitatum nomen false)).
    { unfold Scope.resolve_typus_nomen. rewrite P. reflexivity. }
    eexists. split; [|split].
    + unfold mod_, Semantic.analyze, Semantic.analyze_module.
      cbn.
      cbv [Semantic._analyze_expression_body Semantic._analyze_nomen bind
           Scope.quaere Scope.set_expr_type Scope.error get gets modify
           lift_res ret].
      cbn. rewrite R. cbn. reflexivity.
    + reflexivity.
    + unfold mod_, PyEmitter.emit_py.
      destruct (AnalysisFacts.analyze_ok
                  (mkModulus [StmtExpressia (ExprNomen nomen l) l'] ml))
        as (ctx' & -> & _).
      cbn. destruct (String.eqb nomen ""); eexists; reflexivity.
Qed.

Lemma emit_py_ignores_analysis_witness :
  exists ctx,
    Semantic.analyze
      (mkModulus [StmtExpressia (ExprNomen "x" Locus_default) Locus_default]
                 Locus_default) = Ok ctx
    /\ Scope.errores ctx
       = [Scope.mkSemanticError ("undefined identifier: " ++ "x")
                                Locus_default]
    /\ exists text,
         PyEmitter.emit_py
           (mkModulus
              [StmtExpressia (ExprNomen "x" Locus_default) Locus_default]
              Locus_default) = Ok text.
Proof.
  apply (proj2 emit_py_ignores_analysis "x" Locus_default Locus_default
               Locus_default).
  reflexivity.
Defined.

(** ** The parser reads all the tokens *)

Module ParserEndFacts.
Import ParserSpec.

(** The loop of [parse] is left at an end marker only. *)
Lemma parse_loop_end tokens (E : ends_with_eof tokens) self n :
  forall corpus pos r p,
    Parser.parse_loop tokens n self corpus pos = Ok (r, p) ->
    checked tokens TokenTag.EOF None p = true.
Proof.
  induction n as [|n IH]; intros corpus pos r p; [discriminate|].
  cbn [Parser.parse_loop]. unfold bind at 1.
  rewrite (ParserFacts.check_eq tokens E).
  destruct (checked tokens TokenTag.EOF None pos) eqn:C.
  - intros H; injection H as _ <-; exact C.
  - unfold bind.
    destruct (Parser.self_parse_stmt self pos) as [[s q]| | |];
      try discriminate.
    apply IH.
Qed.

End ParserEndFacts.

(** X21.  [parse] returns a module only when it has read every token:
    with the end marker as the one token of its tag, as in the lists of the
    lexer, the cursor is on the end marker, or beyond it, when the loop of
    [parse] ends.  Tokens that are left and start no statement raise a
    compile error (X15); they are not dropped. *)
Theorem parse_reads_all_tokens (body : list Token) (l : Locus)
  (filename : string) (m : Modulus) (p : nat) :
  Forall (fun tok => tag tok <> TokenTag.EOF) body ->
  Parser.parse_module (body ++ [mkToken TokenTag.EOF "" l]) filename 0
  = Ok (m, p) ->
  length body <= p.
Proof.
  intros B H.
  assert (E : ParserSpec.ends_with_eof (body ++ [mkToken TokenTag.EOF "" l]))
    by (eexists _, _; reflexivity).
  unfold Parser.parse_module, bind in H.
  destruct (Parser.parse_loop _ _ _ _ 0) as [[corpus q]| | |] eqn:L;
    try discriminate.
  injection H as _ <-.
  apply (ParserEndFacts.parse_loop_end _ E) in L.
  destruct (Nat.le_gt_cases (length body) q) as [G|G]; [exact G|].
  exfalso. unfold ParserSpec.checked, ParserSpec.peeked in L.
  rewrite Nat.add_0_r, nth_error_app1 in L by exact G.
  destruct (nth_error body q) as [tok|] eqn:N;
    [|apply nth_error_None in N; lia].
  apply nth_error_In in N. rewrite Forall_forall in B.
  specialize (B tok N). destruct (tag tok); try discriminate.
  contradiction.
Qed.

Lemma parse_reads_all_tokens_witness :
  exists m p,
    Parser.parse_module
      ([mkToken TokenTag.KEYWORD "rumpe" Locus_default;
        mkToken TokenTag.KEYWORD "perge" Locus_default]
       ++ [mkToken TokenTag.EOF "" Locus_default]) STDIN 0 = Ok (m, p)
    /\ 2 <= p.
Proof.
  eexists _, _. split; [vm_compute; reflexivity|].
  apply (parse_reads_all_tokens
           [mkToken TokenTag.KEYWORD "rumpe" Locus_default;
            mkToken TokenTag.KEYWORD "perge" Locus_default]
           Locus_default STDIN
           (mkModulus [StmtRumpe Locus_default; StmtPerge Locus_default]
                      (mkLocus 1 1 0)) 2).
  - repeat constructor; discriminate.
  - vm_compute; reflexivity.
Defined.

(** ** The parser builds an import only at a section sign *)

Module ParserTreeFacts.
Import TreeSpec.

Section WithTokens.
Variable tokens : list Token.
Variable filename : string.
Hypothesis NoSectio : existsb is_sectio tokens = false.

Local Notation QE := (fun e : Expr => sine_importa_expr e = true).
Local Notation QS := (fun s : Stmt => sine_importa_stmt s = true).
Local Notation QL c := (fun l => forallb c l = true).
Local Notation QO c := (fun o => copt c o = true).
Local Notation QX c := (fun x => c x = true).

(** *** Rules *)

Lemma yields_ret {A} (Q : A -> Prop) x : Q x -> yields Q (ret x).
Proof. intros H pos y p E; injection E as <- _; exact H. Qed.

Lemma yields_bind {A B} (Q1 : A -> Prop) (Q : B -> Prop)
  (m : Parser.P A) (f : A -> Parser.P B) :
  yields Q1 m -> (forall x, Q1 x -> yields Q (f x)) -> yields Q (bind m f).
Proof.
  intros H1 H2 pos y p E. unfold bind in E.
  destruct (m pos) as [[x q]| | |] eqn:M; try discriminate.
  eapply H2; eauto.
Qed.

Lemma yields_bind_any {A B} (Q : B -> Prop)
  (m : Parser.P A) (f : A -> Parser.P B) :
  (forall x, yields Q (f x)) -> yields Q (bind m f).
Proof.
  intros H. apply (yields_bind (fun _ => True)); [intros ? ? ? ?|]; auto.
Qed.

Lemma yields_assoc {A B C} (Q : C -> Prop) (m : Parser.P A)
  (g : A -> Parser.P B) (f : B -> Parser.P C) :
  yields Q (bind m (fun x => bind (g x) f)) -> yields Q (bind (bind m g) f).
Proof.
  intros H pos y p E. apply (H pos y p). unfold bind in *.
  destruct (m pos) as [[x q]| | |]; auto.
Qed.

Lemma yields_ret_bind {A B} (Q : B -> Prop) (x : A) (f : A -> Parser.P B) :
  yields Q (f x) -> yields Q (bind (ret x) f).
Proof. intros H pos y p E; exact (H pos y p E). Qed.

Lemma yields_out_of_fuel {A} (Q : A -> Prop) : yields Q out_of_fuel.
Proof. intros pos y p E; discriminate. Qed.

Lemma yields_error {A} (Q : A -> Prop) msg :
  yields Q (Parser.error tokens filename msg).
Proof.
  intros pos y p E. unfold Parser.error, bind in E.
  destruct (Parser.peek tokens 0 pos) as [[x q]| | |]; discriminate.
Qed.

(** No token is the section sign, so none is matched as one. *)
Lemma peek_in k pos tok q :
  Parser.peek tokens k pos = Ok (tok, q) -> In tok tokens.
Proof.
  unfold Parser.peek.
  destruct (nth_error tokens (pos + k)) eqn:N.
  - intros E; injection E as <- _. eapply nth_error_In; eauto.
  - destruct tokens as [|t ts]; [discriminate|].
    intros E; injection E as <- _.
    clear. revert t; induction ts as [|a ts IH]; intros t;
      [left; reflexivity|].
    destruct ts as [|b ts']; [right; left; reflexivity|].
    change (last (a :: b :: ts') t) with (last (b :: ts') t).
    destruct (IH t) as [E|I]; [left; exact E | right; right; exact I].
Qed.

Lemma matches_sectio pos b q :
  Parser.matches tokens TokenTag.PUNCTUATOR Lexer.SECTION_SIGN pos
  = Ok (b, q) -> b = false.
Proof.
  unfold Parser.matches, Parser.match_, Parser.check, bind.
  destruct (Parser.peek tokens 0 pos) as [[tok q']| | |] eqn:P;
    try discriminate.
  apply peek_in in P.
  assert (S : is_sectio tok = false).
  { destruct (is_sectio tok) eqn:E; [|reflexivity].
    rewrite <- NoSectio. symmetry. apply existsb_exists; eauto. }
  unfold is_sectio in S. cbn [Parser.valor_matches].
  destruct (TokenTag.eqb (tag tok) TokenTag.PUNCTUATOR); cbn [negb andb] in *.
  - rewrite S; cbn [negb]. unfold ret.
    intros E; injection E as <- _; reflexivity.
  - unfold ret. intros E; injection E as <- _; reflexivity.
Qed.

Lemma yields_no_sectio {A} (Q : A -> Prop) (f : bool -> Parser.P A) :
  yields Q (f false) ->
  yields Q (bind (Parser.matches tokens TokenTag.PUNCTUATOR
                                 Lexer.SECTION_SIGN) f).
Proof.
  intros H. apply (yields_bind (fun b => b = false)).
  - intros pos b q; apply matches_sectio.
  - intros b ->; exact H.
Qed.

Create HintDb trees.

(** What is left to show of a tree that a method returns *)
Ltac clean_solve :=
  cbv beta in *;
  unfold clean_param, clean_prop, clean_campus, clean_methodus,
    clean_elige_casus, clean_discerne_casus, clean_custodi_clausula;
  cbn [sine_importa_expr sine_importa_stmt forallb fst snd copt];
  rewrite ?forallb_app; cbn [forallb];
  repeat match goal with
         | |- _ /\ _ => split
         | |- (_ && _)%bool = true => apply andb_true_intro; split
         | |- true = true => reflexivity
         | |- _ => assumption
         | H : _ /\ _ |- _ => destruct H
         end.

Ltac ystep :=
  cbv beta zeta in *;
  lazymatch goal with
  | |- yields _ (ret _) => apply yields_ret; solve [clean_solve]
  | |- yields _ (Parser.error _ _ _) => apply yields_error
  | |- yields _ out_of_fuel => apply yields_out_of_fuel
  | |- yields _ (bind ?m _) =>
      lazymatch m with
      | bind _ _ => apply yields_assoc
      | ret _ => apply yields_ret_bind
      | Parser.matches _ TokenTag.PUNCTUATOR Lexer.SECTION_SIGN =>
          apply yields_no_sectio
      | match ?b with _ => _ end => destruct b
      | _ =>
          first [ eapply yields_bind;
                  [solve [eauto with trees] | intros ? ?]
                | apply yields_bind_any; intros ? ]
      end
  | |- yields _ (match ?x with _ => _ end) => destruct x
  | |- yields _ _ => solve [eauto with trees]
  end.

Ltac yrun := repeat ystep.

(** *** The loops over a list of items *)

Lemma sep_list_yields {A} (c : A -> bool) (item : Parser.P A) tag sep n :
  yields (QX c) item ->
  forall acc, forallb c acc = true ->
              yields (QL c) (Parser.sep_list tokens n tag sep item acc).
Proof.
  intros I; induction n as [|n IH]; intros acc F; cbn [Parser.sep_list];
    yrun.
  apply IH. rewrite forallb_app; cbn [forallb].
  rewrite F; cbv beta in *.
  match goal with H : c _ = true |- _ => rewrite H end; reflexivity.
Qed.

Lemma comma_list_yields {A} (c : A -> bool) (item : Parser.P A) :
  yields (QX c) item -> yields (QL c) (Parser.comma_list tokens item).
Proof. intros I. apply sep_list_yields; auto. Qed.

Lemma until_close_yields {A} (c : A -> bool) (item : Parser.P A) n :
  yields (QX c) item ->
  forall acc, forallb c acc = true ->
              yields (QL c) (Parser.until_close tokens n item acc).
Proof.
  intros I; induction n as [|n IH]; intros acc F; cbn [Parser.until_close];
    yrun.
  apply IH. rewrite forallb_app; cbn [forallb].
  rewrite F; cbv beta in *.
  match goal with H : c _ = true |- _ => rewrite H end; reflexivity.
Qed.

#[local] Hint Extern 1 (_ = true) => solve [clean_solve] : trees.
#[local] Hint Resolve comma_list_yields : trees.
#[local] Hint Extern 2 (yields _ (Parser.sep_list _ _ _ _ _ _)) =>
  (apply sep_list_yields; [|solve [clean_solve]]) : trees.
#[local] Hint Extern 2 (yields _ (Parser.until_close _ _ _ _)) =>
  (apply until_close_yields; [|solve [clean_solve]]) : trees.

Section Methods.
Variable self : Parser.Self.
Hypothesis Clean : SelfClean self.

Lemma self_stmt_yields : yields QS (Parser.self_parse_stmt self).
Proof. apply Clean. Qed.
Lemma self_expr_yields min_prec :
  yields QE (Parser.self_parse_expr self min_prec).
Proof. apply Clean. Qed.
Lemma self_unary_yields : yields QE (Parser.self_parse_unary self).
Proof. apply Clean. Qed.
Lemma self_primary_yields : yields QE (Parser.self_parse_primary self).
Proof. apply Clean. Qed.
Lemma self_si_body_yields locus :
  yields QS (Parser.self_parse_si_body self locus).
Proof. apply Clean. Qed.
#[local] Hint Resolve self_stmt_yields self_expr_yields self_unary_yields
  self_primary_yields self_si_body_yields : trees.

Lemma _parse_args_yields :
  yields (QL sine_importa_expr) (Parser._parse_args tokens self).
Proof. unfold Parser._parse_args. yrun. Qed.
#[local] Hint Resolve _parse_args_yields : trees.

Lemma parse_massa_yields :
  yields QS (Parser.parse_massa tokens filename self).
Proof. unfold Parser.parse_massa. yrun. Qed.
#[local] Hint Resolve parse_massa_yields : trees.

Lemma _parse_novum_yields :
  yields QE (Parser._parse_novum tokens filename self).
Proof. unfold Parser._parse_novum. yrun. Qed.
#[local] Hint Resolve _parse_novum_yields : trees.

Lemma _parse_finge_campus_yields :
  yields (QX clean_prop) (Parser._parse_finge_campus tokens filename self).
Proof. unfold Parser._parse_finge_campus. yrun. Qed.
#[local] Hint Resolve _parse_finge_campus_yields : trees.

Lemma _parse_finge_yields :
  yields QE (Parser._parse_finge tokens filename self).
Proof. unfold Parser._parse_finge. yrun. Qed.
#[local] Hint Resolve _parse_finge_yields : trees.

Lemma _parse_clausura_param_yields :
  yields (QX clean_param) (Parser._parse_clausura_param tokens filename self).
Proof. unfold Parser._parse_clausura_param. yrun. Qed.
#[local] Hint Resolve _parse_clausura_param_yields : trees.

Lemma _parse_clausura_yields :
  yields QE (Parser._parse_clausura tokens filename self).
Proof. unfold Parser._parse_clausura. yrun. Qed.
#[local] Hint Resolve _parse_clausura_yields : trees.

Lemma more_exprs_yields n args :
  forallb sine_importa_expr args = true ->
  yields (QL sine_importa_expr) (Parser.more_exprs tokens self n args).
Proof.
  revert args; induction n as [|n IH]; intros;
    cbn [Parser.more_exprs]; yrun.
Qed.
#[local] Hint Extern 2 (yields _ (Parser.more_exprs _ _ _ _)) =>
  (apply more_exprs_yields; solve [clean_solve]) : trees.

Lemma _parse_scriptum_yields :
  yields QE (Parser._parse_scriptum tokens filename self).
Proof. unfold Parser._parse_scriptum. yrun. Qed.
#[local] Hint Resolve _parse_scriptum_yields : trees.

Lemma _parse_obiectum_prop_yields :
  yields (QX clean_prop) (Parser._parse_obiectum_prop tokens filename self).
Proof. unfold Parser._parse_obiectum_prop. yrun. Qed.
#[local] Hint Resolve _parse_obiectum_prop_yields : trees.

Lemma _parse_primary_yields :
  yields QE (Parser._parse_primary tokens filename self).
Proof. unfold Parser._parse_primary. yrun. Qed.
#[local] Hint Resolve _parse_primary_yields : trees.

Lemma _parse_member_name_yields :
  yields QE (Parser._parse_member_name tokens filename).
Proof. unfold Parser._parse_member_name. yrun. Qed.
#[local] Hint Resolve _parse_member_name_yields : trees.

Lemma _parse_postfix_loop_yields n expr :
  sine_importa_expr expr = true ->
  yields QE (Parser._parse_postfix_loop tokens filename self n expr).
Proof.
  revert expr; induction n as [|n IH]; intros;
    cbn [Parser._parse_postfix_loop]; yrun.
Qed.
#[local] Hint Extern 2 (yields _ (Parser._parse_postfix_loop _ _ _ _ _)) =>
  (apply _parse_postfix_loop_yields; solve [clean_solve]) : trees.

Lemma _parse_postfix_yields :
  yields QE (Parser._parse_postfix tokens filename self).
Proof. unfold Parser._parse_postfix. yrun. Qed.
#[local] Hint Resolve _parse_postfix_yields : trees.

Lemma _parse_unary_yields :
  yields QE (Parser._parse_unary tokens filename self).
Proof. unfold Parser._parse_unary. yrun. Qed.
#[local] Hint Resolve _parse_unary_yields : trees.

Lemma parse_expr_loop_yields n min_prec left :
  sine_importa_expr left = true ->
  yields QE (Parser.parse_expr_loop tokens filename self n min_prec left).
Proof.
  revert left; induction n as [|n IH]; intros;
    cbn [Parser.parse_expr_loop]; yrun.
Qed.
#[local] Hint Extern 2 (yields _ (Parser.parse_expr_loop _ _ _ _ _ _)) =>
  (apply parse_expr_loop_yields; solve [clean_solve]) : trees.

Lemma parse_expr_yields min_prec :
  yields QE (Parser.parse_expr tokens filename self min_prec).
Proof. unfold Parser.parse_expr. yrun. Qed.
#[local] Hint Resolve parse_expr_yields : trees.

Lemma parse_initializer_yields :
  yields (QO sine_importa_expr)
    (Parser.parse_initializer tokens filename self).
Proof. unfold Parser.parse_initializer. yrun. Qed.
#[local] Hint Resolve parse_initializer_yields : trees.

Lemma parse_varia_yields publica externa :
  yields QS (Parser.parse_varia tokens filename self publica externa).
Proof. unfold Parser.parse_varia. yrun. Qed.
#[local] Hint Resolve parse_varia_yields : trees.

Lemma parse_ex_stmt_yields publica :
  yields QS (Parser.parse_ex_stmt tokens filename self publica).
Proof. unfold Parser.parse_ex_stmt. yrun. Qed.
#[local] Hint Resolve parse_ex_stmt_yields : trees.

Lemma parse_param_yields :
  yields (QX clean_param) (Parser.parse_param tokens filename self).
Proof. unfold Parser.parse_param. yrun. Qed.
#[local] Hint Resolve parse_param_yields : trees.

Lemma parse_params_yields :
  yields (QL clean_param) (Parser.parse_params tokens filename self).
Proof. unfold Parser.parse_params. yrun. Qed.
#[local] Hint Resolve parse_params_yields : trees.

Lemma parse_functio_yields publica futura externa :
  yields QS
    (Parser.parse_functio tokens filename self publica futura externa).
Proof. unfold Parser.parse_functio. yrun. Qed.
#[local] Hint Resolve parse_functio_yields : trees.

Lemma parse_campus_yields visibilitas :
  yields (QX clean_campus)
    (Parser.parse_campus tokens filename self visibilitas).
Proof. unfold Parser.parse_campus. yrun. Qed.
#[local] Hint Resolve parse_campus_yields : trees.

Lemma parse_genus_body_yields n campi methodi :
  forallb clean_campus campi = true ->
  forallb sine_importa_stmt methodi = true ->
  yields (fun r => forallb clean_campus (fst r) = true
                     /\ forallb sine_importa_stmt (snd r) = true)
    (Parser.parse_genus_body tokens filename self n campi methodi).
Proof.
  revert campi methodi; induction n as [|n IH]; intros;
    cbn [Parser.parse_genus_body]; yrun.
Qed.
#[local] Hint Extern 2 (yields _ (Parser.parse_genus_body _ _ _ _ _ _)) =>
  (apply parse_genus_body_yields; solve [clean_solve]) : trees.

Lemma parse_genus_yields publica abstractus :
  yields QS (Parser.parse_genus tokens filename self publica abstractus).
Proof. unfold Parser.parse_genus. yrun. Qed.
#[local] Hint Resolve parse_genus_yields : trees.

Lemma parse_pactum_methodus_yields :
  yields (QX clean_methodus)
    (Parser.parse_pactum_methodus tokens filename self).
Proof. unfold Parser.parse_pactum_methodus. yrun. Qed.
#[local] Hint Resolve parse_pactum_methodus_yields : trees.

Lemma parse_pactum_yields publica :
  yields QS (Parser.parse_pactum tokens filename self publica).
Proof. unfold Parser.parse_pactum. yrun. Qed.
#[local] Hint Resolve parse_pactum_yields : trees.

Lemma parse_ordo_yields publica :
  yields QS (Parser.parse_ordo tokens filename publica).
Proof. unfold Parser.parse_ordo. yrun. Qed.
#[local] Hint Resolve parse_ordo_yields : trees.

Lemma parse_discretio_yields publica :
  yields QS (Parser.parse_discretio tokens filename self publica).
Proof. unfold Parser.parse_discretio. yrun. Qed.
#[local] Hint Resolve parse_discretio_yields : trees.

Lemma parse_typus_alias_yields publica :
  yields QS (Parser.parse_typus_alias tokens filename self publica).
Proof. unfold Parser.parse_typus_alias. yrun. Qed.
#[local] Hint Resolve parse_typus_alias_yields : trees.

Lemma parse_in_stmt_yields :
  yields QS (Parser.parse_in_stmt tokens filename self).
Proof. unfold Parser.parse_in_stmt. yrun. Qed.
#[local] Hint Resolve parse_in_stmt_yields : trees.

Lemma parse_de_stmt_yields :
  yields QS (Parser.parse_de_stmt tokens filename self).
Proof. unfold Parser.parse_de_stmt. yrun. Qed.
#[local] Hint Resolve parse_de_stmt_yields : trees.

Lemma parse_body_yields :
  yields QS (Parser.parse_body tokens filename self).
Proof. unfold Parser.parse_body. yrun. Qed.
#[local] Hint Resolve parse_body_yields : trees.

Lemma parse_si_yields :
  yields QS (Parser.parse_si tokens filename self).
Proof. unfold Parser.parse_si. yrun. Qed.
#[local] Hint Resolve parse_si_yields : trees.

Lemma _parse_si_body_yields locus :
  yields QS (Parser._parse_si_body tokens filename self locus).
Proof. unfold Parser._parse_si_body. yrun. Qed.
#[local] Hint Resolve _parse_si_body_yields : trees.

Lemma parse_dum_yields :
  yields QS (Parser.parse_dum tokens filename self).
Proof. unfold Parser.parse_dum. yrun. Qed.
#[local] Hint Resolve parse_dum_yields : trees.

Lemma parse_fac_yields :
  yields QS (Parser.parse_fac tokens filename self).
Proof. unfold Parser.parse_fac. yrun. Qed.
#[local] Hint Resolve parse_fac_yields : trees.

Lemma parse_elige_corpus_yields msg :
  yields QS (Parser.parse_elige_corpus tokens filename self msg).
Proof. unfold Parser.parse_elige_corpus. yrun. Qed.
#[local] Hint Resolve parse_elige_corpus_yields : trees.

Lemma parse_elige_body_yields n casus default :
  forallb clean_elige_casus casus = true ->
  copt sine_importa_stmt default = true ->
  yields (fun r => forallb clean_elige_casus (fst r) = true
                     /\ copt sine_importa_stmt (snd r) = true)
    (Parser.parse_elige_body tokens filename self n casus default).
Proof.
  revert casus default; induction n as [|n IH]; intros;
    cbn [Parser.parse_elige_body]; yrun.
Qed.
#[local] Hint Extern 2 (yields _ (Parser.parse_elige_body _ _ _ _ _ _)) =>
  (apply parse_elige_body_yields; solve [clean_solve]) : trees.

Lemma parse_elige_yields :
  yields QS (Parser.parse_elige tokens filename self).
Proof. unfold Parser.parse_elige. yrun. Qed.
#[local] Hint Resolve parse_elige_yields : trees.

Lemma parse_discerne_casus_yields :
  yields (QX clean_discerne_casus)
    (Parser.parse_discerne_casus tokens filename self).
Proof. unfold Parser.parse_discerne_casus. yrun. Qed.
#[local] Hint Resolve parse_discerne_casus_yields : trees.

Lemma parse_discerne_yields :
  yields QS (Parser.parse_discerne tokens filename self).
Proof. unfold Parser.parse_discerne. yrun. Qed.
#[local] Hint Resolve parse_discerne_yields : trees.

Lemma parse_custodi_clausula_yields :
  yields (QX clean_custodi_clausula)
    (Parser.parse_custodi_clausula tokens filename self).
Proof. unfold Parser.parse_custodi_clausula. yrun. Qed.
#[local] Hint Resolve parse_custodi_clausula_yields : trees.

Lemma parse_custodi_yields :
  yields QS (Parser.parse_custodi tokens filename self).
Proof. unfold Parser.parse_custodi. yrun. Qed.
#[local] Hint Resolve parse_custodi_yields : trees.

Lemma parse_tempta_yields :
  yields QS (Parser.parse_tempta tokens filename self).
Proof. unfold Parser.parse_tempta. yrun. Qed.
#[local] Hint Resolve parse_tempta_yields : trees.

Lemma parse_redde_yields :
  yields QS (Parser.parse_redde tokens filename self).
Proof. unfold Parser.parse_redde. yrun. Qed.
#[local] Hint Resolve parse_redde_yields : trees.

Lemma parse_iace_yields :
  yields QS (Parser.parse_iace tokens filename self).
Proof. unfold Parser.parse_iace. yrun. Qed.
#[local] Hint Resolve parse_iace_yields : trees.

Lemma parse_scribe_yields :
  yields QS (Parser.parse_scribe tokens filename self).
Proof. unfold Parser.parse_scribe. yrun. Qed.
#[local] Hint Resolve parse_scribe_yields : trees.

Lemma parse_adfirma_yields :
  yields QS (Parser.parse_adfirma tokens filename self).
Proof. unfold Parser.parse_adfirma. yrun. Qed.
#[local] Hint Resolve parse_adfirma_yields : trees.

Lemma parse_rumpe_yields :
  yields QS (Parser.parse_rumpe tokens filename).
Proof. unfold Parser.parse_rumpe. yrun. Qed.
#[local] Hint Resolve parse_rumpe_yields : trees.

Lemma parse_perge_yields :
  yields QS (Parser.parse_perge tokens filename).
Proof. unfold Parser.parse_perge. yrun. Qed.
#[local] Hint Resolve parse_perge_yields : trees.

Lemma parse_incipit_yields :
  yields QS (Parser.parse_incipit tokens filename self).
Proof. unfold Parser.parse_incipit. yrun. Qed.
#[local] Hint Resolve parse_incipit_yields : trees.

Lemma parse_probandum_yields :
  yields QS (Parser.parse_probandum tokens filename self).
Proof. unfold Parser.parse_probandum. yrun. Qed.
#[local] Hint Resolve parse_probandum_yields : trees.

Lemma parse_proba_yields :
  yields QS (Parser.parse_proba tokens filename self).
Proof. unfold Parser.parse_proba. yrun. Qed.
#[local] Hint Resolve parse_proba_yields : trees.

Lemma parse_expressia_stmt_yields :
  yields QS (Parser.parse_expressia_stmt tokens filename self).
Proof. unfold Parser.parse_expressia_stmt. yrun. Qed.
#[local] Hint Resolve parse_expressia_stmt_yields : trees.

Lemma parse_stmt_yields :
  yields QS (Parser.parse_stmt tokens filename self).
Proof. unfold Parser.parse_stmt. yrun. Qed.
#[local] Hint Resolve parse_stmt_yields : trees.

End Methods.

(** *** The recursion *)

Lemma knot_clean fuel : SelfClean (Parser.knot tokens filename fuel).
Proof.
  induction fuel as [|fuel IH].
  - cbn; unfold SelfClean; cbn; repeat split; intros;
      apply yields_out_of_fuel.
  - cbn [Parser.knot]; unfold SelfClean;
      cbn [Parser.self_parse_stmt Parser.self_parse_expr
           Parser.self_parse_unary Parser.self_parse_primary
           Parser.self_parse_si_body].
    repeat split; intros.
    + apply parse_stmt_yields; exact IH.
    + apply parse_expr_yields; exact IH.
    + apply _parse_unary_yields; exact IH.
    + apply _parse_primary_yields; exact IH.
    + apply _parse_si_body_yields; exact IH.
Qed.

Lemma parse_loop_yields self n :
  SelfClean self ->
  forall corpus, forallb sine_importa_stmt corpus = true ->
                 yields (QL sine_importa_stmt)
                        (Parser.parse_loop tokens n self corpus).
Proof.
  intros C; induction n as [|n IH]; intros corpus F;
    cbn [Parser.parse_loop].
  - apply yields_out_of_fuel.
  - apply yields_bind_any; intros eof. destruct eof.
    + apply yields_ret; exact F.
    + apply (yields_bind QS); [apply C | intros s Hs].
      apply IH. rewrite forallb_app; cbn [forallb].
      rewrite F, Hs; reflexivity.
Qed.

Lemma parse_module_yields :
  yields (fun m => match m with
                   | mkModulus corpus _ =>
                       forallb sine_importa_stmt corpus = true
                   end)
         (Parser.parse_module tokens filename).
Proof.
  unfold Parser.parse_module.
  apply (yields_bind (QL sine_importa_stmt)).
  - apply parse_loop_yields; [apply knot_clean | reflexivity].
  - intros corpus F. apply yields_ret. exact F.
Qed.

End WithTokens.
End ParserTreeFacts.

(** X22.  The parser makes an import statement only at a section sign: of
    a token list that has no section-sign token, the module that [parse]
    returns has no import statement, at any depth. *)
Theorem no_section_sign_no_import (tokens : list Token) (filename : string)
  (corpus : list Stmt) (locus : Locus) :
  existsb TreeSpec.is_sectio tokens = false ->
  Parser.parse tokens filename = Ok (mkModulus corpus locus) ->
  forallb sine_importa_stmt corpus = true.
Proof.
  intros N H. unfold Parser.parse in H.
  destruct (Parser.parse_module tokens filename 0) as [[m p]| | |] eqn:M;
    try discriminate.
  injection H as ->.
  exact (ParserTreeFacts.parse_module_yields tokens filename N _ _ _ M).
Qed.

Lemma no_section_sign_no_import_witness :
  forallb sine_importa_stmt [StmtRumpe (mkLocus 1 1 0)] = true.
Proof.
  apply (no_section_sign_no_import
           [mkToken TokenTag.KEYWORD "rumpe" (mkLocus 1 1 0);
            mkToken TokenTag.EOF "" (mkLocus 1 6 5)]
           STDIN [StmtRumpe (mkLocus 1 1 0)] (mkLocus 1 1 0));
    vm_compute; reflexivity.
Defined.

(** ** Sources without a section sign *)

Module SourceFacts.
Import LexerSpec TreeSpec.









End SourceFacts.


